(** * frozen: a zero-allocation JSON tokenizer (src/frozen.c)

    A shallow embedding of the tokenizer of [src/frozen.c] and the
    properties of it that the specification states.

    Conventions of the embedding.
    - Pointers into the input are byte offsets from the argument [s] of
      [parse_json]; the memory that [s] points to is a list of characters,
      [None] standing for the null pointer.  The list may be longer than
      [s_len]: what follows the first [s_len] bytes (for a C string, its
      terminating NUL) is then part of the memory.  A read beyond the list
      yields 0.
    - The caller's token array is a list of [json_token]; a store through
      [f->tokens[i]] alters the entry [i] of the list.  A store beyond the
      list changes nothing, so results about recorded tokens assume that
      the array really has [arr_len] entries.
    - C [int]s are integers of [Z].  Differences of pointers converted to
      [int] go through [to_int], the 32-bit two's complement wrap-around.
      A plain [char] is only ever compared with ASCII constants, so the
      embedding reads every byte as its unsigned value.
    - The mutually recursive rules take a fuel argument; [None] means the
      fuel ran out.  [fuel_enough] shows that the fuel given by [parse_json]
      always suffices.  The C rules call each other once per level of
      nesting; the size of the call stack is not part of the embedding.
    - The tokens that the specification gives an input are defined a
      second time, from the grammar of the specification and without the
      recorder ([tokens_of_input]); the embedding of the code is compared
      with them. *)

From Stdlib Require Import ZArith Lia Ascii String Bool.
From stdpp Require Import base numbers list.

Open Scope Z_scope.

(** ** Characters and machine integers *)

Definition ch (c : ascii) : Z := Z.of_N (N_of_ascii c).

(** The double quote, written by its code. *)
Definition QUOTE : Z := 34.

Definition to_int (x : Z) : Z := (x + 2 ^ 31) mod 2 ^ 32 - 2 ^ 31.

Definition INT_MAX : Z := 2 ^ 31 - 1.

(** ** Declarations of frozen.h *)

(** Modelled from the spec: frozen.h is not among the sources.  The error
    kinds Invalid, Incomplete and TooManyTokens are "negative sentinel
    values in the source"; they are three distinct negative integers. *)
Definition JSON_STRING_INVALID : Z := -1.
Definition JSON_STRING_INCOMPLETE : Z := -2.
Definition JSON_TOKEN_ARRAY_TOO_SMALL : Z := -3.

(** Modelled from the spec: the type tags of frozen.h, "one of OBJECT,
    ARRAY, STRING, NUMBER, TRUE, FALSE, NULL, END_OF_INPUT". *)
Inductive json_type : Set :=
| JSON_TYPE_EOF
| JSON_TYPE_STRING
| JSON_TYPE_NUMBER
| JSON_TYPE_OBJECT
| JSON_TYPE_TRUE
| JSON_TYPE_FALSE
| JSON_TYPE_NULL
| JSON_TYPE_ARRAY.

(** Modelled from the spec: struct json_token of frozen.h, with the fields
    that [capture_ptr] and [capture_len] store to. *)
Record json_token : Set := Token {
  ptr : Z;
  len : Z;
  num_children : Z;
  type : json_type
}.

#[global] Instance json_type_eq_dec : EqDecision json_type.
Proof. solve_decision. Defined.

#[global] Instance json_token_eq_dec : EqDecision json_token.
Proof. solve_decision. Defined.

(** ** The parser state *)

(** struct frozen.  [fend] and [fcur] are the fields [end] and [cur];
    [mem] is the memory the two pointers point into. *)
Record frozen : Type := Frozen {
  fend : Z;
  fcur : Z;
  tokens : option (list json_token);
  max_tokens : Z;
  num_tokens : Z;
  mem : list ascii
}.

Definition set_cur (f : frozen) (p : Z) : frozen :=
  {| fend := fend f; fcur := p; tokens := tokens f;
     max_tokens := max_tokens f; num_tokens := num_tokens f; mem := mem f |}.

Definition set_tokens (f : frozen) (a : list json_token) (n : Z) : frozen :=
  {| fend := fend f; fcur := fcur f; tokens := Some a;
     max_tokens := max_tokens f; num_tokens := n; mem := mem f |}.

(** The byte at offset [p], as an unsigned value. *)
Definition byte_at (m : list ascii) (p : Z) : Z :=
  match m !! Z.to_nat p with
  | Some c => ch c
  | None => 0
  end.

(** The result of a rule of return type [int]: the value returned and the
    state it leaves. *)
Definition result : Type := Z * frozen.

(** [TRY(expr)]: a negative value of [expr] is returned at once;
    otherwise the rule goes on with [k]. *)
Definition try_then (r : option result) (k : frozen -> option result)
  : option result :=
  match r with
  | None => None
  | Some (n, f) => if n <? 0 then Some (n, f) else k f
  end.

Notation "'TRY' r 'THEN' f '=>' k" := (try_then r (fun f => k))
  (at level 10, r at level 200, f name, k at level 200).

Definition END_OF_STRING : Z := -1.

(** ** Scanner *)

Definition left (f : frozen) : Z := to_int (fend f - fcur f).

Definition is_space (c : Z) : bool :=
  (c =? ch " ") || (c =? ch "009") || (c =? ch "013") || (c =? ch "010").

(** [while (f->cur < f->end && p(f->cur[0])) f->cur++], the loop of
    [skip_whitespaces], [parse_identifier] and [parse_number]: [n] is the
    number of bytes from the cursor to the end. *)
Fixpoint scan_while (p : Z -> bool) (m : list ascii) (n : nat) (c : Z) : Z :=
  match n with
  | O => c
  | S n' => if p (byte_at m c) then scan_while p m n' (c + 1) else c
  end.

Definition scan (p : Z -> bool) (f : frozen) : frozen :=
  set_cur f (scan_while p (mem f) (Z.to_nat (fend f - fcur f)) (fcur f)).

Definition skip_whitespaces (f : frozen) : frozen := scan is_space f.

Definition cur (f : frozen) : Z * frozen :=
  let f := skip_whitespaces f in
  (if fcur f >=? fend f then END_OF_STRING else byte_at (mem f) (fcur f), f).

Definition test_and_skip (f : frozen) (expected : Z) : result :=
  let (c, f) := cur f in
  if c =? expected then (0, set_cur f (fcur f + 1))
  else (if c =? END_OF_STRING then JSON_STRING_INCOMPLETE
        else JSON_STRING_INVALID, f).

Definition is_alpha (c : Z) : bool :=
  ((c >=? ch "a") && (c <=? ch "z")) || ((c >=? ch "A") && (c <=? ch "Z")).

Definition is_digit (c : Z) : bool := (c >=? ch "0") && (c <=? ch "9").

Definition is_hex_digit (c : Z) : bool :=
  is_digit c || ((c >=? ch "a") && (c <=? ch "f"))
  || ((c >=? ch "A") && (c <=? ch "F")).

(** [s] is the offset of the byte after the backslash. *)
Definition get_escape_len (m : list ascii) (s : Z) (len : Z) : Z :=
  let c := byte_at m s in
  if c =? ch "u" then
    if len <? 4 then JSON_STRING_INCOMPLETE
    else if is_hex_digit (byte_at m s) && is_hex_digit (byte_at m (s + 1))
            && is_hex_digit (byte_at m (s + 2))
            && is_hex_digit (byte_at m (s + 3))
         then 4 else JSON_STRING_INVALID
  else if (c =? QUOTE) || (c =? ch "\") || (c =? ch "/") || (c =? ch "b")
          || (c =? ch "f") || (c =? ch "n") || (c =? ch "r") || (c =? ch "t")
  then if len <? 2 then JSON_STRING_INCOMPLETE else 1
  else JSON_STRING_INVALID.

(** ** Token recorder *)

Definition capture_ptr (f : frozen) (p : Z) (ty : json_type) : result :=
  match tokens f with
  | None => (0, f)
  | Some a =>
    if max_tokens f =? 0 then (0, f)
    else if num_tokens f >=? max_tokens f then (JSON_TOKEN_ARRAY_TOO_SMALL, f)
    else
      (0, set_tokens f
            (alter (fun t => {| ptr := p; len := len t;
                                num_children := num_children t; type := ty |})
                   (Z.to_nat (num_tokens f)) a)
            (num_tokens f + 1))
  end.

Definition capture_len (f : frozen) (token_index : Z) (p : Z) : result :=
  match tokens f with
  | None => (0, f)
  | Some a =>
    if max_tokens f =? 0 then (0, f)
    else if (token_index >=? 0) && (token_index <? max_tokens f) then
      (0, set_tokens f
            (alter (fun t => {| ptr := ptr t; len := to_int (p - ptr t);
                                num_children :=
                                  (num_tokens f - 1) - token_index;
                                type := type t |})
                   (Z.to_nat token_index) a)
            (num_tokens f))
    else (JSON_STRING_INVALID, f)
  end.

(** ** Leaf rules *)

(** identifier = letter { letter | digit | '_' } *)
Definition parse_identifier (f : frozen) : result :=
  let (c, f) := cur f in
  if negb (is_alpha c) then (JSON_STRING_INVALID, f)
  else
    let (n, f) := capture_ptr f (fcur f) JSON_TYPE_STRING in
    if n <? 0 then (n, f)
    else
      let f := scan (fun c => (c =? ch "_") || is_alpha c || is_digit c) f in
      let (_, f) := capture_len f (num_tokens f - 1) (fcur f) in
      (0, f).

(** The [for] loop of [parse_string] and the [return] that follows it.
    [c] is the variable [ch]; [n] bounds the number of iterations by the
    number of bytes from the cursor to the end, each iteration moving the
    cursor forward. *)
Fixpoint parse_string_loop (n : nat) (c : Z) (f : frozen) : result :=
  let finish c f :=
    (if c =? QUOTE then 0 else JSON_STRING_INCOMPLETE, f) in
  if fcur f <? fend f then
    match n with
    | O => finish c f
    | S n' =>
      let c := byte_at (mem f) (fcur f) in
      if negb ((c >=? 32) && (c <=? 127)) then (JSON_STRING_INVALID, f)
      else if c =? ch "\" then
        let n := get_escape_len (mem f) (fcur f + 1) (left f) in
        if negb (n >? 0) then (n, f)
        else parse_string_loop n' c (set_cur f (fcur f + n + 1))
      else if c =? QUOTE then
        let (_, f) := capture_len f (num_tokens f - 1) (fcur f) in
        finish c (set_cur f (fcur f + 1))
      else parse_string_loop n' c (set_cur f (fcur f + 1))
    end
  else finish c f.

(** string = '"' { quoted_printable_chars } '"' *)
Definition parse_string (f : frozen) : result :=
  let (n, f) := test_and_skip f QUOTE in
  if n <? 0 then (n, f)
  else
    let (n, f) := capture_ptr f (fcur f) JSON_TYPE_STRING in
    if n <? 0 then (n, f)
    else parse_string_loop (Z.to_nat (fend f - fcur f)) 0 f.

(** number = [ '-' ] digit { digit } *)
Definition parse_number (f : frozen) : result :=
  let (c, f) := cur f in
  let (n, f) := capture_ptr f (fcur f) JSON_TYPE_NUMBER in
  if n <? 0 then (n, f)
  else
    let f := if c =? ch "-" then set_cur f (fcur f + 1) else f in
    let f := scan is_digit f in
    let (_, f) := capture_len f (num_tokens f - 1) (fcur f) in
    (0, f).

(** [str] is the literal, [n] its length as a loop bound; the loop stops
    at the first byte that differs. *)
Fixpoint compare_loop (m : list ascii) (c : Z) (str : list ascii) (i : Z)
  : Z :=
  match str with
  | [] => i
  | x :: str' =>
    if byte_at m (c + i) =? ch x then compare_loop m c str' (i + 1) else i
  end.

Definition compare (f : frozen) (str : string) (len : Z) : bool :=
  if left f <? len then false
  else
    compare_loop (mem f) (fcur f)
      (take (Z.to_nat len) (list_ascii_of_string str)) 0 =? len.

(** A literal: [capture_ptr], [f->cur += n], [capture_len]. *)
Definition parse_literal (f : frozen) (ty : json_type) (n : Z) : result :=
  let (r, f) := capture_ptr f (fcur f) ty in
  if r <? 0 then (r, f)
  else
    let f := set_cur f (fcur f + n) in
    let (_, f) := capture_len f (num_tokens f - 1) (fcur f) in
    (0, f).

(** key = identifier | string *)
Definition parse_key (f : frozen) : result :=
  let (c, f) := cur f in
  if is_alpha c then
    let (n, f) := parse_identifier f in
    if n <? 0 then (n, f) else (0, f)
  else if c =? QUOTE then
    let (n, f) := parse_string f in
    if n <? 0 then (n, f) else (0, f)
  else (if c =? END_OF_STRING then JSON_STRING_INCOMPLETE
        else JSON_STRING_INVALID, f).

(** [if (cur(f) == ',') f->cur++;] *)
Definition skip_comma (f : frozen) : frozen :=
  let (c, f) := cur f in
  if c =? ch "," then set_cur f (fcur f + 1) else f.

(** ** Composite rules *)

(** value = 'null' | 'true' | 'false' | number | string | array | object

    [parse_array_loop] and [parse_object_loop] are the [while] loops of
    [parse_array] and [parse_object]: they return 0 when the loop is left
    and the negative value when a [TRY] inside it returns. *)
Fixpoint parse_value (fuel : nat) (f : frozen) {struct fuel}
  : option result :=
  match fuel with
  | O => None
  | S fuel =>
    let (c, f) := cur f in
    if c =? QUOTE then
      TRY Some (parse_string f) THEN f => Some (0, f)
    else if c =? ch "{" then
      TRY parse_object fuel f THEN f => Some (0, f)
    else if c =? ch "[" then
      TRY parse_array fuel f THEN f => Some (0, f)
    else if (c =? ch "n") && compare f "null" 4 then
      TRY Some (parse_literal f JSON_TYPE_NULL 4) THEN f => Some (0, f)
    else if (c =? ch "t") && compare f "true" 4 then
      TRY Some (parse_literal f JSON_TYPE_TRUE 4) THEN f => Some (0, f)
    else if (c =? ch "f") && compare f "false" 5 then
      TRY Some (parse_literal f JSON_TYPE_FALSE 5) THEN f => Some (0, f)
    else if is_digit c
            || ((c =? ch "-") && (fcur f + 1 <? fend f)
                && is_digit (byte_at (mem f) (fcur f + 1))) then
      TRY Some (parse_number f) THEN f => Some (0, f)
    else
      Some (if c =? END_OF_STRING then JSON_STRING_INCOMPLETE
            else JSON_STRING_INVALID, f)
  end

with parse_array_loop (fuel : nat) (f : frozen) {struct fuel}
  : option result :=
  match fuel with
  | O => None
  | S fuel =>
    let (c, f) := cur f in
    if negb (c =? ch "]") then
      TRY parse_value fuel f THEN f =>
      parse_array_loop fuel (skip_comma f)
    else Some (0, f)
  end

(** array = '[' [ value { ',' value } ] ']' *)
with parse_array (fuel : nat) (f : frozen) {struct fuel} : option result :=
  match fuel with
  | O => None
  | S fuel =>
    TRY Some (test_and_skip f (ch "[")) THEN f =>
    TRY Some (capture_ptr f (fcur f - 1) JSON_TYPE_ARRAY) THEN f =>
    let ind := num_tokens f - 1 in
    TRY parse_array_loop fuel f THEN f =>
    TRY Some (test_and_skip f (ch "]")) THEN f =>
    let (_, f) := capture_len f ind (fcur f) in
    Some (0, f)
  end

(** pair = key ':' value *)
with parse_pair (fuel : nat) (f : frozen) {struct fuel} : option result :=
  match fuel with
  | O => None
  | S fuel =>
    TRY Some (parse_key f) THEN f =>
    TRY Some (test_and_skip f (ch ":")) THEN f =>
    TRY parse_value fuel f THEN f =>
    Some (0, f)
  end

with parse_object_loop (fuel : nat) (f : frozen) {struct fuel}
  : option result :=
  match fuel with
  | O => None
  | S fuel =>
    let (c, f) := cur f in
    if negb (c =? ch "}") then
      TRY parse_pair fuel f THEN f =>
      parse_object_loop fuel (skip_comma f)
    else Some (0, f)
  end

(** object = '{' pair { ',' pair } '}' *)
with parse_object (fuel : nat) (f : frozen) {struct fuel} : option result :=
  match fuel with
  | O => None
  | S fuel =>
    TRY Some (test_and_skip f (ch "{")) THEN f =>
    TRY Some (capture_ptr f (fcur f - 1) JSON_TYPE_OBJECT) THEN f =>
    let ind := num_tokens f - 1 in
    TRY parse_object_loop fuel f THEN f =>
    TRY Some (test_and_skip f (ch "}")) THEN f =>
    let (_, f) := capture_len f ind (fcur f) in
    Some (0, f)
  end.

(** ** Driver *)

(** Fuel for an input of [s_len] bytes: see [fuel_enough]. *)
Definition fuel_of (s_len : Z) : nat := 4 * Z.to_nat s_len + 4.

(** The local [struct frozen frozen = { s + s_len, s, arr, arr_len, 0 }]. *)
Definition init_frozen (s : option (list ascii)) (s_len : Z)
    (arr : option (list json_token)) (arr_len : Z) : frozen :=
  {| fend := s_len; fcur := 0; tokens := arr; max_tokens := arr_len;
     num_tokens := 0; mem := default [] s |}.

(** json = object.  [parse_json_frozen] returns, with the value returned by
    [parse_json], the local [frozen] at the [return]. *)
Definition parse_json_frozen (s : option (list ascii)) (s_len : Z)
    (arr : option (list json_token)) (arr_len : Z) : option result :=
  let frozen := init_frozen s s_len arr arr_len in
  if bool_decide (s = None) || (s_len <? 0)
  then Some (JSON_STRING_INVALID, frozen)
  else if s_len =? 0 then Some (JSON_STRING_INCOMPLETE, frozen)
  else
    TRY parse_object (fuel_of s_len) frozen THEN frozen =>
    TRY Some (capture_ptr frozen (fcur frozen) JSON_TYPE_EOF) THEN frozen =>
    let (_, frozen) := capture_len frozen (num_tokens frozen) (fcur frozen) in
    Some (to_int (fcur frozen - 0), frozen).

(** What the caller observes: the value returned and the token array. *)
Definition parse_json (s : option (list ascii)) (s_len : Z)
    (arr : option (list json_token)) (arr_len : Z)
  : option (Z * option (list json_token)) :=
  match parse_json_frozen s s_len arr arr_len with
  | None => None
  | Some (n, f) => Some (n, tokens f)
  end.

(** ** Test inputs *)

(** The bytes of a string in which an apostrophe stands for a double
    quote. *)
Definition bytes (s : string) : list ascii :=
  map (fun c => if (c =? "'")%char then ascii_of_nat 34 else c)
      (list_ascii_of_string s).

(** [parse_json] on a whole string. *)
Definition parse_bytes (s : list ascii) (arr : option (list json_token))
    (arr_len : Z) : option (Z * option (list json_token)) :=
  parse_json (Some s) (Z.of_nat (length s)) arr arr_len.

(** An array of [n] zeroed tokens. *)
Definition blank (n : nat) : list json_token :=
  replicate n (Token 0 0 0 JSON_TYPE_EOF).

(** * The grammar of the specification *)

(** ** The tokens of an input

    The tokenizer that the specification describes, written from its
    words and not from [src/frozen.c]: the scanner of section 4.1, the
    leaf rules of section 4.3, the composite rules of section 4.4 and the
    driver of section 4.5 give an input its tokens, each with the type,
    start, length and subtree size of the data model of section 3 and with
    its nesting level, the number of arrays and objects that it lies in.
    A leaf has the subtree size zero; an array or an object has that of
    the number of the tokens of its content, its descendants at all
    depths.  No definition here uses the recorder of the code; the
    properties compare the two.  [fuel] bounds the nesting, as it does in
    the rules of the embedding. *)

(** The escapes of one letter. *)
Definition simple_escape (c : Z) : bool :=
  (c =? QUOTE) || (c =? ch "\") || (c =? ch "/") || (c =? ch "b")
  || (c =? ch "f") || (c =? ch "n") || (c =? ch "r") || (c =? ch "t").

Definition identifier_byte (c : Z) : bool :=
  (c =? ch "_") || is_alpha c || is_digit c.

(** A token with its nesting level. *)
Definition levelled : Type := nat * json_token.

Definition leaf (lvl : nat) (ty : json_type) (p q : Z) : list levelled :=
  [(lvl, {| ptr := p; len := q - p; num_children := 0; type := ty |})].

Definition node (lvl : nat) (ty : json_type) (p q : Z)
    (content : list levelled) : list levelled :=
  (lvl, {| ptr := p; len := q - p;
           num_children := Z.of_nat (length content); type := ty |})
    :: content.

Section grammar.

Variable m : list ascii.
Variable e : Z.

(** The offset of the next byte that is not white space, and that byte;
    at the end of the input, the end and [END_OF_STRING]. *)
Definition significant (p : Z) : Z :=
  scan_while is_space m (Z.to_nat (e - p)) p.

Definition peek (p : Z) : Z :=
  if significant p >=? e then END_OF_STRING
  else byte_at m (significant p).

(** The bytes at [p] are those of [l]. *)
Fixpoint bytes_match (l : list ascii) (p : Z) : bool :=
  match l with
  | [] => true
  | x :: l' => (byte_at m p =? ch x) && bytes_match l' (p + 1)
  end.

(** A literal at [p]: there is enough input left and every byte
    matches. *)
Definition literal_at (str : string) (p : Z) : bool :=
  (p + Z.of_nat (String.length str) <=? e)
  && bytes_match (list_ascii_of_string str) p.

Definition hex4 (p : Z) : bool :=
  is_hex_digit (byte_at m p) && is_hex_digit (byte_at m (p + 1))
  && is_hex_digit (byte_at m (p + 2)) && is_hex_digit (byte_at m (p + 3)).

(** The offset of the quote that closes a string whose bytes start at
    [p]; [n] bounds the number of its bytes. *)
Fixpoint closing_quote (n : nat) (p : Z) : option Z :=
  match n with
  | O => None
  | S n' =>
    if p <? e then
      let c := byte_at m p in
      if (32 <=? c) && (c <=? 127) then
        if c =? ch "\" then
          let d := byte_at m (p + 1) in
          if simple_escape d && (p + 1 <? e) then closing_quote n' (p + 2)
          else if (d =? ch "u") && (p + 5 <? e) && hex4 (p + 2)
               then closing_quote n' (p + 6)
               else None
        else if c =? QUOTE then Some p
        else closing_quote n' (p + 1)
      else None
    else None
  end.

(** The end of the digits and of the identifier that start at [p]. *)
Definition digits_end (p : Z) : Z :=
  scan_while is_digit m (Z.to_nat (e - p)) p.

Definition identifier_end (p : Z) : Z :=
  scan_while identifier_byte m (Z.to_nat (e - p)) p.

(** string = '"' { quoted_printable_chars } '"' *)
Definition tokens_of_string (lvl : nat) (p : Z)
  : option (list levelled * Z) :=
  let q := significant p in
  if peek p =? QUOTE then
    match closing_quote (Z.to_nat (e - (q + 1))) (q + 1) with
    | Some q' => Some (leaf lvl JSON_TYPE_STRING (q + 1) q', q' + 1)
    | None => None
    end
  else None.

(** identifier = letter { letter | digit | '_' } *)
Definition tokens_of_identifier (lvl : nat) (p : Z)
  : option (list levelled * Z) :=
  let q := significant p in
  if is_alpha (peek p) then
    Some (leaf lvl JSON_TYPE_STRING q (identifier_end q), identifier_end q)
  else None.

(** number = [ '-' ] digit { digit } *)
Definition tokens_of_number (lvl : nat) (p : Z)
  : option (list levelled * Z) :=
  let q := significant p in
  let q' := digits_end (if peek p =? ch "-" then q + 1 else q) in
  Some (leaf lvl JSON_TYPE_NUMBER q q', q').

(** key = identifier | string *)
Definition tokens_of_key (lvl : nat) (p : Z) : option (list levelled * Z) :=
  let q := significant p in
  if is_alpha (peek p) then tokens_of_identifier lvl q
  else if peek p =? QUOTE then tokens_of_string lvl q
  else None.

(** The offset after an optional comma. *)
Definition after_comma (p : Z) : Z :=
  if peek p =? ch "," then significant p + 1 else significant p.

(** Each function gives the tokens of what it reads from the offset [p]
    on, in the order of the input, and the offset after it; for the
    elements of an array and the pairs of an object that offset is the one
    of the closing bracket. *)
Fixpoint tokens_of_value (fuel : nat) (lvl : nat) (p : Z) {struct fuel}
  : option (list levelled * Z) :=
  match fuel with
  | O => None
  | S fuel =>
    let q := significant p in
    let c := peek p in
    if c =? QUOTE then tokens_of_string lvl q
    else if c =? ch "{" then tokens_of_object fuel lvl q
    else if c =? ch "[" then tokens_of_array fuel lvl q
    else if (c =? ch "n") && literal_at "null" q then
      Some (leaf lvl JSON_TYPE_NULL q (q + 4), q + 4)
    else if (c =? ch "t") && literal_at "true" q then
      Some (leaf lvl JSON_TYPE_TRUE q (q + 4), q + 4)
    else if (c =? ch "f") && literal_at "false" q then
      Some (leaf lvl JSON_TYPE_FALSE q (q + 5), q + 5)
    else if is_digit c
            || ((c =? ch "-") && (q + 1 <? e) && is_digit (byte_at m (q + 1)))
    then tokens_of_number lvl q
    else None
  end

with tokens_of_elements (fuel : nat) (lvl : nat) (p : Z) {struct fuel}
  : option (list levelled * Z) :=
  match fuel with
  | O => None
  | S fuel =>
    if peek p =? ch "]" then Some ([], significant p)
    else
      match tokens_of_value fuel lvl (significant p) with
      | Some (l1, q1) =>
        match tokens_of_elements fuel lvl (after_comma q1) with
        | Some (l2, q2) => Some (l1 ++ l2, q2)
        | None => None
        end
      | None => None
      end
  end

(** array = '[' [ value { ',' value } ] ']' *)
with tokens_of_array (fuel : nat) (lvl : nat) (p : Z) {struct fuel}
  : option (list levelled * Z) :=
  match fuel with
  | O => None
  | S fuel =>
    if peek p =? ch "[" then
      match tokens_of_elements fuel (S lvl) (significant p + 1) with
      | Some (l, q) =>
        if peek q =? ch "]" then
          Some (node lvl JSON_TYPE_ARRAY (significant p) (significant q + 1) l,
                significant q + 1)
        else None
      | None => None
      end
    else None
  end

(** pair = key ':' value *)
with tokens_of_pair (fuel : nat) (lvl : nat) (p : Z) {struct fuel}
  : option (list levelled * Z) :=
  match fuel with
  | O => None
  | S fuel =>
    match tokens_of_key lvl p with
    | Some (l1, q1) =>
      if peek q1 =? ch ":" then
        match tokens_of_value fuel lvl (significant q1 + 1) with
        | Some (l2, q2) => Some (l1 ++ l2, q2)
        | None => None
        end
      else None
    | None => None
    end
  end

with tokens_of_pairs (fuel : nat) (lvl : nat) (p : Z) {struct fuel}
  : option (list levelled * Z) :=
  match fuel with
  | O => None
  | S fuel =>
    if peek p =? ch "}" then Some ([], significant p)
    else
      match tokens_of_pair fuel lvl (significant p) with
      | Some (l1, q1) =>
        match tokens_of_pairs fuel lvl (after_comma q1) with
        | Some (l2, q2) => Some (l1 ++ l2, q2)
        | None => None
        end
      | None => None
      end
  end

(** object = '{' pair { ',' pair } '}' *)
with tokens_of_object (fuel : nat) (lvl : nat) (p : Z) {struct fuel}
  : option (list levelled * Z) :=
  match fuel with
  | O => None
  | S fuel =>
    if peek p =? ch "{" then
      match tokens_of_pairs fuel (S lvl) (significant p + 1) with
      | Some (l, q) =>
        if peek q =? ch "}" then
          Some (node lvl JSON_TYPE_OBJECT (significant p) (significant q + 1) l,
                significant q + 1)
        else None
      | None => None
      end
    else None
  end.

(** The tokens of the input: those of the root object, and the
    end-of-input marker after them, of length and subtree size zero.  The
    last component is the number of bytes that the root object takes. *)
Definition tokens_of_input : option (list levelled * Z) :=
  match tokens_of_object (fuel_of e) 0 0 with
  | Some (l, r) => Some (l ++ leaf 0 JSON_TYPE_EOF r r, r)
  | None => None
  end.

End grammar.


(** * Properties *)

(** ** Arithmetic of characters and of [int] *)

Ltac eval_ch :=
  repeat match goal with
  | |- context [ch ?a] =>
      let v := eval vm_compute in (ch a) in change (ch a) with v
  | H : context [ch ?a] |- _ =>
      let v := eval vm_compute in (ch a) in change (ch a) with v in H
  end.

Lemma to_int_small (x : Z) : - 2 ^ 31 <= x <= INT_MAX -> to_int x = x.
Proof.
  unfold to_int, INT_MAX. intros H.
  rewrite Z.mod_small by lia. lia.
Qed.

Lemma ch_inj (a b : ascii) : ch a = ch b -> a = b.
Proof.
  unfold ch. intros H. apply N2Z.inj in H.
  rewrite <- (ascii_N_embedding a), <- (ascii_N_embedding b), H. reflexivity.
Qed.

Lemma ch_range (a : ascii) : 0 <= ch a < 256.
Proof.
  unfold ch. pose proof (N_ascii_bounded a). lia.
Qed.

Lemma byte_at_range (m : list ascii) (p : Z) : 0 <= byte_at m p < 256.
Proof.
  unfold byte_at. destruct (m !! Z.to_nat p); [apply ch_range | lia].
Qed.

Lemma byte_at_app_l (m t : list ascii) (p : Z) :
  0 <= p < Z.of_nat (length m) -> byte_at (m ++ t) p = byte_at m p.
Proof.
  intros H. unfold byte_at. rewrite lookup_app_l by lia. reflexivity.
Qed.

Lemma byte_at_take (m : list ascii) (k : nat) (p : Z) :
  0 <= p < Z.of_nat k -> byte_at (take k m) p = byte_at m p.
Proof.
  intros H. unfold byte_at. rewrite lookup_take_lt by lia. reflexivity.
Qed.

(** ** The scanning loop *)

Lemma scan_while_spec (p : Z -> bool) (m : list ascii) (n : nat) (c : Z) :
  c <= scan_while p m n c <= c + Z.of_nat n
  /\ (forall i, c <= i < scan_while p m n c -> p (byte_at m i) = true)
  /\ (scan_while p m n c < c + Z.of_nat n ->
      p (byte_at m (scan_while p m n c)) = false).
Proof.
  revert c. induction n as [|n IH]; intros c; simpl.
  - repeat split; intros; lia.
  - destruct (p (byte_at m c)) eqn:E.
    + destruct (IH (c + 1)) as (H1 & H2 & H3).
      split; [lia|]. split.
      * intros i Hi. destruct (decide (i = c)) as [->|]; [exact E|].
        apply H2. lia.
      * intros. apply H3. lia.
    + split; [lia|]. split; [intros; lia | intros; exact E].
Qed.

Lemma scan_while_unique (p : Z -> bool) (m : list ascii) (n : nat) (c q : Z) :
  c <= q <= c + Z.of_nat n ->
  (forall i, c <= i < q -> p (byte_at m i) = true) ->
  (q < c + Z.of_nat n -> p (byte_at m q) = false) ->
  scan_while p m n c = q.
Proof.
  revert c. induction n as [|n IH]; intros c Hq Hin Hout; simpl.
  - lia.
  - destruct (p (byte_at m c)) eqn:E.
    + destruct (decide (q = c)) as [->|Hne].
      * rewrite Hout in E by lia. discriminate.
      * apply IH; try lia.
        -- intros i Hi. apply Hin. lia.
        -- intros. apply Hout. lia.
    + destruct (decide (q = c)) as [->|Hne]; [reflexivity|].
      rewrite Hin in E by lia. discriminate.
Qed.

(** ** States along a run *)

(** [evolves f g]: [g] is a state that a rule may leave when started in
    [f].  The end, the memory and the capacity stay; the cursor and the
    token count only grow; the array keeps its length. *)
Record evolves (f g : frozen) : Prop := Evolves {
  ev_end : fend g = fend f;
  ev_mem : mem g = mem f;
  ev_max : max_tokens g = max_tokens f;
  ev_cur : fcur f <= fcur g;
  ev_num : num_tokens f <= num_tokens g;
  ev_cap : num_tokens f <= max_tokens f -> num_tokens g <= max_tokens f;
  ev_len : length <$> tokens g = length <$> tokens f
}.

Lemma evolves_refl f : evolves f f.
Proof. split; auto; lia. Qed.

Lemma evolves_trans f g h : evolves f g -> evolves g h -> evolves f h.
Proof.
  intros [] []. split; try congruence; try lia.
Qed.

Lemma evolves_set_cur f p : fcur f <= p -> evolves f (set_cur f p).
Proof. intros. split; simpl; auto; lia. Qed.

Lemma scan_evolves p f : evolves f (scan p f).
Proof.
  apply evolves_set_cur.
  apply (scan_while_spec p (mem f) (Z.to_nat (fend f - fcur f)) (fcur f)).
Qed.

(** What [cur] returns: the end-of-input mark at the end, or else the byte
    under the cursor, which is not white space. *)
Lemma cur_spec f c g :
  cur f = (c, g) ->
  g = set_cur f (fcur g) /\
  evolves f g /\
  (forall i, fcur f <= i < fcur g -> is_space (byte_at (mem f) i) = true) /\
  ((c = END_OF_STRING /\ fend f <= fcur g
    /\ (fcur f <= fend f -> fcur g = fend f))
   \/ (c = byte_at (mem f) (fcur g) /\ fcur g < fend f
       /\ is_space c = false)).
Proof.
  unfold cur. intros E. injection E as <- <-.
  split; [reflexivity|]. split; [apply scan_evolves|].
  unfold skip_whitespaces, scan. simpl.
  destruct (scan_while_spec is_space (mem f) (Z.to_nat (fend f - fcur f))
              (fcur f)) as (H1 & H2 & H3).
  split; [exact H2|].
  destruct (Z.geb_spec (scan_while is_space (mem f)
              (Z.to_nat (fend f - fcur f)) (fcur f)) (fend f)).
  - left. repeat split; lia.
  - right. repeat split; try lia. apply H3. lia.
Qed.

Ltac break_let :=
  match goal with
  | H : context [let (_, _) := ?e in _] |- _ => destruct e eqn:?
  | |- context [let (_, _) := ?e in _] => destruct e eqn:?
  end.

Ltac break_if :=
  match goal with
  | H : context [if ?b then _ else _] |- _ => destruct b eqn:?
  | |- context [if ?b then _ else _] => destruct b eqn:?
  end.

(** The test at the head of an equation. *)
Ltac head_if :=
  match goal with
  | H : (if ?b then _ else _) = _ |- _ => destruct b eqn:?
  | |- (if ?b then _ else _) = _ => destruct b eqn:?
  end.

Ltac inj_pair :=
  repeat match goal with
  | H : (_, _) = (_, _) |- _ => injection H as ? ?; subst
  | H : Some _ = Some _ |- _ => injection H as H
  end.

Lemma capture_ptr_evolves f p ty n g :
  capture_ptr f p ty = (n, g) -> evolves f g.
Proof.
  unfold capture_ptr. intros E.
  destruct (tokens f) as [a|] eqn:Ea; [|inj_pair; apply evolves_refl].
  repeat break_if; inj_pair; try apply evolves_refl.
  split; simpl; try rewrite Ea; simpl; try rewrite length_alter; auto; lia.
Qed.

Lemma capture_len_evolves f i p n g :
  capture_len f i p = (n, g) -> evolves f g.
Proof.
  unfold capture_len. intros E.
  destruct (tokens f) as [a|] eqn:Ea; [|inj_pair; apply evolves_refl].
  repeat break_if; inj_pair; try apply evolves_refl.
  split; simpl; try rewrite Ea; simpl; try rewrite length_alter; auto; lia.
Qed.

Lemma capture_len_cur f i p n g : capture_len f i p = (n, g) -> fcur g = fcur f.
Proof.
  unfold capture_len. intros E.
  destruct (tokens f); repeat break_if; inj_pair; reflexivity.
Qed.

Lemma capture_ptr_cur f p ty n g : capture_ptr f p ty = (n, g) -> fcur g = fcur f.
Proof.
  unfold capture_ptr. intros E.
  destruct (tokens f); repeat break_if; inj_pair; reflexivity.
Qed.

Lemma test_and_skip_spec f x n g :
  x <> END_OF_STRING ->
  test_and_skip f x = (n, g) ->
  evolves f g /\
  (0 <= n -> n = 0 /\ fcur f < fcur g /\ fcur g <= fend f /\
             byte_at (mem f) (fcur g - 1) = x /\
             g = set_cur f (fcur g) /\
             forall i, fcur f <= i < fcur g - 1 ->
                       is_space (byte_at (mem f) i) = true).
Proof.
  unfold test_and_skip. intros Hx E. destruct (cur f) as [c h] eqn:Ec.
  apply cur_spec in Ec as (Eh & Hev & Hws & Hc).
  destruct (Z.eqb_spec c x) as [->|Hne]; inj_pair.
  - split.
    + eapply evolves_trans; [exact Hev|]. apply evolves_set_cur. lia.
    + intros _. destruct Hev. simpl.
      destruct Hc as [(-> & ? & ?)|(-> & ? & ?)]; [congruence|].
      replace (fcur h + 1 - 1) with (fcur h) by lia.
      repeat split; try lia.
      * rewrite Eh. reflexivity.
      * intros i Hi. apply Hws. lia.
  - split; [exact Hev|]. unfold JSON_STRING_INCOMPLETE, JSON_STRING_INVALID.
    break_if; lia.
Qed.

Lemma get_escape_len_cases m s l :
  get_escape_len m s l = JSON_STRING_INVALID
  \/ get_escape_len m s l = JSON_STRING_INCOMPLETE
  \/ (get_escape_len m s l = 1 /\ 2 <= l /\ byte_at m s <> ch ",").
Proof.
  unfold get_escape_len.
  destruct (Z.eqb_spec (byte_at m s) (ch "u")) as [->|Hu].
  - destruct (l <? 4); [auto|]. left. reflexivity.
  - break_if; [|auto].
    destruct (Z.ltb_spec l 2); [auto|]. right. right.
    repeat split; try lia. intros E. rewrite E in Heqb.
    vm_compute in Heqb. discriminate.
Qed.

Lemma parse_string_loop_evolves k c f n g :
  parse_string_loop k c f = (n, g) -> evolves f g.
Proof.
  revert c f. induction k as [|k IH]; intros c f; simpl.
  - repeat break_if; intros; inj_pair; apply evolves_refl.
  - destruct (fcur f <? fend f); [|intros; inj_pair; apply evolves_refl].
    destruct (negb _); [intros; inj_pair; apply evolves_refl|].
    destruct (_ =? ch "\").
    + destruct (get_escape_len_cases (mem f) (fcur f + 1) (left f))
        as [E|[E|(E & _)]]; rewrite E; simpl;
        try (intros; inj_pair; apply evolves_refl).
      intros H. apply IH in H. eapply evolves_trans; [|exact H].
      apply evolves_set_cur. lia.
    + destruct (_ =? QUOTE).
      * break_let. intros. inj_pair.
        eapply evolves_trans; [eapply capture_len_evolves; eauto|].
        apply evolves_set_cur. lia.
      * intros H. apply IH in H. eapply evolves_trans; [|exact H].
        apply evolves_set_cur. lia.
Qed.

(** ** Unfolding the rules *)

Lemma parse_value_S fuel f :
  parse_value (S fuel) f =
    let (c, f) := cur f in
    if c =? QUOTE then
      TRY Some (parse_string f) THEN f => Some (0, f)
    else if c =? ch "{" then
      TRY parse_object fuel f THEN f => Some (0, f)
    else if c =? ch "[" then
      TRY parse_array fuel f THEN f => Some (0, f)
    else if (c =? ch "n") && compare f "null" 4 then
      TRY Some (parse_literal f JSON_TYPE_NULL 4) THEN f => Some (0, f)
    else if (c =? ch "t") && compare f "true" 4 then
      TRY Some (parse_literal f JSON_TYPE_TRUE 4) THEN f => Some (0, f)
    else if (c =? ch "f") && compare f "false" 5 then
      TRY Some (parse_literal f JSON_TYPE_FALSE 5) THEN f => Some (0, f)
    else if is_digit c
            || ((c =? ch "-") && (fcur f + 1 <? fend f)
                && is_digit (byte_at (mem f) (fcur f + 1))) then
      TRY Some (parse_number f) THEN f => Some (0, f)
    else
      Some (if c =? END_OF_STRING then JSON_STRING_INCOMPLETE
            else JSON_STRING_INVALID, f).
Proof. reflexivity. Qed.

Lemma parse_array_loop_S fuel f :
  parse_array_loop (S fuel) f =
    let (c, f) := cur f in
    if negb (c =? ch "]") then
      TRY parse_value fuel f THEN f =>
      parse_array_loop fuel (skip_comma f)
    else Some (0, f).
Proof. reflexivity. Qed.

Lemma parse_array_S fuel f :
  parse_array (S fuel) f =
    TRY Some (test_and_skip f (ch "[")) THEN f =>
    TRY Some (capture_ptr f (fcur f - 1) JSON_TYPE_ARRAY) THEN f =>
    let ind := num_tokens f - 1 in
    TRY parse_array_loop fuel f THEN f =>
    TRY Some (test_and_skip f (ch "]")) THEN f =>
    let (_, f) := capture_len f ind (fcur f) in
    Some (0, f).
Proof. reflexivity. Qed.

Lemma parse_pair_S fuel f :
  parse_pair (S fuel) f =
    TRY Some (parse_key f) THEN f =>
    TRY Some (test_and_skip f (ch ":")) THEN f =>
    TRY parse_value fuel f THEN f =>
    Some (0, f).
Proof. reflexivity. Qed.

Lemma parse_object_loop_S fuel f :
  parse_object_loop (S fuel) f =
    let (c, f) := cur f in
    if negb (c =? ch "}") then
      TRY parse_pair fuel f THEN f =>
      parse_object_loop fuel (skip_comma f)
    else Some (0, f).
Proof. reflexivity. Qed.

Lemma parse_object_S fuel f :
  parse_object (S fuel) f =
    TRY Some (test_and_skip f (ch "{")) THEN f =>
    TRY Some (capture_ptr f (fcur f - 1) JSON_TYPE_OBJECT) THEN f =>
    let ind := num_tokens f - 1 in
    TRY parse_object_loop fuel f THEN f =>
    TRY Some (test_and_skip f (ch "}")) THEN f =>
    let (_, f) := capture_len f ind (fcur f) in
    Some (0, f).
Proof. reflexivity. Qed.

Ltac unfold_rules :=
  rewrite ?parse_value_S, ?parse_array_loop_S, ?parse_array_S,
    ?parse_pair_S, ?parse_object_loop_S, ?parse_object_S in *.

(** ** Fuel *)

(** A rule that returns with some fuel returns the same with more. *)
Definition fuel_mono (rule : nat -> frozen -> option result) (fuel : nat)
  : Prop :=
  forall f r fuel', rule fuel f = Some r -> (fuel <= fuel')%nat ->
                    rule fuel' f = Some r.

Ltac use_mono IH :=
  repeat match goal with
  | H : context [try_then (?rule ?fuel ?f) _] |- _ =>
      let E := fresh "E" in
      destruct (rule fuel f) as [[? ?]|] eqn:E;
      [ eapply IH in E; [rewrite E | lia] | discriminate H ]
  end.

Lemma fuel_monotone fuel :
  fuel_mono parse_value fuel /\ fuel_mono parse_array_loop fuel
  /\ fuel_mono parse_array fuel /\ fuel_mono parse_pair fuel
  /\ fuel_mono parse_object_loop fuel /\ fuel_mono parse_object fuel.
Proof.
  induction fuel as [|fuel (IHv & IHal & IHa & IHp & IHol & IHo)];
    [repeat split; intros f r fuel' H; discriminate H|].
  unfold fuel_mono in *.
  repeat split; intros f r [|fuel'] H Hle; try lia; unfold_rules.
  - destruct (cur f) as [c g].
    repeat (head_if;
            [first [exact H | use_mono IHo; exact H | use_mono IHa; exact H]|]).
    exact H.
  - destruct (cur f) as [c g]. break_if; [|exact H].
    use_mono IHv. unfold try_then in *. break_if; [exact H|].
    eapply IHal; [exact H|lia].
  - unfold try_then at 1 2. unfold try_then at 1 2 in H.
    repeat (break_let; break_if; [exact H|]).
    use_mono IHal. exact H.
  - unfold try_then at 1 2. unfold try_then at 1 2 in H.
    repeat (break_let; break_if; [exact H|]).
    use_mono IHv. exact H.
  - destruct (cur f) as [c g]. break_if; [|exact H].
    use_mono IHp. unfold try_then in *. break_if; [exact H|].
    eapply IHol; [exact H|lia].
  - unfold try_then at 1 2. unfold try_then at 1 2 in H.
    repeat (break_let; break_if; [exact H|]).
    use_mono IHol. exact H.
Qed.

(** ** The leaf rules: where they leave the cursor *)

(** The cursor lies in the input. *)
Definition in_bounds (f : frozen) : Prop := 0 <= fcur f <= fend f.

Lemma to_int_le (x : Z) : 0 <= x -> to_int x <= x.
Proof.
  intros H. unfold to_int.
  pose proof (Z.mod_le (x + 2 ^ 31) (2 ^ 32) ltac:(lia) ltac:(lia)). lia.
Qed.

Lemma left_le f : in_bounds f -> left f <= fend f - fcur f.
Proof. intros H. unfold left. apply to_int_le. unfold in_bounds in H. lia. Qed.

Lemma left_small f :
  in_bounds f -> fend f <= INT_MAX -> left f = fend f - fcur f.
Proof.
  intros H1 H2. unfold left. apply to_int_small.
  unfold INT_MAX, in_bounds in *. lia.
Qed.

Lemma set_cur_id g : set_cur g (fcur g) = g.
Proof. destruct g; reflexivity. Qed.

Lemma cur_idem f c g : cur f = (c, g) -> cur g = (c, g).
Proof.
  intros E. pose proof E as E'.
  apply cur_spec in E' as (Hg & Hev & _ & Hc). destruct Hev.
  assert (Hs : scan_while is_space (mem g) (Z.to_nat (fend g - fcur g))
                 (fcur g) = fcur g).
  { apply scan_while_unique; [lia | intros; lia |].
    intros Hlt. rewrite ev_mem0.
    destruct Hc as [(_ & ? & _)|(-> & ? & Hsp)]; [lia|exact Hsp]. }
  unfold cur, skip_whitespaces, scan. rewrite Hs, set_cur_id.
  f_equal. rewrite ev_end0, ev_mem0.
  destruct Hc as [(-> & ? & _)|(-> & ? & _)].
  - destruct (Z.geb_spec (fcur g) (fend f)); [reflexivity|lia].
  - destruct (Z.geb_spec (fcur g) (fend f)); [lia|reflexivity].
Qed.

Lemma cur_bounds f c g : cur f = (c, g) -> in_bounds f -> in_bounds g.
Proof.
  intros E H1. apply cur_spec in E as (_ & [] & _ & Hc).
  unfold in_bounds in *. rewrite ev_end0.
  destruct Hc as [(_ & ? & ?)|(_ & ? & _)]; lia.
Qed.

Lemma capture_ptr_bounds f p ty n g :
  capture_ptr f p ty = (n, g) -> in_bounds f -> in_bounds g.
Proof.
  intros E. pose proof (capture_ptr_cur _ _ _ _ _ E).
  apply capture_ptr_evolves in E as []. unfold in_bounds. lia.
Qed.

Lemma capture_len_bounds f i p n g :
  capture_len f i p = (n, g) -> in_bounds f -> in_bounds g.
Proof.
  intros E. pose proof (capture_len_cur _ _ _ _ _ E).
  apply capture_len_evolves in E as []. unfold in_bounds. lia.
Qed.

Lemma ch_ne_eos (a : ascii) : ch a <> END_OF_STRING.
Proof. pose proof (ch_range a). unfold END_OF_STRING. lia. Qed.

Lemma test_and_skip_bounds f x n g :
  x <> END_OF_STRING -> test_and_skip f x = (n, g) -> in_bounds f ->
  in_bounds g.
Proof.
  unfold test_and_skip. intros Hx E Hb. destruct (cur f) as [c h] eqn:Ec.
  pose proof (cur_bounds _ _ _ Ec Hb) as Hh.
  apply cur_spec in Ec as (_ & [] & _ & Hc).
  destruct (Z.eqb_spec c x) as [->|]; inj_pair; [|exact Hh].
  destruct Hc as [(-> & _)|(_ & ? & _)]; [congruence|].
  unfold in_bounds in *. simpl. lia.
Qed.

Lemma scan_bounds p f : in_bounds f -> in_bounds (scan p f).
Proof.
  intros H1. unfold in_bounds in *. unfold scan. simpl.
  pose proof (scan_while_spec p (mem f) (Z.to_nat (fend f - fcur f)) (fcur f)).
  lia.
Qed.

(** The loop of [parse_string] returns 0 only through the closing quote. *)
Lemma parse_string_loop_spec k c f n g :
  c <> QUOTE ->
  parse_string_loop k c f = (n, g) ->
  (in_bounds f -> in_bounds g) /\
  (0 <= n -> n = 0 /\ fcur f < fcur g /\ fcur g <= fend f
             /\ byte_at (mem f) (fcur g - 1) = QUOTE).
Proof.
  revert c f. induction k as [|k IH]; intros c f Hc; simpl.
  - destruct (Z.eqb_spec c QUOTE); [congruence|].
    unfold JSON_STRING_INCOMPLETE.
    break_if; intros; inj_pair; (split; [auto|lia]).
  - destruct (Z.ltb_spec (fcur f) (fend f)) as [Hlt|Hge].
    2:{ destruct (Z.eqb_spec c QUOTE); [congruence|].
        unfold JSON_STRING_INCOMPLETE. intros; inj_pair. split; [auto|lia]. }
    destruct (negb _).
    { unfold JSON_STRING_INVALID. intros; inj_pair. split; [auto|lia]. }
    destruct (Z.eqb_spec (byte_at (mem f) (fcur f)) (ch "\")) as [Eb|Eb].
    + destruct (get_escape_len_cases (mem f) (fcur f + 1) (left f))
        as [E|[E|(E & Hl & _)]]; rewrite E; simpl;
        try (unfold JSON_STRING_INVALID, JSON_STRING_INCOMPLETE;
             intros; inj_pair; split; [auto|lia]).
      intros Hr. apply IH in Hr as [H1 H2].
      2:{ rewrite Eb. discriminate. }
      simpl in *. split.
      * intros Hb. apply H1. pose proof (left_le _ Hb).
        unfold in_bounds in *. simpl. lia.
      * intros Hn. specialize (H2 Hn). lia.
    + destruct (Z.eqb_spec (byte_at (mem f) (fcur f)) QUOTE) as [Eq|Eq].
      * destruct (capture_len f (num_tokens f - 1) (fcur f)) as [r h] eqn:El.
        simpl. intros; inj_pair.
        pose proof (capture_len_cur _ _ _ _ _ El) as Ecur.
        pose proof (capture_len_bounds _ _ _ _ _ El) as Hbd.
        apply capture_len_evolves in El as []. simpl. split.
        -- intros Hb. specialize (Hbd Hb). unfold in_bounds in *. simpl. lia.
        -- intros _. rewrite Ecur.
           replace (fcur f + 1 - 1) with (fcur f) by lia.
           repeat split; lia.
      * intros Hr. apply IH in Hr as [H1 H2]; [|exact Eq].
        simpl in *. split.
        -- intros Hb. apply H1. unfold in_bounds in *. simpl. lia.
        -- intros Hn. specialize (H2 Hn). lia.
Qed.

(** What every rule guarantees: the state evolves, the cursor stays in
    bounds, and a rule that succeeds returns 0 and has moved the cursor. *)
Definition rule_post (f : frozen) (n : Z) (g : frozen) : Prop :=
  evolves f g /\ (in_bounds f -> in_bounds g)
  /\ (0 <= n -> n = 0 /\ fcur f < fcur g).

Lemma rule_post_error f n g :
  n < 0 -> evolves f g -> (in_bounds f -> in_bounds g) -> rule_post f n g.
Proof. intros. split; [|split]; auto. intros; lia. Qed.

Lemma parse_string_post f n g : parse_string f = (n, g) -> rule_post f n g.
Proof.
  unfold parse_string. intros E.
  destruct (test_and_skip f QUOTE) as [n1 f1] eqn:E1.
  assert (Hq : QUOTE <> END_OF_STRING) by discriminate.
  pose proof (test_and_skip_bounds _ _ _ _ Hq E1) as B1.
  apply test_and_skip_spec in E1 as [V1 S1]; [|discriminate].
  destruct (Z.ltb_spec n1 0); inj_pair; [apply rule_post_error; auto|].
  destruct S1 as (-> & P1 & _); [lia|].
  destruct (capture_ptr f1 (fcur f1) JSON_TYPE_STRING) as [n2 f2] eqn:E2.
  pose proof (capture_ptr_bounds _ _ _ _ _ E2) as B2.
  pose proof (capture_ptr_cur _ _ _ _ _ E2) as C2.
  apply capture_ptr_evolves in E2 as V2.
  destruct (Z.ltb_spec n2 0); inj_pair.
  { apply rule_post_error; eauto using evolves_trans. }
  pose proof (parse_string_loop_evolves _ _ _ _ _ E) as V3.
  apply parse_string_loop_spec in E as [B3 S3]; [|discriminate].
  split; [eauto using evolves_trans|]. split; [auto|].
  intros Hn. destruct (S3 Hn) as (? & ? & _). lia.
Qed.

Lemma parse_literal_post f ty k n g :
  0 < k -> (in_bounds f -> fcur f + k <= fend f) ->
  parse_literal f ty k = (n, g) -> rule_post f n g.
Proof.
  unfold parse_literal. intros Hk Hle E.
  destruct (capture_ptr f (fcur f) ty) as [n1 f1] eqn:E1.
  pose proof (capture_ptr_bounds _ _ _ _ _ E1) as B1.
  pose proof (capture_ptr_cur _ _ _ _ _ E1) as C1.
  apply capture_ptr_evolves in E1 as V1.
  destruct (Z.ltb_spec n1 0); inj_pair; [apply rule_post_error; auto|].
  destruct (capture_len _ _ _) as [n2 f2] eqn:E2. inj_pair.
  pose proof (capture_len_cur _ _ _ _ _ E2) as C2.
  apply capture_len_evolves in E2 as V2. simpl in *.
  assert (V : evolves f1 (set_cur f1 (fcur f1 + k)))
    by (apply evolves_set_cur; lia).
  split; [eauto using evolves_trans|].
  destruct V1, V2. simpl in *.
  split; [|intros; lia].
  intros Hb. specialize (Hle Hb). unfold in_bounds in *. lia.
Qed.

Lemma parse_number_post f c n g :
  cur f = (c, f) ->
  is_digit c
  || ((c =? ch "-") && (fcur f + 1 <? fend f)
      && is_digit (byte_at (mem f) (fcur f + 1))) = true ->
  parse_number f = (n, g) -> rule_post f n g.
Proof.
  unfold parse_number. intros Ec Hd E. rewrite Ec in E.
  apply cur_spec in Ec as (_ & _ & _ & Hc).
  assert (Hlt : fcur f < fend f /\ c = byte_at (mem f) (fcur f)).
  { destruct Hc as [(-> & _)|(? & ? & _)]; [discriminate Hd|lia]. }
  clear Hc. destruct Hlt as [Hlt Hc].
  destruct (capture_ptr f (fcur f) JSON_TYPE_NUMBER) as [n1 f1] eqn:E1.
  pose proof (capture_ptr_bounds _ _ _ _ _ E1) as B1.
  pose proof (capture_ptr_cur _ _ _ _ _ E1) as C1.
  apply capture_ptr_evolves in E1 as V1.
  destruct (Z.ltb_spec n1 0).
  { injection E as <- <-. apply rule_post_error; auto. }
  destruct (capture_len _ _ _) as [n2 f2] eqn:E2. injection E as <- <-.
  pose proof (capture_len_cur _ _ _ _ _ E2) as C2.
  pose proof (capture_len_bounds _ _ _ _ _ E2) as B2.
  apply capture_len_evolves in E2 as V2.
  set (h := if c =? ch "-" then set_cur f1 (fcur f1 + 1) else f1) in *.
  assert (Vh : evolves f1 h /\ (in_bounds f1 -> in_bounds h)
               /\ (c = ch "-" -> fcur f1 < fcur h)
               /\ (c <> ch "-" -> h = f1)).
  { subst h. destruct V1. destruct (Z.eqb_spec c (ch "-")).
    - split; [apply evolves_set_cur; lia|].
      unfold in_bounds; simpl. repeat split; intros; try lia; congruence.
    - split; [apply evolves_refl|].
      split; [auto|]. split; intros; [contradiction | reflexivity]. }
  destruct Vh as (Vh & Bh & Ph & Ih).
  pose proof (scan_evolves is_digit h) as Vs.
  pose proof (scan_bounds is_digit h) as Bs.
  split; [eauto using evolves_trans|]. split; [solve [auto]|].
  intros _. split; [reflexivity|].
  rewrite C2. destruct (Z.eqb_spec c (ch "-")) as [Em|Em].
  - specialize (Ph Em). destruct Vs. lia.
  - rewrite (Ih Em) in *.
    assert (Hdig : is_digit (byte_at (mem f1) (fcur f1)) = true).
    { destruct V1. rewrite ev_mem0, C1, <- Hc.
      destruct (is_digit c); [reflexivity|].
      destruct (Z.eqb_spec c (ch "-")); [contradiction|discriminate Hd]. }
    unfold scan. simpl.
    destruct (Z.to_nat (fend f1 - fcur f1)) as [|k] eqn:Ek.
    { destruct V1. lia. }
    simpl. rewrite Hdig.
    pose proof (scan_while_spec is_digit (mem f1) k (fcur f1 + 1)). lia.
Qed.

Lemma parse_identifier_post f n g :
  parse_identifier f = (n, g) -> rule_post f n g.
Proof.
  unfold parse_identifier. intros E. destruct (cur f) as [c h] eqn:Ec.
  pose proof (cur_bounds _ _ _ Ec) as B0.
  apply cur_spec in Ec as (_ & V0 & _ & Hc).
  destruct (is_alpha c) eqn:Ea; simpl in E.
  2:{ injection E as <- <-. apply rule_post_error; auto.
      unfold JSON_STRING_INVALID. lia. }
  destruct (capture_ptr h (fcur h) JSON_TYPE_STRING) as [n1 f1] eqn:E1.
  pose proof (capture_ptr_bounds _ _ _ _ _ E1) as B1.
  pose proof (capture_ptr_cur _ _ _ _ _ E1) as C1.
  apply capture_ptr_evolves in E1 as V1.
  destruct (Z.ltb_spec n1 0).
  { injection E as <- <-. apply rule_post_error; eauto using evolves_trans. }
  destruct (capture_len _ _ _) as [n2 f2] eqn:E2. injection E as <- <-.
  pose proof (capture_len_cur _ _ _ _ _ E2) as C2.
  pose proof (capture_len_bounds _ _ _ _ _ E2) as B2.
  apply capture_len_evolves in E2 as V2.
  match type of V2 with evolves (scan ?p f1) _ =>
    pose proof (scan_evolves p f1) as Vs;
    pose proof (scan_bounds p f1) as Bs;
    set (pr := p) in *
  end.
  split; [eauto using evolves_trans|]. split; [solve [auto]|].
  intros _. split; [reflexivity|]. rewrite C2.
  destruct Hc as [(-> & _)|(-> & Hlt & _)]; [discriminate Ea|].
  unfold scan. simpl.
  destruct (Z.to_nat (fend f1 - fcur f1)) as [|k] eqn:Ek.
  { destruct V0, V1. lia. }
  simpl. destruct V0, V1. rewrite ev_mem1, C1.
  assert (Hp : pr (byte_at (mem h) (fcur h)) = true).
  { subst pr. simpl. rewrite ev_mem0, Ea. rewrite orb_true_r. reflexivity. }
  rewrite Hp.
  pose proof (scan_while_spec pr (mem h) k (fcur h + 1)). lia.
Qed.

Lemma parse_key_post f n g : parse_key f = (n, g) -> rule_post f n g.
Proof.
  unfold parse_key. intros E. destruct (cur f) as [c h] eqn:Ec.
  pose proof (cur_bounds _ _ _ Ec) as B0.
  apply cur_spec in Ec as (_ & V0 & _ & Hc).
  destruct (is_alpha c).
  - destruct (parse_identifier h) as [n1 f1] eqn:E1.
    apply parse_identifier_post in E1 as (V1 & B1 & S1).
    destruct (Z.ltb_spec n1 0); injection E as <- <-.
    + apply rule_post_error; eauto using evolves_trans.
    + split; [eauto using evolves_trans|]. split; [solve [auto]|].
      destruct V0. intros _. split; lia.
  - destruct (c =? QUOTE).
    + destruct (parse_string h) as [n1 f1] eqn:E1.
      apply parse_string_post in E1 as (V1 & B1 & S1).
      destruct (Z.ltb_spec n1 0); injection E as <- <-.
      * apply rule_post_error; eauto using evolves_trans.
      * split; [eauto using evolves_trans|]. split; [solve [auto]|].
        destruct V0. intros _. split; lia.
    + injection E as <- <-. apply rule_post_error; auto.
      unfold JSON_STRING_INCOMPLETE, JSON_STRING_INVALID. break_if; lia.
Qed.

Lemma skip_comma_post f :
  evolves f (skip_comma f) /\ (in_bounds f -> in_bounds (skip_comma f)).
Proof.
  unfold skip_comma. destruct (cur f) as [c h] eqn:Ec.
  pose proof (cur_bounds _ _ _ Ec) as B0.
  apply cur_spec in Ec as (_ & V0 & _ & Hc).
  destruct (Z.eqb_spec c (ch ",")) as [->|]; [|auto].
  split.
  - eapply evolves_trans; [exact V0|]. apply evolves_set_cur. lia.
  - intros Hb. specialize (B0 Hb). destruct V0.
    destruct Hc as [(Hc & _)|(_ & ? & _)]; [discriminate Hc|].
    unfold in_bounds in *. simpl. lia.
Qed.

(** ** The composite rules: where they leave the cursor *)

Lemma try_then_inv e k r :
  try_then e k = Some r ->
  exists n g, e = Some (n, g)
              /\ ((n < 0 /\ r = (n, g)) \/ (0 <= n /\ k g = Some r)).
Proof.
  unfold try_then. destruct e as [[n g]|]; [|discriminate].
  intros H. exists n, g. split; [reflexivity|].
  destruct (Z.ltb_spec n 0); [left|right]; split; auto. congruence.
Qed.

(** [try_step H] splits [H : TRY e THEN f => k = Some r] into the case
    where [e] fails and the case where the rule goes on. *)
Ltac try_step H n g E Hn :=
  apply try_then_inv in H as (n & g & E & [(Hn & H)|(Hn & H)]);
  [ try (injection H as <- <-); try (injection E as E)
  | try (injection E as E) ].

Definition loop_post (f : frozen) (n : Z) (g : frozen) : Prop :=
  evolves f g /\ (in_bounds f -> in_bounds g) /\ (0 <= n -> n = 0).

Lemma rule_post_loop f n g : rule_post f n g -> loop_post f n g.
Proof. intros (? & ? & H). split; [|split]; auto. intros Hn. apply H, Hn. Qed.

Lemma loop_post_seq f g n h :
  evolves f g -> (in_bounds f -> in_bounds g) -> loop_post g n h ->
  loop_post f n h.
Proof.
  intros V B (V' & B' & S). split; [|split]; eauto using evolves_trans.
Qed.

Lemma rule_post_seq f g n h :
  evolves f g -> (in_bounds f -> in_bounds g) -> rule_post g n h ->
  rule_post f n h.
Proof.
  intros V B (V' & B' & S). split; [|split]; eauto using evolves_trans.
  intros Hn. destruct (S Hn). destruct V. split; lia.
Qed.

Lemma rule_post_seq_loop f g n h :
  evolves f g -> (in_bounds f -> in_bounds g) -> fcur f < fcur g ->
  loop_post g n h -> rule_post f n h.
Proof.
  intros V B P (V' & B' & S). split; [|split]; eauto using evolves_trans.
  intros Hn. destruct V'. split; [auto|lia].
Qed.

Lemma compare_left f str k : compare f str k = true -> k <= left f.
Proof.
  unfold compare. destruct (Z.ltb_spec (left f) k); [discriminate|auto].
Qed.

Definition rules_post (fuel : nat) : Prop :=
  (forall f n g, parse_value fuel f = Some (n, g) -> rule_post f n g)
  /\ (forall f n g, parse_array_loop fuel f = Some (n, g) -> loop_post f n g)
  /\ (forall f n g, parse_array fuel f = Some (n, g) -> rule_post f n g)
  /\ (forall f n g, parse_pair fuel f = Some (n, g) -> rule_post f n g)
  /\ (forall f n g, parse_object_loop fuel f = Some (n, g) -> loop_post f n g)
  /\ (forall f n g, parse_object fuel f = Some (n, g) -> rule_post f n g).

Lemma rule_post_ok f n g :
  0 <= n -> rule_post f n g -> rule_post f 0 g.
Proof.
  intros Hn (V & B & S). destruct (S Hn). split; [|split]; auto.
Qed.

Lemma rules_post_all fuel : rules_post fuel.
Proof.
  induction fuel as [|fuel (IHv & IHal & IHa & IHp & IHol & IHo)];
    [unfold rules_post; repeat apply conj; intros f n g H; discriminate H|].
  unfold rules_post. repeat apply conj; intros f n g H; unfold_rules.
  - (* parse_value *)
    destruct (cur f) as [c h] eqn:Ec.
    pose proof (cur_bounds _ _ _ Ec) as B0.
    pose proof (cur_idem _ _ _ Ec) as Ei.
    apply cur_spec in Ec as (_ & V0 & _ & Hc).
    apply (rule_post_seq f h); auto. clear V0 B0 Hc f.
    repeat head_if.
    + try_step H n1 f1 E1 Hn1; [|injection H as <- <-];
        apply parse_string_post in E1; eauto using rule_post_ok.
    + try_step H n1 f1 E1 Hn1; [|injection H as <- <-];
        apply IHo in E1; eauto using rule_post_ok.
    + try_step H n1 f1 E1 Hn1; [|injection H as <- <-];
        apply IHa in E1; eauto using rule_post_ok.
    + apply andb_prop in Heqb2 as [_ Hcmp]. apply compare_left in Hcmp.
      assert (in_bounds h -> fcur h + 4 <= fend h)
        by (intros Hb; pose proof (left_le _ Hb); lia).
      try_step H n1 f1 E1 Hn1; [|injection H as <- <-];
        apply parse_literal_post in E1; eauto using rule_post_ok; lia.
    + apply andb_prop in Heqb3 as [_ Hcmp]. apply compare_left in Hcmp.
      assert (in_bounds h -> fcur h + 4 <= fend h)
        by (intros Hb; pose proof (left_le _ Hb); lia).
      try_step H n1 f1 E1 Hn1; [|injection H as <- <-];
        apply parse_literal_post in E1; eauto using rule_post_ok; lia.
    + apply andb_prop in Heqb4 as [_ Hcmp]. apply compare_left in Hcmp.
      assert (in_bounds h -> fcur h + 5 <= fend h)
        by (intros Hb; pose proof (left_le _ Hb); lia).
      try_step H n1 f1 E1 Hn1; [|injection H as <- <-];
        apply parse_literal_post in E1; eauto using rule_post_ok; lia.
    + try_step H n1 f1 E1 Hn1; [|injection H as <- <-];
        eapply parse_number_post in E1; eauto using rule_post_ok.
    + injection H as <- <-. apply rule_post_error; auto using evolves_refl.
      unfold JSON_STRING_INCOMPLETE, JSON_STRING_INVALID. break_if; lia.
  - (* parse_array_loop *)
    destruct (cur f) as [c h] eqn:Ec.
    pose proof (cur_bounds _ _ _ Ec) as B0.
    apply cur_spec in Ec as (_ & V0 & _ & Hc).
    apply (loop_post_seq f h); auto. clear V0 B0 Hc f.
    head_if.
    + try_step H n1 f1 E1 Hn1.
      * apply rule_post_loop. eauto.
      * apply IHv in E1 as (V1 & B1 & _).
        destruct (skip_comma_post f1) as [V2 B2].
        apply IHal in H.
        eapply loop_post_seq; [exact V1|exact B1|].
        eapply loop_post_seq; [exact V2|exact B2|exact H].
    + injection H as <- <-. split; [|split]; auto using evolves_refl.
  - (* parse_array *)
    assert (Hx : forall x, x = ch "[" \/ x = ch "]" -> x <> END_OF_STRING)
      by (intros x [->| ->]; discriminate).
    try_step H n1 f1 E1 Hn1;
      pose proof (test_and_skip_bounds _ _ _ _ (Hx _ (or_introl eq_refl)) E1)
        as B1;
      apply test_and_skip_spec in E1 as [V1 S1]; auto;
      [apply rule_post_error; auto|].
    destruct (S1 Hn1) as (_ & P1 & _). clear S1.
    apply (rule_post_seq_loop f f1); auto.
    try_step H n2 f2 E2 Hn2;
      pose proof (capture_ptr_bounds _ _ _ _ _ E2) as B2;
      apply capture_ptr_evolves in E2 as V2;
      [split; [|split]; auto; intros; lia|].
    apply (loop_post_seq f1 f2); auto.
    try_step H n3 f3 E3 Hn3; apply IHal in E3 as (V3 & B3 & S3);
      [split; [|split]; auto; intros; lia|].
    apply (loop_post_seq f2 f3); auto.
    try_step H n4 f4 E4 Hn4;
      pose proof (test_and_skip_bounds _ _ _ _ (Hx _ (or_intror eq_refl)) E4)
        as B4;
      apply test_and_skip_spec in E4 as [V4 S4]; auto;
      [split; [|split]; auto; intros; lia|].
    apply (loop_post_seq f3 f4); auto.
    destruct (capture_len f4 _ _) as [n5 f5] eqn:E5. injection H as <- <-.
    pose proof (capture_len_bounds _ _ _ _ _ E5) as B5.
    apply capture_len_evolves in E5 as V5.
    split; [|split]; auto.
  - (* parse_pair *)
    try_step H n1 f1 E1 Hn1; apply parse_key_post in E1; [exact E1|].
    destruct E1 as (V1 & B1 & S1). destruct (S1 Hn1) as [_ P1].
    apply (rule_post_seq f f1); auto.
    assert (Hx : ch ":" <> END_OF_STRING) by discriminate.
    try_step H n2 f2 E2 Hn2;
      pose proof (test_and_skip_bounds _ _ _ _ Hx E2) as B2;
      apply test_and_skip_spec in E2 as [V2 S2]; auto;
      [apply rule_post_error; auto|].
    apply (rule_post_seq f1 f2); auto.
    try_step H n3 f3 E3 Hn3; apply IHv in E3; [exact E3|].
    injection H as <- <-. eauto using rule_post_ok.
  - (* parse_object_loop *)
    destruct (cur f) as [c h] eqn:Ec.
    pose proof (cur_bounds _ _ _ Ec) as B0.
    apply cur_spec in Ec as (_ & V0 & _ & Hc).
    apply (loop_post_seq f h); auto.
    head_if.
    + try_step H n1 f1 E1 Hn1.
      * apply rule_post_loop. eauto.
      * apply IHp in E1 as (V1 & B1 & _).
        destruct (skip_comma_post f1) as [V2 B2].
        apply IHol in H.
        eapply loop_post_seq; [exact V1|exact B1|].
        eapply loop_post_seq; [exact V2|exact B2|exact H].
    + injection H as <- <-. split; [|split]; auto using evolves_refl.
  - (* parse_object *)
    assert (Hx : forall x, x = ch "{" \/ x = ch "}" -> x <> END_OF_STRING)
      by (intros x [->| ->]; discriminate).
    try_step H n1 f1 E1 Hn1;
      pose proof (test_and_skip_bounds _ _ _ _ (Hx _ (or_introl eq_refl)) E1)
        as B1;
      apply test_and_skip_spec in E1 as [V1 S1]; auto;
      [apply rule_post_error; auto|].
    destruct (S1 Hn1) as (_ & P1 & _). clear S1.
    apply (rule_post_seq_loop f f1); auto.
    try_step H n2 f2 E2 Hn2;
      pose proof (capture_ptr_bounds _ _ _ _ _ E2) as B2;
      apply capture_ptr_evolves in E2 as V2;
      [split; [|split]; auto; intros; lia|].
    apply (loop_post_seq f1 f2); auto.
    try_step H n3 f3 E3 Hn3; apply IHol in E3 as (V3 & B3 & S3);
      [split; [|split]; auto; intros; lia|].
    apply (loop_post_seq f2 f3); auto.
    try_step H n4 f4 E4 Hn4;
      pose proof (test_and_skip_bounds _ _ _ _ (Hx _ (or_intror eq_refl)) E4)
        as B4;
      apply test_and_skip_spec in E4 as [V4 S4]; auto;
      [split; [|split]; auto; intros; lia|].
    apply (loop_post_seq f3 f4); auto.
    destruct (capture_len f4 _ _) as [n5 f5] eqn:E5. injection H as <- <-.
    pose proof (capture_len_bounds _ _ _ _ _ E5) as B5.
    apply capture_len_evolves in E5 as V5.
    split; [|split]; auto.
Qed.

(** ** The fuel of [parse_json] suffices *)

(** The number of bytes from the cursor to the end. *)
Definition remaining (f : frozen) : nat := Z.to_nat (fend f - fcur f).

Lemma try_then_some e k :
  is_Some e ->
  (forall n g, e = Some (n, g) -> 0 <= n -> is_Some (k g)) ->
  is_Some (try_then e k).
Proof.
  intros [[n g] ->] H. unfold try_then.
  destruct (Z.ltb_spec n 0); [eexists; reflexivity|]. eapply H; eauto.
Qed.

Lemma evolves_remaining f g : evolves f g -> (remaining g <= remaining f)%nat.
Proof. intros []. unfold remaining. lia. Qed.

Lemma progress_remaining f g :
  evolves f g -> in_bounds g -> fcur f < fcur g ->
  (S (remaining g) <= remaining f)%nat.
Proof. intros [] Hb Hlt. unfold remaining, in_bounds in *. lia. Qed.

Definition fuel_enough_for (fuel : nat) : Prop :=
  (forall f, in_bounds f -> (4 * remaining f + 4 <= fuel)%nat ->
             is_Some (parse_value fuel f))
  /\ (forall f, in_bounds f -> (4 * remaining f + 6 <= fuel)%nat ->
                is_Some (parse_array_loop fuel f))
  /\ (forall f, in_bounds f -> (4 * remaining f + 3 <= fuel)%nat ->
                is_Some (parse_array fuel f))
  /\ (forall f, in_bounds f -> (4 * remaining f + 5 <= fuel)%nat ->
                is_Some (parse_pair fuel f))
  /\ (forall f, in_bounds f -> (4 * remaining f + 6 <= fuel)%nat ->
                is_Some (parse_object_loop fuel f))
  /\ (forall f, in_bounds f -> (4 * remaining f + 3 <= fuel)%nat ->
                is_Some (parse_object fuel f)).

Ltac leaf_some :=
  apply try_then_some; [eexists; reflexivity|]; intros; eexists; reflexivity.

Lemma fuel_enough_rules fuel : fuel_enough_for fuel.
Proof.
  induction fuel as [|fuel (IHv & IHal & IHa & IHp & IHol & IHo)];
    [unfold fuel_enough_for; repeat apply conj; intros; lia|].
  destruct (rules_post_all fuel) as (Pv & Pal & Pa & Pp & Pol & Po).
  unfold fuel_enough_for. repeat apply conj; intros f Hb Hf; unfold_rules.
  - destruct (cur f) as [c h] eqn:Ec.
    pose proof (cur_bounds _ _ _ Ec Hb) as B0.
    apply cur_spec in Ec as (_ & V0 & _ & _).
    apply evolves_remaining in V0.
    repeat match goal with
           | |- context [if ?b then _ else _] => destruct b
           end;
      try leaf_some; try (eexists; reflexivity).
    + apply try_then_some; [apply IHo; [auto|lia]|].
      intros; eexists; reflexivity.
    + apply try_then_some; [apply IHa; [auto|lia]|].
      intros; eexists; reflexivity.
  - destruct (cur f) as [c h] eqn:Ec.
    pose proof (cur_bounds _ _ _ Ec Hb) as B0.
    apply cur_spec in Ec as (_ & V0 & _ & _).
    apply evolves_remaining in V0.
    destruct (negb _); [|eexists; reflexivity].
    apply try_then_some; [apply IHv; [auto|lia]|].
    intros n g E Hn. apply Pv in E as (V1 & B1 & S1).
    destruct (S1 Hn) as [_ P1].
    destruct (skip_comma_post g) as [V2 B2].
    pose proof (progress_remaining _ _ V1 (B1 B0) P1).
    apply evolves_remaining in V2.
    apply IHal; [auto|lia].
  - apply try_then_some; [eexists; reflexivity|]. intros n1 f1 E1 Hn1.
    injection E1 as E1.
    pose proof (test_and_skip_bounds _ _ _ _ (ch_ne_eos _) E1 Hb) as B1.
    apply test_and_skip_spec in E1 as [V1 S1]; [|apply ch_ne_eos].
    destruct (S1 Hn1) as (_ & P1 & _).
    pose proof (progress_remaining _ _ V1 B1 P1).
    apply try_then_some; [eexists; reflexivity|]. intros n2 f2 E2 Hn2.
    injection E2 as E2.
    pose proof (capture_ptr_bounds _ _ _ _ _ E2 B1) as B2.
    apply capture_ptr_evolves, evolves_remaining in E2.
    apply try_then_some; [apply IHal; [auto|lia]|]. intros n3 f3 E3 Hn3.
    apply try_then_some; [eexists; reflexivity|]. intros n4 f4 E4 Hn4.
    destruct (capture_len f4 _ _). eexists; reflexivity.
  - apply try_then_some; [eexists; reflexivity|]. intros n1 f1 E1 Hn1.
    injection E1 as E1. apply parse_key_post in E1 as (V1 & B1 & S1).
    apply evolves_remaining in V1.
    apply try_then_some; [eexists; reflexivity|]. intros n2 f2 E2 Hn2.
    injection E2 as E2.
    pose proof (test_and_skip_bounds _ _ _ _ (ch_ne_eos _) E2 (B1 Hb))
      as B2.
    apply test_and_skip_spec in E2 as [V2 S2]; [|apply ch_ne_eos].
    apply evolves_remaining in V2.
    apply try_then_some; [apply IHv; [auto|lia]|].
    intros; eexists; reflexivity.
  - destruct (cur f) as [c h] eqn:Ec.
    pose proof (cur_bounds _ _ _ Ec Hb) as B0.
    apply cur_spec in Ec as (_ & V0 & _ & _).
    apply evolves_remaining in V0.
    destruct (negb _); [|eexists; reflexivity].
    apply try_then_some; [apply IHp; [auto|lia]|].
    intros n g E Hn. apply Pp in E as (V1 & B1 & S1).
    destruct (S1 Hn) as [_ P1].
    destruct (skip_comma_post g) as [V2 B2].
    pose proof (progress_remaining _ _ V1 (B1 B0) P1).
    apply evolves_remaining in V2.
    apply IHol; [auto|lia].
  - apply try_then_some; [eexists; reflexivity|]. intros n1 f1 E1 Hn1.
    injection E1 as E1.
    pose proof (test_and_skip_bounds _ _ _ _ (ch_ne_eos _) E1 Hb) as B1.
    apply test_and_skip_spec in E1 as [V1 S1]; [|apply ch_ne_eos].
    destruct (S1 Hn1) as (_ & P1 & _).
    pose proof (progress_remaining _ _ V1 B1 P1).
    apply try_then_some; [eexists; reflexivity|]. intros n2 f2 E2 Hn2.
    injection E2 as E2.
    pose proof (capture_ptr_bounds _ _ _ _ _ E2 B1) as B2.
    apply capture_ptr_evolves, evolves_remaining in E2.
    apply try_then_some; [apply IHol; [auto|lia]|]. intros n3 f3 E3 Hn3.
    apply try_then_some; [eexists; reflexivity|]. intros n4 f4 E4 Hn4.
    destruct (capture_len f4 _ _). eexists; reflexivity.
Qed.
Lemma init_in_bounds s s_len arr arr_len :
  0 <= s_len -> in_bounds (init_frozen s s_len arr arr_len).
Proof. unfold in_bounds. simpl. lia. Qed.

Lemma parse_object_fuel_of s s_len arr arr_len :
  0 <= s_len ->
  is_Some (parse_object (fuel_of s_len) (init_frozen s s_len arr arr_len)).
Proof.
  intros H. apply (fuel_enough_rules (fuel_of s_len)).
  - apply init_in_bounds, H.
  - unfold remaining, fuel_of. simpl. lia.
Qed.

(** The fuel of [parse_json] never runs out: the embedding has a result on
    every input. *)
Lemma fuel_enough s s_len arr arr_len :
  is_Some (parse_json s s_len arr arr_len).
Proof.
  unfold parse_json, parse_json_frozen.
  destruct (bool_decide (s = None)); simpl; [eexists; reflexivity|].
  destruct (Z.ltb_spec s_len 0) as [Hlt|Hge]; [eexists; reflexivity|].
  destruct (Z.eqb_spec s_len 0); [eexists; reflexivity|].
  destruct (parse_object_fuel_of s s_len arr arr_len Hge) as [[r f] ->].
  unfold try_then. destruct (r <? 0); [eexists; reflexivity|].
  destruct (capture_ptr f (fcur f) JSON_TYPE_EOF) as [r1 f1].
  destruct (r1 <? 0); [eexists; reflexivity|].
  destruct (capture_len f1 _ _). eexists; reflexivity.
Qed.

(** ** The recorder does not steer the rules *)

(** Two states with the same cursor over the same input. *)
Definition ctl_eq (f g : frozen) : Prop :=
  fend f = fend g /\ fcur f = fcur g /\ mem f = mem g.

Lemma ctl_eq_refl f : ctl_eq f f.
Proof. repeat apply conj; reflexivity. Qed.

Lemma ctl_eq_sym f g : ctl_eq f g -> ctl_eq g f.
Proof. intros (? & ? & ?). repeat apply conj; auto. Qed.

Lemma ctl_eq_trans f g h : ctl_eq f g -> ctl_eq g h -> ctl_eq f h.
Proof. intros (? & ? & ?) (? & ? & ?). repeat apply conj; congruence. Qed.

Lemma ctl_eq_set_cur f g p : ctl_eq f g -> ctl_eq (set_cur f p) (set_cur g p).
Proof. intros (? & ? & ?). repeat apply conj; simpl; auto. Qed.

Lemma ctl_eq_scan p f g : ctl_eq f g -> ctl_eq (scan p f) (scan p g).
Proof.
  intros (E1 & E2 & E3). unfold scan. rewrite E1, E2, E3.
  repeat apply conj; simpl; auto.
Qed.

Lemma ctl_eq_capture_ptr f p ty :
  ctl_eq (snd (capture_ptr f p ty)) f.
Proof.
  unfold capture_ptr. destruct (tokens f); [|apply ctl_eq_refl].
  repeat break_if; simpl; repeat apply conj; reflexivity.
Qed.

Lemma ctl_eq_capture_len f i p :
  ctl_eq (snd (capture_len f i p)) f.
Proof.
  unfold capture_len. destruct (tokens f); [|apply ctl_eq_refl].
  repeat break_if; simpl; repeat apply conj; reflexivity.
Qed.

Lemma ctl_eq_left f g : ctl_eq f g -> left f = left g.
Proof. intros (E1 & E2 & E3). unfold left. rewrite E1, E2. reflexivity. Qed.

Lemma ctl_eq_compare f g str k :
  ctl_eq f g -> compare f str k = compare g str k.
Proof.
  intros H. unfold compare. rewrite (ctl_eq_left _ _ H).
  destruct H as (E1 & E2 & E3). rewrite E2, E3. reflexivity.
Qed.

Lemma ctl_eq_cur f g :
  ctl_eq f g -> fst (cur f) = fst (cur g) /\ ctl_eq (snd (cur f)) (snd (cur g)).
Proof.
  intros H. unfold cur, skip_whitespaces. cbn [fst snd].
  destruct (ctl_eq_scan is_space f g H) as (E1 & E2 & E3).
  rewrite E1, E2, E3. split; [reflexivity|]. repeat apply conj; auto.
Qed.

(** A capture returns 0 or TooManyTokens. *)
Lemma capture_ptr_code f p ty :
  fst (capture_ptr f p ty) = 0
  \/ fst (capture_ptr f p ty) = JSON_TOKEN_ARRAY_TOO_SMALL.
Proof.
  unfold capture_ptr. destruct (tokens f); [|auto].
  repeat break_if; simpl; auto.
Qed.

(** [evolving k]: the rest [k] of a rule lets the state evolve. *)
Definition evolving (k : frozen -> option result) : Prop :=
  forall g n g', k g = Some (n, g') -> evolves g g'.

Lemma evolving_ret : evolving (fun f => Some (0, f)).
Proof. intros g n g' H. injection H as <- <-. apply evolves_refl. Qed.

Lemma evolving_try (e : frozen -> option result) k :
  evolving e -> evolving k -> evolving (fun f => try_then (e f) k).
Proof.
  intros He Hk g n g' H.
  apply try_then_inv in H as (n1 & g1 & E & [(_ & H)|(_ & H)]).
  - injection H as <- <-. eapply He, E.
  - eapply evolves_trans; [eapply He, E|eapply Hk, H].
Qed.

Lemma evolving_leaf (e : frozen -> result) :
  (forall f, evolves f (snd (e f))) -> evolving (fun f => Some (e f)).
Proof.
  intros He g n g' H. injection H as H. specialize (He g).
  rewrite H in He. exact He.
Qed.

Lemma evolving_before (pre : frozen -> frozen) k :
  (forall f, evolves f (pre f)) -> evolving k ->
  evolving (fun f => k (pre f)).
Proof.
  intros Hp Hk g n g' H. eapply evolves_trans; [apply Hp|eapply Hk, H].
Qed.

Lemma evolving_close (ind : Z) :
  evolving (fun f => let (_, f) := capture_len f ind (fcur f) in Some (0, f)).
Proof.
  intros g n g' H. destruct (capture_len g ind (fcur g)) as [r h] eqn:E.
  injection H as <- <-. eapply capture_len_evolves, E.
Qed.

Lemma test_and_skip_evolves f x : evolves f (snd (test_and_skip f x)).
Proof.
  unfold test_and_skip. destruct (cur f) as [c h] eqn:Ec.
  apply cur_spec in Ec as (_ & V & _ & _).
  destruct (c =? x); simpl; [|exact V].
  eapply evolves_trans; [exact V|]. apply evolves_set_cur. lia.
Qed.

Lemma capture_ptr_evolves' f p ty : evolves f (snd (capture_ptr f p ty)).
Proof.
  destruct (capture_ptr f p ty) eqn:E. eapply capture_ptr_evolves, E.
Qed.

Lemma capture_len_evolves' f i p : evolves f (snd (capture_len f i p)).
Proof.
  destruct (capture_len f i p) eqn:E. eapply capture_len_evolves, E.
Qed.

Lemma evolving_try' (e : frozen -> option result)
    (k : frozen -> frozen -> option result) :
  evolving e -> (forall f, evolving (k f)) ->
  evolving (fun f => try_then (e f) (k f)).
Proof.
  intros He Hk g n g' H.
  apply try_then_inv in H as (n1 & g1 & E & [(_ & H)|(_ & H)]).
  - injection H as <- <-. eapply He, E.
  - eapply evolves_trans; [eapply He, E|eapply Hk, H].
Qed.

Lemma evolving_rules fuel :
  evolving (parse_value fuel) /\ evolving (parse_array_loop fuel)
  /\ evolving (parse_array fuel) /\ evolving (parse_pair fuel)
  /\ evolving (parse_object_loop fuel) /\ evolving (parse_object fuel).
Proof.
  destruct (rules_post_all fuel) as (Pv & Pal & Pa & Pp & Pol & Po).
  repeat apply conj; intros g n g' H;
    [apply Pv in H|apply Pal in H|apply Pa in H|apply Pp in H
    |apply Pol in H|apply Po in H]; apply H.
Qed.

Lemma skip_comma_evolves f : evolves f (skip_comma f).
Proof. apply skip_comma_post. Qed.

Ltac evolving_tac :=
  cbv zeta;
  repeat first
    [ apply evolving_ret
    | apply evolving_close
    | assumption
    | apply evolving_try'; [|intros ?]
    | apply evolving_before; [intros ?; apply skip_comma_evolves|]
    | apply evolving_leaf; intros ?
    | apply capture_ptr_evolves'
    | apply test_and_skip_evolves ].

(** A run [f] of a rule is compared with a reference run [g] over the same
    input and with the same cursor.  [RR] relates the recorders of the two
    runs; it is kept by every capture, unless the capture fails in [f] with
    TooManyTokens, and then [Fail] holds of the reference. *)
Section recorder.

Variable RR : frozen -> frozen -> Prop.
Variable Fail : frozen -> Prop.

Hypothesis RR_set_cur :
  forall f g p q, RR f g -> RR (set_cur f p) (set_cur g q).
Hypothesis RR_ptr :
  forall f g p ty, RR f g -> fst (capture_ptr g p ty) = 0 ->
    (fst (capture_ptr f p ty) = 0
     /\ RR (snd (capture_ptr f p ty)) (snd (capture_ptr g p ty)))
    \/ (fst (capture_ptr f p ty) = JSON_TOKEN_ARRAY_TOO_SMALL
        /\ Fail (snd (capture_ptr g p ty))).
Hypothesis RR_len :
  forall f g i j p, RR f g ->
    RR (snd (capture_len f i p)) (snd (capture_len g j p)).
Hypothesis Fail_evolves : forall g g', Fail g -> evolves g g' -> Fail g'.

Definition related (f g : frozen) : Prop := ctl_eq f g /\ RR f g.

(** The run returned [rf] where the reference returned [n] in [g']. *)
Definition follows (rf : result) (n : Z) (g' : frozen) : Prop :=
  (fst rf = n /\ related (snd rf) g')
  \/ (fst rf = JSON_TOKEN_ARRAY_TOO_SMALL /\ Fail g').

Lemma related_set_cur f g p :
  related f g -> related (set_cur f p) (set_cur g p).
Proof. intros [H1 H2]. split; [apply ctl_eq_set_cur, H1|apply RR_set_cur, H2]. Qed.

Lemma related_scan p f g : related f g -> related (scan p f) (scan p g).
Proof. intros [H1 H2]. split; [apply ctl_eq_scan, H1|apply RR_set_cur, H2]. Qed.

Lemma related_cur f g :
  related f g ->
  fst (cur f) = fst (cur g) /\ related (snd (cur f)) (snd (cur g)).
Proof.
  intros [H1 H2]. destruct (ctl_eq_cur f g H1) as [E1 E2].
  split; [exact E1|]. split; [exact E2|]. apply RR_set_cur, H2.
Qed.

Lemma related_capture_len f g i j p :
  related f g -> related (snd (capture_len f i p)) (snd (capture_len g j p)).
Proof.
  intros [H1 H2]. split; [|apply RR_len, H2].
  eapply ctl_eq_trans; [apply ctl_eq_capture_len|].
  eapply ctl_eq_trans; [exact H1|]. apply ctl_eq_sym, ctl_eq_capture_len.
Qed.

Lemma related_capture_ptr f g p ty :
  related f g -> fst (capture_ptr g p ty) <> JSON_TOKEN_ARRAY_TOO_SMALL ->
  follows (capture_ptr f p ty) 0 (snd (capture_ptr g p ty))
  /\ fst (capture_ptr g p ty) = 0.
Proof.
  intros [H1 H2] Hn.
  destruct (capture_ptr_code g p ty) as [E|E]; [|contradiction].
  split; [|exact E].
  destruct (RR_ptr f g p ty H2 E) as [[E1 R1]|[E1 F1]].
  - left. split; [exact E1|]. split; [|exact R1].
    eapply ctl_eq_trans; [apply ctl_eq_capture_ptr|].
    eapply ctl_eq_trans; [exact H1|]. apply ctl_eq_sym, ctl_eq_capture_ptr.
  - right. split; assumption.
Qed.

(** A leaf rule of [f] follows the one of [g]. *)
Definition leaf_follows (lf lg : result) : Prop :=
  fst lg <> JSON_TOKEN_ARRAY_TOO_SMALL -> follows lf (fst lg) (snd lg).

Lemma test_and_skip_related f g x :
  related f g ->
  fst (test_and_skip f x) = fst (test_and_skip g x)
  /\ related (snd (test_and_skip f x)) (snd (test_and_skip g x)).
Proof.
  intros H. unfold test_and_skip.
  destruct (related_cur f g H) as [Ec Hr].
  destruct (cur f) as [c h], (cur g) as [c' h']. simpl in Ec, Hr. subst c'.
  destruct (c =? x); simpl.
  - split; [reflexivity|]. pose proof Hr as [(_ & E & _) _].
    rewrite E. apply related_set_cur, Hr.
  - split; [reflexivity|exact Hr].
Qed.

(** The capture that opens a token, and the rest of the leaf rule. *)
Lemma follows_open f g p ty (kf kg : frozen -> result) :
  related f g ->
  (forall f1 g1, related f1 g1 -> leaf_follows (kf f1) (kg g1)) ->
  (forall g1, evolves g1 (snd (kg g1))) ->
  leaf_follows
    (let (r, f1) := capture_ptr f p ty in if r <? 0 then (r, f1) else kf f1)
    (let (r, g1) := capture_ptr g p ty in if r <? 0 then (r, g1) else kg g1).
Proof.
  intros Hrel Hk Hev Hn.
  destruct (capture_ptr_code g p ty) as [E|E].
  - destruct (related_capture_ptr f g p ty Hrel) as [Hf _];
      [rewrite E; discriminate|].
    destruct (capture_ptr g p ty) as [r g1]. simpl in E, Hf. subst r.
    simpl in Hn |- *.
    destruct (capture_ptr f p ty) as [r f1].
    destruct Hf as [[E1 R1]|[E1 F1]]; simpl in *; subst r; simpl.
    + apply Hk; assumption.
    + right. split; [reflexivity|]. eapply Fail_evolves; [exact F1|apply Hev].
  - destruct (capture_ptr g p ty) as [r g1]. simpl in E. subst r.
    simpl in Hn. contradiction.
Qed.

Lemma parse_literal_follows f g ty k :
  0 <= k ->
  related f g -> leaf_follows (parse_literal f ty k) (parse_literal g ty k).
Proof.
  intros Hk Hrel. unfold parse_literal.
  pose proof Hrel as [(_ & E & _) _]. rewrite E.
  apply follows_open; [exact Hrel| |].
  - intros f1 g1 H1 _. pose proof H1 as [(_ & E1 & _) _].
    left.
    destruct (capture_len (set_cur f1 _) _ _) as [a fa] eqn:Ea.
    destruct (capture_len (set_cur g1 _) _ _) as [b gb] eqn:Eb.
    simpl. split; [reflexivity|].
    change fa with (snd (a, fa)). change gb with (snd (b, gb)).
    rewrite <- Ea, <- Eb. simpl fcur. rewrite E1.
    apply related_capture_len, related_set_cur, H1.
  - intros g1. destruct (capture_len _ _ _) as [b gb] eqn:Eb. simpl.
    eapply evolves_trans; [|eapply capture_len_evolves, Eb].
    apply evolves_set_cur. lia.
Qed.

(** The capture that closes a token. *)
Lemma follows_close f g i j :
  related f g ->
  leaf_follows (let (_, f') := capture_len f i (fcur f) in (0, f'))
               (let (_, g') := capture_len g j (fcur g) in (0, g')).
Proof.
  intros Hrel _. pose proof Hrel as [(_ & E & _) _]. left.
  pose proof (related_capture_len f g i j (fcur g) Hrel) as H.
  rewrite <- E in H at 1.
  destruct (capture_len f i (fcur f)), (capture_len g j (fcur g)).
  simpl in *. split; [reflexivity|exact H].
Qed.

Lemma close_evolves g j :
  evolves g (snd (let (_, g') := capture_len g j (fcur g) in (0, g'))).
Proof.
  destruct (capture_len g j (fcur g)) as [b gb] eqn:Eb. simpl.
  eapply capture_len_evolves, Eb.
Qed.

Lemma parse_number_follows f g :
  related f g -> leaf_follows (parse_number f) (parse_number g).
Proof.
  intros Hrel. unfold parse_number.
  destruct (related_cur f g Hrel) as [Ec Hr].
  destruct (cur f) as [c h], (cur g) as [c' h']. simpl in Ec, Hr. subst c'.
  pose proof Hr as [(_ & E & _) _]. rewrite E.
  apply follows_open; [exact Hr| |].
  - intros f1 g1 H1.
    assert (H2 : related (if c =? ch "-" then set_cur f1 (fcur f1 + 1) else f1)
                         (if c =? ch "-" then set_cur g1 (fcur g1 + 1) else g1)).
    { destruct (c =? ch "-"); [|exact H1].
      pose proof H1 as [(_ & E1 & _) _]. rewrite E1.
      apply related_set_cur, H1. }
    apply (related_scan is_digit) in H2.
    apply (follows_close _ _ _ _ H2).
  - intros g1. eapply evolves_trans; [|apply close_evolves].
    eapply evolves_trans; [|apply scan_evolves].
    destruct (c =? ch "-"); [apply evolves_set_cur; lia|apply evolves_refl].
Qed.

Lemma parse_identifier_follows f g :
  related f g -> leaf_follows (parse_identifier f) (parse_identifier g).
Proof.
  intros Hrel. unfold parse_identifier.
  destruct (related_cur f g Hrel) as [Ec Hr].
  destruct (cur f) as [c h], (cur g) as [c' h']. simpl in Ec, Hr. subst c'.
  destruct (negb (is_alpha c)).
  { intros _. left. split; [reflexivity|exact Hr]. }
  pose proof Hr as [(_ & E & _) _]. rewrite E.
  apply follows_open; [exact Hr| |].
  - intros f1 g1 H1.
    match goal with |- context [scan ?p f1] =>
      apply (related_scan p) in H1 end.
    apply (follows_close _ _ _ _ H1).
  - intros g1. eapply evolves_trans; [|apply close_evolves].
    apply scan_evolves.
Qed.

Lemma parse_string_loop_related k c f g :
  related f g ->
  fst (parse_string_loop k c f) = fst (parse_string_loop k c g)
  /\ related (snd (parse_string_loop k c f)) (snd (parse_string_loop k c g)).
Proof.
  revert c f g. induction k as [|k IH]; intros c f g Hrel;
    pose proof Hrel as [(E1 & E2 & E3) _]; simpl;
    rewrite E1, E2.
  - destruct (fcur g <? fend g); simpl; (split; [reflexivity|exact Hrel]).
  - destruct (fcur g <? fend g); [|simpl; split; [reflexivity|exact Hrel]].
    rewrite E3, (ctl_eq_left f g (proj1 Hrel)).
    destruct (negb _); [simpl; split; [reflexivity|exact Hrel]|].
    destruct (_ =? ch "\").
    + destruct (negb _); [simpl; split; [reflexivity|exact Hrel]|].
      apply IH, related_set_cur, Hrel.
    + destruct (_ =? QUOTE).
      * pose proof (related_capture_len f g (num_tokens f - 1)
                      (num_tokens g - 1) (fcur g) Hrel) as H.
        destruct (capture_len f _ _) as [a fa], (capture_len g _ _) as [b gb].
        simpl in *. split; [reflexivity|].
        pose proof H as [(_ & E & _) _]. rewrite E.
        apply related_set_cur, H.
      * apply IH, related_set_cur, Hrel.
Qed.

Lemma parse_string_follows f g :
  related f g -> leaf_follows (parse_string f) (parse_string g).
Proof.
  intros Hrel. unfold parse_string.
  destruct (test_and_skip_related f g QUOTE Hrel) as [En Hr].
  destruct (test_and_skip f QUOTE) as [n h], (test_and_skip g QUOTE) as [n' h'].
  simpl in En, Hr. subst n'.
  destruct (n <? 0).
  { intros _. left. split; [reflexivity|exact Hr]. }
  pose proof Hr as [(_ & E & _) _]. rewrite E.
  apply follows_open; [exact Hr| |].
  - intros f1 g1 H1 _. pose proof H1 as [(E1 & E2 & _) _].
    rewrite E1, E2. left. apply parse_string_loop_related, H1.
  - intros g1. destruct (parse_string_loop _ 0 g1) as [b gb] eqn:Eb.
    eapply parse_string_loop_evolves, Eb.
Qed.

Lemma follows_zero (lf lg : result) :
  leaf_follows lf lg ->
  leaf_follows (let (n, f) := lf in if n <? 0 then (n, f) else (0, f))
               (let (n, g) := lg in if n <? 0 then (n, g) else (0, g)).
Proof.
  destruct lf as [a fa], lg as [b gb]. unfold leaf_follows, follows. simpl.
  intros H Hb.
  assert (Hb' : b <> JSON_TOKEN_ARRAY_TOO_SMALL).
  { destruct (Z.ltb_spec b 0); [exact Hb|].
    unfold JSON_TOKEN_ARRAY_TOO_SMALL. lia. }
  destruct (H Hb') as [[-> R]|[-> F]].
  - left. destruct (b <? 0); simpl; split; auto.
  - right. simpl. split; [reflexivity|]. destruct (b <? 0); exact F.
Qed.

Lemma parse_key_follows f g :
  related f g -> leaf_follows (parse_key f) (parse_key g).
Proof.
  intros Hrel. unfold parse_key.
  destruct (related_cur f g Hrel) as [Ec Hr].
  destruct (cur f) as [c h], (cur g) as [c' h']. simpl in Ec, Hr. subst c'.
  destruct (is_alpha c).
  - apply follows_zero, parse_identifier_follows, Hr.
  - destruct (c =? QUOTE).
    + apply follows_zero, parse_string_follows, Hr.
    + intros _. left. split; [reflexivity|exact Hr].
Qed.

Lemma skip_comma_related f g :
  related f g -> related (skip_comma f) (skip_comma g).
Proof.
  intros Hrel. unfold skip_comma.
  destruct (related_cur f g Hrel) as [Ec Hr].
  destruct (cur f) as [c h], (cur g) as [c' h']. simpl in Ec, Hr. subst c'.
  destruct (c =? ch ","); [|exact Hr].
  pose proof Hr as [(_ & E & _) _]. rewrite E. apply related_set_cur, Hr.
Qed.

(** A rule of [f] follows the one of [g]. *)
Definition rule_follows (rule : frozen -> option result) : Prop :=
  forall f g n g', related f g -> rule g = Some (n, g') ->
                   n <> JSON_TOKEN_ARRAY_TOO_SMALL ->
                   exists rf, rule f = Some rf /\ follows rf n g'.

Lemma follows_try (ef eg : option result) (kf kg : frozen -> option result)
    n g' :
  try_then eg kg = Some (n, g') -> n <> JSON_TOKEN_ARRAY_TOO_SMALL ->
  (forall n1 g1, eg = Some (n1, g1) -> n1 <> JSON_TOKEN_ARRAY_TOO_SMALL ->
                 exists rf, ef = Some rf /\ follows rf n1 g1) ->
  evolving kg ->
  (forall f1 g1, related f1 g1 -> kg g1 = Some (n, g') ->
                 exists rf, kf f1 = Some rf /\ follows rf n g') ->
  exists rf, try_then ef kf = Some rf /\ follows rf n g'.
Proof.
  intros H Hn He Hev Hk.
  apply try_then_inv in H as (n1 & g1 & E & [(Hn1 & H)|(Hn1 & H)]).
  - injection H as <- <-. destruct (He _ _ E Hn) as ([a fa] & -> & Hf).
    exists (a, fa). split; [|exact Hf]. unfold try_then.
    destruct Hf as [[Ea _]|[Ea _]]; simpl in Ea; subst a.
    + destruct (Z.ltb_spec n 0); [reflexivity|lia].
    + reflexivity.
  - assert (Hn1' : n1 <> JSON_TOKEN_ARRAY_TOO_SMALL)
      by (unfold JSON_TOKEN_ARRAY_TOO_SMALL; lia).
    destruct (He _ _ E Hn1') as ([a fa] & -> & Hf).
    destruct Hf as [[Ea R]|[Ea F]]; simpl in *; subst a.
    + unfold try_then. destruct (Z.ltb_spec n1 0); [lia|].
      apply (Hk _ _ R H).
    + exists (JSON_TOKEN_ARRAY_TOO_SMALL, fa). split; [reflexivity|].
      right. split; [reflexivity|].
      eapply Fail_evolves; [exact F|]. eapply Hev, H.
Qed.

Lemma follows_try_leaf (lf lg : result) (kf kg : frozen -> option result)
    n g' :
  try_then (Some lg) kg = Some (n, g') -> n <> JSON_TOKEN_ARRAY_TOO_SMALL ->
  leaf_follows lf lg ->
  evolving kg ->
  (forall f1 g1, related f1 g1 -> kg g1 = Some (n, g') ->
                 exists rf, kf f1 = Some rf /\ follows rf n g') ->
  exists rf, try_then (Some lf) kf = Some rf /\ follows rf n g'.
Proof.
  intros H Hn Hl Hev Hk. eapply follows_try; eauto.
  intros n1 g1 E Hn1. injection E as ->. exists lf. split; [reflexivity|].
  apply Hl. exact Hn1.
Qed.

Lemma follows_ret f g :
  related f g -> follows (0, f) 0 g.
Proof. intros H. left. split; [reflexivity|exact H]. Qed.

Lemma test_and_skip_follows f g x :
  related f g -> leaf_follows (test_and_skip f x) (test_and_skip g x).
Proof.
  intros Hrel _. left. apply test_and_skip_related, Hrel.
Qed.

Lemma capture_ptr_follows f g p ty :
  related f g -> leaf_follows (capture_ptr f p ty) (capture_ptr g p ty).
Proof.
  intros Hrel Hn. destruct (related_capture_ptr f g p ty Hrel Hn) as [H E].
  rewrite E. exact H.
Qed.

Lemma follows_close_opt f g i j n g' :
  related f g ->
  (let (_, g1) := capture_len g j (fcur g) in Some (0, g1)) = Some (n, g') ->
  exists rf, (let (_, f1) := capture_len f i (fcur f) in Some (0, f1))
             = Some rf /\ follows rf n g'.
Proof.
  intros Hrel H. pose proof (follows_close f g i j Hrel) as Hc.
  destruct (capture_len f i (fcur f)) as [a fa].
  destruct (capture_len g j (fcur g)) as [b gb].
  injection H as <- <-. eexists. split; [reflexivity|].
  apply Hc. simpl. discriminate.
Qed.

Tactic Notation "follow_leaf" ident(H) constr(lem)
    "as" ident(f1) ident(g1) ident(R) :=
  eapply follows_try_leaf;
  [ exact H | assumption | apply lem; assumption | evolving_tac
  | clear H; intros f1 g1 R H; cbv beta in H |- * ].

Tactic Notation "follow_rule" ident(H) constr(IH)
    "as" ident(f1) ident(g1) ident(R) :=
  eapply follows_try;
  [ exact H | assumption | intros ? ? ? ?; eapply IH; eassumption
  | evolving_tac
  | clear H; intros f1 g1 R H; cbv beta in H |- * ].

Lemma rules_follow fuel :
  rule_follows (parse_value fuel) /\ rule_follows (parse_array_loop fuel)
  /\ rule_follows (parse_array fuel) /\ rule_follows (parse_pair fuel)
  /\ rule_follows (parse_object_loop fuel)
  /\ rule_follows (parse_object fuel).
Proof.
  induction fuel as [|fuel (IHv & IHal & IHa & IHp & IHol & IHo)];
    [repeat apply conj; intros f g n g' _ H; discriminate H|].
  destruct (evolving_rules fuel) as (Ev & Eal & Ea & Ep & Eol & Eo).
  repeat apply conj; intros f g n g' Hrel H Hn; unfold_rules.
  - (* parse_value *)
    destruct (related_cur f g Hrel) as [Ec Hr].
    destruct (cur f) as [c h], (cur g) as [c' h']. simpl in Ec, Hr. subst c'.
    rewrite !(ctl_eq_compare h h' _ _ (proj1 Hr)).
    pose proof Hr as [(E1 & E2 & E3) _]. rewrite E1, E2, E3.
    clear E1 E2 E3 Hrel f g.
    repeat head_if.
    + eapply follows_try_leaf; eauto using parse_string_follows, evolving_ret.
      intros f1 g1 R1 H1. injection H1 as <- <-. eauto using follows_ret.
    + eapply follows_try; eauto using evolving_ret.
      intros f1 g1 R1 H1. injection H1 as <- <-. eauto using follows_ret.
    + eapply follows_try; eauto using evolving_ret.
      intros f1 g1 R1 H1. injection H1 as <- <-. eauto using follows_ret.
    + eapply follows_try_leaf; eauto using evolving_ret.
      * apply parse_literal_follows; [lia|exact Hr].
      * intros f1 g1 R1 H1. injection H1 as <- <-. eauto using follows_ret.
    + eapply follows_try_leaf; eauto using evolving_ret.
      * apply parse_literal_follows; [lia|exact Hr].
      * intros f1 g1 R1 H1. injection H1 as <- <-. eauto using follows_ret.
    + eapply follows_try_leaf; eauto using evolving_ret.
      * apply parse_literal_follows; [lia|exact Hr].
      * intros f1 g1 R1 H1. injection H1 as <- <-. eauto using follows_ret.
    + eapply follows_try_leaf; eauto using parse_number_follows, evolving_ret.
      intros f1 g1 R1 H1. injection H1 as <- <-. eauto using follows_ret.
    + injection H as <- <-. eexists. split; [reflexivity|].
      left. split; [reflexivity|exact Hr].
  - (* parse_array_loop *)
    destruct (related_cur f g Hrel) as [Ec Hr].
    destruct (cur f) as [c h], (cur g) as [c' h']. simpl in Ec, Hr. subst c'.
    head_if.
    + follow_rule H IHv as f1 g1 R1.
      eapply IHal; eauto using skip_comma_related.
    + injection H as <- <-. eauto using follows_ret.
  - (* parse_array *)
    follow_leaf H test_and_skip_follows as f1 g1 R1.
    rewrite (proj1 (proj2 (proj1 R1))).
    follow_leaf H capture_ptr_follows as f2 g2 R2.
    follow_rule H IHal as f3 g3 R3.
    follow_leaf H test_and_skip_follows as f4 g4 R4.
    eapply follows_close_opt; eauto.
  - (* parse_pair *)
    follow_leaf H parse_key_follows as f1 g1 R1.
    follow_leaf H test_and_skip_follows as f2 g2 R2.
    follow_rule H IHv as f3 g3 R3.
    injection H as <- <-. eauto using follows_ret.
  - (* parse_object_loop *)
    destruct (related_cur f g Hrel) as [Ec Hr].
    destruct (cur f) as [c h], (cur g) as [c' h']. simpl in Ec, Hr. subst c'.
    head_if.
    + follow_rule H IHp as f1 g1 R1.
      eapply IHol; eauto using skip_comma_related.
    + injection H as <- <-. eauto using follows_ret.
  - (* parse_object *)
    follow_leaf H test_and_skip_follows as f1 g1 R1.
    rewrite (proj1 (proj2 (proj1 R1))).
    follow_leaf H capture_ptr_follows as f2 g2 R2.
    follow_rule H IHol as f3 g3 R3.
    follow_leaf H test_and_skip_follows as f4 g4 R4.
    eapply follows_close_opt; eauto.
Qed.

Lemma parse_json_follows s s_len af kf ag kg n g' :
  RR (init_frozen s s_len af kf) (init_frozen s s_len ag kg) ->
  parse_json_frozen s s_len ag kg = Some (n, g') ->
  n <> JSON_TOKEN_ARRAY_TOO_SMALL ->
  exists rf, parse_json_frozen s s_len af kf = Some rf /\ follows rf n g'.
Proof.
  intros HR H Hn. unfold parse_json_frozen in *.
  assert (Hrel : related (init_frozen s s_len af kf)
                         (init_frozen s s_len ag kg)).
  { split; [|exact HR]. repeat apply conj; reflexivity. }
  destruct (bool_decide (s = None) || (s_len <? 0)).
  { injection H as <- <-. eexists. split; [reflexivity|].
    left. split; [reflexivity|exact Hrel]. }
  destruct (s_len =? 0).
  { injection H as <- <-. eexists. split; [reflexivity|].
    left. split; [reflexivity|exact Hrel]. }
  destruct (rules_follow (fuel_of s_len)) as (_ & _ & _ & _ & _ & IHo).
  assert (Hlast : forall g n g',
             (let (_, g1) := capture_len g (num_tokens g) (fcur g) in
              Some (to_int (fcur g1 - 0), g1)) = Some (n, g') ->
             evolves g g').
  { intros g n0 g0 H0. destruct (capture_len g _ _) as [b gb] eqn:Eb.
    injection H0 as <- <-. eapply capture_len_evolves, Eb. }
  eapply follows_try; [exact H|exact Hn| | |].
  - intros n1 g1 E Hn1. eapply IHo; eassumption.
  - apply evolving_try'; [apply evolving_leaf; intros; apply capture_ptr_evolves'|].
    intros _ g n0 g0 H0. eapply Hlast, H0.
  - clear H. intros f1 g1 R1 H. cbv beta in H |- *.
    rewrite (proj1 (proj2 (proj1 R1))).
    eapply follows_try_leaf; [exact H|exact Hn| | |].
    + apply capture_ptr_follows, R1.
    + intros g n0 g0 H0. eapply Hlast, H0.
    + clear H. intros f2 g2 R2 H. cbv beta in H |- *.
      pose proof (related_capture_len f2 g2 (num_tokens f2) (num_tokens g2)
                    (fcur g2) R2) as Hc.
      pose proof R2 as [(_ & E & _) _]. rewrite E.
      destruct (capture_len f2 _ _) as [a fa], (capture_len g2 _ _) as [b gb].
      simpl in Hc. injection H as <- <-. eexists. split; [reflexivity|].
      left. split; [|exact Hc]. simpl.
      destruct Hc as [(_ & -> & _) _]. reflexivity.
Qed.

End recorder.

(** ** A recorder that is off *)

(** No token array, or an array of capacity zero. *)
Definition recorder_off (f : frozen) : Prop :=
  tokens f = None \/ max_tokens f = 0.

Lemma capture_ptr_off f p ty : recorder_off f -> capture_ptr f p ty = (0, f).
Proof.
  unfold capture_ptr. intros [H|H]; rewrite H; [reflexivity|].
  destruct (tokens f); reflexivity.
Qed.

Lemma capture_len_off f i p : recorder_off f -> capture_len f i p = (0, f).
Proof.
  unfold capture_len. intros [H|H]; rewrite H; [reflexivity|].
  destruct (tokens f); reflexivity.
Qed.

Lemma evolves_off f g : evolves f g -> recorder_off f -> recorder_off g.
Proof.
  intros [_ _ Emax _ _ _ Elen] [H|H]; [left|right; congruence].
  rewrite H in Elen. destruct (tokens g); [discriminate|reflexivity].
Qed.

(** TooManyTokens comes from a recorder that is on. *)
Definition quiet (r : result) : Prop :=
  fst r = JSON_TOKEN_ARRAY_TOO_SMALL -> ~ recorder_off (snd r).

Definition quiet_rule (e : option result) : Prop :=
  forall r, e = Some r -> quiet r.

Lemma quiet_code n g : n <> JSON_TOKEN_ARRAY_TOO_SMALL -> quiet (n, g).
Proof. intros H E. contradiction. Qed.

Lemma quiet_capture_ptr f p ty : quiet (capture_ptr f p ty).
Proof.
  intros E Hoff. rewrite capture_ptr_off in E; [discriminate E|].
  unfold capture_ptr in *.
  destruct (tokens f) eqn:Et; [|left; exact Et].
  destruct (max_tokens f =? 0) eqn:Em; [right; lia|].
  destruct (num_tokens f >=? max_tokens f); simpl in *; [exact Hoff|].
  discriminate E.
Qed.

Lemma quiet_open f p ty (k : frozen -> result) :
  (forall f1, quiet (k f1)) ->
  quiet (let (r, f1) := capture_ptr f p ty in
         if r <? 0 then (r, f1) else k f1).
Proof.
  intros Hk. pose proof (quiet_capture_ptr f p ty) as H.
  destruct (capture_ptr f p ty) as [r f1].
  destruct (r <? 0); [exact H|apply Hk].
Qed.

Lemma quiet_close f i : quiet (let (_, f') := capture_len f i (fcur f) in (0, f')).
Proof. destruct (capture_len f i (fcur f)). apply quiet_code. discriminate. Qed.

Lemma quiet_test_and_skip f x : quiet (test_and_skip f x).
Proof.
  unfold test_and_skip. destruct (cur f) as [c h].
  repeat break_if; apply quiet_code; discriminate.
Qed.

Lemma quiet_parse_string_loop k c f : quiet (parse_string_loop k c f).
Proof.
  revert c f. induction k as [|k IH]; intros c f; simpl.
  - repeat break_if; apply quiet_code; discriminate.
  - destruct (fcur f <? fend f); [|break_if; apply quiet_code; discriminate].
    destruct (negb _); [apply quiet_code; discriminate|].
    destruct (_ =? ch "\").
    + destruct (get_escape_len_cases (mem f) (fcur f + 1) (left f))
        as [E|[E|(E & _)]]; rewrite E; simpl;
        [apply quiet_code; discriminate..|apply IH].
    + destruct (_ =? QUOTE); [|apply IH].
      destruct (capture_len f _ _). simpl. apply quiet_code. discriminate.
Qed.

Lemma quiet_parse_string f : quiet (parse_string f).
Proof.
  unfold parse_string. pose proof (quiet_test_and_skip f QUOTE) as H.
  destruct (test_and_skip f QUOTE) as [n h]. destruct (n <? 0); [exact H|].
  apply quiet_open. intros f1. apply quiet_parse_string_loop.
Qed.

Lemma quiet_parse_literal f ty k : quiet (parse_literal f ty k).
Proof.
  unfold parse_literal. apply quiet_open. intros f1.
  destruct (capture_len _ _ _). apply quiet_code. discriminate.
Qed.

Lemma quiet_parse_number f : quiet (parse_number f).
Proof.
  unfold parse_number. destruct (cur f) as [c h]. apply quiet_open.
  intros f1. destruct (capture_len _ _ _). apply quiet_code. discriminate.
Qed.

Lemma quiet_parse_identifier f : quiet (parse_identifier f).
Proof.
  unfold parse_identifier. destruct (cur f) as [c h].
  destruct (negb _); [apply quiet_code; discriminate|].
  apply quiet_open.
  intros f1. destruct (capture_len _ _ _). apply quiet_code. discriminate.
Qed.

Lemma quiet_zero (r : result) :
  quiet r -> quiet (let (n, f) := r in if n <? 0 then (n, f) else (0, f)).
Proof.
  destruct r as [n f]. intros H. destruct (n <? 0); [exact H|].
  apply quiet_code. discriminate.
Qed.

Lemma quiet_parse_key f : quiet (parse_key f).
Proof.
  unfold parse_key. destruct (cur f) as [c h].
  destruct (is_alpha c); [apply quiet_zero, quiet_parse_identifier|].
  destruct (c =? QUOTE); [apply quiet_zero, quiet_parse_string|].
  break_if; apply quiet_code; discriminate.
Qed.

Lemma quiet_try e k :
  quiet_rule e -> (forall f, quiet_rule (k f)) -> quiet_rule (try_then e k).
Proof.
  intros He Hk [n g] H.
  apply try_then_inv in H as (n1 & g1 & E & [(_ & H)|(_ & H)]).
  - rewrite H. apply He, E.
  - eapply Hk, H.
Qed.

Lemma quiet_leaf (r : result) : quiet r -> quiet_rule (Some r).
Proof. intros H r' E. injection E as <-. exact H. Qed.

Lemma quiet_ret n f : n <> JSON_TOKEN_ARRAY_TOO_SMALL -> quiet_rule (Some (n, f)).
Proof. intros H. apply quiet_leaf, quiet_code, H. Qed.

Lemma quiet_close_opt f i :
  quiet_rule (let (_, f') := capture_len f i (fcur f) in Some (0, f')).
Proof. destruct (capture_len f i (fcur f)). apply quiet_ret. discriminate. Qed.

Ltac quiet_tac :=
  cbv zeta;
  repeat first
    [ apply quiet_close_opt
    | apply quiet_ret; discriminate
    | apply quiet_try; [|intros ?]
    | apply quiet_leaf
    | apply quiet_test_and_skip | apply quiet_capture_ptr
    | apply quiet_parse_string | apply quiet_parse_literal
    | apply quiet_parse_number | apply quiet_parse_key
    | match goal with IH : forall f, quiet_rule (?rule f) |- quiet_rule (?rule _) =>
        apply IH end ].

Lemma quiet_rules fuel :
  (forall f, quiet_rule (parse_value fuel f))
  /\ (forall f, quiet_rule (parse_array_loop fuel f))
  /\ (forall f, quiet_rule (parse_array fuel f))
  /\ (forall f, quiet_rule (parse_pair fuel f))
  /\ (forall f, quiet_rule (parse_object_loop fuel f))
  /\ (forall f, quiet_rule (parse_object fuel f)).
Proof.
  induction fuel as [|fuel (IHv & IHal & IHa & IHp & IHol & IHo)];
    [repeat apply conj; intros f r H; discriminate H|].
  repeat apply conj; intros f; unfold_rules.
  - destruct (cur f) as [c h].
    repeat match goal with
           | |- quiet_rule (if ?b then _ else _) => destruct b
           end; try solve [quiet_tac].
    break_if; apply quiet_ret; discriminate.
  - destruct (cur f) as [c h]. destruct (negb _); quiet_tac.
  - quiet_tac.
  - quiet_tac.
  - destruct (cur f) as [c h]. destruct (negb _); quiet_tac.
  - quiet_tac.
Qed.

Lemma parse_json_frozen_evolves s s_len arr arr_len n f :
  parse_json_frozen s s_len arr arr_len = Some (n, f) ->
  evolves (init_frozen s s_len arr arr_len) f.
Proof.
  unfold parse_json_frozen. intros H.
  destruct (bool_decide (s = None) || (s_len <? 0));
    [injection H as <- <-; apply evolves_refl|].
  destruct (s_len =? 0); [injection H as <- <-; apply evolves_refl|].
  destruct (evolving_rules (fuel_of s_len)) as (_ & _ & _ & _ & _ & Eo).
  revert H. generalize (init_frozen s s_len arr arr_len). intros f0 H.
  apply try_then_inv in H as (n1 & f1 & E1 & [(_ & H)|(_ & H)]);
    apply Eo in E1; [injection H as <- <-; exact E1|].
  apply try_then_inv in H as (n2 & f2 & E2 & [(_ & H)|(_ & H)]);
    injection E2 as E2; apply capture_ptr_evolves in E2;
    [injection H as <- <-; eauto using evolves_trans|].
  destruct (capture_len f2 _ _) as [n3 f3] eqn:E3. injection H as <- <-.
  apply capture_len_evolves in E3. eauto using evolves_trans.
Qed.

(** [parse_json] returns the final cursor, which lies in the input, or a
    negative value. *)
Lemma parse_json_frozen_cases s s_len arr arr_len n f :
  parse_json_frozen s s_len arr arr_len = Some (n, f) ->
  s_len <= INT_MAX ->
  (n = fcur f /\ 0 <= fcur f <= s_len) \/ (n < 0 /\ quiet (n, f)).
Proof.
  unfold parse_json_frozen. intros H Hmax.
  destruct (bool_decide (s = None)); cbn [orb] in H;
    [injection H as <- <-; right; split;
     [reflexivity|apply quiet_code; discriminate]|].
  destruct (Z.ltb_spec s_len 0) as [Hlt|Hs];
    [injection H as <- <-; right; split;
     [reflexivity|apply quiet_code; discriminate]|].
  destruct (Z.eqb_spec s_len 0);
    [injection H as <- <-; right; split;
     [reflexivity|apply quiet_code; discriminate]|].
  destruct (rules_post_all (fuel_of s_len)) as (_ & _ & _ & _ & _ & Po).
  destruct (quiet_rules (fuel_of s_len)) as (_ & _ & _ & _ & _ & Qo).
  pose proof (init_in_bounds s s_len arr arr_len Hs) as B0.
  assert (Hend : fend (init_frozen s s_len arr arr_len) = s_len) by reflexivity.
  revert H B0 Hend. generalize (init_frozen s s_len arr arr_len).
  intros f0 H B0 Hend.
  apply try_then_inv in H as (n1 & f1 & E1 & [(Hn1 & H)|(_ & H)]);
    [injection H as <- <-; right; split; [exact Hn1|eapply Qo, E1]|].
  apply Po in E1 as (V1 & B1 & _). specialize (B1 B0).
  apply try_then_inv in H as (n2 & f2 & E2 & [(Hn2 & H)|(_ & H)]).
  { injection H as <- <-. right. split; [exact Hn2|].
    injection E2 as E2. rewrite <- E2. apply quiet_capture_ptr. }
  injection E2 as E2. pose proof (capture_ptr_bounds _ _ _ _ _ E2 B1) as B2.
  apply capture_ptr_evolves in E2 as V2.
  destruct (capture_len f2 _ _) as [n3 f3] eqn:E3. injection H as <- <-.
  pose proof (capture_len_bounds _ _ _ _ _ E3 B2) as B3.
  apply capture_len_evolves in E3 as V3.
  destruct V1, V2, V3. unfold in_bounds in B3.
  assert (fend f3 = s_len) by congruence.
  rewrite to_int_small by (unfold INT_MAX in *; lia). left. lia.
Qed.

(** ** The same rules over another end and another memory *)

(** [cur] stops at the first byte that is not white space. *)
Lemma cur_at f q :
  fcur f <= q < fend f ->
  (forall i, fcur f <= i < q -> is_space (byte_at (mem f) i) = true) ->
  is_space (byte_at (mem f) q) = false ->
  cur f = (byte_at (mem f) q, set_cur f q).
Proof.
  intros Hq Hws Hc. unfold cur, skip_whitespaces, scan.
  rewrite (scan_while_unique is_space (mem f) _ (fcur f) q);
    [|lia|exact Hws|intros; exact Hc].
  simpl. destruct (Z.geb_spec q (fend f)); [lia|reflexivity].
Qed.

(** A predicate on bytes that does not tell a comma from a space. *)
Definition comma_blind (p : Z -> bool) : Prop := p (ch ",") = p (ch " ").

Lemma is_digit_comma_blind : comma_blind is_digit.
Proof. reflexivity. Qed.

Lemma ident_comma_blind :
  comma_blind (fun c => (c =? ch "_") || is_alpha c || is_digit c).
Proof. reflexivity. Qed.

(** The first byte of a value and of a pair. *)
Lemma parse_value_first fuel f n g c h :
  parse_value fuel f = Some (n, g) -> 0 <= n -> cur f = (c, h) ->
  c <> ch "," /\ c <> END_OF_STRING.
Proof.
  destruct fuel as [|fuel]; [discriminate|]. rewrite parse_value_S.
  intros H Hn Ec. rewrite Ec in H.
  split; intros ->; vm_compute in H; injection H as <- _; lia.
Qed.

Lemma parse_key_first f n g c h :
  parse_key f = (n, g) -> 0 <= n -> cur f = (c, h) ->
  c <> ch "," /\ c <> END_OF_STRING.
Proof.
  unfold parse_key. intros H Hn Ec. rewrite Ec in H.
  split; intros ->; vm_compute in H; injection H as <- _; lia.
Qed.

Lemma parse_pair_first fuel f n g c h :
  parse_pair fuel f = Some (n, g) -> 0 <= n -> cur f = (c, h) ->
  c <> ch "," /\ c <> END_OF_STRING.
Proof.
  destruct fuel as [|fuel]; [discriminate|]. rewrite parse_pair_S.
  intros H Hn Ec.
  apply try_then_inv in H as (n1 & f1 & E1 & [(Hn1 & H)|(Hn1 & _)]).
  - injection H as <- <-. lia.
  - injection E1 as E1. eapply parse_key_first; eauto.
Qed.

Lemma parse_array_loop_first fuel f n g c h :
  parse_array_loop fuel f = Some (n, g) -> 0 <= n -> cur f = (c, h) ->
  c <> ch "," /\ fcur h <= fcur g.
Proof.
  destruct fuel as [|fuel]; [discriminate|]. rewrite parse_array_loop_S.
  intros H Hn Ec. rewrite Ec in H.
  destruct (rules_post_all fuel) as (Pv & Pal & _).
  destruct (Z.eqb_spec c (ch "]")) as [->|Hne]; cbn [negb] in H.
  - injection H as <- <-. split; [discriminate|lia].
  - apply try_then_inv in H as (n1 & g1 & E1 & [(Hn1 & H)|(Hn1 & H)]);
      [injection H as <- <-; lia|].
    split.
    + eapply parse_value_first; [exact E1|exact Hn1|].
      eapply cur_idem, Ec.
    + apply Pv in E1 as ([_ _ _ V1 _ _ _] & _).
      apply Pal in H as ([_ _ _ V2 _ _ _] & _).
      destruct (skip_comma_evolves g1) as [_ _ _ V3 _ _ _]. lia.
Qed.

Lemma parse_object_loop_first fuel f n g c h :
  parse_object_loop fuel f = Some (n, g) -> 0 <= n -> cur f = (c, h) ->
  c <> ch "," /\ fcur h <= fcur g.
Proof.
  destruct fuel as [|fuel]; [discriminate|]. rewrite parse_object_loop_S.
  intros H Hn Ec. rewrite Ec in H.
  destruct (rules_post_all fuel) as (_ & _ & _ & Pp & Pol & _).
  destruct (Z.eqb_spec c (ch "}")) as [->|Hne]; cbn [negb] in H.
  - injection H as <- <-. split; [discriminate|lia].
  - apply try_then_inv in H as (n1 & g1 & E1 & [(Hn1 & H)|(Hn1 & H)]);
      [injection H as <- <-; lia|].
    split.
    + eapply parse_pair_first; [exact E1|exact Hn1|].
      eapply cur_idem, Ec.
    + apply Pp in E1 as ([_ _ _ V1 _ _ _] & _).
      apply Pol in H as ([_ _ _ V2 _ _ _] & _).
      destruct (skip_comma_evolves g1) as [_ _ _ V3 _ _ _]. lia.
Qed.

Lemma try_then_ok n g k : 0 <= n -> try_then (Some (n, g)) k = k g.
Proof.
  intros H. unfold try_then. destruct (Z.ltb_spec n 0); [lia|reflexivity].
Qed.

Lemma parse_literal_cur f ty k n g :
  parse_literal f ty k = (n, g) -> 0 <= n -> fcur g = fcur f + k.
Proof.
  unfold parse_literal. intros H Hn.
  destruct (capture_ptr f (fcur f) ty) as [n1 f1] eqn:E1.
  apply capture_ptr_cur in E1.
  destruct (Z.ltb_spec n1 0); [injection H as <- <-; lia|].
  destruct (capture_len _ _ _) as [n2 f2] eqn:E2.
  apply capture_len_cur in E2. injection H as <- <-. simpl in E2. lia.
Qed.

(** The two loops and the two containers are instances of one loop and of
    one container. *)
Definition loop_body (rule loop : frozen -> option result) (close : Z)
    (f : frozen) : option result :=
  let (c, f) := cur f in
  if negb (c =? close) then
    TRY rule f THEN f => loop (skip_comma f)
  else Some (0, f).

Definition container (loop : frozen -> option result) (open close : Z)
    (ty : json_type) (f : frozen) : option result :=
  TRY Some (test_and_skip f open) THEN f =>
  TRY Some (capture_ptr f (fcur f - 1) ty) THEN f =>
  let ind := num_tokens f - 1 in
  TRY loop f THEN f =>
  TRY Some (test_and_skip f close) THEN f =>
  let (_, f) := capture_len f ind (fcur f) in
  Some (0, f).

Lemma parse_array_loop_body fuel :
  parse_array_loop (S fuel)
  = loop_body (parse_value fuel) (parse_array_loop fuel) (ch "]").
Proof. reflexivity. Qed.

Lemma parse_object_loop_body fuel :
  parse_object_loop (S fuel)
  = loop_body (parse_pair fuel) (parse_object_loop fuel) (ch "}").
Proof. reflexivity. Qed.

Lemma parse_array_container fuel :
  parse_array (S fuel)
  = container (parse_array_loop fuel) (ch "[") (ch "]") JSON_TYPE_ARRAY.
Proof. reflexivity. Qed.

Lemma parse_object_container fuel :
  parse_object (S fuel)
  = container (parse_object_loop fuel) (ch "{") (ch "}") JSON_TYPE_OBJECT.
Proof. reflexivity. Qed.

(** What the simulations ask of a loop: its first peek on success. *)
Definition loop_first (loop : frozen -> option result) : Prop :=
  forall f n g c h, loop f = Some (n, g) -> 0 <= n -> cur f = (c, h) ->
                    c <> ch "," /\ fcur h <= fcur g.

Section respell.

(** The reference run goes over [m1] up to [e1], the other over [m2] up to
    [e2].  Below [E] the two memories agree, but that a comma of [m1] may
    be a space in [m2]. *)
Variables m1 m2 : list ascii.
Variables e1 e2 E : Z.

Hypothesis E_le_e1 : E <= e1.
Hypothesis E_le_e2 : E <= e2.
Hypothesis e2_int : e2 <= INT_MAX.
Hypothesis respelt :
  forall i, 0 <= i < E ->
            byte_at m2 i = byte_at m1 i
            \/ (byte_at m1 i = ch "," /\ byte_at m2 i = ch " ").

(** A state of the reference run. *)
Definition src (f : frozen) : Prop :=
  fend f = e1 /\ mem f = m1 /\ in_bounds f.

(** The same state in the other run. *)
Definition rt (f : frozen) : frozen :=
  {| fend := e2; fcur := fcur f; tokens := tokens f;
     max_tokens := max_tokens f; num_tokens := num_tokens f; mem := m2 |}.

Lemma src_evolves f g : src f -> evolves f g -> in_bounds g -> src g.
Proof.
  intros (H1 & H2 & _) [Eend Emem _ _ _ _ _] Hb.
  split; [congruence|]. split; [congruence|exact Hb].
Qed.

Lemma rt_set_cur f p : rt (set_cur f p) = set_cur (rt f) p.
Proof. reflexivity. Qed.

Lemma same_byte i :
  0 <= i < E -> byte_at m1 i <> ch "," -> byte_at m2 i = byte_at m1 i.
Proof. intros Hi Hc. destruct (respelt i Hi) as [H|[H _]]; [exact H|contradiction]. Qed.

Lemma blind_byte p i :
  comma_blind p -> 0 <= i < E -> p (byte_at m2 i) = p (byte_at m1 i).
Proof.
  intros Hp Hi. destruct (respelt i Hi) as [->|[-> ->]]; [reflexivity|].
  symmetry. exact Hp.
Qed.

Lemma space_byte i :
  0 <= i < E -> is_space (byte_at m1 i) = true ->
  is_space (byte_at m2 i) = true.
Proof.
  intros Hi Hs. destruct (respelt i Hi) as [->|[_ ->]]; [exact Hs|reflexivity].
Qed.

Lemma scan_rt p f :
  comma_blind p -> src f -> fcur (scan p f) < E ->
  scan p (rt f) = rt (scan p f).
Proof.
  intros Hp (Hend & Hmem & Hb) Hlt. unfold in_bounds in Hb.
  unfold scan in *. simpl in *. rewrite Hend, Hmem in *.
  destruct (scan_while_spec p m1 (Z.to_nat (e1 - fcur f)) (fcur f))
    as (H1 & H2 & H3).
  rewrite (scan_while_unique p m2 (Z.to_nat (e2 - fcur f)) (fcur f)
             (scan_while p m1 (Z.to_nat (e1 - fcur f)) (fcur f))).
  - reflexivity.
  - lia.
  - intros i Hi. rewrite blind_byte by (auto; lia). apply H2, Hi.
  - intros _. rewrite blind_byte by (auto; lia). apply H3. lia.
Qed.

(** A peek at a byte that is the same in both memories. *)
Lemma cur_rt_same f c g :
  src f -> cur f = (c, g) -> fcur g < E ->
  byte_at m2 (fcur g) = byte_at m1 (fcur g) ->
  cur (rt f) = (c, rt g).
Proof.
  intros (Hend & Hmem & Hb) Ec Hlt Hc. unfold in_bounds in Hb.
  apply cur_spec in Ec as (Eg & [_ _ _ Hcur _ _ _] & Hws & Hcase).
  rewrite Hmem in *. rewrite Hend in *.
  destruct Hcase as [(_ & Hge & _)|(-> & Hlt1 & Hsp)]; [lia|].
  rewrite <- Hc in *.
  rewrite Eg at 2. rewrite rt_set_cur.
  apply cur_at; simpl.
  - lia.
  - intros i Hi. apply space_byte; [lia|]. apply Hws. lia.
  - exact Hsp.
Qed.

(** A peek that does not meet a comma is the same in both runs. *)
Lemma cur_rt f c g :
  src f -> cur f = (c, g) -> fcur g < E -> c <> ch "," ->
  cur (rt f) = (c, rt g).
Proof.
  intros Hsrc Ec Hlt Hc. apply cur_rt_same; auto.
  pose proof Hsrc as (Hend & Hmem & Hb). unfold in_bounds in Hb.
  apply cur_spec in Ec as (_ & [_ _ _ Hcur _ _ _] & _ & Hcase).
  rewrite Hmem, Hend in *.
  destruct Hcase as [(_ & Hge & _)|(-> & _ & _)]; [lia|].
  apply same_byte; [lia|exact Hc].
Qed.

Lemma test_and_skip_rt f x n g :
  src f -> x <> END_OF_STRING -> x <> ch "," ->
  test_and_skip f x = (n, g) -> 0 <= n -> fcur g <= E ->
  test_and_skip (rt f) x = (n, rt g).
Proof.
  intros Hsrc Hx Hx' H Hn Hle. unfold test_and_skip in *.
  destruct (cur f) as [c h] eqn:Ec.
  destruct (Z.eqb_spec c x) as [->|Hne].
  - injection H as <- <-. simpl in Hle.
    rewrite (cur_rt f x h Hsrc Ec) by (auto; lia).
    rewrite Z.eqb_refl. reflexivity.
  - injection H as <- <-. exfalso.
    unfold JSON_STRING_INCOMPLETE, JSON_STRING_INVALID in Hn.
    destruct (c =? END_OF_STRING); lia.
Qed.

Lemma capture_ptr_rt f p ty :
  capture_ptr (rt f) p ty
  = (fst (capture_ptr f p ty), rt (snd (capture_ptr f p ty))).
Proof.
  unfold capture_ptr. simpl. destruct (tokens f); [|reflexivity].
  repeat break_if; reflexivity.
Qed.

Lemma capture_len_rt f i p :
  capture_len (rt f) i p
  = (fst (capture_len f i p), rt (snd (capture_len f i p))).
Proof.
  unfold capture_len. simpl. destruct (tokens f); [|reflexivity].
  repeat break_if; reflexivity.
Qed.

Lemma left_rt f : src f -> fcur f <= E -> left (rt f) = e2 - fcur f.
Proof.
  intros (_ & _ & Hb) Hle. unfold in_bounds in Hb. unfold left. simpl.
  apply to_int_small. unfold INT_MAX in *. lia.
Qed.

Lemma compare_loop_rt c str i :
  0 <= c + i -> c + i + Z.of_nat (length str) <= E ->
  Forall (fun x => x <> ","%char) str ->
  compare_loop m1 c str i = i + Z.of_nat (length str) ->
  compare_loop m2 c str i = i + Z.of_nat (length str).
Proof.
  revert i. induction str as [|x str IH]; intros i H0 HE Hstr H;
    [simpl; lia|].
  cbn [compare_loop length] in *. rewrite Nat2Z.inj_succ in *.
  inversion Hstr as [|? ? Hx Hstr']; subst.
  destruct (Z.eqb_spec (byte_at m1 (c + i)) (ch x)) as [Eb|Eb]; [|lia].
  rewrite same_byte; [|lia|].
  - rewrite Eb, Z.eqb_refl.
    replace (i + Z.succ (Z.of_nat (length str)))
      with (i + 1 + Z.of_nat (length str)) in * by lia.
    apply IH; auto; lia.
  - rewrite Eb. intros Ex. apply ch_inj in Ex. contradiction.
Qed.

Lemma compare_loop_le m c str i : compare_loop m c str i <= i + Z.of_nat (length str).
Proof.
  revert i. induction str as [|x str IH]; intros i; simpl; [lia|].
  destruct (_ =? _); [|lia]. specialize (IH (i + 1)). lia.
Qed.

Lemma compare_rt f str k :
  src f -> Z.of_nat (String.length str) = k ->
  Forall (fun x => x <> ","%char) (list_ascii_of_string str) ->
  compare f str k = true -> fcur f + k <= E ->
  compare (rt f) str k = true.
Proof.
  intros Hsrc Hk Hstr H Hle. pose proof Hsrc as (Hend & Hmem & Hb).
  unfold in_bounds in Hb. unfold compare in *.
  rewrite left_rt by (auto; lia). simpl.
  destruct (Z.ltb_spec (e2 - fcur f) k); [lia|].
  destruct (left f <? k); [discriminate|]. rewrite Hmem in H.
  assert (Hlen : length (list_ascii_of_string str) = Z.to_nat k).
  { rewrite <- Hk, Nat2Z.id. clear. induction str; simpl; auto. }
  rewrite take_ge in * by lia.
  apply Z.eqb_eq in H. apply Z.eqb_eq.
  rewrite (compare_loop_rt (fcur f) (list_ascii_of_string str) 0);
    auto; lia.
Qed.

Lemma get_escape_len_rt s l1 l2 :
  0 <= s < E -> 2 <= l2 ->
  get_escape_len m1 s l1 = 1 -> get_escape_len m2 s l2 = 1.
Proof.
  intros Hs Hl H.
  destruct (get_escape_len_cases m1 s l1) as [E1|[E1|(_ & _ & Hc)]];
    [rewrite E1 in H; discriminate..|].
  unfold get_escape_len in *. rewrite (same_byte s Hs Hc).
  destruct (_ =? ch "u"); [repeat break_if; discriminate|].
  destruct (_ || _); [|discriminate].
  destruct (Z.ltb_spec l2 2); [lia|reflexivity].
Qed.

Lemma src_set_cur f p : src f -> fcur f <= p <= e1 -> src (set_cur f p).
Proof.
  intros (H1 & H2 & H3) Hp. unfold src, in_bounds in *. simpl.
  rewrite H1. repeat apply conj; auto; lia.
Qed.

Lemma parse_string_loop_rt k1 k2 c1 c2 f n g :
  src f -> c1 <> QUOTE -> c2 <> QUOTE ->
  parse_string_loop k1 c1 f = (n, g) -> 0 <= n -> fcur g <= E ->
  fcur g - fcur f <= Z.of_nat k2 ->
  parse_string_loop k2 c2 (rt f) = (n, rt g).
Proof.
  revert k2 c1 c2 f.
  induction k1 as [|k1 IH]; intros k2 c1 c2 f Hsrc Hc1 Hc2 H Hn Hle Hk;
    pose proof (parse_string_loop_spec _ _ _ _ _ Hc1 H) as [_ Hspec];
    destruct (Hspec Hn) as (-> & Hlt & _); clear Hspec;
    pose proof Hsrc as (Hend & Hmem & Hb); unfold in_bounds in Hb;
    cbn [parse_string_loop] in H.
  - destruct (Z.eqb_spec c1 QUOTE); [contradiction|].
    destruct (fcur f <? fend f); injection H as H _; discriminate H.
  - destruct (Z.ltb_spec (fcur f) (fend f)) as [Hg|Hg].
    2:{ destruct (Z.eqb_spec c1 QUOTE); [contradiction|].
        injection H as H _; discriminate H. }
    destruct k2 as [|k2]; [lia|]. cbn [parse_string_loop].
    cbn [fcur fend mem rt].
    destruct (Z.ltb_spec (fcur f) e2); [|lia].
    rewrite Hmem in H.
    destruct (negb _) eqn:Hrange in H; [injection H as H _; discriminate H|].
    destruct (Z.eqb_spec (byte_at m1 (fcur f)) (ch "\")) as [Eb|Eb].
    + rewrite same_byte by (try lia; rewrite Eb; discriminate).
      rewrite Hrange, Eb. cbn [Z.eqb ch]. rewrite Z.eqb_refl.
      destruct (get_escape_len_cases m1 (fcur f + 1) (left f))
        as [Eg|[Eg|(Eg & Hl & _)]]; rewrite Eg in H; cbn [negb Z.gtb] in H;
        try (simpl in H; injection H as H _; discriminate H).
      simpl in H.
      assert (Hbq : byte_at m1 (fcur f) <> QUOTE)
        by (rewrite Eb; discriminate).
      pose proof (parse_string_loop_spec k1 _ _ _ _ Hbq H) as [_ Hs].
      destruct (Hs Hn) as (_ & Hlt2 & _). simpl in Hlt2.
      rewrite (get_escape_len_rt (fcur f + 1) (left f)); auto; try lia.
      2:{ rewrite left_rt by (auto; lia). lia. }
      simpl. rewrite <- rt_set_cur.
      eapply IH; eauto; try discriminate.
      * apply src_set_cur; [exact Hsrc|lia].
      * simpl. lia.
    + destruct (Z.eqb_spec (byte_at m1 (fcur f)) QUOTE) as [Eq|Eq].
      * rewrite same_byte by (try lia; rewrite Eq; discriminate).
        rewrite Hrange, Eq. simpl.
        rewrite capture_len_rt.
        destruct (capture_len f (num_tokens f - 1) (fcur f)) as [a h].
        simpl in *. injection H as <-. reflexivity.
      * destruct (respelt (fcur f) ltac:(lia)) as [Es|[Ec Es]].
        -- rewrite Es, Hrange.
           destruct (Z.eqb_spec (byte_at m1 (fcur f)) (ch "\"));
             [contradiction|].
           destruct (Z.eqb_spec (byte_at m1 (fcur f)) QUOTE);
             [contradiction|].
           rewrite <- rt_set_cur.
           pose proof (parse_string_loop_spec k1 _ _ _ _ Eq H) as [_ Hs].
           eapply IH; eauto.
           ++ apply src_set_cur; [exact Hsrc|lia].
           ++ simpl. lia.
        -- rewrite Es. simpl. rewrite <- rt_set_cur.
           eapply IH; eauto; try discriminate.
           ++ apply src_set_cur; [exact Hsrc|lia].
           ++ simpl. lia.
Qed.

Lemma quote_ne_eos : QUOTE <> END_OF_STRING.
Proof. discriminate. Qed.

Lemma quote_ne_comma : QUOTE <> ch ",".
Proof. discriminate. Qed.

Lemma src_in_bounds f : src f -> in_bounds f.
Proof. intros (_ & _ & H). exact H. Qed.

Lemma parse_string_rt f n g :
  src f -> parse_string f = (n, g) -> 0 <= n -> fcur g <= E ->
  parse_string (rt f) = (n, rt g).
Proof.
  intros Hsrc H Hn Hle. unfold parse_string in *.
  destruct (test_and_skip f QUOTE) as [n1 f1] eqn:E1.
  destruct (Z.ltb_spec n1 0); [injection H as <- <-; lia|].
  pose proof (test_and_skip_bounds _ _ _ _ quote_ne_eos E1
                (src_in_bounds _ Hsrc)) as B1.
  pose proof (test_and_skip_evolves f QUOTE) as V1. rewrite E1 in V1.
  simpl in V1.
  destruct (capture_ptr f1 (fcur f1) JSON_TYPE_STRING) as [n2 f2] eqn:E2.
  destruct (Z.ltb_spec n2 0); [injection H as <- <-; lia|].
  pose proof (capture_ptr_bounds _ _ _ _ _ E2 B1) as B2.
  pose proof (capture_ptr_cur _ _ _ _ _ E2) as C2.
  pose proof (capture_ptr_evolves _ _ _ _ _ E2) as V2.
  pose proof (parse_string_loop_evolves _ _ _ _ _ H) as [_ _ _ V3 _ _ _].
  rewrite (test_and_skip_rt f QUOTE n1 f1);
    auto using quote_ne_eos, quote_ne_comma; try lia.
  destruct (Z.ltb_spec n1 0); [lia|].
  cbn [fcur rt]. rewrite capture_ptr_rt, E2. cbn [fst snd].
  destruct (Z.ltb_spec n2 0); [lia|]. cbn [fcur fend rt].
  assert (S2 : src f2).
  { eapply src_evolves; [exact Hsrc|eauto using evolves_trans|exact B2]. }
  eapply parse_string_loop_rt; eauto; try discriminate. lia.
Qed.

Lemma parse_literal_rt f ty k :
  parse_literal (rt f) ty k
  = (fst (parse_literal f ty k), rt (snd (parse_literal f ty k))).
Proof.
  unfold parse_literal. cbn [fcur rt]. rewrite capture_ptr_rt.
  destruct (capture_ptr f (fcur f) ty) as [n1 f1]. cbn [fst snd].
  destruct (n1 <? 0); [reflexivity|].
  rewrite <- rt_set_cur. cbn [fcur num_tokens rt set_cur].
  rewrite capture_len_rt.
  destruct (capture_len _ _ _) as [n2 f2]. reflexivity.
Qed.

Lemma parse_number_rt f c n g :
  src f -> cur f = (c, f) -> c <> ch "," ->
  parse_number f = (n, g) -> 0 <= n -> fcur g < E ->
  parse_number (rt f) = (n, rt g).
Proof.
  intros Hsrc Ec Hc H Hn Hlt. unfold parse_number in *. rewrite Ec in H.
  destruct (capture_ptr f (fcur f) JSON_TYPE_NUMBER) as [n1 f1] eqn:E1.
  destruct (Z.ltb_spec n1 0); [injection H as <- <-; lia|].
  pose proof (capture_ptr_bounds _ _ _ _ _ E1 (src_in_bounds _ Hsrc)) as B1.
  pose proof (capture_ptr_cur _ _ _ _ _ E1) as C1.
  pose proof (capture_ptr_evolves _ _ _ _ _ E1) as V1.
  destruct (capture_len _ _ _) as [n2 f2] eqn:E2. injection H as <- <-.
  pose proof (capture_len_cur _ _ _ _ _ E2) as C2.
  match type of E2 with context [scan is_digit ?h] =>
    pose proof (scan_evolves is_digit h) as [_ _ _ Vs _ _ _] end.
  rewrite <- C2 in Vs.
  assert (Hlt0 : fcur f < E).
  { destruct (c =? ch "-"); simpl in Vs; lia. }
  rewrite (cur_rt f c f Hsrc Ec Hlt0 Hc).
  cbn [fcur rt]. rewrite capture_ptr_rt, E1. cbn [fst snd].
  destruct (Z.ltb_spec n1 0); [lia|].
  assert (S1 : src f1) by (eapply src_evolves; eauto).
  cbn [fcur rt].
  destruct (c =? ch "-").
  - rewrite <- rt_set_cur.
    rewrite scan_rt;
      [|exact is_digit_comma_blind| |rewrite <- C2; exact Hlt].
    + cbn [fcur num_tokens rt]. rewrite capture_len_rt, E2. reflexivity.
    + apply src_set_cur; [exact S1|]. simpl in Vs. lia.
  - rewrite scan_rt;
      [|exact is_digit_comma_blind|exact S1|rewrite <- C2; exact Hlt].
    cbn [fcur num_tokens rt]. rewrite capture_len_rt, E2. reflexivity.
Qed.

Lemma parse_identifier_rt f n g :
  src f -> parse_identifier f = (n, g) -> 0 <= n -> fcur g < E ->
  parse_identifier (rt f) = (n, rt g).
Proof.
  intros Hsrc H Hn Hlt. unfold parse_identifier in *.
  destruct (cur f) as [c h] eqn:Ec.
  destruct (is_alpha c) eqn:Ea; cbn [negb] in *;
    [|injection H as <- <-; unfold JSON_STRING_INVALID in Hn; lia].
  pose proof (cur_bounds _ _ _ Ec (src_in_bounds _ Hsrc)) as B0.
  pose proof Ec as Ec'. apply cur_spec in Ec' as (_ & V0 & _ & _).
  destruct (capture_ptr h (fcur h) JSON_TYPE_STRING) as [n1 f1] eqn:E1.
  destruct (Z.ltb_spec n1 0); [injection H as <- <-; lia|].
  pose proof (capture_ptr_bounds _ _ _ _ _ E1 B0) as B1.
  pose proof (capture_ptr_cur _ _ _ _ _ E1) as C1.
  pose proof (capture_ptr_evolves _ _ _ _ _ E1) as V1.
  destruct (capture_len _ _ _) as [n2 f2] eqn:E2. injection H as <- <-.
  pose proof (capture_len_cur _ _ _ _ _ E2) as C2.
  match type of E2 with context [scan ?p f1] =>
    pose proof (scan_evolves p f1) as [_ _ _ Vs _ _ _] end.
  assert (Hc : c <> ch ",") by (intros ->; discriminate Ea).
  rewrite (cur_rt f c h Hsrc Ec) by (auto; lia).
  rewrite Ea. cbn [negb fcur rt]. rewrite capture_ptr_rt, E1. cbn [fst snd].
  destruct (Z.ltb_spec n1 0); [lia|].
  rewrite scan_rt; [|exact ident_comma_blind| |lia].
  - cbn [fcur num_tokens rt]. rewrite capture_len_rt, E2. reflexivity.
  - eapply src_evolves; [exact Hsrc|eauto using evolves_trans|exact B1].
Qed.

Lemma parse_key_rt f n g :
  src f -> parse_key f = (n, g) -> 0 <= n -> fcur g < E ->
  parse_key (rt f) = (n, rt g).
Proof.
  intros Hsrc H Hn Hlt.
  destruct (cur f) as [c h] eqn:Ec.
  destruct (parse_key_first f n g c h H Hn Ec) as [Hc _].
  pose proof (parse_key_post _ _ _ H) as (_ & _ & Hp).
  unfold parse_key in *. rewrite Ec in H.
  pose proof (cur_bounds _ _ _ Ec (src_in_bounds _ Hsrc)) as B0.
  pose proof Ec as Ec'. apply cur_spec in Ec' as (_ & V0 & _ & _).
  assert (Sh : src h) by (eapply src_evolves; eauto).
  destruct (is_alpha c) eqn:Ea.
  - destruct (parse_identifier h) as [n1 f1] eqn:E1.
    destruct (Z.ltb_spec n1 0); injection H as <- <-; [lia|].
    pose proof (parse_identifier_post _ _ _ E1) as ([_ _ _ V1 _ _ _] & _).
    rewrite (cur_rt f c h Hsrc Ec) by (auto; lia).
    rewrite Ea, (parse_identifier_rt h n1 f1) by (auto; lia).
    destruct (Z.ltb_spec n1 0); [lia|reflexivity].
  - destruct (c =? QUOTE) eqn:Eq.
    + destruct (parse_string h) as [n1 f1] eqn:E1.
      destruct (Z.ltb_spec n1 0); injection H as <- <-; [lia|].
      pose proof (parse_string_post _ _ _ E1) as ([_ _ _ V1 _ _ _] & _).
      rewrite (cur_rt f c h Hsrc Ec) by (auto; lia).
      rewrite Ea, Eq, (parse_string_rt h n1 f1) by (auto; lia).
      destruct (Z.ltb_spec n1 0); [lia|reflexivity].
    + injection H as <- <-. exfalso.
      unfold JSON_STRING_INCOMPLETE, JSON_STRING_INVALID in Hn.
      destruct (c =? END_OF_STRING); lia.
Qed.

(** The optional comma and the peek after it: where the reference run
    skips a comma, the other run skips that comma or a space. *)
Lemma skip_comma_rt f c' h' :
  src f -> cur (skip_comma f) = (c', h') -> fcur h' < E -> c' <> ch "," ->
  cur (skip_comma (rt f)) = (c', rt h').
Proof.
  intros Hsrc H Hlt Hc'. pose proof Hsrc as (Hend & Hmem & Hb).
  unfold skip_comma in *. destruct (cur f) as [c h] eqn:Ec.
  pose proof (cur_bounds _ _ _ Ec Hb) as B0.
  pose proof (cur_idem _ _ _ Ec) as Ei.
  pose proof Ec as Ec0.
  apply cur_spec in Ec0 as (Eh & V0 & Hws & Hcase).
  pose proof V0 as [Eend Emem _ Ecur _ _ _].
  assert (Sh : src h) by (eapply src_evolves; eauto).
  destruct (Z.eqb_spec c (ch ",")) as [->|Hne].
  - destruct Hcase as [(Hx & _)|(Hbyte & Hlt1 & _)]; [discriminate Hx|].
    pose proof H as H0.
    apply cur_spec in H0 as (Eh' & [_ _ _ Ecur' _ _ _] & Hws' & Hcase').
    simpl in Ecur', Hws', Eh', Hcase'.
    rewrite Hmem in *. rewrite Hend in *. rewrite Emem in *.
    rewrite Eend in *.
    destruct Hcase' as [(_ & Hge & _)|(Hbyte' & Hlt' & Hsp')]; [lia|].
    unfold in_bounds in Hb.
    assert (Hq : 0 <= fcur h < E) by lia.
    assert (Hm2 : byte_at m2 (fcur h') = byte_at m1 (fcur h')).
    { apply same_byte; [lia|]. rewrite <- Hbyte'. exact Hc'. }
    destruct (respelt (fcur h) Hq) as [Hsame|[_ Hspace]].
    + rewrite (cur_rt_same f (ch ",") h Hsrc Ec) by (auto; lia).
      change (ch "," =? ch ",") with true. cbv iota.
      cbn [fcur rt]. rewrite <- rt_set_cur.
      apply cur_rt; auto.
      apply src_set_cur; [exact Sh|lia].
    + assert (Ert : rt h' = set_cur (rt f) (fcur h')).
      { rewrite Eh'. rewrite Eh. reflexivity. }
      assert (Hcur2 : cur (rt f) = (c', rt h')).
      { rewrite Ert, Hbyte', <- Hm2. apply cur_at; simpl.
        - lia.
        - intros i Hi.
          destruct (Z.lt_trichotomy i (fcur h)) as [Hi1|[->|Hi1]].
          + apply space_byte; [lia|]. apply Hws. lia.
          + rewrite Hspace. reflexivity.
          + apply space_byte; [lia|]. apply Hws'. lia.
        - rewrite Hm2, <- Hbyte'. exact Hsp'. }
      rewrite Hcur2.
      destruct (Z.eqb_spec c' (ch ",")); [contradiction|].
      eapply cur_idem, Hcur2.
  - rewrite Ei in H. injection H as <- <-.
    rewrite (cur_rt f c h Hsrc Ec Hlt Hc').
    destruct (Z.eqb_spec c (ch ",")); [contradiction|].
    eapply cur_idem. apply (cur_rt f c h Hsrc Ec Hlt Hc').
Qed.

(** A rule, and a loop entered after a peek, in the two runs. *)
Definition rule_rt (strict : bool) (rule : frozen -> option result) : Prop :=
  forall f n g, src f -> rule f = Some (n, g) -> 0 <= n ->
    (if strict then fcur g < E else fcur g <= E) ->
    rule (rt f) = Some (n, rt g).

Definition loop_rt (loop : frozen -> option result) : Prop :=
  forall f f2 c h n g, src f -> cur f = (c, h) -> cur f2 = (c, rt h) ->
    loop f = Some (n, g) -> 0 <= n -> fcur g < E ->
    loop f2 = Some (n, rt g).

Lemma loop_body_rt rule loop close :
  (forall f n g, rule f = Some (n, g) -> rule_post f n g) ->
  (forall f n g, loop f = Some (n, g) -> loop_post f n g) ->
  loop_first loop -> rule_rt true rule -> loop_rt loop ->
  loop_rt (loop_body rule loop close).
Proof.
  intros Prule Ploop Floop Rrule Rloop f f2 c h n g Hsrc Ec Ec2 H Hn Hlt.
  unfold loop_body in *. rewrite Ec in H. rewrite Ec2.
  destruct (c =? close); cbn [negb] in *;
    [injection H as <- <-; reflexivity|].
  try_step H n1 g1 E1 Hn1; [lia|].
  pose proof (cur_bounds _ _ _ Ec (src_in_bounds _ Hsrc)) as B0.
  pose proof Ec as Ec0. apply cur_spec in Ec0 as (_ & V0 & _ & _).
  assert (Sh : src h) by (eapply src_evolves; eauto).
  pose proof (Prule _ _ _ E1) as (V1 & B1 & _).
  assert (S1 : src g1) by (eapply src_evolves; eauto).
  pose proof (Ploop _ _ _ H) as ([_ _ _ V2 _ _ _] & _).
  destruct (skip_comma_post g1) as [V3 B3].
  destruct (cur (skip_comma g1)) as [c' h'] eqn:Ec'.
  destruct (Floop _ _ _ _ _ H Hn Ec') as [Hc' Hh'].
  destruct V3 as [_ _ _ V3 _ _ _].
  rewrite (Rrule h n1 g1 Sh E1 Hn1) by (simpl; lia).
  rewrite try_then_ok by exact Hn1.
  eapply Rloop; [| exact Ec' | | exact H | exact Hn | exact Hlt].
  - eapply src_evolves; [exact S1|apply skip_comma_evolves|auto].
  - apply skip_comma_rt; auto. lia.
Qed.

Lemma container_rt loop open close ty :
  open <> END_OF_STRING -> open <> ch "," ->
  close <> END_OF_STRING -> close <> ch "," ->
  (forall f n g, loop f = Some (n, g) -> loop_post f n g) ->
  loop_first loop -> loop_rt loop ->
  rule_rt false (container loop open close ty).
Proof.
  intros Ho Ho' Hc Hc' Ploop Floop Rloop f n g Hsrc H Hn Hle.
  unfold container in *. cbv zeta in *.
  try_step H n1 f1 E1 Hn1; [lia|].
  try_step H n2 f2 E2 Hn2; [lia|].
  try_step H n3 f3 E3 Hn3; [lia|].
  try_step H n4 f4 E4 Hn4; [lia|].
  destruct (capture_len f4 (num_tokens f2 - 1) (fcur f4)) as [n5 f5] eqn:E5.
  injection H as <- <-.
  pose proof (test_and_skip_bounds _ _ _ _ Ho E1 (src_in_bounds _ Hsrc))
    as B1.
  pose proof (test_and_skip_evolves f open) as V1. rewrite E1 in V1.
  simpl in V1.
  assert (S1 : src f1) by (eapply src_evolves; eauto).
  pose proof (capture_ptr_bounds _ _ _ _ _ E2 B1) as B2.
  pose proof (capture_ptr_evolves _ _ _ _ _ E2) as V2.
  assert (S2 : src f2) by (eapply src_evolves; eauto).
  pose proof (Ploop _ _ _ E3) as (V3 & B3 & _).
  assert (S3 : src f3) by (eapply src_evolves; eauto).
  pose proof (test_and_skip_spec _ _ _ _ Hc E4) as (V4 & Hs4).
  destruct (Hs4 Hn4) as (_ & Hlt4 & _).
  pose proof (capture_len_cur _ _ _ _ _ E5) as C5.
  destruct V1 as [_ _ _ V1 _ _ _]. destruct V2 as [_ _ _ V2 _ _ _].
  destruct V3 as [_ _ _ V3 _ _ _].
  destruct (cur f2) as [c h] eqn:Ec.
  destruct (Floop _ _ _ _ _ E3 Hn3 Ec) as [Hcc Hh].
  rewrite (test_and_skip_rt f open n1 f1) by (auto; lia).
  rewrite try_then_ok by exact Hn1. cbn [fcur rt].
  rewrite capture_ptr_rt, E2. cbn [fst snd].
  rewrite try_then_ok by exact Hn2. cbn [num_tokens rt].
  rewrite (Rloop f2 (rt f2) c h n3 f3 S2 Ec) by (auto; try apply cur_rt; auto; lia).
  rewrite try_then_ok by exact Hn3.
  rewrite (test_and_skip_rt f3 close n4 f4) by (auto; lia).
  rewrite try_then_ok by exact Hn4. cbn [fcur rt].
  rewrite capture_len_rt, E5. reflexivity.
Qed.

Lemma parse_pair_rt fuel :
  rule_rt true (parse_value fuel) -> rule_rt true (parse_pair (S fuel)).
Proof.
  intros Rv f n g Hsrc H Hn Hlt. rewrite parse_pair_S in *.
  destruct (rules_post_all fuel) as (Pv & _).
  try_step H n1 f1 E1 Hn1; [lia|].
  try_step H n2 f2 E2 Hn2; [lia|].
  try_step H n3 f3 E3 Hn3; [lia|].
  injection H as <- <-.
  pose proof (parse_key_post _ _ _ E1) as (V1 & B1 & _).
  assert (S1 : src f1) by (eapply src_evolves; eauto using src_in_bounds).
  pose proof (test_and_skip_bounds _ _ _ _ (ch_ne_eos _) E2
                (src_in_bounds _ S1)) as B2.
  pose proof (test_and_skip_spec _ _ _ _ (ch_ne_eos _) E2) as (V2 & Hs2).
  destruct (Hs2 Hn2) as (_ & Hlt2 & _).
  assert (S2 : src f2) by (eapply src_evolves; eauto).
  pose proof (Pv _ _ _ E3) as ([_ _ _ V3 _ _ _] & _).
  rewrite (parse_key_rt f n1 f1) by (auto; lia).
  rewrite try_then_ok by exact Hn1.
  rewrite (test_and_skip_rt f1 (ch ":") n2 f2)
    by (auto using ch_ne_eos; try discriminate; lia).
  rewrite try_then_ok by exact Hn2.
  rewrite (Rv f2 n3 f3 S2 E3 Hn3 Hlt).
  rewrite try_then_ok by exact Hn3. reflexivity.
Qed.

(** The tests of [parse_value] on a first byte that is a letter. *)
Ltac literal_tests x :=
  change (ch x =? QUOTE) with false in *;
  change (ch x =? ch "{") with false in *;
  change (ch x =? ch "[") with false in *;
  change (is_digit (ch x)) with false in *;
  change (ch x =? ch "-") with false in *;
  change (ch x =? END_OF_STRING) with false in *;
  try change (ch x =? ch "n") with false in *;
  try change (ch x =? ch "t") with false in *;
  try change (ch x =? ch "f") with false in *;
  change (ch x =? ch x) with true in *;
  cbn [andb orb] in *.

Lemma literal_rt h ty str k n g :
  src h -> Z.of_nat (String.length str) = k ->
  Forall (fun x => x <> ","%char) (list_ascii_of_string str) ->
  (if compare h str k
   then TRY Some (parse_literal h ty k) THEN f => Some (0, f)
   else Some (JSON_STRING_INVALID, h)) = Some (n, g) ->
  0 <= n -> fcur g <= E ->
  compare (rt h) str k = true
  /\ (TRY Some (parse_literal (rt h) ty k) THEN f => Some (0, f))
     = Some (n, rt g).
Proof.
  intros Sh Hk Hstr H Hn Hle.
  destruct (compare h str k) eqn:Ecmp;
    [|injection H as <- <-; unfold JSON_STRING_INVALID in Hn; lia].
  try_step H n1 f1 E1 Hn1; [lia|]. injection H as <- <-.
  pose proof (parse_literal_cur _ _ _ _ _ E1 Hn1) as C1.
  split; [apply compare_rt; auto; lia|].
  rewrite parse_literal_rt, E1. cbn [fst snd].
  rewrite try_then_ok by exact Hn1. reflexivity.
Qed.

Ltac literal_case x H Sh Hn :=
  literal_tests x;
  apply literal_rt in H as [-> H];
  [ exact H | exact Sh | reflexivity
  | repeat constructor; discriminate | exact Hn | lia ].

Lemma parse_value_rt fuel :
  rule_rt false (parse_object fuel) -> rule_rt false (parse_array fuel) ->
  rule_rt true (parse_value (S fuel)).
Proof.
  intros Ro Ra f n g Hsrc H Hn Hlt.
  destruct (cur f) as [c h] eqn:Ec.
  destruct (parse_value_first _ _ _ _ _ _ H Hn Ec) as [Hc Heos].
  pose proof (cur_idem _ _ _ Ec) as Ei.
  rewrite parse_value_S in *. rewrite Ec in H.
  assert (Vh : fcur h <= fcur g).
  { destruct (rules_post_all (S fuel)) as (Pv & _).
    destruct (Pv h n g) as ([_ _ _ Vh _ _ _] & _); [|exact Vh].
    rewrite parse_value_S, Ei. exact H. }
  pose proof (cur_bounds _ _ _ Ec (src_in_bounds _ Hsrc)) as B0.
  pose proof Ec as Ec0. apply cur_spec in Ec0 as (_ & V0 & _ & _).
  assert (Sh : src h) by (eapply src_evolves; eauto).
  rewrite (cur_rt f c h Hsrc Ec) by (auto; lia).
  cbn [fcur fend mem rt]. clear Ec V0 Hsrc f.
  destruct (Z.eqb_spec c (ch "n")) as [->|Nn]; [literal_case "n"%char H Sh Hn|].
  destruct (Z.eqb_spec c (ch "t")) as [->|Nt]; [literal_case "t"%char H Sh Hn|].
  destruct (Z.eqb_spec c (ch "f")) as [->|Nf]; [literal_case "f"%char H Sh Hn|].
  cbn [andb] in *.
  destruct (c =? QUOTE).
  { try_step H n1 f1 E1 Hn1; [lia|]. injection H as <- <-.
    rewrite (parse_string_rt h n1 f1) by (auto; lia).
    rewrite try_then_ok by exact Hn1. reflexivity. }
  destruct (c =? ch "{").
  { try_step H n1 f1 E1 Hn1; [lia|]. injection H as <- <-.
    rewrite (Ro h n1 f1) by (auto; lia).
    rewrite try_then_ok by exact Hn1. reflexivity. }
  destruct (c =? ch "[").
  { try_step H n1 f1 E1 Hn1; [lia|]. injection H as <- <-.
    rewrite (Ra h n1 f1) by (auto; lia).
    rewrite try_then_ok by exact Hn1. reflexivity. }
  destruct (is_digit c
            || ((c =? ch "-") && (fcur h + 1 <? fend h)
                && is_digit (byte_at (mem h) (fcur h + 1)))) eqn:Enum.
  - try_step H n1 f1 E1 Hn1; [lia|]. injection H as <- <-.
    pose proof (parse_number_post _ _ _ _ Ei Enum E1) as (_ & _ & Hs).
    destruct (Hs Hn1) as [_ Hlt1].
    assert (Enum2 : is_digit c
              || ((c =? ch "-") && (fcur h + 1 <? e2)
                  && is_digit (byte_at m2 (fcur h + 1))) = true).
    { destruct (is_digit c); [reflexivity|]. cbn [orb] in *.
      apply andb_prop in Enum as [Enum Ed].
      apply andb_prop in Enum as [-> _].
      destruct (Z.ltb_spec (fcur h + 1) e2); [|lia]. cbn [andb].
      destruct Sh as (_ & Hmem & Hb). unfold in_bounds in Hb.
      rewrite Hmem in Ed.
      rewrite (blind_byte is_digit); [exact Ed|exact is_digit_comma_blind|lia]. }
    rewrite Enum2. rewrite (parse_number_rt h c n1 f1) by (auto; lia).
    rewrite try_then_ok by exact Hn1. reflexivity.
  - injection H as <- <-. exfalso.
    unfold JSON_STRING_INCOMPLETE, JSON_STRING_INVALID in Hn.
    destruct (c =? END_OF_STRING); lia.
Qed.

Definition rules_rt (fuel : nat) : Prop :=
  rule_rt true (parse_value fuel) /\ loop_rt (parse_array_loop fuel)
  /\ rule_rt false (parse_array fuel) /\ rule_rt true (parse_pair fuel)
  /\ loop_rt (parse_object_loop fuel) /\ rule_rt false (parse_object fuel).

Lemma rules_rt_all fuel : rules_rt fuel.
Proof.
  induction fuel as [|fuel (IHv & IHal & IHa & IHp & IHol & IHo)].
  { unfold rules_rt, rule_rt, loop_rt.
    repeat apply conj; intros; discriminate. }
  destruct (rules_post_all fuel) as (Pv & Pal & Pa & Pp & Pol & Po).
  unfold rules_rt. repeat apply conj.
  - apply parse_value_rt; assumption.
  - rewrite parse_array_loop_body. apply loop_body_rt; auto.
    exact (parse_array_loop_first fuel).
  - rewrite parse_array_container.
    apply container_rt; auto using ch_ne_eos; try discriminate.
    exact (parse_array_loop_first fuel).
  - apply parse_pair_rt; assumption.
  - rewrite parse_object_loop_body. apply loop_body_rt; auto.
    exact (parse_object_loop_first fuel).
  - rewrite parse_object_container.
    apply container_rt; auto using ch_ne_eos; try discriminate.
    exact (parse_object_loop_first fuel).
Qed.

End respell.

(** ** The same parse over another input

    A successful [parse_json] reads the bytes below the offset that it
    returns, and nothing else of its input: an input of any other length
    that holds these bytes, with spaces for some of the commas, gives the
    same result and the same tokens. *)
Lemma init_frozen_rt m1 m2 e1 e2 arr arr_len :
  init_frozen (Some m2) e2 arr arr_len
  = rt m2 e2 (init_frozen (Some m1) e1 arr arr_len).
Proof. reflexivity. Qed.

Lemma parse_object_fuels fuel1 fuel2 f r :
  parse_object fuel1 f = Some r -> is_Some (parse_object fuel2 f) ->
  parse_object fuel2 f = Some r.
Proof.
  intros H1 [r2 H2].
  destruct (fuel_monotone fuel1) as (_ & _ & _ & _ & _ & M1).
  destruct (fuel_monotone fuel2) as (_ & _ & _ & _ & _ & M2).
  destruct (Nat.le_ge_cases fuel1 fuel2) as [Hle|Hle].
  - eapply M1; eauto.
  - rewrite H2. rewrite (M2 _ _ _ H2 Hle) in H1. exact H1.
Qed.

Lemma parse_json_frozen_respell m1 m2 e1 e2 arr arr_len r g :
  parse_json_frozen (Some m1) e1 arr arr_len = Some (r, g) -> 0 <= r ->
  e1 <= INT_MAX -> r <= e2 -> e2 <= INT_MAX ->
  (forall i, 0 <= i < r ->
     byte_at m2 i = byte_at m1 i
     \/ (byte_at m1 i = ch "," /\ byte_at m2 i = ch " ")) ->
  0 < r /\ r = fcur g
  /\ parse_json_frozen (Some m2) e2 arr arr_len = Some (r, rt m2 e2 g).
Proof.
  intros H Hr He1 Hre2 He2 Hm.
  destruct (parse_json_frozen_cases _ _ _ _ _ _ H He1) as [[Hrg Hb]|[Hneg _]];
    [|lia].
  unfold parse_json_frozen in *. cbn [bool_decide decide_rel orb] in *.
  assert (Hd : bool_decide (Some m1 = @None (list ascii)) = false)
    by (apply bool_decide_eq_false; discriminate).
  assert (Hd2 : bool_decide (Some m2 = @None (list ascii)) = false)
    by (apply bool_decide_eq_false; discriminate).
  rewrite Hd in H. rewrite Hd2. cbn [orb] in *.
  destruct (Z.ltb_spec e1 0);
    [injection H as <- <-; unfold JSON_STRING_INVALID in Hr; lia|].
  destruct (Z.eqb_spec e1 0);
    [injection H as <- <-; unfold JSON_STRING_INCOMPLETE in Hr; lia|].
  try_step H n1 f1 E1 Hn1; [lia|].
  try_step H n2 f2 E2 Hn2; [lia|].
  destruct (capture_len f2 (num_tokens f2) (fcur f2)) as [n3 f3] eqn:E3.
  injection H as Hret <-.
  destruct (rules_post_all (fuel_of e1)) as (_ & _ & _ & _ & _ & Po).
  destruct (Po _ _ _ E1) as (_ & _ & Hs). destruct (Hs Hn1) as [_ Hlt].
  simpl in Hlt.
  pose proof (capture_ptr_cur _ _ _ _ _ E2) as C2.
  pose proof (capture_len_cur _ _ _ _ _ E3) as C3.
  assert (Hr1 : r = fcur f1) by lia.
  split; [lia|]. split; [exact Hrg|].
  destruct (Z.ltb_spec e2 0); [lia|].
  destruct (Z.eqb_spec e2 0); [lia|].
  rewrite (init_frozen_rt m1 m2 e1 e2).
  assert (Ro : rule_rt m1 m2 e1 e2 r false (parse_object (fuel_of e1))).
  { apply (rules_rt_all m1 m2 e1 e2 r); try lia. exact Hm. }
  rewrite (parse_object_fuels (fuel_of e1) (fuel_of e2) _ (n1, rt m2 e2 f1)).
  - rewrite try_then_ok by exact Hn1. cbn [fcur rt].
    rewrite capture_ptr_rt, E2. cbn [fst snd].
    rewrite try_then_ok by exact Hn2. cbn [fcur num_tokens rt].
    rewrite capture_len_rt, E3. cbn [fst snd fcur rt].
    rewrite Hret. reflexivity.
  - apply Ro; auto; [|simpl; lia].
    split; [reflexivity|]. split; [reflexivity|].
    apply init_in_bounds. lia.
  - rewrite <- (init_frozen_rt m1 m2 e1 e2).
    apply parse_object_fuel_of. lia.
Qed.

(** What the caller observes of [parse_json_frozen_respell]. *)
Lemma parse_json_respell m1 m2 e1 e2 arr arr_len r toks :
  parse_json (Some m1) e1 arr arr_len = Some (r, toks) -> 0 <= r ->
  e1 <= INT_MAX -> r <= e2 -> e2 <= INT_MAX ->
  (forall i, 0 <= i < r ->
     byte_at m2 i = byte_at m1 i
     \/ (byte_at m1 i = ch "," /\ byte_at m2 i = ch " ")) ->
  parse_json (Some m2) e2 arr arr_len = Some (r, toks).
Proof.
  unfold parse_json. intros H Hr He1 Hre2 He2 Hm.
  destruct (parse_json_frozen (Some m1) e1 arr arr_len) as [[r1 g]|] eqn:E1;
    [|discriminate].
  injection H as -> <-.
  destruct (parse_json_frozen_respell _ m2 _ e2 _ _ _ _ E1 Hr He1 Hre2 He2 Hm)
    as (_ & _ & ->).
  reflexivity.
Qed.

(** ** The end-of-input marker *)

Lemma parse_object_close fuel f n g :
  parse_object fuel f = Some (n, g) -> 0 <= n ->
  byte_at (mem f) (fcur g - 1) = ch "}".
Proof.
  destruct fuel as [|fuel]; [discriminate|]. rewrite parse_object_S.
  intros H Hn.
  destruct (rules_post_all fuel) as (_ & _ & _ & _ & Pol & _).
  try_step H n1 f1 E1 Hn1; [lia|].
  try_step H n2 f2 E2 Hn2; [lia|].
  try_step H n3 f3 E3 Hn3; [lia|].
  try_step H n4 f4 E4 Hn4; [lia|].
  destruct (capture_len f4 (num_tokens f2 - 1) (fcur f4)) as [n5 f5] eqn:E5.
  injection H as <- <-.
  pose proof (test_and_skip_evolves f (ch "{")) as V1. rewrite E1 in V1.
  destruct V1 as [_ M1 _ _ _ _ _].
  destruct (capture_ptr_evolves _ _ _ _ _ E2) as [_ M2 _ _ _ _ _].
  destruct (Pol _ _ _ E3) as ([_ M3 _ _ _ _ _] & _).
  destruct (test_and_skip_spec _ _ _ _ (ch_ne_eos _) E4) as (_ & Hs).
  destruct (Hs Hn4) as (_ & _ & _ & Hbyte & _).
  rewrite (capture_len_cur _ _ _ _ _ E5).
  simpl in *. rewrite <- Hbyte. congruence.
Qed.

(** The marker that [parse_json] records after the root object: its start
    and its type. *)
Lemma eof_marker_recorded s s_len a arr_len r g :
  parse_json_frozen s s_len (Some a) arr_len = Some (r, g) -> 0 <= r ->
  s_len <= INT_MAX -> arr_len <> 0 -> arr_len <= Z.of_nat (length a) ->
  exists toks tok,
    tokens g = Some toks
    /\ toks !! Z.to_nat (num_tokens g - 1) = Some tok
    /\ ptr tok = r /\ type tok = JSON_TYPE_EOF.
Proof.
  intros H Hr Hmax Hlen Hcap.
  destruct (parse_json_frozen_cases _ _ _ _ _ _ H Hmax) as [[Hrg Hb]|[Hneg _]];
    [|lia].
  unfold parse_json_frozen in H.
  destruct (bool_decide (s = None) || (s_len <? 0));
    [injection H as <- <-; unfold JSON_STRING_INVALID in Hr; lia|].
  destruct (s_len =? 0);
    [injection H as <- <-; unfold JSON_STRING_INCOMPLETE in Hr; lia|].
  try_step H n1 f1 E1 Hn1; [lia|].
  try_step H n2 f2 E2 Hn2; [lia|].
  destruct (capture_len f2 (num_tokens f2) (fcur f2)) as [n3 f3] eqn:E3.
  injection H as Hret <-.
  destruct (evolving_rules (fuel_of s_len)) as (_ & _ & _ & _ & _ & Eo).
  destruct (Eo _ _ _ E1) as [_ _ Vmax _ Vnum _ Vlen]. simpl in *.
  destruct (tokens f1) as [a1|] eqn:Et1; [|discriminate Vlen].
  injection Vlen as Vlen.
  assert (Hrf : fcur f1 = r).
  { rewrite Hrg, (capture_len_cur _ _ _ _ _ E3).
    symmetry. eapply capture_ptr_cur, E2. }
  clear Hret Hrg Hb.
  unfold capture_ptr in E2. rewrite Et1 in E2.
  destruct (Z.eqb_spec (max_tokens f1) 0); [lia|].
  destruct (Z.geb_spec (num_tokens f1) (max_tokens f1));
    [injection E2 as <- _; unfold JSON_TOKEN_ARRAY_TOO_SMALL in Hn2; lia|].
  injection E2 as _ <-. unfold capture_len in E3. simpl in E3.
  destruct (Z.eqb_spec (max_tokens f1) 0); [lia|].
  assert (Hk : (Z.to_nat (num_tokens f1) < length a1)%nat) by lia.
  destruct (lookup_lt_is_Some_2 a1 _ Hk) as [t0 Ht0].
  destruct ((num_tokens f1 + 1 >=? 0) && (num_tokens f1 + 1 <? max_tokens f1));
    injection E3 as _ <-; simpl; eexists; eexists;
    (split; [reflexivity|]);
    replace (num_tokens f1 + 1 - 1) with (num_tokens f1) by lia.
  - rewrite list_lookup_alter_ne by lia.
    rewrite list_lookup_alter_eq, Ht0. simpl.
    split; [reflexivity|]. split; [exact Hrf|reflexivity].
  - rewrite list_lookup_alter_eq, Ht0. simpl.
    split; [reflexivity|]. split; [exact Hrf|reflexivity].
Qed.

(** ** The tokens that a rule records *)

(** The token in slot [i] of the token array. *)
Definition tok_at (f : frozen) (i : Z) : option json_token :=
  default [] (tokens f) !! Z.to_nat i.

Definition composite (ty : json_type) : bool :=
  match ty with
  | JSON_TYPE_OBJECT | JSON_TYPE_ARRAY => true
  | _ => false
  end.

(** Two states with the same recorder: what the moves of the cursor
    leave. *)
Definition same_rec (f g : frozen) : Prop :=
  tokens g = tokens f /\ num_tokens g = num_tokens f
  /\ max_tokens g = max_tokens f.

(** A recorder that is on, over an array that holds its capacity. *)
Definition on (f : frozen) : Prop :=
  exists a, tokens f = Some a
            /\ 0 < max_tokens f <= Z.of_nat (length a)
            /\ 0 <= num_tokens f <= max_tokens f.

(** Token [i] is closed in [f]: the [num_children t] tokens that follow
    it start within its bytes, and the tokens recorded after these start
    at its end or later. *)
Definition node_ok (f : frozen) (i : Z) (t : json_token) : Prop :=
  0 <= len t /\ 0 <= num_children t /\ i + num_children t < num_tokens f
  /\ (composite (type t) = false -> num_children t = 0)
  /\ forall j tj, i < j < num_tokens f -> tok_at f j = Some tj ->
       if j <=? i + num_children t
       then ptr t < ptr tj < ptr t + len t
       else ptr t + len t <= ptr tj.

(** From [f] to [g] the tokens that were recorded stay, and the tokens
    recorded since are closed and lie in the bytes from [lo] to [hi]. *)
Definition records (f g : frozen) (lo hi : Z) : Prop :=
  0 <= num_tokens f <= num_tokens g
  /\ (forall i, 0 <= i < num_tokens f -> tok_at g i = tok_at f i)
  /\ forall i, num_tokens f <= i < num_tokens g ->
       exists t, tok_at g i = Some t /\ lo <= ptr t /\ ptr t + len t <= hi
                 /\ node_ok g i t.

Lemma same_rec_refl f : same_rec f f.
Proof. repeat apply conj; reflexivity. Qed.

Lemma same_rec_trans f g h : same_rec f g -> same_rec g h -> same_rec f h.
Proof. intros (? & ? & ?) (? & ? & ?). repeat apply conj; congruence. Qed.

Lemma same_rec_set_cur f p : same_rec f (set_cur f p).
Proof. repeat apply conj; reflexivity. Qed.

Lemma same_rec_scan p f : same_rec f (scan p f).
Proof. apply same_rec_set_cur. Qed.

Lemma same_rec_cur f c g : cur f = (c, g) -> same_rec f g.
Proof. intros E. injection E as _ <-. apply same_rec_scan. Qed.

Lemma same_rec_test_and_skip f x n g :
  test_and_skip f x = (n, g) -> same_rec f g.
Proof.
  unfold test_and_skip. destruct (cur f) as [c h] eqn:Ec.
  apply same_rec_cur in Ec. intros E.
  destruct (c =? x); injection E as _ <-; [|exact Ec].
  eapply same_rec_trans; [exact Ec|apply same_rec_set_cur].
Qed.

Lemma same_rec_skip_comma f : same_rec f (skip_comma f).
Proof.
  unfold skip_comma. destruct (cur f) as [c h] eqn:Ec.
  apply same_rec_cur in Ec.
  destruct (c =? ch ","); [|exact Ec].
  eapply same_rec_trans; [exact Ec|apply same_rec_set_cur].
Qed.

Lemma same_rec_tok_at f g i : same_rec f g -> tok_at g i = tok_at f i.
Proof. intros (E & _). unfold tok_at. rewrite E. reflexivity. Qed.

Lemma on_same f g : on f -> same_rec f g -> on g.
Proof.
  intros (a & Ha & Hm & Hn) (Et & En & Em). exists a.
  rewrite Et, En, Em. auto.
Qed.

Lemma on_evolves f g : on f -> evolves f g -> on g.
Proof.
  intros (a & Ha & Hm & Hn) [_ _ Emax _ Enum Ecap Elen].
  rewrite Ha in Elen. destruct (tokens g) as [b|] eqn:Hb; [|discriminate Elen].
  injection Elen as Elen. exists b. rewrite Emax, Elen.
  split; [exact Hb|]. lia.
Qed.

Lemma node_ok_frame f g i t :
  node_ok f i t -> num_tokens f <= num_tokens g ->
  (forall j, i < j < num_tokens f -> tok_at g j = tok_at f j) ->
  (forall j tj, num_tokens f <= j < num_tokens g -> tok_at g j = Some tj ->
                ptr t + len t <= ptr tj) ->
  node_ok g i t.
Proof.
  intros (Hl & Hc & Hi & Hleaf & Hj) Hn Hframe Hnew.
  repeat apply conj; auto; [lia|].
  intros j tj Hjr Htj.
  destruct (Z.lt_ge_cases j (num_tokens f)) as [Hlt|Hge].
  - apply Hj; [lia|]. rewrite <- Hframe by lia. exact Htj.
  - destruct (Z.leb_spec j (i + num_children t)); [lia|].
    apply (Hnew j); [lia|exact Htj].
Qed.

Lemma records_same f g lo hi :
  same_rec f g -> 0 <= num_tokens f -> records f g lo hi.
Proof.
  intros Hs Hn. pose proof Hs as (_ & En & _).
  split; [lia|]. split.
  - intros i _. apply same_rec_tok_at, Hs.
  - intros i Hi. lia.
Qed.

Lemma records_widen f g lo hi lo' hi' :
  records f g lo hi -> lo' <= lo -> hi <= hi' -> records f g lo' hi'.
Proof.
  intros (Hn & Hframe & Hnew) Hlo Hhi. split; [exact Hn|].
  split; [exact Hframe|].
  intros i Hi. destruct (Hnew i Hi) as (t & Ht & H1 & H2 & Hok).
  exists t. split; [exact Ht|]. split; [lia|]. split; [lia|exact Hok].
Qed.

Lemma records_trans f g h lo1 hi1 lo2 hi2 :
  records f g lo1 hi1 -> records g h lo2 hi2 -> hi1 <= lo2 ->
  records f h (Z.min lo1 lo2) (Z.max hi1 hi2).
Proof.
  intros (Hn1 & Hf1 & Hnew1) (Hn2 & Hf2 & Hnew2) Hle.
  split; [lia|]. split.
  - intros i Hi. rewrite Hf2 by lia. apply Hf1, Hi.
  - intros i Hi.
    destruct (Z.lt_ge_cases i (num_tokens g)) as [Hlt|Hge].
    + destruct (Hnew1 i ltac:(lia)) as (t & Ht & H1 & H2 & Hok).
      exists t. rewrite Hf2 by lia.
      split; [exact Ht|]. split; [lia|]. split; [lia|].
      apply (node_ok_frame g h); auto; try lia.
      * intros j Hj. apply Hf2. lia.
      * intros j tj Hj Htj.
        destruct (Hnew2 j Hj) as (t' & Ht' & H1' & _).
        rewrite Htj in Ht'. injection Ht' as <-. lia.
    + destruct (Hnew2 i ltac:(lia)) as (t & Ht & H1 & H2 & Hok).
      exists t. split; [exact Ht|]. split; [lia|]. split; [lia|exact Hok].
Qed.

Lemma records_pre f f' g lo hi :
  same_rec f f' -> records f' g lo hi -> records f g lo hi.
Proof.
  intros Hs (Hn & Hframe & Hnew). pose proof Hs as (_ & En & _).
  rewrite En in *. split; [exact Hn|]. split; [|exact Hnew].
  intros i Hi. rewrite Hframe by exact Hi. apply same_rec_tok_at, Hs.
Qed.

Lemma node_ok_same g g' i t : same_rec g g' -> node_ok g i t -> node_ok g' i t.
Proof.
  intros Hs (Hl & Hc & Hi & Hleaf & Hj). pose proof Hs as (_ & En & _).
  repeat apply conj; auto; [lia|].
  intros j tj Hjr Htj. apply Hj; [lia|].
  rewrite <- (same_rec_tok_at g g') by exact Hs. exact Htj.
Qed.

Lemma records_post f g g' lo hi :
  records f g lo hi -> same_rec g g' -> records f g' lo hi.
Proof.
  intros (Hn & Hframe & Hnew) Hs. pose proof Hs as (_ & En & _).
  split; [lia|]. split.
  - intros i Hi. rewrite (same_rec_tok_at g g') by exact Hs. apply Hframe, Hi.
  - intros i Hi. destruct (Hnew i ltac:(lia)) as (t & Ht & H1 & H2 & Hok).
    exists t. rewrite (same_rec_tok_at g g') by exact Hs.
    split; [exact Ht|]. split; [lia|]. split; [lia|].
    eapply node_ok_same; eauto.
Qed.

(** The two stores of the recorder. *)
Lemma capture_ptr_records f p ty n g :
  on f -> capture_ptr f p ty = (n, g) -> 0 <= n ->
  num_tokens g = num_tokens f + 1
  /\ (forall i, 0 <= i -> i <> num_tokens f -> tok_at g i = tok_at f i)
  /\ exists t, tok_at g (num_tokens f) = Some t /\ ptr t = p /\ type t = ty.
Proof.
  intros (a & Ha & Hm & Hn) E Hge. unfold capture_ptr in E. rewrite Ha in E.
  destruct (Z.eqb_spec (max_tokens f) 0); [lia|].
  destruct (Z.geb_spec (num_tokens f) (max_tokens f));
    [injection E as <- _; unfold JSON_TOKEN_ARRAY_TOO_SMALL in Hge; lia|].
  injection E as _ <-. unfold tok_at. simpl. rewrite Ha. simpl.
  split; [reflexivity|]. split.
  - intros i Hi Hne. apply list_lookup_alter_ne. lia.
  - assert (Hk : (Z.to_nat (num_tokens f) < length a)%nat) by lia.
    destruct (lookup_lt_is_Some_2 a _ Hk) as [t0 Ht0].
    rewrite list_lookup_alter_eq, Ht0. simpl. eexists.
    split; [reflexivity|]. split; reflexivity.
Qed.

Lemma capture_len_records f k q n g :
  on f -> 0 <= k < num_tokens f -> capture_len f k q = (n, g) ->
  num_tokens g = num_tokens f
  /\ (forall i, 0 <= i -> i <> k -> tok_at g i = tok_at f i)
  /\ forall t, tok_at f k = Some t ->
       tok_at g k = Some {| ptr := ptr t; len := to_int (q - ptr t);
                            num_children := num_tokens f - 1 - k;
                            type := type t |}.
Proof.
  intros (a & Ha & Hm & Hn) Hk E. unfold capture_len in E. rewrite Ha in E.
  destruct (Z.eqb_spec (max_tokens f) 0); [lia|].
  destruct (Z.geb_spec k 0); [|lia].
  destruct (Z.ltb_spec k (max_tokens f)); [|lia].
  cbn [andb] in E. injection E as _ <-. unfold tok_at. simpl. rewrite Ha.
  simpl. split; [reflexivity|]. split.
  - intros i Hi Hne. apply list_lookup_alter_ne. lia.
  - intros t Ht. rewrite list_lookup_alter_eq, Ht. reflexivity.
Qed.

(** A leaf: [capture_ptr] at [p], moves of the cursor, [capture_len] of
    the last token at [q]. *)
Lemma leaf_records f p ty n1 f1 h q n2 g :
  on f -> capture_ptr f p ty = (n1, f1) -> 0 <= n1 -> same_rec f1 h ->
  capture_len h (num_tokens h - 1) q = (n2, g) ->
  0 <= q - p <= INT_MAX ->
  records f g p q.
Proof.
  intros Hon E1 Hn1 Hs E2 Hq.
  pose proof Hon as (_ & _ & _ & Hnf).
  destruct (capture_ptr_records _ _ _ _ _ Hon E1 Hn1) as (N1 & F1 & t & Ht & Hp & Hty).
  assert (On1 : on f1) by (eapply on_evolves, capture_ptr_evolves; eauto).
  assert (Onh : on h) by (eapply on_same; eauto).
  pose proof Hs as (_ & Nh & _).
  assert (Hk : 0 <= num_tokens h - 1 < num_tokens h) by lia.
  destruct (capture_len_records _ _ _ _ _ Onh Hk E2) as (N2 & F2 & T2).
  rewrite Nh, N1 in *.
  replace (num_tokens f + 1 - 1) with (num_tokens f) in * by lia.
  specialize (T2 t). rewrite (same_rec_tok_at f1 h _ Hs) in T2.
  specialize (T2 Ht). rewrite Hp in T2.
  rewrite to_int_small in T2 by (unfold INT_MAX in *; lia).
  split; [lia|]. split.
  - intros i Hi. rewrite F2 by lia. rewrite (same_rec_tok_at f1 h _ Hs).
    apply F1; lia.
  - intros i Hi. assert (i = num_tokens f) as -> by lia.
    eexists. split; [exact T2|]. simpl. split; [lia|]. split; [lia|].
    unfold node_ok. simpl. rewrite N2.
    split; [lia|]. split; [lia|]. split; [lia|]. split; [intros _; lia|].
    intros j tj Hj. lia.
Qed.

(** A state in which the rules record: the recorder is on and the input
    is not longer than an [int]. *)
Definition good (f : frozen) : Prop :=
  on f /\ in_bounds f /\ fend f <= INT_MAX.

Lemma good_evolves f g :
  good f -> evolves f g -> in_bounds g -> good g.
Proof.
  intros (Hon & _ & He) V Hb. split; [eapply on_evolves; eauto|].
  split; [exact Hb|]. destruct V as [-> _ _ _ _ _ _]. exact He.
Qed.

Lemma good_span f g :
  good f -> evolves f g -> in_bounds g -> 0 <= fcur g - fcur f <= INT_MAX.
Proof.
  intros (_ & Hb & He) [Ee _ _ Ec _ _ _] Hg. unfold in_bounds in *. lia.
Qed.

Lemma parse_string_loop_close k c f n g :
  c <> QUOTE -> parse_string_loop k c f = (n, g) -> 0 <= n ->
  exists h r h', same_rec f h /\ fcur f <= fcur h
    /\ capture_len h (num_tokens h - 1) (fcur h) = (r, h')
    /\ g = set_cur h' (fcur h + 1).
Proof.
  revert c f. induction k as [|k IH]; intros c f Hc; simpl.
  - destruct (Z.eqb_spec c QUOTE); [congruence|].
    unfold JSON_STRING_INCOMPLETE. break_if; intros; inj_pair; lia.
  - destruct (Z.ltb_spec (fcur f) (fend f)) as [Hlt|Hge].
    2:{ destruct (Z.eqb_spec c QUOTE); [congruence|].
        unfold JSON_STRING_INCOMPLETE. intros; inj_pair. lia. }
    destruct (negb _).
    { unfold JSON_STRING_INVALID. intros; inj_pair. lia. }
    destruct (Z.eqb_spec (byte_at (mem f) (fcur f)) (ch "\")) as [Eb|Eb].
    + destruct (get_escape_len_cases (mem f) (fcur f + 1) (left f))
        as [E|[E|(E & Hl & _)]]; rewrite E; simpl;
        try (unfold JSON_STRING_INVALID, JSON_STRING_INCOMPLETE;
             intros; inj_pair; lia).
      intros Hr Hn. apply IH in Hr as (h & r & h' & Hs & Hcur & Hrest);
        [|rewrite Eb; discriminate|exact Hn].
      exists h, r, h'. split; [|split; [simpl in Hcur; lia|exact Hrest]].
      eapply same_rec_trans; [apply (same_rec_set_cur f)|exact Hs].
    + destruct (Z.eqb_spec (byte_at (mem f) (fcur f)) QUOTE) as [Eq|Eq].
      * destruct (capture_len f (num_tokens f - 1) (fcur f)) as [r h'] eqn:El.
        simpl. intros H _. injection H as _ <-.
        exists f, r, h'. split; [apply same_rec_refl|]. split; [lia|].
        split; [exact El|].
        rewrite (capture_len_cur _ _ _ _ _ El). reflexivity.
      * intros Hr Hn. apply IH in Hr as (h & r & h' & Hs & Hcur & Hrest);
          [|exact Eq|exact Hn].
        exists h, r, h'. split; [|split; [simpl in Hcur; lia|exact Hrest]].
        eapply same_rec_trans; [apply (same_rec_set_cur f)|exact Hs].
Qed.

(** What a rule that succeeds records: closed tokens in the bytes that it
    consumes. *)
Definition rule_records (rule : frozen -> option result) : Prop :=
  forall f n g, good f -> rule f = Some (n, g) -> 0 <= n ->
                records f g (fcur f) (fcur g).

Lemma parse_number_records f c n g :
  good f -> cur f = (c, f) ->
  is_digit c
  || ((c =? ch "-") && (fcur f + 1 <? fend f)
      && is_digit (byte_at (mem f) (fcur f + 1))) = true ->
  parse_number f = (n, g) -> 0 <= n ->
  records f g (fcur f) (fcur g).
Proof.
  intros Hg Ec Hd H Hn.
  destruct (parse_number_post _ _ _ _ Ec Hd H) as (V & B & _).
  pose proof (good_span _ _ Hg V (B (proj1 (proj2 Hg)))) as Hspan.
  unfold parse_number in H. rewrite Ec in H.
  destruct (capture_ptr f (fcur f) JSON_TYPE_NUMBER) as [n1 f1] eqn:E1.
  destruct (Z.ltb_spec n1 0); [injection H as <- <-; lia|].
  destruct (capture_len _ _ _) as [n2 f2] eqn:E2. injection H as _ <-.
  rewrite (capture_len_cur _ _ _ _ _ E2) in *.
  eapply leaf_records; [exact (proj1 Hg)|exact E1|lia| |exact E2|exact Hspan].
  destruct (c =? ch "-"); [|apply same_rec_scan].
  eapply same_rec_trans; [apply same_rec_set_cur|apply same_rec_scan].
Qed.

Lemma parse_literal_records f ty k n g :
  good f -> 0 < k -> fcur f + k <= fend f ->
  parse_literal f ty k = (n, g) -> 0 <= n ->
  records f g (fcur f) (fcur g).
Proof.
  intros Hg Hk Hle H Hn.
  destruct (parse_literal_post f ty k n g Hk (fun _ => Hle) H) as (V & B & _).
  pose proof (good_span _ _ Hg V (B (proj1 (proj2 Hg)))) as Hspan.
  unfold parse_literal in H.
  destruct (capture_ptr f (fcur f) ty) as [n1 f1] eqn:E1.
  destruct (Z.ltb_spec n1 0); [injection H as <- <-; lia|].
  destruct (capture_len _ _ _) as [n2 f2] eqn:E2. injection H as _ <-.
  rewrite (capture_len_cur _ _ _ _ _ E2) in *.
  eapply leaf_records; [exact (proj1 Hg)|exact E1|lia| |exact E2|exact Hspan].
  apply same_rec_set_cur.
Qed.

Lemma parse_identifier_records f n g :
  good f -> parse_identifier f = (n, g) -> 0 <= n ->
  records f g (fcur f) (fcur g).
Proof.
  intros Hg H Hn.
  destruct (parse_identifier_post _ _ _ H) as (V & B & _).
  pose proof (B (proj1 (proj2 Hg))) as Bg.
  unfold parse_identifier in H. destruct (cur f) as [c h] eqn:Ec.
  pose proof (same_rec_cur _ _ _ Ec) as S0.
  pose proof (cur_bounds _ _ _ Ec (proj1 (proj2 Hg))) as B0.
  apply cur_spec in Ec as (_ & V0 & _ & _).
  destruct (negb (is_alpha c));
    [injection H as <- <-; unfold JSON_STRING_INVALID in Hn; lia|].
  destruct (capture_ptr h (fcur h) JSON_TYPE_STRING) as [n1 f1] eqn:E1.
  destruct (Z.ltb_spec n1 0); [injection H as <- <-; lia|].
  destruct (capture_len _ _ _) as [n2 f2] eqn:E2. injection H as _ <-.
  pose proof (capture_len_cur _ _ _ _ _ E2) as C2.
  pose proof (capture_ptr_cur _ _ _ _ _ E1) as C1.
  match type of E2 with context [scan ?p f1] =>
    pose proof (scan_evolves p f1) as [_ _ _ Vs _ _ _] end.
  pose proof (good_evolves _ _ Hg V0 B0) as Gh.
  destruct V0 as [Ee _ _ V0 _ _ _]. destruct Hg as (_ & Hb & He).
  unfold in_bounds in *.
  apply (records_pre f h); [exact S0|].
  eapply records_widen; [|exact V0|apply Z.le_refl].
  rewrite C2.
  eapply leaf_records;
    [exact (proj1 Gh)|exact E1|lia|apply same_rec_scan|exact E2|].
  destruct V as [Ee' _ _ _ _ _ _]. lia.
Qed.

Lemma parse_string_records f n g :
  good f -> parse_string f = (n, g) -> 0 <= n ->
  records f g (fcur f) (fcur g).
Proof.
  intros Hg H Hn.
  destruct (parse_string_post _ _ _ H) as (V & B & _).
  pose proof (B (proj1 (proj2 Hg))) as Bg.
  unfold parse_string in H.
  destruct (test_and_skip f QUOTE) as [n1 f1] eqn:E1.
  destruct (Z.ltb_spec n1 0); [injection H as <- <-; lia|].
  pose proof (same_rec_test_and_skip _ _ _ _ E1) as S1.
  assert (Hq : QUOTE <> END_OF_STRING) by discriminate.
  pose proof (test_and_skip_bounds _ _ _ _ Hq E1 (proj1 (proj2 Hg))) as B1.
  pose proof (test_and_skip_evolves f QUOTE) as V1. rewrite E1 in V1.
  simpl in V1.
  pose proof (good_evolves _ _ Hg V1 B1) as G1.
  destruct (capture_ptr f1 (fcur f1) JSON_TYPE_STRING) as [n2 f2] eqn:E2.
  destruct (Z.ltb_spec n2 0); [injection H as <- <-; lia|].
  pose proof (capture_ptr_cur _ _ _ _ _ E2) as C2.
  assert (Hz : (0:Z) <> QUOTE) by discriminate.
  destruct (parse_string_loop_close _ _ _ _ _ Hz H Hn)
    as (h & r & h' & Sh & Hcur & E3 & ->).
  simpl in *.
  destruct V1 as [_ _ _ V1 _ _ _]. destruct V as [Ee _ _ _ _ _ _].
  destruct Hg as (_ & Hb & He). unfold in_bounds in *. simpl in *.
  apply (records_pre f f1); [exact S1|].
  apply (records_post f1 h'); [|apply same_rec_set_cur].
  eapply records_widen with (lo := fcur f1) (hi := fcur h); [|lia|lia].
  eapply leaf_records; [exact (proj1 G1)|exact E2|lia|exact Sh|exact E3|].
  lia.
Qed.

Lemma parse_key_records f n g :
  good f -> parse_key f = (n, g) -> 0 <= n ->
  records f g (fcur f) (fcur g).
Proof.
  intros Hg H Hn. unfold parse_key in H.
  destruct (cur f) as [c h] eqn:Ec.
  pose proof (same_rec_cur _ _ _ Ec) as S0.
  pose proof (cur_bounds _ _ _ Ec (proj1 (proj2 Hg))) as B0.
  apply cur_spec in Ec as (_ & V0 & _ & _).
  pose proof (good_evolves _ _ Hg V0 B0) as Gh.
  destruct V0 as [_ _ _ V0 _ _ _].
  apply (records_pre f h); [exact S0|].
  destruct (is_alpha c).
  - destruct (parse_identifier h) as [n1 f1] eqn:E1.
    destruct (Z.ltb_spec n1 0); injection H as <- <-; [lia|].
    eapply records_widen;
      [eapply parse_identifier_records; eauto|lia|lia].
  - destruct (c =? QUOTE).
    + destruct (parse_string h) as [n1 f1] eqn:E1.
      destruct (Z.ltb_spec n1 0); injection H as <- <-; [lia|].
      eapply records_widen;
        [eapply parse_string_records; eauto|lia|lia].
    + injection H as <- <-. exfalso.
      unfold JSON_STRING_INCOMPLETE, JSON_STRING_INVALID in Hn.
      destruct (c =? END_OF_STRING); lia.
Qed.

Lemma records_after f h g :
  same_rec f h -> fcur f <= fcur h ->
  records h g (fcur h) (fcur g) -> records f g (fcur f) (fcur g).
Proof.
  intros Hs Hle H. apply (records_pre f h); [exact Hs|].
  eapply records_widen; [exact H|exact Hle|apply Z.le_refl].
Qed.

Lemma records_seq f g h :
  records f g (fcur f) (fcur g) -> records g h (fcur g) (fcur h) ->
  fcur f <= fcur g <= fcur h ->
  records f h (fcur f) (fcur h).
Proof.
  intros H1 H2 Hle.
  eapply records_widen; [eapply records_trans; eauto|lia|lia]. lia.
Qed.

Lemma good_cur f c h : good f -> cur f = (c, h) -> good h /\ fcur f <= fcur h.
Proof.
  intros Hg Ec.
  pose proof (cur_bounds _ _ _ Ec (proj1 (proj2 Hg))) as B0.
  apply cur_spec in Ec as (_ & V0 & _ & _).
  split; [eapply good_evolves; eauto|]. destruct V0. assumption.
Qed.

Lemma loop_body_records rule loop close :
  (forall f n g, rule f = Some (n, g) -> rule_post f n g) ->
  (forall f n g, loop f = Some (n, g) -> loop_post f n g) ->
  rule_records rule -> rule_records loop ->
  rule_records (loop_body rule loop close).
Proof.
  intros Prule Ploop Rrule Rloop f n g Hg H Hn. unfold loop_body in H.
  destruct (cur f) as [c h] eqn:Ec.
  pose proof (same_rec_cur _ _ _ Ec) as S0.
  destruct (good_cur _ _ _ Hg Ec) as [Gh V0].
  apply (records_after f h); [exact S0|exact V0|].
  destruct (c =? close); cbn [negb] in H.
  { injection H as <- <-. apply records_same; [apply same_rec_refl|].
    destruct Gh as ((a & _ & _ & Hnum) & _). lia. }
  try_step H n1 g1 E1 Hn1; [lia|].
  destruct (Prule _ _ _ E1) as (V1 & B1 & _).
  pose proof (good_evolves _ _ Gh V1 (B1 (proj1 (proj2 Gh)))) as G1.
  destruct (skip_comma_post g1) as [V3 B3].
  pose proof (good_evolves _ _ G1 V3 (B3 (proj1 (proj2 G1)))) as G3.
  destruct (Ploop _ _ _ H) as ([_ _ _ V4 _ _ _] & _).
  destruct V1 as [_ _ _ V1 _ _ _]. destruct V3 as [_ _ _ V3 _ _ _].
  apply (records_seq h g1); [eapply Rrule; eauto| |lia].
  apply (records_after g1 (skip_comma g1));
    [apply same_rec_skip_comma|exact V3|].
  eapply Rloop; eauto.
Qed.

Lemma container_records loop open close ty :
  composite ty = true -> open <> END_OF_STRING -> close <> END_OF_STRING ->
  (forall f n g, loop f = Some (n, g) -> loop_post f n g) ->
  rule_records loop ->
  rule_records (container loop open close ty).
Proof.
  intros Hty Ho Hc Ploop Rloop f n g Hg H Hn.
  unfold container in H. cbv zeta in H.
  try_step H n1 f1 E1 Hn1; [lia|].
  try_step H n2 f2 E2 Hn2; [lia|].
  try_step H n3 f3 E3 Hn3; [lia|].
  try_step H n4 f4 E4 Hn4; [lia|].
  destruct (capture_len f4 (num_tokens f2 - 1) (fcur f4)) as [n5 f5] eqn:E5.
  injection H as <- <-.
  pose proof (same_rec_test_and_skip _ _ _ _ E1) as S1.
  pose proof (test_and_skip_bounds _ _ _ _ Ho E1 (proj1 (proj2 Hg))) as B1.
  destruct (test_and_skip_spec _ _ _ _ Ho E1) as (V1 & Hs1).
  destruct (Hs1 Hn1) as (_ & Hlt1 & _).
  pose proof (good_evolves _ _ Hg V1 B1) as G1.
  pose proof (capture_ptr_bounds _ _ _ _ _ E2 B1) as B2.
  pose proof (capture_ptr_evolves _ _ _ _ _ E2) as V2.
  pose proof (capture_ptr_cur _ _ _ _ _ E2) as C2.
  pose proof (good_evolves _ _ G1 V2 B2) as G2.
  destruct (capture_ptr_records _ _ _ _ _ (proj1 G1) E2 Hn2)
    as (N2 & F2 & t0 & Ht0 & Hp0 & Hty0).
  destruct (Ploop _ _ _ E3) as (V3 & B3 & _).
  pose proof (good_evolves _ _ G2 V3 (B3 B2)) as G3.
  destruct (Rloop _ _ _ G2 E3 Hn3) as (N3 & F3 & New3).
  pose proof (same_rec_test_and_skip _ _ _ _ E4) as S4.
  pose proof (test_and_skip_bounds _ _ _ _ Hc E4 (proj1 (proj2 G3))) as B4.
  destruct (test_and_skip_spec _ _ _ _ Hc E4) as (V4 & Hs4).
  destruct (Hs4 Hn4) as (_ & Hlt4 & _).
  pose proof (good_evolves _ _ G3 V4 B4) as G4.
  pose proof (capture_len_cur _ _ _ _ _ E5) as C5.
  pose proof S1 as (_ & N1 & _). pose proof S4 as (_ & N4 & _).
  pose proof (proj1 G1) as (a1 & _ & _ & Hnum1).
  assert (Hk : 0 <= num_tokens f2 - 1 < num_tokens f4) by lia.
  destruct (capture_len_records _ _ _ _ _ (proj1 G4) Hk E5) as (N5 & F5 & T5).
  destruct V3 as [_ _ _ V3 _ _ _].
  destruct Hg as (_ & Hb & He). destruct G4 as (_ & Hb4 & He4).
  destruct V1 as [Ee1 _ _ _ _ _ _]. destruct V2 as [Ee2 _ _ _ _ _ _].
  unfold in_bounds in *.
  replace (num_tokens f2 - 1) with (num_tokens f) in * by lia.
  assert (Htk : tok_at f4 (num_tokens f) = Some t0).
  { rewrite (same_rec_tok_at f3 f4 _ S4), F3 by lia.
    rewrite <- N1. exact Ht0. }
  specialize (T5 t0 Htk). rewrite Hp0 in T5.
  rewrite to_int_small in T5 by (unfold INT_MAX in *; lia).
  rewrite C5. split; [lia|]. split.
  - intros i Hi. rewrite F5 by lia.
    rewrite (same_rec_tok_at f3 f4 _ S4), F3 by lia.
    rewrite F2 by lia. apply same_rec_tok_at, S1.
  - intros i Hi. destruct (Z.eq_dec i (num_tokens f)) as [->|Hne].
    + eexists. split; [exact T5|]. simpl. split; [lia|]. split; [lia|].
      unfold node_ok. simpl. rewrite N5, N4.
      split; [lia|]. split; [lia|]. split; [lia|].
      split; [rewrite Hty0, Hty; discriminate|].
      intros j tj Hj Htj.
      destruct (Z.leb_spec j (num_tokens f + (num_tokens f3 - 1 - num_tokens f)));
        [|lia].
      rewrite F5, (same_rec_tok_at f3 f4 _ S4) in Htj by lia.
      destruct (New3 j ltac:(lia)) as (t3 & Ht3 & Hlo & Hhi & Hl3 & _).
      rewrite Htj in Ht3. injection Ht3 as <-. lia.
    + destruct (New3 i ltac:(lia)) as (t3 & Ht3 & Hlo & Hhi & Hok).
      exists t3. rewrite F5, (same_rec_tok_at f3 f4 _ S4) by lia.
      split; [exact Ht3|]. split; [lia|]. split; [lia|].
      apply (node_ok_frame f3 f5); auto; try lia.
      intros j Hj. rewrite F5, (same_rec_tok_at f3 f4 _ S4) by lia.
      reflexivity.
Qed.

Lemma parse_pair_records fuel :
  rule_records (parse_value fuel) -> rule_records (parse_pair (S fuel)).
Proof.
  intros Rv f n g Hg H Hn. rewrite parse_pair_S in H.
  destruct (rules_post_all fuel) as (Pv & _).
  try_step H n1 f1 E1 Hn1; [lia|].
  try_step H n2 f2 E2 Hn2; [lia|].
  try_step H n3 f3 E3 Hn3; [lia|].
  injection H as <- <-.
  destruct (parse_key_post _ _ _ E1) as (V1 & B1 & _).
  pose proof (good_evolves _ _ Hg V1 (B1 (proj1 (proj2 Hg)))) as G1.
  pose proof (same_rec_test_and_skip _ _ _ _ E2) as S2.
  pose proof (test_and_skip_bounds _ _ _ _ (ch_ne_eos _) E2
                (proj1 (proj2 G1))) as B2.
  pose proof (test_and_skip_evolves f1 (ch ":")) as V2. rewrite E2 in V2.
  simpl in V2.
  pose proof (good_evolves _ _ G1 V2 B2) as G2.
  destruct (Pv _ _ _ E3) as ([_ _ _ V3 _ _ _] & _).
  destruct V1 as [_ _ _ V1 _ _ _]. destruct V2 as [_ _ _ V2 _ _ _].
  apply (records_seq f f1); [eapply parse_key_records; eauto| |lia].
  apply (records_after f1 f2); [exact S2|exact V2|].
  eapply Rv; eauto.
Qed.

Lemma parse_value_records fuel :
  rule_records (parse_object fuel) -> rule_records (parse_array fuel) ->
  rule_records (parse_value (S fuel)).
Proof.
  intros Ro Ra f n g Hg H Hn. rewrite parse_value_S in H.
  destruct (cur f) as [c h] eqn:Ec.
  pose proof (same_rec_cur _ _ _ Ec) as S0.
  pose proof (cur_idem _ _ _ Ec) as Ei.
  destruct (good_cur _ _ _ Hg Ec) as [Gh V0].
  apply (records_after f h); [exact S0|exact V0|]. clear Ec S0 V0 Hg f.
  assert (Hlit : forall k, 0 <= k -> forall str, compare h str k = true ->
                 fcur h + k <= fend h).
  { intros k Hk str Hcmp. apply compare_left in Hcmp.
    pose proof (left_le _ (proj1 (proj2 Gh))). lia. }
  destruct (c =? QUOTE).
  { try_step H n1 f1 E1 Hn1; [lia|]. injection H as <- <-.
    eapply parse_string_records; eauto. }
  destruct (c =? ch "{").
  { try_step H n1 f1 E1 Hn1; [lia|]. injection H as <- <-.
    eapply Ro; eauto. }
  destruct (c =? ch "[").
  { try_step H n1 f1 E1 Hn1; [lia|]. injection H as <- <-.
    eapply Ra; eauto. }
  destruct ((c =? ch "n") && compare h "null" 4) eqn:En.
  { apply andb_prop in En as [_ Hcmp].
    try_step H n1 f1 E1 Hn1; [lia|]. injection H as <- <-.
    eapply parse_literal_records; eauto; [lia|]. apply (Hlit 4 ltac:(lia) _ Hcmp). }
  destruct ((c =? ch "t") && compare h "true" 4) eqn:Et.
  { apply andb_prop in Et as [_ Hcmp].
    try_step H n1 f1 E1 Hn1; [lia|]. injection H as <- <-.
    eapply parse_literal_records; eauto; [lia|]. apply (Hlit 4 ltac:(lia) _ Hcmp). }
  destruct ((c =? ch "f") && compare h "false" 5) eqn:Ef.
  { apply andb_prop in Ef as [_ Hcmp].
    try_step H n1 f1 E1 Hn1; [lia|]. injection H as <- <-.
    eapply parse_literal_records; eauto; [lia|]. apply (Hlit 5 ltac:(lia) _ Hcmp). }
  destruct (is_digit c
            || ((c =? ch "-") && (fcur h + 1 <? fend h)
                && is_digit (byte_at (mem h) (fcur h + 1)))) eqn:Enum.
  { try_step H n1 f1 E1 Hn1; [lia|]. injection H as <- <-.
    eapply parse_number_records; eauto. }
  injection H as <- <-. exfalso.
  unfold JSON_STRING_INCOMPLETE, JSON_STRING_INVALID in Hn.
  destruct (c =? END_OF_STRING); lia.
Qed.

Lemma rules_record fuel :
  rule_records (parse_value fuel) /\ rule_records (parse_array_loop fuel)
  /\ rule_records (parse_array fuel) /\ rule_records (parse_pair fuel)
  /\ rule_records (parse_object_loop fuel)
  /\ rule_records (parse_object fuel).
Proof.
  induction fuel as [|fuel (IHv & IHal & IHa & IHp & IHol & IHo)].
  { unfold rule_records. repeat apply conj; intros; discriminate. }
  destruct (rules_post_all fuel) as (Pv & Pal & Pa & Pp & Pol & Po).
  repeat apply conj.
  - apply parse_value_records; assumption.
  - rewrite parse_array_loop_body. apply loop_body_records; auto.
  - rewrite parse_array_container.
    apply container_records; auto using ch_ne_eos.
  - apply parse_pair_records; assumption.
  - rewrite parse_object_loop_body. apply loop_body_records; auto.
  - rewrite parse_object_container.
    apply container_records; auto using ch_ne_eos.
Qed.

(** [capture_len] at any index stores to that slot only. *)
Lemma capture_len_frame f k q n g :
  0 <= k -> capture_len f k q = (n, g) ->
  num_tokens g = num_tokens f
  /\ forall i, 0 <= i -> i <> k -> tok_at g i = tok_at f i.
Proof.
  intros Hk E. unfold capture_len in E.
  destruct (tokens f) as [a|] eqn:Ha;
    [|injection E as _ <-; split; [reflexivity|reflexivity]].
  destruct (max_tokens f =? 0);
    [injection E as _ <-; split; [reflexivity|reflexivity]|].
  destruct ((k >=? 0) && (k <? max_tokens f));
    injection E as _ <-; (split; [reflexivity|]); [|reflexivity].
  intros i Hi Hne. unfold tok_at. simpl. rewrite Ha. simpl.
  apply list_lookup_alter_ne. lia.
Qed.

(** After a successful [parse_json] every token before the end-of-input
    marker is closed, and its subtree ends before the marker. *)
Lemma parse_json_records s s_len a arr_len r g :
  parse_json_frozen s s_len (Some a) arr_len = Some (r, g) -> 0 <= r ->
  s_len <= INT_MAX -> 0 < arr_len <= Z.of_nat (length a) ->
  0 < num_tokens g <= Z.of_nat (length (default [] (tokens g)))
  /\ forall i, 0 <= i < num_tokens g - 1 ->
       exists t, tok_at g i = Some t /\ node_ok g i t
                 /\ i + num_children t < num_tokens g - 1.
Proof.
  intros H Hr Hmax Hcap. unfold parse_json_frozen in H.
  destruct (bool_decide (s = None)); cbn [orb] in H;
    [injection H as <- _; unfold JSON_STRING_INVALID in Hr; lia|].
  destruct (Z.ltb_spec s_len 0);
    [injection H as <- _; unfold JSON_STRING_INVALID in Hr; lia|].
  destruct (s_len =? 0);
    [injection H as <- _; unfold JSON_STRING_INCOMPLETE in Hr; lia|].
  try_step H n1 f1 E1 Hn1; [lia|].
  try_step H n2 f2 E2 Hn2; [lia|].
  destruct (capture_len f2 (num_tokens f2) (fcur f2)) as [n3 f3] eqn:E3.
  injection H as _ <-.
  assert (G0 : good (init_frozen s s_len (Some a) arr_len)).
  { split; [|split; [apply init_in_bounds; lia|exact Hmax]].
    exists a. simpl. split; [reflexivity|]. lia. }
  destruct (rules_post_all (fuel_of s_len)) as (_ & _ & _ & _ & _ & Po).
  destruct (Po _ _ _ E1) as (V1 & B1 & _).
  pose proof (good_evolves _ _ G0 V1 (B1 (proj1 (proj2 G0)))) as G1.
  destruct (rules_record (fuel_of s_len)) as (_ & _ & _ & _ & _ & Ro).
  destruct (Ro _ _ _ G0 E1 Hn1) as (N1 & _ & New1). simpl in N1, New1.
  destruct (capture_ptr_records _ _ _ _ _ (proj1 G1) E2 Hn2)
    as (N2 & F2 & t0 & Ht0 & Hp0 & _).
  pose proof (on_evolves _ _ (proj1 G1) (capture_ptr_evolves _ _ _ _ _ E2))
    as On2.
  assert (Hk : 0 <= num_tokens f2) by lia.
  destruct (capture_len_frame _ _ _ _ _ Hk E3) as (N3 & F3).
  pose proof (on_evolves _ _ On2 (capture_len_evolves _ _ _ _ _ E3))
    as (b & Hb & Hmb & Hnb).
  split; [rewrite Hb; simpl; lia|].
  intros i Hi. rewrite N3, N2 in Hi.
  destruct (New1 i ltac:(lia)) as (t & Ht & _ & Hhi & Hok).
  exists t. rewrite F3, F2 by lia. split; [exact Ht|].
  split; [|destruct Hok as (_ & _ & Hc & _); lia].
  apply (node_ok_frame f1 f3); auto; try lia.
  - intros j Hj. rewrite F3, F2 by lia. reflexivity.
  - intros j tj Hj Htj. assert (j = num_tokens f1) as -> by lia.
    rewrite F3, Ht0 in Htj by lia. injection Htj as <-. lia.
Qed.

(** The token that a leaf records. *)
Lemma leaf_token f p ty n1 f1 h q n2 g :
  on f -> capture_ptr f p ty = (n1, f1) -> 0 <= n1 -> same_rec f1 h ->
  capture_len h (num_tokens h - 1) q = (n2, g) ->
  0 <= q - p <= INT_MAX ->
  num_tokens g = num_tokens f + 1
  /\ tok_at g (num_tokens f)
     = Some {| ptr := p; len := q - p; num_children := 0; type := ty |}.
Proof.
  intros Hon E1 Hn1 Hs E2 Hq.
  pose proof Hon as (a0 & _ & _ & Hnf).
  destruct (capture_ptr_records _ _ _ _ _ Hon E1 Hn1)
    as (N1 & F1 & t & Ht & Hp & Hty).
  assert (On1 : on f1) by (eapply on_evolves, capture_ptr_evolves; eauto).
  assert (Onh : on h) by (eapply on_same; eauto).
  pose proof Hs as (_ & Nh & _).
  assert (Hk : 0 <= num_tokens h - 1 < num_tokens h) by lia.
  destruct (capture_len_records _ _ _ _ _ Onh Hk E2) as (N2 & F2 & T2).
  rewrite Nh, N1 in *.
  replace (num_tokens f + 1 - 1) with (num_tokens f) in * by lia.
  specialize (T2 t). rewrite (same_rec_tok_at f1 h _ Hs) in T2.
  specialize (T2 Ht). rewrite Hp, Hty in T2.
  rewrite to_int_small in T2 by (unfold INT_MAX in *; lia).
  rewrite Z.sub_diag in T2.
  split; [exact N2|exact T2].
Qed.

(** The token of an array or of an object. *)
Lemma container_token loop open close ty f n g :
  open <> END_OF_STRING -> close <> END_OF_STRING ->
  (forall f n g, loop f = Some (n, g) -> loop_post f n g) ->
  rule_records loop -> good f ->
  container loop open close ty f = Some (n, g) -> 0 <= n ->
  exists t, tok_at g (num_tokens f) = Some t /\ type t = ty
    /\ fcur f <= ptr t
    /\ (forall i, fcur f <= i < ptr t ->
          is_space (byte_at (mem f) i) = true)
    /\ byte_at (mem f) (ptr t) = open /\ 2 <= len t
    /\ ptr t + len t = fcur g
    /\ byte_at (mem f) (fcur g - 1) = close
    /\ num_children t = num_tokens g - 1 - num_tokens f
    /\ num_tokens f < num_tokens g.
Proof.
  intros Ho Hc Ploop Rloop Hg H Hn.
  unfold container in H. cbv zeta in H.
  try_step H n1 f1 E1 Hn1; [lia|].
  try_step H n2 f2 E2 Hn2; [lia|].
  try_step H n3 f3 E3 Hn3; [lia|].
  try_step H n4 f4 E4 Hn4; [lia|].
  destruct (capture_len f4 (num_tokens f2 - 1) (fcur f4)) as [n5 f5] eqn:E5.
  injection H as _ <-.
  pose proof (same_rec_test_and_skip _ _ _ _ E1) as S1.
  pose proof (test_and_skip_bounds _ _ _ _ Ho E1 (proj1 (proj2 Hg))) as B1.
  destruct (test_and_skip_spec _ _ _ _ Ho E1) as (V1 & Hs1).
  destruct (Hs1 Hn1) as (_ & Hlt1 & _ & Hopen & _ & Hws).
  pose proof (good_evolves _ _ Hg V1 B1) as G1.
  pose proof (capture_ptr_bounds _ _ _ _ _ E2 B1) as B2.
  pose proof (capture_ptr_evolves _ _ _ _ _ E2) as V2.
  pose proof (capture_ptr_cur _ _ _ _ _ E2) as C2.
  pose proof (good_evolves _ _ G1 V2 B2) as G2.
  destruct (capture_ptr_records _ _ _ _ _ (proj1 G1) E2 Hn2)
    as (N2 & F2 & t0 & Ht0 & Hp0 & Hty0).
  destruct (Ploop _ _ _ E3) as (V3 & B3 & _).
  pose proof (good_evolves _ _ G2 V3 (B3 B2)) as G3.
  destruct (Rloop _ _ _ G2 E3 Hn3) as (N3 & F3 & _).
  pose proof (same_rec_test_and_skip _ _ _ _ E4) as S4.
  pose proof (test_and_skip_bounds _ _ _ _ Hc E4 (proj1 (proj2 G3))) as B4.
  destruct (test_and_skip_spec _ _ _ _ Hc E4) as (V4 & Hs4).
  destruct (Hs4 Hn4) as (_ & Hlt4 & _ & Hclose & _).
  pose proof (good_evolves _ _ G3 V4 B4) as G4.
  pose proof (capture_len_cur _ _ _ _ _ E5) as C5.
  pose proof S1 as (_ & N1 & _). pose proof S4 as (_ & N4 & _).
  pose proof (proj1 G1) as (a1 & _ & _ & Hnum1).
  assert (Hk : 0 <= num_tokens f2 - 1 < num_tokens f4) by lia.
  destruct (capture_len_records _ _ _ _ _ (proj1 G4) Hk E5) as (N5 & F5 & T5).
  destruct V3 as [_ Em3 _ V3 _ _ _].
  destruct Hg as (_ & Hb & He). destruct G4 as (_ & Hb4 & He4).
  destruct V1 as [Ee1 Em1 _ _ _ _ _]. destruct V2 as [Ee2 Em2 _ _ _ _ _].
  unfold in_bounds in *.
  replace (num_tokens f2 - 1) with (num_tokens f) in * by lia.
  assert (Htk : tok_at f4 (num_tokens f) = Some t0).
  { rewrite (same_rec_tok_at f3 f4 _ S4), F3 by lia.
    rewrite <- N1. exact Ht0. }
  specialize (T5 t0 Htk). rewrite Hp0, Hty0 in T5.
  rewrite to_int_small in T5 by (unfold INT_MAX in *; lia).
  eexists. split; [exact T5|]. cbn [type ptr len num_children].
  rewrite C5. split; [reflexivity|]. split; [lia|].
  split; [intros i Hi; apply Hws; lia|]. split; [exact Hopen|].
  split; [lia|]. split; [lia|]. split; [|lia].
  rewrite <- Hclose. congruence.
Qed.

(** ** The recorder follows the grammar

    A rule that succeeds with a recorder that is on records the tokens
    that the grammar gives the bytes that it reads. *)

(** From [f] to [g] the tokens [l] are recorded after those of [f]. *)
Definition recorded (f g : frozen) (l : list json_token) : Prop :=
  num_tokens g = num_tokens f + Z.of_nat (length l)
  /\ (forall i, 0 <= i < num_tokens f -> tok_at g i = tok_at f i)
  /\ forall (k : nat) t, l !! k = Some t ->
       tok_at g (num_tokens f + Z.of_nat k) = Some t.

Lemma recorded_same f g : same_rec f g -> recorded f g [].
Proof.
  intros Hs. pose proof Hs as (_ & En & _). split; [simpl; lia|]. split.
  - intros i _. apply same_rec_tok_at, Hs.
  - intros k t Hk. discriminate Hk.
Qed.

Lemma recorded_pre f f' g l : same_rec f f' -> recorded f' g l -> recorded f g l.
Proof.
  intros Hs (Hn & Hf & Hl). pose proof Hs as (_ & En & _).
  rewrite En in *. split; [exact Hn|]. split; [|exact Hl].
  intros i Hi. rewrite Hf by exact Hi. apply same_rec_tok_at, Hs.
Qed.

Lemma recorded_post f g g' l : recorded f g l -> same_rec g g' -> recorded f g' l.
Proof.
  intros (Hn & Hf & Hl) Hs. pose proof Hs as (_ & En & _).
  split; [lia|]. split.
  - intros i Hi. rewrite (same_rec_tok_at g g') by exact Hs. apply Hf, Hi.
  - intros k t Hk. rewrite (same_rec_tok_at g g') by exact Hs. apply Hl, Hk.
Qed.

Lemma recorded_app f g h l1 l2 :
  0 <= num_tokens f -> recorded f g l1 -> recorded g h l2 ->
  recorded f h (l1 ++ l2).
Proof.
  intros H0 (Hn1 & Hf1 & Hl1) (Hn2 & Hf2 & Hl2).
  split; [rewrite length_app; lia|]. split.
  - intros i Hi. rewrite Hf2 by lia. apply Hf1, Hi.
  - intros k t Hk. apply lookup_app_Some in Hk as [Hk|[Hge Hk]].
    + pose proof (lookup_lt_Some _ _ _ Hk) as Hlt.
      rewrite Hf2 by lia. apply Hl1, Hk.
    + specialize (Hl2 _ _ Hk).
      replace (num_tokens f + Z.of_nat k)
        with (num_tokens g + Z.of_nat (k - length l1)) by lia.
      exact Hl2.
Qed.

(** A leaf: [capture_ptr] at [p], moves of the cursor, [capture_len] of
    the last token at [q]. *)
Lemma recorded_leaf lvl f p ty n1 f1 h q n2 g :
  on f -> capture_ptr f p ty = (n1, f1) -> 0 <= n1 -> same_rec f1 h ->
  capture_len h (num_tokens h - 1) q = (n2, g) ->
  0 <= q - p <= INT_MAX ->
  recorded f g (map snd (leaf lvl ty p q)).
Proof.
  intros Hon E1 Hn1 Hs E2 Hq.
  destruct (leaf_token _ _ _ _ _ _ _ _ _ Hon E1 Hn1 Hs E2 Hq) as [N T].
  destruct (leaf_records _ _ _ _ _ _ _ _ _ Hon E1 Hn1 Hs E2 Hq)
    as (_ & F & _).
  split; [simpl; lia|]. split; [exact F|].
  intros [|k] t Hk; [|discriminate Hk]. injection Hk as <-.
  rewrite Z.add_0_r. exact T.
Qed.

Section follows_grammar.

Variable m : list ascii.
Variable e : Z.

(** A state of a run over the input, with a recorder that is on. *)
Definition here (f : frozen) : Prop := fend f = e /\ mem f = m /\ good f.

Lemma here_evolves f g : here f -> evolves f g -> in_bounds g -> here g.
Proof.
  intros (He & Hm & Hg) V B. pose proof V as [Ee Em _ _ _ _ _].
  split; [congruence|]. split; [congruence|]. eapply good_evolves; eauto.
Qed.

Lemma cur_grammar f :
  here f ->
  cur f = (peek m e (fcur f), set_cur f (significant m e (fcur f))).
Proof.
  intros (He & Hm & _). unfold cur, skip_whitespaces, scan, peek, significant.
  cbn [fend fcur mem set_cur]. rewrite He, Hm. reflexivity.
Qed.

Lemma here_cur f : here f -> here (set_cur f (significant m e (fcur f))).
Proof.
  intros H. pose proof (cur_grammar f H) as Ec.
  pose proof (cur_bounds _ _ _ Ec (proj1 (proj2 (proj2 (proj2 H))))) as B.
  apply cur_spec in Ec as (_ & V & _ & _). eapply here_evolves; eauto.
Qed.

Lemma significant_ge f : here f -> fcur f <= significant m e (fcur f) <= e.
Proof.
  intros H. pose proof (here_cur f H) as (He & _ & _ & Hb & _).
  pose proof (cur_grammar f H) as Ec.
  apply cur_spec in Ec as (_ & [_ _ _ V _ _ _] & _ & _).
  unfold in_bounds in Hb. simpl in *. destruct H as (<- & _). lia.
Qed.

Lemma test_and_skip_grammar f x n g :
  here f -> test_and_skip f x = (n, g) -> 0 <= n ->
  (peek m e (fcur f) =? x) = true
  /\ g = set_cur f (significant m e (fcur f) + 1).
Proof.
  intros H E Hn. unfold test_and_skip in E. rewrite (cur_grammar f H) in E.
  destruct (peek m e (fcur f) =? x).
  - injection E as _ <-. split; reflexivity.
  - injection E as <- _. exfalso.
    unfold JSON_STRING_INCOMPLETE, JSON_STRING_INVALID in Hn.
    destruct (_ =? END_OF_STRING); lia.
Qed.

Lemma skip_comma_grammar f :
  here f -> skip_comma f = set_cur f (after_comma m e (fcur f)).
Proof.
  intros H. unfold skip_comma, after_comma. rewrite (cur_grammar f H).
  destruct (peek m e (fcur f) =? ch ","); reflexivity.
Qed.

Lemma compare_loop_match (l : list ascii) (c i : Z) :
  (compare_loop m c l i =? i + Z.of_nat (length l))
  = bytes_match m l (c + i).
Proof.
  revert i. induction l as [|x l IH]; intros i.
  - simpl. rewrite Z.add_0_r. apply Z.eqb_refl.
  - cbn [compare_loop bytes_match length]. rewrite Nat2Z.inj_succ.
    destruct (byte_at m (c + i) =? ch x); cbn [andb].
    + rewrite <- Z.add_assoc, <- IH. f_equal. lia.
    + apply Z.eqb_neq. lia.
Qed.

Lemma compare_grammar f str k :
  here f -> Z.of_nat (String.length str) = k ->
  compare f str k = literal_at m e str (fcur f).
Proof.
  intros (He & Hm & _ & Hb & Hmax) Hk. unfold in_bounds in Hb.
  assert (Hlen : length (list_ascii_of_string str) = String.length str).
  { clear. induction str; simpl; auto. }
  unfold compare, literal_at. rewrite left_small by assumption.
  rewrite He, Hm, Hk.
  destruct (Z.ltb_spec (e - fcur f) k); destruct (Z.leb_spec (fcur f + k) e);
    try (exfalso; lia); cbn [andb]; [reflexivity|].
  rewrite take_ge by lia.
  replace (fcur f) with (fcur f + 0) at 2 by lia.
  rewrite <- compare_loop_match, Hlen. f_equal. lia.
Qed.

Lemma get_escape_len_simple s l :
  get_escape_len m s l = 1 -> simple_escape (byte_at m s) = true /\ 2 <= l.
Proof.
  unfold get_escape_len, simple_escape.
  destruct (byte_at m s =? ch "u").
  - destruct (l <? 4); [discriminate|]. destruct (_ && _); discriminate.
  - destruct (_ || _); [|discriminate].
    destruct (Z.ltb_spec l 2); [discriminate|]. auto.
Qed.

Lemma parse_string_loop_grammar k c f n g :
  here f -> c <> QUOTE -> parse_string_loop k c f = (n, g) -> 0 <= n ->
  closing_quote m e k (fcur f) = Some (fcur g - 1).
Proof.
  revert c f. induction k as [|k IH]; intros c f Hh Hc; simpl.
  - destruct (Z.eqb_spec c QUOTE); [congruence|].
    unfold JSON_STRING_INCOMPLETE. break_if; intros; inj_pair; lia.
  - pose proof Hh as (He & Hm & Hg).
    pose proof Hg as (_ & Hb & Hmax). unfold in_bounds in Hb.
    rewrite He, Hm.
    destruct (Z.ltb_spec (fcur f) e) as [Hlt|Hge].
    2:{ destruct (Z.eqb_spec c QUOTE); [congruence|].
        unfold JSON_STRING_INCOMPLETE. intros; inj_pair. lia. }
    rewrite Z.geb_leb.
    destruct ((32 <=? byte_at m (fcur f)) && (byte_at m (fcur f) <=? 127));
      cbn [negb];
      [|unfold JSON_STRING_INVALID; intros; inj_pair; lia].
    assert (Hnext : forall p, fcur f < p <= e -> here (set_cur f p)).
    { intros p Hp. eapply here_evolves; [exact Hh| |].
      - apply evolves_set_cur. lia.
      - unfold in_bounds. simpl. lia. }
    destruct (Z.eqb_spec (byte_at m (fcur f)) (ch "\")) as [Eb|Eb].
    + destruct (get_escape_len_cases m (fcur f + 1) (left f))
        as [E|[E|(E & Hl & _)]]; rewrite E; simpl;
        try (unfold JSON_STRING_INVALID, JSON_STRING_INCOMPLETE;
             intros; inj_pair; lia).
      destruct (get_escape_len_simple _ _ E) as [Hs _].
      rewrite left_small in Hl by (unfold in_bounds; auto; lia).
      rewrite Hs. destruct (Z.ltb_spec (fcur f + 1) e); [|lia]. cbn [andb].
      intros Hr Hn. replace (fcur f + 2) with (fcur f + 1 + 1) by lia.
      apply (IH (byte_at m (fcur f)) (set_cur f (fcur f + 1 + 1)));
        [apply Hnext; lia|rewrite Eb; discriminate|exact Hr|exact Hn].
    + destruct (Z.eqb_spec (byte_at m (fcur f)) QUOTE) as [Eq|Eq].
      * destruct (capture_len f (num_tokens f - 1) (fcur f)) as [r h'] eqn:El.
        simpl. intros H _. injection H as _ <-. simpl.
        rewrite (capture_len_cur _ _ _ _ _ El). f_equal. lia.
      * intros Hr Hn.
        apply (IH (byte_at m (fcur f)) (set_cur f (fcur f + 1)));
          [apply Hnext; lia|exact Eq|exact Hr|exact Hn].
Qed.

(** What a leaf rule gives: the tokens of the grammar, recorded. *)
Definition leaf_follows_grammar (rule : frozen -> result)
    (ref : nat -> Z -> option (list levelled * Z)) : Prop :=
  forall f n g lvl, here f -> rule f = (n, g) -> 0 <= n ->
    exists l, ref lvl (fcur f) = Some (l, fcur g)
              /\ recorded f g (map snd l).

Lemma parse_string_grammar :
  leaf_follows_grammar parse_string (tokens_of_string m e).
Proof.
  intros f n g lvl Hh H Hn.
  destruct (parse_string_post _ _ _ H) as (V & B & _).
  pose proof Hh as (He & Hm & Hg).
  pose proof (B (proj1 (proj2 Hg))) as Bg.
  unfold parse_string in H.
  destruct (test_and_skip f QUOTE) as [n1 f1] eqn:E1.
  destruct (Z.ltb_spec n1 0); [injection H as <- <-; lia|].
  pose proof (same_rec_test_and_skip _ _ _ _ E1) as S1.
  destruct (test_and_skip_grammar _ _ _ _ Hh E1 ltac:(lia)) as [Hq Ef1].
  pose proof (test_and_skip_bounds _ _ _ _ quote_ne_eos E1
                (proj1 (proj2 Hg))) as B1.
  pose proof (test_and_skip_evolves f QUOTE) as V1. rewrite E1 in V1.
  simpl in V1.
  pose proof (here_evolves _ _ Hh V1 B1) as Hh1.
  destruct (capture_ptr f1 (fcur f1) JSON_TYPE_STRING) as [n2 f2] eqn:E2.
  destruct (Z.ltb_spec n2 0); [injection H as <- <-; lia|].
  pose proof (capture_ptr_cur _ _ _ _ _ E2) as C2.
  pose proof (capture_ptr_bounds _ _ _ _ _ E2 B1) as B2.
  pose proof (here_evolves _ _ Hh1 (capture_ptr_evolves _ _ _ _ _ E2) B2)
    as Hh2.
  assert (Hz : (0:Z) <> QUOTE) by discriminate.
  pose proof (parse_string_loop_grammar _ _ _ _ _ Hh2 Hz H Hn) as Hcq.
  destruct (parse_string_loop_close _ _ _ _ _ Hz H Hn)
    as (h & r & h' & Sh & Hcur & E3 & ->).
  cbn [fcur set_cur] in *.
  rewrite (proj1 Hh2), C2, Ef1 in Hcq. cbn [fcur set_cur] in Hcq.
  unfold tokens_of_string. rewrite Hq, Hcq.
  replace (fcur h + 1 - 1) with (fcur h) by lia.
  eexists. split; [reflexivity|].
  apply (recorded_pre f f1); [exact S1|].
  apply (recorded_post f1 h'); [|apply same_rec_set_cur].
  rewrite Ef1 in C2, E2. cbn [fcur set_cur] in C2, E2.
  eapply recorded_leaf;
    [exact (proj1 (proj2 (proj2 Hh1)))|rewrite Ef1; exact E2|lia|exact Sh
    |exact E3|].
  destruct V as [Ee _ _ _ _ _ _]. destruct Hg as (_ & Hb & Hmax).
  unfold in_bounds in *. simpl in *. rewrite Ee, He in Bg.
  unfold INT_MAX in *. lia.
Qed.

Lemma parse_number_grammar :
  leaf_follows_grammar parse_number (tokens_of_number m e).
Proof.
  intros f n g lvl Hh H Hn. pose proof Hh as (He & Hm & Hg).
  unfold parse_number in H. rewrite (cur_grammar f Hh) in H.
  pose proof (here_cur f Hh) as Hh0.
  pose proof (significant_ge f Hh) as Hq.
  set (q := significant m e (fcur f)) in *.
  set (h := set_cur f q) in *.
  assert (S0 : same_rec f h) by apply same_rec_set_cur.
  destruct (capture_ptr h (fcur h) JSON_TYPE_NUMBER) as [n1 f1] eqn:E1.
  destruct (Z.ltb_spec n1 0); [injection H as <- <-; lia|].
  pose proof (capture_ptr_cur _ _ _ _ _ E1) as C1.
  pose proof (capture_ptr_evolves _ _ _ _ _ E1) as [Ee1 Em1 _ _ _ _ _].
  destruct (capture_len _ _ _) as [n2 f2] eqn:E2. injection H as _ <-.
  pose proof (capture_len_cur _ _ _ _ _ E2) as C2.
  assert (Hend : fcur f2
            = digits_end m e (if peek m e (fcur f) =? ch "-" then q + 1
                              else q)).
  { rewrite C2. unfold scan, digits_end. cbn [fcur set_cur].
    destruct (peek m e (fcur f) =? ch "-"); cbn [fend fcur mem set_cur];
      rewrite Ee1, Em1, C1; cbn [fend fcur mem set_cur h];
      rewrite He, Hm; reflexivity. }
  unfold tokens_of_number. fold q. rewrite <- Hend.
  eexists. split; [reflexivity|].
  apply (recorded_pre f h); [exact S0|].
  assert (Hsp : q <= fcur f2 <= e).
  { rewrite Hend. unfold digits_end.
    assert (Hlt : peek m e (fcur f) = ch "-" -> q < e).
    { unfold peek. fold q. destruct (Z.geb_spec q e); [discriminate|lia]. }
    destruct (Z.eqb_spec (peek m e (fcur f)) (ch "-")) as [Ep|_];
      [specialize (Hlt Ep)|];
      match goal with
      | |- context [scan_while ?p ?mm ?k ?c] =>
          destruct (scan_while_spec p mm k c) as (Hs & _)
      end; lia. }
  unfold h in E1. cbn [fcur set_cur] in E1. rewrite C2 in Hsp |- *.
  eapply recorded_leaf;
    [exact (proj1 (proj2 (proj2 Hh0)))|exact E1|lia| |exact E2|].
  - destruct (peek m e (fcur f) =? ch "-"); [|apply same_rec_scan].
    eapply same_rec_trans; [apply same_rec_set_cur|apply same_rec_scan].
  - destruct Hg as (_ & Hb & Hmax). unfold in_bounds, INT_MAX in *. lia.
Qed.

Lemma parse_identifier_grammar :
  leaf_follows_grammar parse_identifier (tokens_of_identifier m e).
Proof.
  intros f n g lvl Hh H Hn. pose proof Hh as (He & Hm & Hg).
  unfold parse_identifier in H. rewrite (cur_grammar f Hh) in H.
  pose proof (here_cur f Hh) as Hh0.
  pose proof (significant_ge f Hh) as Hq.
  set (q := significant m e (fcur f)) in *.
  set (h := set_cur f q) in *.
  assert (S0 : same_rec f h) by apply same_rec_set_cur.
  unfold tokens_of_identifier. fold q.
  destruct (is_alpha (peek m e (fcur f))); cbn [negb] in H;
    [|injection H as <- _; unfold JSON_STRING_INVALID in Hn; lia].
  destruct (capture_ptr h (fcur h) JSON_TYPE_STRING) as [n1 f1] eqn:E1.
  destruct (Z.ltb_spec n1 0); [injection H as <- <-; lia|].
  pose proof (capture_ptr_cur _ _ _ _ _ E1) as C1.
  pose proof (capture_ptr_evolves _ _ _ _ _ E1) as [Ee1 Em1 _ _ _ _ _].
  destruct (capture_len _ _ _) as [n2 f2] eqn:E2. injection H as _ <-.
  pose proof (capture_len_cur _ _ _ _ _ E2) as C2.
  assert (Hend : fcur f2 = identifier_end m e q).
  { rewrite C2. unfold scan, identifier_end. cbn [fcur set_cur].
    rewrite Ee1, Em1, C1. cbn [fend fcur mem set_cur h].
    rewrite He, Hm. reflexivity. }
  rewrite <- Hend. eexists. split; [reflexivity|].
  apply (recorded_pre f h); [exact S0|].
  assert (Hsp : q <= fcur f2 <= e).
  { rewrite Hend. unfold identifier_end.
    match goal with
    | |- context [scan_while ?p ?mm ?k ?c] =>
        destruct (scan_while_spec p mm k c) as (Hs & _)
    end. lia. }
  unfold h in E1. cbn [fcur set_cur] in E1. rewrite C2 in Hsp |- *.
  eapply recorded_leaf;
    [exact (proj1 (proj2 (proj2 Hh0)))|exact E1|lia|apply same_rec_scan
    |exact E2|].
  destruct Hg as (_ & Hb & Hmax). unfold in_bounds, INT_MAX in *. lia.
Qed.

Lemma parse_literal_grammar lvl f ty k n g :
  here f -> 0 < k -> fcur f + k <= e ->
  parse_literal f ty k = (n, g) -> 0 <= n ->
  fcur g = fcur f + k
  /\ recorded f g (map snd (leaf lvl ty (fcur f) (fcur f + k))).
Proof.
  intros Hh Hk Hle H Hn. pose proof Hh as (He & Hm & Hg).
  split; [eapply parse_literal_cur; eauto|].
  unfold parse_literal in H.
  destruct (capture_ptr f (fcur f) ty) as [n1 f1] eqn:E1.
  destruct (Z.ltb_spec n1 0); [injection H as <- <-; lia|].
  pose proof (capture_ptr_cur _ _ _ _ _ E1) as C1.
  destruct (capture_len _ _ _) as [n2 f2] eqn:E2. injection H as _ <-.
  cbn [fcur num_tokens set_cur] in E2. rewrite C1 in E2.
  eapply (recorded_leaf lvl f (fcur f) ty n1 f1 (set_cur f1 (fcur f + k)));
    [exact (proj1 Hg)|exact E1|lia|apply same_rec_set_cur|exact E2|].
  destruct Hg as (_ & Hb & Hmax). unfold in_bounds, INT_MAX in *. lia.
Qed.

Lemma parse_key_grammar :
  leaf_follows_grammar parse_key (tokens_of_key m e).
Proof.
  intros f n g lvl Hh H Hn.
  unfold parse_key in H. rewrite (cur_grammar f Hh) in H.
  pose proof (here_cur f Hh) as Hh0.
  pose proof (significant_ge f Hh) as Hq.
  unfold tokens_of_key.
  set (q := significant m e (fcur f)) in *.
  set (h := set_cur f q) in *.
  assert (S0 : same_rec f h) by apply same_rec_set_cur.
  destruct (is_alpha (peek m e (fcur f))).
  - destruct (parse_identifier h) as [n1 f1] eqn:E1.
    destruct (Z.ltb_spec n1 0); injection H as <- <-; [lia|].
    destruct (parse_identifier_grammar h _ _ lvl Hh0 E1 ltac:(lia))
      as (l & El & Hr).
    exists l. split; [exact El|]. apply (recorded_pre f h); assumption.
  - destruct (peek m e (fcur f) =? QUOTE).
    + destruct (parse_string h) as [n1 f1] eqn:E1.
      destruct (Z.ltb_spec n1 0); injection H as <- <-; [lia|].
      destruct (parse_string_grammar h _ _ lvl Hh0 E1 ltac:(lia))
        as (l & El & Hr).
      exists l. split; [exact El|]. apply (recorded_pre f h); assumption.
    + injection H as <- _. exfalso.
      unfold JSON_STRING_INCOMPLETE, JSON_STRING_INVALID in Hn.
      destruct (_ =? END_OF_STRING); lia.
Qed.

(** The loops and the containers of the grammar are instances of one
    loop and of one container, as those of the rules are. *)
Definition grammar_loop (rule loop : nat -> Z -> option (list levelled * Z))
    (close : Z) (lvl : nat) (p : Z) : option (list levelled * Z) :=
  if peek m e p =? close then Some ([], significant m e p)
  else
    match rule lvl (significant m e p) with
    | Some (l1, q1) =>
      match loop lvl (after_comma m e q1) with
      | Some (l2, q2) => Some (l1 ++ l2, q2)
      | None => None
      end
    | None => None
    end.

Definition grammar_container (loop : nat -> Z -> option (list levelled * Z))
    (open close : Z) (ty : json_type) (lvl : nat) (p : Z)
  : option (list levelled * Z) :=
  if peek m e p =? open then
    match loop (S lvl) (significant m e p + 1) with
    | Some (l, q) =>
      if peek m e q =? close then
        Some (node lvl ty (significant m e p) (significant m e q + 1) l,
              significant m e q + 1)
      else None
    | None => None
    end
  else None.

Lemma tokens_of_elements_S fuel :
  tokens_of_elements m e (S fuel)
  = grammar_loop (tokens_of_value m e fuel) (tokens_of_elements m e fuel)
                 (ch "]").
Proof. reflexivity. Qed.

Lemma tokens_of_pairs_S fuel :
  tokens_of_pairs m e (S fuel)
  = grammar_loop (tokens_of_pair m e fuel) (tokens_of_pairs m e fuel)
                 (ch "}").
Proof. reflexivity. Qed.

Lemma tokens_of_array_S fuel :
  tokens_of_array m e (S fuel)
  = grammar_container (tokens_of_elements m e fuel) (ch "[") (ch "]")
                      JSON_TYPE_ARRAY.
Proof. reflexivity. Qed.

Lemma tokens_of_object_S fuel :
  tokens_of_object m e (S fuel)
  = grammar_container (tokens_of_pairs m e fuel) (ch "{") (ch "}")
                      JSON_TYPE_OBJECT.
Proof. reflexivity. Qed.

(** What a rule gives: the tokens of the grammar, recorded. *)
Definition follows_grammar (rule : frozen -> option result)
    (ref : nat -> Z -> option (list levelled * Z)) : Prop :=
  forall f n g lvl, here f -> rule f = Some (n, g) -> 0 <= n ->
    exists l, ref lvl (fcur f) = Some (l, fcur g)
              /\ recorded f g (map snd l).

Lemma here_num f : here f -> 0 <= num_tokens f.
Proof. intros (_ & _ & (a & _ & _ & H) & _). lia. Qed.

Lemma loop_grammar rule loop close grule gloop :
  (forall f n g, rule f = Some (n, g) -> rule_post f n g) ->
  follows_grammar rule grule -> follows_grammar loop gloop ->
  follows_grammar (loop_body rule loop close)
                  (grammar_loop grule gloop close).
Proof.
  intros Prule Frule Floop f n g lvl Hh H Hn.
  unfold loop_body in H. rewrite (cur_grammar f Hh) in H.
  pose proof (here_cur f Hh) as Hh0. unfold grammar_loop.
  set (q := significant m e (fcur f)) in *.
  set (h := set_cur f q) in *.
  assert (S0 : same_rec f h) by apply same_rec_set_cur.
  destruct (peek m e (fcur f) =? close); cbn [negb] in H.
  { injection H as _ <-. eexists. split; [reflexivity|].
    apply recorded_same, S0. }
  try_step H n1 g1 E1 Hn1; [lia|].
  destruct (Prule _ _ _ E1) as (V1 & B1 & _).
  pose proof (here_evolves _ _ Hh0 V1
                (B1 (proj1 (proj2 (proj2 (proj2 Hh0)))))) as Hh1.
  destruct (Frule _ _ _ lvl Hh0 E1 Hn1) as (l1 & El1 & R1).
  cbn [fcur set_cur h] in El1. rewrite El1.
  rewrite (skip_comma_grammar g1 Hh1) in H.
  destruct (skip_comma_post g1) as [V3 B3].
  rewrite (skip_comma_grammar g1 Hh1) in V3, B3.
  pose proof (here_evolves _ _ Hh1 V3
                (B3 (proj1 (proj2 (proj2 (proj2 Hh1)))))) as Hh3.
  destruct (Floop _ _ _ lvl Hh3 H Hn) as (l2 & El2 & R2).
  cbn [fcur set_cur] in El2. rewrite El2.
  eexists. split; [reflexivity|]. rewrite map_app.
  apply (recorded_pre f h); [exact S0|].
  eapply recorded_app; [apply here_num, Hh0|exact R1|].
  eapply recorded_pre; [apply same_rec_set_cur|exact R2].
Qed.

Lemma container_grammar loop open close ty gloop :
  open <> END_OF_STRING -> close <> END_OF_STRING ->
  (forall f n g, loop f = Some (n, g) -> loop_post f n g) ->
  follows_grammar loop gloop ->
  follows_grammar (container loop open close ty)
                  (grammar_container gloop open close ty).
Proof.
  intros Ho Hc Ploop Floop f n g lvl Hh H Hn.
  pose proof Hh as (He & Hm & Hg).
  unfold container in H. cbv zeta in H.
  try_step H n1 f1 E1 Hn1; [lia|].
  try_step H n2 f2 E2 Hn2; [lia|].
  try_step H n3 f3 E3 Hn3; [lia|].
  try_step H n4 f4 E4 Hn4; [lia|].
  destruct (capture_len f4 (num_tokens f2 - 1) (fcur f4)) as [n5 f5] eqn:E5.
  injection H as _ <-.
  pose proof (same_rec_test_and_skip _ _ _ _ E1) as S1.
  pose proof (test_and_skip_bounds _ _ _ _ Ho E1 (proj1 (proj2 Hg))) as B1.
  destruct (test_and_skip_grammar _ _ _ _ Hh E1 Hn1) as [Hopen Ef1].
  pose proof (test_and_skip_evolves f open) as V1. rewrite E1 in V1.
  simpl in V1.
  pose proof (here_evolves _ _ Hh V1 B1) as Hh1.
  pose proof (capture_ptr_bounds _ _ _ _ _ E2 B1) as B2.
  pose proof (capture_ptr_evolves _ _ _ _ _ E2) as V2.
  pose proof (capture_ptr_cur _ _ _ _ _ E2) as C2.
  pose proof (here_evolves _ _ Hh1 V2 B2) as Hh2.
  destruct (capture_ptr_records _ _ _ _ _ (proj1 (proj2 (proj2 Hh1))) E2 Hn2)
    as (N2 & F2 & t0 & Ht0 & Hp0 & Hty0).
  destruct (Ploop _ _ _ E3) as (V3 & B3 & _).
  pose proof (here_evolves _ _ Hh2 V3 (B3 B2)) as Hh3.
  destruct (Floop _ _ _ (S lvl) Hh2 E3 Hn3) as (l & El & (N3 & F3 & L3)).
  rewrite length_map in N3.
  pose proof (same_rec_test_and_skip _ _ _ _ E4) as S4.
  pose proof (test_and_skip_bounds _ _ _ _ Hc E4
                (proj1 (proj2 (proj2 (proj2 Hh3))))) as B4.
  destruct (test_and_skip_grammar _ _ _ _ Hh3 E4 Hn4) as [Hclose Ef4].
  pose proof (test_and_skip_evolves f3 close) as V4. rewrite E4 in V4.
  simpl in V4.
  pose proof (here_evolves _ _ Hh3 V4 B4) as Hh4.
  pose proof (capture_len_cur _ _ _ _ _ E5) as C5.
  pose proof S1 as (_ & N1 & _). pose proof S4 as (_ & N4 & _).
  pose proof (here_num f Hh) as Hnum.
  assert (Hk : 0 <= num_tokens f2 - 1 < num_tokens f4) by lia.
  destruct (capture_len_records _ _ _ _ _ (proj1 (proj2 (proj2 Hh4))) Hk E5)
    as (N5 & F5 & T5).
  replace (num_tokens f2 - 1) with (num_tokens f) in * by lia.
  assert (Htk : tok_at f4 (num_tokens f) = Some t0).
  { rewrite (same_rec_tok_at f3 f4 _ S4), F3 by lia.
    rewrite <- N1. exact Ht0. }
  specialize (T5 t0 Htk). rewrite Hp0, Hty0 in T5.
  pose proof (significant_ge f Hh) as Hq.
  pose proof (significant_ge f3 Hh3) as Hq3.
  assert (Hc1 : fcur f1 = significant m e (fcur f) + 1)
    by (rewrite Ef1; reflexivity).
  assert (Hc4 : fcur f4 = significant m e (fcur f3) + 1)
    by (rewrite Ef4; reflexivity).
  destruct V3 as [_ _ _ V3 _ _ _].
  pose proof (proj1 (proj2 (proj2 (proj2 Hh4)))) as Hb4.
  pose proof (proj2 (proj2 (proj2 (proj2 Hh4)))) as Hmax4.
  pose proof (proj1 (proj2 Hg)) as Hb0.
  unfold in_bounds in Hb4, Hb0.
  rewrite to_int_small in T5 by (unfold INT_MAX in *; lia).
  unfold grammar_container. rewrite Hopen.
  rewrite C2, Hc1 in El. rewrite El, Hclose.
  rewrite C5, Hc4. eexists. split; [reflexivity|].
  unfold node. cbn [map snd].
  rewrite Hc1, Hc4 in T5.
  replace (significant m e (fcur f) + 1 - 1)
    with (significant m e (fcur f)) in T5 by lia.
  unfold levelled in *.
  assert (Hx : num_tokens f4 - 1 - num_tokens f = Z.of_nat (length l))
    by lia.
  rewrite Hx in T5.
  split; [cbn [length]; rewrite length_map; lia|]. split.
  - intros i Hi. rewrite F5 by lia.
    rewrite (same_rec_tok_at f3 f4 _ S4), F3 by lia.
    rewrite F2 by lia. apply same_rec_tok_at, S1.
  - intros [|k] t Hk'.
    + injection Hk' as <-. rewrite Z.add_0_r. exact T5.
    + cbn in Hk'. rewrite F5 by lia.
      rewrite (same_rec_tok_at f3 f4 _ S4).
      replace (num_tokens f + Z.of_nat (S k))
        with (num_tokens f2 + Z.of_nat k) by lia.
      apply L3, Hk'.
Qed.

Lemma tokens_of_pair_S fuel lvl p :
  tokens_of_pair m e (S fuel) lvl p
  = match tokens_of_key m e lvl p with
    | Some (l1, q1) =>
      if peek m e q1 =? ch ":" then
        match tokens_of_value m e fuel lvl (significant m e q1 + 1) with
        | Some (l2, q2) => Some (l1 ++ l2, q2)
        | None => None
        end
      else None
    | None => None
    end.
Proof. reflexivity. Qed.

Lemma tokens_of_value_S fuel lvl p :
  tokens_of_value m e (S fuel) lvl p
  = let q := significant m e p in
    let c := peek m e p in
    if c =? QUOTE then tokens_of_string m e lvl q
    else if c =? ch "{" then tokens_of_object m e fuel lvl q
    else if c =? ch "[" then tokens_of_array m e fuel lvl q
    else if (c =? ch "n") && literal_at m e "null" q then
      Some (leaf lvl JSON_TYPE_NULL q (q + 4), q + 4)
    else if (c =? ch "t") && literal_at m e "true" q then
      Some (leaf lvl JSON_TYPE_TRUE q (q + 4), q + 4)
    else if (c =? ch "f") && literal_at m e "false" q then
      Some (leaf lvl JSON_TYPE_FALSE q (q + 5), q + 5)
    else if is_digit c
            || ((c =? ch "-") && (q + 1 <? e)
                && is_digit (byte_at m (q + 1)))
    then tokens_of_number m e lvl q
    else None.
Proof. reflexivity. Qed.

Lemma parse_pair_grammar fuel :
  follows_grammar (parse_value fuel) (tokens_of_value m e fuel) ->
  follows_grammar (parse_pair (S fuel)) (tokens_of_pair m e (S fuel)).
Proof.
  intros Fv f n g lvl Hh H Hn. rewrite parse_pair_S in H.
  rewrite tokens_of_pair_S.
  try_step H n1 f1 E1 Hn1; [lia|].
  try_step H n2 f2 E2 Hn2; [lia|].
  try_step H n3 f3 E3 Hn3; [lia|].
  injection H as _ <-.
  destruct (parse_key_post _ _ _ E1) as (V1 & B1 & _).
  pose proof (here_evolves _ _ Hh V1
                (B1 (proj1 (proj2 (proj2 (proj2 Hh)))))) as Hh1.
  destruct (parse_key_grammar _ _ _ lvl Hh E1 Hn1) as (l1 & El1 & R1).
  rewrite El1.
  pose proof (same_rec_test_and_skip _ _ _ _ E2) as S2.
  pose proof (test_and_skip_bounds _ _ _ _ (ch_ne_eos _) E2
                (proj1 (proj2 (proj2 (proj2 Hh1))))) as B2.
  destruct (test_and_skip_grammar _ _ _ _ Hh1 E2 Hn2) as [Hcolon Ef2].
  pose proof (test_and_skip_evolves f1 (ch ":")) as V2. rewrite E2 in V2.
  simpl in V2.
  pose proof (here_evolves _ _ Hh1 V2 B2) as Hh2.
  destruct (Fv _ _ _ lvl Hh2 E3 Hn3) as (l2 & El2 & R2).
  rewrite Hcolon. rewrite Ef2 in El2. cbn [fcur set_cur] in El2.
  rewrite El2. eexists. split; [reflexivity|]. rewrite map_app.
  eapply recorded_app; [apply here_num, Hh|exact R1|].
  eapply recorded_pre; [exact S2|exact R2].
Qed.

Lemma literal_grammar lvl h ty str k n g :
  here h -> Z.of_nat (String.length str) = k -> 0 < k ->
  literal_at m e str (fcur h) = true ->
  (TRY Some (parse_literal h ty k) THEN f => Some (0, f)) = Some (n, g) ->
  0 <= n ->
  fcur g = fcur h + k
  /\ recorded h g (map snd (leaf lvl ty (fcur h) (fcur h + k))).
Proof.
  intros Hh Hk Hpos Hlit H Hn. unfold literal_at in Hlit.
  apply andb_prop in Hlit as [Hle _]. apply Z.leb_le in Hle. rewrite Hk in Hle.
  try_step H n1 f1 E1 Hn1; [lia|]. injection H as _ <-.
  eapply parse_literal_grammar; eauto.
Qed.

Lemma parse_value_grammar fuel :
  follows_grammar (parse_object fuel) (tokens_of_object m e fuel) ->
  follows_grammar (parse_array fuel) (tokens_of_array m e fuel) ->
  follows_grammar (parse_value (S fuel)) (tokens_of_value m e (S fuel)).
Proof.
  intros Fo Fa f n g lvl Hh H Hn. rewrite parse_value_S in H.
  rewrite tokens_of_value_S. cbv zeta.
  rewrite (cur_grammar f Hh) in H.
  pose proof (here_cur f Hh) as Hh0.
  set (q := significant m e (fcur f)) in *.
  set (c := peek m e (fcur f)) in *.
  set (h := set_cur f q) in *.
  assert (S0 : same_rec f h) by apply same_rec_set_cur.
  assert (Hpre : forall l, recorded h g l -> recorded f g l)
    by (intros l; apply recorded_pre, S0).
  rewrite (compare_grammar h "null" 4 Hh0 eq_refl),
    (compare_grammar h "true" 4 Hh0 eq_refl),
    (compare_grammar h "false" 5 Hh0 eq_refl) in H.
  change (fcur h) with q in H. change (fend h) with (fend f) in H.
  change (mem h) with (mem f) in H.
  rewrite (proj1 Hh), (proj1 (proj2 Hh)) in H.
  destruct (c =? QUOTE).
  { try_step H n1 f1 E1 Hn1; [lia|]. injection H as _ <-.
    destruct (parse_string_grammar _ _ _ lvl Hh0 E1 Hn1) as (l & El & R).
    exists l. split; [exact El|auto]. }
  destruct (c =? ch "{").
  { try_step H n1 f1 E1 Hn1; [lia|]. injection H as _ <-.
    destruct (Fo _ _ _ lvl Hh0 E1 Hn1) as (l & El & R).
    exists l. split; [exact El|auto]. }
  destruct (c =? ch "[").
  { try_step H n1 f1 E1 Hn1; [lia|]. injection H as _ <-.
    destruct (Fa _ _ _ lvl Hh0 E1 Hn1) as (l & El & R).
    exists l. split; [exact El|auto]. }
  destruct ((c =? ch "n") && literal_at m e "null" q) eqn:En.
  { apply andb_prop in En as [_ En].
    destruct (literal_grammar lvl h JSON_TYPE_NULL "null" 4 n g Hh0
                eq_refl eq_refl En H Hn) as (Hg & R).
    change (fcur h) with q in Hg, R. rewrite Hg.
    eexists. split; [reflexivity|auto]. }
  destruct ((c =? ch "t") && literal_at m e "true" q) eqn:Et.
  { apply andb_prop in Et as [_ Et].
    destruct (literal_grammar lvl h JSON_TYPE_TRUE "true" 4 n g Hh0
                eq_refl eq_refl Et H Hn) as (Hg & R).
    change (fcur h) with q in Hg, R. rewrite Hg.
    eexists. split; [reflexivity|auto]. }
  destruct ((c =? ch "f") && literal_at m e "false" q) eqn:Ef.
  { apply andb_prop in Ef as [_ Ef].
    destruct (literal_grammar lvl h JSON_TYPE_FALSE "false" 5 n g Hh0
                eq_refl eq_refl Ef H Hn) as (Hg & R).
    change (fcur h) with q in Hg, R. rewrite Hg.
    eexists. split; [reflexivity|auto]. }
  destruct (is_digit c || _).
  { try_step H n1 f1 E1 Hn1; [lia|]. injection H as _ <-.
    destruct (parse_number_grammar _ _ _ lvl Hh0 E1 Hn1) as (l & El & R).
    exists l. split; [exact El|auto]. }
  injection H as <- _. exfalso.
  unfold JSON_STRING_INCOMPLETE, JSON_STRING_INVALID in Hn.
  destruct (c =? END_OF_STRING); lia.
Qed.

Lemma rules_follow_grammar fuel :
  follows_grammar (parse_value fuel) (tokens_of_value m e fuel)
  /\ follows_grammar (parse_array_loop fuel) (tokens_of_elements m e fuel)
  /\ follows_grammar (parse_array fuel) (tokens_of_array m e fuel)
  /\ follows_grammar (parse_pair fuel) (tokens_of_pair m e fuel)
  /\ follows_grammar (parse_object_loop fuel) (tokens_of_pairs m e fuel)
  /\ follows_grammar (parse_object fuel) (tokens_of_object m e fuel).
Proof.
  induction fuel as [|fuel (IHv & IHal & IHa & IHp & IHol & IHo)].
  { repeat apply conj; intros f n g lvl _ H; discriminate H. }
  destruct (rules_post_all fuel) as (Pv & Pal & Pa & Pp & Pol & Po).
  repeat apply conj.
  - apply parse_value_grammar; assumption.
  - rewrite parse_array_loop_body, tokens_of_elements_S.
    apply loop_grammar; assumption.
  - rewrite parse_array_container, tokens_of_array_S.
    apply container_grammar; auto using ch_ne_eos.
  - apply parse_pair_grammar; assumption.
  - rewrite parse_object_loop_body, tokens_of_pairs_S.
    apply loop_grammar; assumption.
  - rewrite parse_object_container, tokens_of_object_S.
    apply container_grammar; auto using ch_ne_eos.
Qed.

End follows_grammar.

(** [parse_json]: the tokens of the root object as the grammar gives
    them, and after them the marker, of which [capture_ptr] sets the
    start and the type. *)
Lemma parse_json_follows_grammar m s_len a K r g :
  parse_json_frozen (Some m) s_len (Some a) K = Some (r, g) -> 0 <= r ->
  s_len <= INT_MAX -> 0 < K <= Z.of_nat (length a) ->
  exists l,
    tokens_of_object m s_len (fuel_of s_len) 0 0 = Some (l, r)
    /\ num_tokens g = Z.of_nat (length l) + 1
    /\ (forall (k : nat) t, map snd l !! k = Some t ->
          tok_at g (Z.of_nat k) = Some t)
    /\ exists t, tok_at g (Z.of_nat (length l)) = Some t
                 /\ ptr t = r /\ type t = JSON_TYPE_EOF.
Proof.
  intros H Hr Hmax Hcap.
  destruct (parse_json_frozen_cases _ _ _ _ _ _ H Hmax) as [[Hrg Hb]|[Hneg _]];
    [|lia].
  unfold parse_json_frozen in H.
  destruct (bool_decide (Some m = None)); cbn [orb] in H;
    [injection H as <- _; unfold JSON_STRING_INVALID in Hr; lia|].
  destruct (Z.ltb_spec s_len 0);
    [injection H as <- _; unfold JSON_STRING_INVALID in Hr; lia|].
  destruct (s_len =? 0);
    [injection H as <- _; unfold JSON_STRING_INCOMPLETE in Hr; lia|].
  try_step H n1 f1 E1 Hn1; [lia|].
  try_step H n2 f2 E2 Hn2; [lia|].
  destruct (capture_len f2 (num_tokens f2) (fcur f2)) as [n3 f3] eqn:E3.
  injection H as _ <-.
  assert (Hrf : fcur f1 = r).
  { rewrite Hrg, (capture_len_cur _ _ _ _ _ E3).
    symmetry. eapply capture_ptr_cur, E2. }
  assert (G0 : good (init_frozen (Some m) s_len (Some a) K)).
  { split; [|split; [apply init_in_bounds; lia|exact Hmax]].
    exists a. simpl. split; [reflexivity|]. lia. }
  assert (Hh0 : here m s_len (init_frozen (Some m) s_len (Some a) K)).
  { split; [reflexivity|]. split; [reflexivity|exact G0]. }
  destruct (rules_post_all (fuel_of s_len)) as (_ & _ & _ & _ & _ & Po).
  destruct (Po _ _ _ E1) as (V1 & B1 & _).
  pose proof (good_evolves _ _ G0 V1 (B1 (proj1 (proj2 G0)))) as G1.
  destruct (rules_follow_grammar m s_len (fuel_of s_len))
    as (_ & _ & _ & _ & _ & Fo).
  destruct (Fo _ _ _ 0%nat Hh0 E1 Hn1) as (l & El & N1 & _ & New1).
  cbn [fcur num_tokens init_frozen] in El, N1, New1.
  destruct (capture_ptr_records _ _ _ _ _ (proj1 G1) E2 Hn2)
    as (N2 & F2 & t0 & Ht0 & Hp0 & Hty0).
  assert (Hk : 0 <= num_tokens f2) by lia.
  destruct (capture_len_frame _ _ _ _ _ Hk E3) as (N3 & F3).
  rewrite length_map in N1. unfold levelled in *.
  exists l. rewrite <- Hrf. split; [exact El|]. split; [lia|]. split.
  - intros k t Hkt. pose proof (lookup_lt_Some _ _ _ Hkt) as Hlt.
    rewrite length_map in Hlt.
    rewrite F3, F2 by lia. apply (New1 k t Hkt).
  - exists t0. rewrite F3 by lia.
    replace (Z.of_nat (length l)) with (num_tokens f1) by lia.
    split; [exact Ht0|]. split; [exact Hp0|exact Hty0].
Qed.


(** ** Runs of tokens *)

(** The number of elements at the head of [l] that satisfy [p]. *)
Fixpoint run_length {A : Type} (p : A -> bool) (l : list A) : nat :=
  match l with
  | x :: l' => if p x then S (run_length p l') else O
  | [] => O
  end.

(** ** The subtree sizes of the grammar, by nesting level *)

(** [y] lies at a deeper nesting level than [x]. *)
Definition deeper (x y : levelled) : bool := (fst x <? fst y)%nat.

(** The subtree size of every token of [l] is the number of the tokens
    that follow it before the next token at its own level or at a
    shallower one. *)
Definition counts_descendants (l : list levelled) : Prop :=
  forall (i : nat) x, l !! i = Some x ->
    num_children (snd x) = Z.of_nat (run_length (deeper x) (drop (S i) l)).

(** The tokens of a sequence of values at the level [lvl]. *)
Definition nested (lvl : nat) (l : list levelled) : Prop :=
  Forall (fun x => (lvl <= fst x)%nat) l
  /\ (forall x, head l = Some x -> fst x = lvl)
  /\ counts_descendants l
  /\ Forall (fun x => composite (type (snd x)) = false ->
                      num_children (snd x) = 0) l.

Lemma run_length_all {A : Type} (p : A -> bool) (l : list A) :
  Forall (fun y => p y = true) l -> run_length p l = length l.
Proof.
  induction 1 as [|y l Hy _ IH]; simpl; [reflexivity|].
  rewrite Hy, IH. reflexivity.
Qed.

Lemma run_length_app {A : Type} (p : A -> bool) (a b : list A) :
  run_length p b = O -> run_length p (a ++ b) = run_length p a.
Proof.
  intros Hb. induction a as [|x a IH]; simpl; [exact Hb|].
  rewrite IH. reflexivity.
Qed.

Lemma nested_nil lvl : nested lvl [].
Proof.
  split; [constructor|]. split; [intros x H; discriminate H|].
  split; [intros i x H; discriminate H|constructor].
Qed.

Lemma nested_leaf lvl ty p q : nested lvl (leaf lvl ty p q).
Proof.
  unfold leaf. split; [repeat constructor|].
  split; [intros x H; injection H as <-; reflexivity|]. split.
  - intros [|i] x H; [|discriminate H]. injection H as <-. reflexivity.
  - repeat constructor.
Qed.

Lemma nested_app lvl l1 l2 :
  nested lvl l1 -> nested lvl l2 -> nested lvl (l1 ++ l2).
Proof.
  intros (A1 & H1 & C1 & Z1) (A2 & H2 & C2 & Z2).
  split; [apply Forall_app; auto|]. split; [|split].
  - destruct l1 as [|x1 l1]; [exact H2|exact H1].
  - intros i x Hx. apply lookup_app_Some in Hx as [Hx|[Hge Hx]].
    + pose proof (lookup_lt_Some _ _ _ Hx) as Hlt. unfold levelled in *.
      rewrite drop_app_le by lia. rewrite run_length_app; [apply C1, Hx|].
      destruct l2 as [|y l2]; [reflexivity|]. cbn [run_length].
      unfold deeper. rewrite (H2 y eq_refl).
      pose proof (Forall_lookup_1 _ _ _ _ A1 Hx) as Hlv. simpl in Hlv.
      destruct (Nat.ltb_spec (fst x) lvl); [lia|reflexivity].
    + unfold levelled in *. rewrite drop_app_ge by lia.
      replace (S i - length l1)%nat with (S (i - length l1)) by lia.
      apply C2, Hx.
  - apply Forall_app; auto.
Qed.

Lemma nested_node lvl ty p q content :
  composite ty = true -> nested (S lvl) content ->
  nested lvl (node lvl ty p q content).
Proof.
  intros Hty (A & _ & C & Z). unfold node.
  split; [|split; [|split]].
  - constructor; [simpl; lia|]. eapply Forall_impl; [exact A|].
    intros x Hx. simpl in *. lia.
  - intros x H. injection H as <-. reflexivity.
  - intros [|i] x Hx.
    + injection Hx as <-. simpl. rewrite drop_0.
      rewrite run_length_all; [reflexivity|].
      eapply Forall_impl; [exact A|]. intros y Hy. unfold deeper. simpl in *.
      apply Nat.ltb_lt. lia.
    + simpl in Hx |- *. apply C, Hx.
  - constructor; [simpl; rewrite Hty; discriminate|exact Z].
Qed.

Section grammar_nested.

Variable m : list ascii.
Variable e : Z.

Definition gives_nested (ref : nat -> Z -> option (list levelled * Z))
  : Prop :=
  forall lvl p l q, ref lvl p = Some (l, q) -> nested lvl l.

Lemma tokens_of_string_nested : gives_nested (tokens_of_string m e).
Proof.
  intros lvl p l q H. unfold tokens_of_string in H.
  destruct (_ =? QUOTE); [|discriminate H].
  destruct (closing_quote _ _ _ _); [|discriminate H].
  injection H as <- _. apply nested_leaf.
Qed.

Lemma tokens_of_identifier_nested : gives_nested (tokens_of_identifier m e).
Proof.
  intros lvl p l q H. unfold tokens_of_identifier in H.
  destruct (is_alpha _); [|discriminate H].
  injection H as <- _. apply nested_leaf.
Qed.

Lemma tokens_of_number_nested : gives_nested (tokens_of_number m e).
Proof.
  intros lvl p l q H. unfold tokens_of_number in H.
  injection H as <- _. apply nested_leaf.
Qed.

Lemma tokens_of_key_nested : gives_nested (tokens_of_key m e).
Proof.
  intros lvl p l q H. unfold tokens_of_key in H.
  destruct (is_alpha _); [eapply tokens_of_identifier_nested, H|].
  destruct (_ =? QUOTE); [eapply tokens_of_string_nested, H|discriminate H].
Qed.

Lemma grammar_nested fuel :
  gives_nested (tokens_of_value m e fuel)
  /\ gives_nested (tokens_of_elements m e fuel)
  /\ gives_nested (tokens_of_array m e fuel)
  /\ gives_nested (tokens_of_pair m e fuel)
  /\ gives_nested (tokens_of_pairs m e fuel)
  /\ gives_nested (tokens_of_object m e fuel).
Proof.
  induction fuel as [|fuel (IHv & IHe & IHa & IHp & IHps & IHo)].
  { repeat apply conj; intros lvl p l q H; discriminate H. }
  repeat apply conj; intros lvl p l q H.
  - rewrite tokens_of_value_S in H. cbv zeta in H.
    destruct (_ =? QUOTE); [eapply tokens_of_string_nested, H|].
    destruct (_ =? ch "{"); [eapply IHo, H|].
    destruct (_ =? ch "["); [eapply IHa, H|].
    destruct (_ && literal_at m e "null" _);
      [injection H as <- _; apply nested_leaf|].
    destruct (_ && literal_at m e "true" _);
      [injection H as <- _; apply nested_leaf|].
    destruct (_ && literal_at m e "false" _);
      [injection H as <- _; apply nested_leaf|].
    destruct (is_digit _ || _); [eapply tokens_of_number_nested, H|].
    discriminate H.
  - rewrite tokens_of_elements_S in H. unfold grammar_loop in H.
    destruct (_ =? ch "]"); [injection H as <- _; apply nested_nil|].
    destruct (tokens_of_value _ _ _ _ _) as [[l1 q1]|] eqn:E1;
      [|discriminate H].
    destruct (tokens_of_elements _ _ _ _ _) as [[l2 q2]|] eqn:E2;
      [|discriminate H].
    injection H as <- _. apply nested_app; [eapply IHv, E1|eapply IHe, E2].
  - rewrite tokens_of_array_S in H. unfold grammar_container in H.
    destruct (_ =? ch "["); [|discriminate H].
    destruct (tokens_of_elements _ _ _ _ _) as [[l1 q1]|] eqn:E1;
      [|discriminate H].
    destruct (_ =? ch "]"); [|discriminate H].
    injection H as <- _. apply nested_node; [reflexivity|eapply IHe, E1].
  - rewrite tokens_of_pair_S in H.
    destruct (tokens_of_key _ _ _ _) as [[l1 q1]|] eqn:E1; [|discriminate H].
    destruct (_ =? ch ":"); [|discriminate H].
    destruct (tokens_of_value _ _ _ _ _) as [[l2 q2]|] eqn:E2;
      [|discriminate H].
    injection H as <- _.
    apply nested_app; [eapply tokens_of_key_nested, E1|eapply IHv, E2].
  - rewrite tokens_of_pairs_S in H. unfold grammar_loop in H.
    destruct (_ =? ch "}"); [injection H as <- _; apply nested_nil|].
    destruct (tokens_of_pair _ _ _ _ _) as [[l1 q1]|] eqn:E1;
      [|discriminate H].
    destruct (tokens_of_pairs _ _ _ _ _) as [[l2 q2]|] eqn:E2;
      [|discriminate H].
    injection H as <- _. apply nested_app; [eapply IHp, E1|eapply IHps, E2].
  - rewrite tokens_of_object_S in H. unfold grammar_container in H.
    destruct (_ =? ch "{"); [|discriminate H].
    destruct (tokens_of_pairs _ _ _ _ _) as [[l1 q1]|] eqn:E1;
      [|discriminate H].
    destruct (_ =? ch "}"); [|discriminate H].
    injection H as <- _. apply nested_node; [reflexivity|eapply IHps, E1].
Qed.

Lemma tokens_of_input_nested l r :
  tokens_of_input m e = Some (l, r) -> nested 0 l.
Proof.
  unfold tokens_of_input. intros H.
  destruct (tokens_of_object _ _ _ _ _) as [[l0 r0]|] eqn:E0;
    [|discriminate H].
  injection H as <- _.
  destruct (grammar_nested (fuel_of e)) as (_ & _ & _ & _ & _ & Ho).
  apply nested_app; [eapply Ho, E0|apply nested_leaf].
Qed.

End grammar_nested.

(** ** Commas between elements

    Two runs of the rules, over an input and over the same input with
    a space in the place of some of the commas that lie between two
    elements, whatever they return. *)

(** The bytes that end an element, and the bytes that begin one. *)
Definition ends_element (c : Z) : bool :=
  is_digit c || is_alpha c || (c =? QUOTE) || (c =? ch "}") || (c =? ch "]").

Definition starts_element (c : Z) : bool :=
  is_digit c || is_alpha c || (c =? ch "-") || (c =? QUOTE)
  || (c =? ch "{") || (c =? ch "[").

(** The byte at offset [i] of an input of [e] bytes lies between two
    elements: white space apart, the byte before it ends an element and
    the byte after it begins one. *)
Definition between_elements (m : list ascii) (e i : Z) : Prop :=
  (exists p, 0 <= p < i /\ ends_element (byte_at m p) = true
             /\ forall k, p < k < i -> is_space (byte_at m k) = true)
  /\ exists q, i < q < e /\ starts_element (byte_at m q) = true
               /\ forall k, i < k < q -> is_space (byte_at m k) = true.

Lemma space_cases c :
  is_space c = true -> c = ch " " \/ c = ch "009" \/ c = ch "013" \/ c = ch "010".
Proof.
  unfold is_space. intros H.
  repeat (apply orb_prop in H as [H|H]); apply Z.eqb_eq in H; auto.
Qed.

Lemma space_not_end c : is_space c = true -> ends_element c = false.
Proof.
  intros H. apply space_cases in H as [-> | [-> | [-> | ->]]]; reflexivity.
Qed.

Lemma start_not_space c : starts_element c = true -> is_space c = false.
Proof.
  intros H. destruct (is_space c) eqn:E; [|reflexivity].
  apply space_cases in E as [-> | [-> | [-> | ->]]]; discriminate H.
Qed.

Lemma scan_while_cong (p : Z -> bool) (ma mb : list ascii) (n : nat) (c : Z) :
  (forall i, c <= i < c + Z.of_nat n -> p (byte_at mb i) = p (byte_at ma i)) ->
  scan_while p mb n c = scan_while p ma n c.
Proof.
  revert c. induction n as [|n IH]; intros c H; simpl; [reflexivity|].
  rewrite H by lia. destruct (p (byte_at ma c)); [|reflexivity].
  apply IH. intros i Hi. apply H. lia.
Qed.

Section separators.

(** The reference run goes over [m1], the other over [m2]; both inputs
    have [e] bytes.  [m2] holds the bytes of [m1], but that a comma of
    [m1] between two elements may be a space in [m2]. *)
Variables m1 m2 : list ascii.
Variable e : Z.

Hypothesis omitted :
  forall i, 0 <= i <= e ->
    byte_at m2 i = byte_at m1 i
    \/ (byte_at m1 i = ch "," /\ byte_at m2 i = ch " "
        /\ between_elements m1 e i).

Local Abbreviation ok := (src m1 e).
Local Abbreviation tw := (rt m2 e).

(** The result of the other run, when the two runs are at the same
    offset. *)
Definition other (r : result) : result := (fst r, tw (snd r)).

(** The other run is at the same offset, or it has skipped white space
    that the reference run has still before it. *)
Definition beside (f1 f2 : frozen) : Prop :=
  exists q, f2 = set_cur (tw f1) q /\ fcur f1 <= q <= e
            /\ forall k, fcur f1 <= k < q -> is_space (byte_at m1 k) = true.

(** The first byte at [p] or after it that is not white space is the same
    in the two inputs. *)
Definition clear_from (p : Z) : Prop :=
  forall q, p <= q < e ->
    (forall k, p <= k < q -> is_space (byte_at m1 k) = true) ->
    is_space (byte_at m1 q) = false ->
    byte_at m2 q = byte_at m1 q.

(** Two results with the same value and the same tokens; where the value
    is not an error, the two runs are at the same offset. *)
Definition agree (r1 r2 : result) : Prop :=
  fst r2 = fst r1 /\ tokens (snd r2) = tokens (snd r1)
  /\ (0 <= fst r1 -> snd r2 = tw (snd r1)).

Definition agrees (o1 o2 : option result) : Prop :=
  forall r1, o1 = Some r1 -> exists r2, o2 = Some r2 /\ agree r1 r2.

Lemma om_same i :
  0 <= i <= e -> byte_at m1 i <> ch "," -> byte_at m2 i = byte_at m1 i.
Proof.
  intros Hi Hc. destruct (omitted i Hi) as [H|[H _]]; [exact H|contradiction].
Qed.

Lemma om_blind p i :
  comma_blind p -> 0 <= i <= e -> p (byte_at m2 i) = p (byte_at m1 i).
Proof.
  intros Hp Hi. destruct (omitted i Hi) as [->|(-> & -> & _)]; [reflexivity|].
  symmetry. exact Hp.
Qed.

Lemma om_space i :
  0 <= i <= e -> is_space (byte_at m1 i) = true ->
  is_space (byte_at m2 i) = true.
Proof.
  intros Hi Hs. destruct (omitted i Hi) as [->|(_ & -> & _)];
    [exact Hs|reflexivity].
Qed.

Lemma beside_refl f : ok f -> beside f (tw f).
Proof.
  intros (Hend & _ & Hb). unfold in_bounds in Hb. exists (fcur f).
  split; [reflexivity|]. split; [lia|]. intros k Hk. lia.
Qed.

Lemma agree_other r : agree r (other r).
Proof. repeat split. Qed.

Lemma agrees_other r : agrees (Some r) (Some (other r)).
Proof.
  intros r1 E. injection E as <-. eexists. split; [reflexivity|].
  apply agree_other.
Qed.

Lemma agrees_leaf r1 r2 : agree r1 r2 -> agrees (Some r1) (Some r2).
Proof.
  intros H r E. injection E as <-. eexists. split; [reflexivity|exact H].
Qed.

Lemma agrees_try o1 o2 (k1 k2 : frozen -> option result) :
  agrees o1 o2 ->
  (forall n g, o1 = Some (n, g) -> 0 <= n -> agrees (k1 g) (k2 (tw g))) ->
  agrees (try_then o1 k1) (try_then o2 k2).
Proof.
  intros Ho Hk. destruct o1 as [[n g]|]; [|intros r1 E; discriminate E].
  destruct (Ho (n, g) eq_refl) as ([n2 g2] & -> & En & Et & Eg).
  simpl in En, Et, Eg. subst n2. simpl.
  destruct (Z.ltb_spec n 0).
  - intros r1 E. injection E as <-. eexists. split; [reflexivity|].
    split; [reflexivity|]. split; [exact Et|]. simpl. lia.
  - rewrite (Eg ltac:(lia)). apply (Hk n g); [reflexivity|lia].
Qed.

Lemma scan_om p f : comma_blind p -> ok f -> scan p (tw f) = tw (scan p f).
Proof.
  intros Hp (Hend & Hmem & Hb). unfold in_bounds in Hb. unfold scan.
  cbn [fend fcur mem rt]. rewrite Hend, Hmem.
  rewrite (scan_while_cong p m1 m2); [reflexivity|].
  intros i Hi. apply om_blind; [exact Hp|lia].
Qed.

(** A peek that does not meet an omitted comma. *)
Lemma cur_beside_at f1 f2 :
  ok f1 -> beside f1 f2 ->
  (fcur (snd (cur f1)) < e ->
   byte_at m2 (fcur (snd (cur f1))) = byte_at m1 (fcur (snd (cur f1)))) ->
  cur f2 = other (cur f1).
Proof.
  intros (Hend & Hmem & Hb) (q & -> & Hq & Hsp) Hsame.
  unfold in_bounds in Hb.
  destruct (cur f1) as [c h] eqn:Ec. cbn [snd] in Hsame.
  apply cur_spec in Ec as (Eh & [_ _ _ Hcur _ _ _] & Hws & Hcase).
  rewrite Hmem, Hend in *.
  assert (Etw : tw h = set_cur (set_cur (tw f1) q) (fcur h))
    by (rewrite Eh at 1; reflexivity).
  assert (Hqh : q <= fcur h <= e).
  { destruct Hcase as [(_ & _ & He)|(Hc & Hlt & Hns)]; [lia|].
    split; [|lia].
    destruct (Z.le_gt_cases q (fcur h)) as [|Hgt]; [assumption|].
    rewrite Hc, Hsp in Hns by lia. discriminate. }
  unfold other. cbn [fst snd]. rewrite Etw.
  unfold cur, skip_whitespaces, scan. cbn [fend fcur mem rt set_cur].
  rewrite (scan_while_unique is_space m2 _ q (fcur h)).
  - cbn [fcur set_cur].
    destruct Hcase as [(-> & Hge & _)|(-> & Hlt & Hns)].
    + destruct (Z.geb_spec (fcur h) e); [reflexivity|lia].
    + destruct (Z.geb_spec (fcur h) e); [lia|].
      rewrite Hsame by lia. reflexivity.
  - lia.
  - intros i Hi. apply om_space; [lia|]. apply Hws. lia.
  - intros Hlt.
    destruct Hcase as [(_ & Hge & _)|(Hc & _ & Hns)]; [lia|].
    rewrite Hsame by lia. rewrite <- Hc. exact Hns.
Qed.

Lemma cur_beside f1 f2 :
  ok f1 -> beside f1 f2 -> clear_from (fcur f1) -> cur f2 = other (cur f1).
Proof.
  intros Hok Hbe Hcl. apply cur_beside_at; auto.
  destruct Hok as (Hend & Hmem & Hb).
  destruct (cur f1) as [c h] eqn:Ec. cbn [snd]. intros Hlt.
  apply cur_spec in Ec as (_ & [_ _ _ Hcur _ _ _] & Hws & Hcase).
  rewrite Hmem, Hend in *.
  destruct Hcase as [(_ & Hge & _)|(Hc & _ & Hns)]; [lia|].
  apply Hcl; [lia|exact Hws|rewrite <- Hc; exact Hns].
Qed.

(** A peek of the reference run at an omitted comma: the other run sees
    the first byte of the element that follows. *)
Lemma cur_beside_comma f1 f2 c h :
  ok f1 -> beside f1 f2 -> cur f1 = (c, h) -> fcur h < e ->
  byte_at m2 (fcur h) <> byte_at m1 (fcur h) ->
  c = ch "," /\ byte_at m1 (fcur h) = ch ","
  /\ exists j, fcur h < j < e /\ starts_element (byte_at m1 j) = true
       /\ (forall k, fcur h < k < j -> is_space (byte_at m1 k) = true)
       /\ cur f2 = (byte_at m1 j, set_cur (tw h) j).
Proof.
  intros (Hend & Hmem & Hb) (q & -> & Hq & Hsp) Ec Hlt Hne.
  unfold in_bounds in Hb.
  apply cur_spec in Ec as (Eh & [_ _ _ Hcur _ _ _] & Hws & Hcase).
  rewrite Hmem, Hend in *.
  destruct Hcase as [(_ & Hge & _)|(Hc & _ & Hns)]; [lia|].
  destruct (omitted (fcur h) ltac:(lia)) as [Hs|(E1 & E2 & _ & j & Hj & Hst & Hjs)];
    [contradiction|].
  split; [congruence|]. split; [exact E1|].
  exists j. split; [exact Hj|]. split; [exact Hst|]. split; [exact Hjs|].
  assert (Hqh : q <= fcur h).
  { destruct (Z.le_gt_cases q (fcur h)) as [|Hgt]; [assumption|].
    rewrite Hc, Hsp in Hns by lia. discriminate. }
  assert (Hmj : byte_at m2 j = byte_at m1 j).
  { apply om_same; [lia|]. intros Ej. rewrite Ej in Hst. discriminate Hst. }
  assert (Etw : set_cur (tw h) j = set_cur (set_cur (tw f1) q) j)
    by (rewrite Eh at 1; reflexivity).
  rewrite Etw, <- Hmj.
  apply (cur_at (set_cur (tw f1) q) j); cbn [fend fcur mem rt set_cur].
  - lia.
  - intros i Hi.
    destruct (Z.lt_trichotomy i (fcur h)) as [Hi1|[->|Hi1]].
    + apply om_space; [lia|]. apply Hws. lia.
    + rewrite E2. reflexivity.
    + apply om_space; [lia|]. apply Hjs. lia.
  - rewrite Hmj. apply start_not_space, Hst.
Qed.

Lemma clear_end p : e <= p -> clear_from p.
Proof. intros H q Hq. lia. Qed.

Lemma clear_start : clear_from 0.
Proof.
  intros q Hq Hws Hns.
  destruct (omitted q ltac:(lia)) as [H|(_ & _ & (p & Hp & Hpe & _) & _)];
    [exact H|].
  rewrite space_not_end in Hpe by (apply Hws; lia). discriminate.
Qed.

(** After a byte that does not end an element. *)
Lemma clear_behind p :
  0 <= p -> is_space (byte_at m1 (p - 1)) = false ->
  ends_element (byte_at m1 (p - 1)) = false -> clear_from p.
Proof.
  intros H0 Hns Hne q Hq Hws Hq'.
  destruct (omitted q ltac:(lia)) as [H|(_ & _ & (k & Hk & Hke & Hks) & _)];
    [exact H|].
  destruct (Z.lt_trichotomy k (p - 1)) as [Hlt|[->|Hgt]].
  - rewrite Hks in Hns by lia. discriminate.
  - congruence.
  - rewrite space_not_end in Hke by (apply Hws; lia). discriminate.
Qed.

(** At a byte that is not a comma. *)
Lemma clear_here p :
  0 <= p -> is_space (byte_at m1 p) = false -> byte_at m1 p <> ch "," ->
  clear_from p.
Proof.
  intros H0 Hns Hc q Hq Hws Hq'.
  destruct (Z.eq_dec q p) as [->|Hne]; [apply om_same; [lia|exact Hc]|].
  rewrite Hws in Hns by lia. discriminate.
Qed.

Lemma ok_cur' f : ok f -> ok (snd (cur f)).
Proof.
  intros Hok. destruct (cur f) as [c h] eqn:Ec. simpl.
  pose proof (cur_bounds _ _ _ Ec (src_in_bounds _ _ _ Hok)) as B0.
  apply cur_spec in Ec as (_ & V0 & _ & _).
  eapply src_evolves; eauto.
Qed.

Lemma clear_cur f :
  ok f -> clear_from (fcur f) -> clear_from (fcur (snd (cur f))).
Proof.
  intros (Hend & Hmem & Hb) Hcl. destruct (cur f) as [c h] eqn:Ec.
  cbn [snd]. apply cur_spec in Ec as (_ & [_ _ _ Hcur _ _ _] & Hws & _).
  rewrite Hmem in Hws.
  intros q Hq Hqs Hns. apply Hcl; [lia| |exact Hns].
  intros k Hk. destruct (Z.lt_ge_cases k (fcur h)); [apply Hws|apply Hqs]; lia.
Qed.

(** The optional comma: the reference run skips the comma, the other run
    skips that comma or the space in its place. *)
Lemma skip_comma_beside f1 f2 :
  ok f1 -> beside f1 f2 ->
  beside (skip_comma f1) (skip_comma f2)
  /\ clear_from (fcur (skip_comma f1)).
Proof.
  intros Hok Hbe. pose proof Hok as (Hend & Hmem & Hb).
  pose proof (ok_cur' f1 Hok) as Okh.
  unfold skip_comma. destruct (cur f1) as [c h] eqn:Ec. cbn [snd] in Okh.
  pose proof Ec as Ec0.
  apply cur_spec in Ec0 as (Eh & [_ _ _ Hcur _ _ _] & Hws & Hcase).
  rewrite Hmem, Hend in *. unfold in_bounds in Hb.
  pose proof Okh as (_ & _ & Bh). unfold in_bounds in Bh.
  assert (Hclear : clear_from
            (fcur (if c =? ch "," then set_cur h (fcur h + 1) else h))).
  { destruct (Z.eqb_spec c (ch ",")) as [->|Hne]; cbn [fcur set_cur].
    - destruct Hcase as [(Hx & _)|(Hc & _ & _)]; [discriminate Hx|].
      apply clear_behind; [lia|..];
        replace (fcur h + 1 - 1) with (fcur h) by lia;
        rewrite <- Hc; reflexivity.
    - destruct Hcase as [(_ & Hge & _)|(Hc & _ & Hns)];
        [apply clear_end; lia|].
      apply clear_here; [lia|rewrite <- Hc; exact Hns|congruence]. }
  split; [|exact Hclear].
  destruct (Z_lt_ge_dec (fcur h) e) as [Hlt|Hge].
  - destruct (Z.eq_dec (byte_at m2 (fcur h)) (byte_at m1 (fcur h)))
      as [Hs|Hd].
    + rewrite (cur_beside_at f1 f2 Hok Hbe) by (rewrite Ec; auto).
      rewrite Ec. unfold other. cbn [fst snd fcur rt].
      destruct (c =? ch ",").
      * rewrite <- rt_set_cur. apply beside_refl.
        apply src_set_cur; [exact Okh|lia].
      * apply beside_refl, Okh.
    + destruct (cur_beside_comma f1 f2 c h Hok Hbe Ec Hlt Hd)
        as (-> & _ & j & Hj & Hst & Hjs & ->).
      change (ch "," =? ch ",") with true. cbv iota.
      destruct (Z.eqb_spec (byte_at m1 j) (ch ",")) as [Ej|_];
        [rewrite Ej in Hst; discriminate Hst|].
      exists j. split; [reflexivity|]. cbn [fcur set_cur].
      split; [lia|]. intros k Hk. apply Hjs. lia.
  - rewrite (cur_beside_at f1 f2 Hok Hbe) by (rewrite Ec; cbn [snd]; lia).
    rewrite Ec. unfold other. cbn [fst snd].
    destruct Hcase as [(-> & _)|(_ & Hlt & _)]; [|lia].
    change (END_OF_STRING =? ch ",") with false. cbv iota.
    apply beside_refl, Okh.
Qed.

Lemma ok_skip_comma f : ok f -> ok (skip_comma f).
Proof.
  intros Hok. destruct (skip_comma_post f) as [V B].
  eapply src_evolves; eauto. apply B. eapply src_in_bounds, Hok.
Qed.

Lemma test_and_skip_beside f1 f2 x :
  ok f1 -> beside f1 f2 -> clear_from (fcur f1) ->
  test_and_skip f2 x = other (test_and_skip f1 x).
Proof.
  intros Hok Hbe Hcl. unfold test_and_skip.
  rewrite (cur_beside f1 f2) by assumption.
  destruct (cur f1) as [c h]. unfold other. cbn [fst snd].
  destruct (c =? x); reflexivity.
Qed.

(** A test for a byte that does not begin an element, after an element:
    where the reference run meets an omitted comma, the other run meets
    the first byte of an element, and both return Invalid. *)
Lemma test_and_skip_agree f1 f2 x :
  ok f1 -> beside f1 f2 -> starts_element x = false -> x <> ch "," ->
  agree (test_and_skip f1 x) (test_and_skip f2 x).
Proof.
  intros Hok Hbe Hx Hx'. unfold test_and_skip.
  destruct (cur f1) as [c h] eqn:Ec.
  assert (Hsame : (fcur h < e -> byte_at m2 (fcur h) = byte_at m1 (fcur h)) ->
     agree (if c =? x then (0, set_cur h (fcur h + 1))
            else (if c =? END_OF_STRING then JSON_STRING_INCOMPLETE
                  else JSON_STRING_INVALID, h))
           (let (c0, f) := cur f2 in
            if c0 =? x then (0, set_cur f (fcur f + 1))
            else (if c0 =? END_OF_STRING then JSON_STRING_INCOMPLETE
                  else JSON_STRING_INVALID, f))).
  { intros Hs. rewrite (cur_beside_at f1 f2 Hok Hbe) by (rewrite Ec; exact Hs).
    rewrite Ec. unfold other. cbn [fst snd].
    destruct (c =? x); repeat split. }
  destruct (Z_lt_ge_dec (fcur h) e) as [Hlt|Hge]; [|apply Hsame; lia].
  destruct (Z.eq_dec (byte_at m2 (fcur h)) (byte_at m1 (fcur h)))
    as [Hs|Hd]; [apply Hsame; auto|].
  destruct (cur_beside_comma f1 f2 c h Hok Hbe Ec Hlt Hd)
    as (-> & _ & j & Hj & Hst & Hjs & ->).
  destruct (Z.eqb_spec (ch ",") x) as [Ex|_]; [congruence|].
  destruct (Z.eqb_spec (byte_at m1 j) x) as [Ex|_];
    [rewrite Ex in Hst; congruence|].
  pose proof (byte_at_range m1 j) as Hr.
  destruct (Z.eqb_spec (byte_at m1 j) END_OF_STRING) as [Ex|_];
    [unfold END_OF_STRING in Ex; lia|].
  change (ch "," =? END_OF_STRING) with false. cbv iota.
  split; [reflexivity|]. split; [reflexivity|].
  cbn [fst]. unfold JSON_STRING_INVALID. lia.
Qed.

(** Where a successful [test_and_skip] leaves the cursor, the byte behind
    it is the byte tested for. *)
Lemma clear_test_and_skip f x :
  ok f -> x <> END_OF_STRING -> is_space x = false ->
  ends_element x = false -> 0 <= fst (test_and_skip f x) ->
  clear_from (fcur (snd (test_and_skip f x))).
Proof.
  intros (Hend & Hmem & Hb) Hx Hsp Hne Hn.
  destruct (test_and_skip f x) as [n g] eqn:E. cbn [fst snd] in *.
  destruct (test_and_skip_spec _ _ _ _ Hx E) as (_ & Hs).
  destruct (Hs Hn) as (_ & Hlt & _ & Hbyte & _). rewrite Hmem in Hbyte.
  unfold in_bounds in Hb.
  apply clear_behind; [lia|rewrite Hbyte; assumption..].
Qed.

Lemma compare_loop_om c str i :
  0 <= c + i -> c + i + Z.of_nat (length str) <= e ->
  Forall (fun x => x <> ","%char /\ x <> " "%char) str ->
  compare_loop m2 c str i = compare_loop m1 c str i.
Proof.
  revert i. induction str as [|x str IH]; intros i H0 He Hstr;
    [reflexivity|].
  cbn [compare_loop length] in *. rewrite Nat2Z.inj_succ in He.
  inversion Hstr as [|? ? [Hx1 Hx2] Hstr']; subst.
  destruct (omitted (c + i) ltac:(lia)) as [->|(-> & -> & _)].
  - destruct (_ =? _); [|reflexivity]. apply IH; auto; lia.
  - destruct (Z.eqb_spec (ch ",") (ch x)) as [Ex|_];
      [apply ch_inj in Ex; congruence|].
    destruct (Z.eqb_spec (ch " ") (ch x)) as [Ex|_];
      [apply ch_inj in Ex; congruence|].
    reflexivity.
Qed.

Lemma compare_om f str k :
  ok f -> Forall (fun x => x <> ","%char /\ x <> " "%char)
                 (list_ascii_of_string str) ->
  compare (tw f) str k = compare f str k.
Proof.
  intros Hok Hstr. pose proof (left_le f (src_in_bounds _ _ _ Hok)) as Hl.
  destruct Hok as (Hend & Hmem & Hb). unfold in_bounds in Hb.
  unfold compare, left in *. cbn [fend fcur mem rt]. rewrite Hend, Hmem in *.
  destruct (Z.ltb_spec (to_int (e - fcur f)) k); [reflexivity|].
  rewrite compare_loop_om; [reflexivity|lia| |apply Forall_take, Hstr].
  rewrite length_take. lia.
Qed.

Lemma get_escape_len_om s l :
  0 <= s <= e -> get_escape_len m2 s l = get_escape_len m1 s l.
Proof.
  intros Hs. unfold get_escape_len.
  destruct (omitted s Hs) as [->|(-> & -> & _)]; [|reflexivity].
  destruct (Z.eqb_spec (byte_at m1 s) (ch "u")) as [->|_]; [|reflexivity].
  destruct (l <? 4); reflexivity.
Qed.

Lemma parse_string_loop_om k c1 c2 f :
  ok f -> (c2 =? QUOTE) = (c1 =? QUOTE) ->
  parse_string_loop k c2 (tw f) = other (parse_string_loop k c1 f).
Proof.
  revert c1 c2 f. induction k as [|k IH]; intros c1 c2 f Hok Hc;
    pose proof (left_le f (src_in_bounds _ _ _ Hok)) as Hl;
    pose proof Hok as (Hend & Hmem & Hb); unfold in_bounds in Hb;
    cbn [parse_string_loop]; unfold left in *;
    cbn [fend fcur mem rt]; rewrite ?Hend, ?Hmem in *; rewrite Hc.
  - destruct (fcur f <? e); reflexivity.
  - destruct (Z.ltb_spec (fcur f) e); [|reflexivity].
    rewrite get_escape_len_om by lia.
    destruct (omitted (fcur f) ltac:(lia)) as [->|(-> & -> & _)].
    + destruct (negb _); [reflexivity|].
      destruct (byte_at m1 (fcur f) =? ch "\").
      * destruct (get_escape_len_cases m1 (fcur f + 1) (to_int (e - fcur f)))
          as [E|[E|(E & Hl2 & _)]]; rewrite E; [reflexivity..|].
        cbn [negb Z.gtb Z.compare]. rewrite <- rt_set_cur.
        apply IH; [|reflexivity]. apply src_set_cur; [exact Hok|lia].
      * destruct (byte_at m1 (fcur f) =? QUOTE).
        -- cbn [num_tokens rt]. rewrite capture_len_rt.
           destruct (capture_len f _ _) as [r h]. reflexivity.
        -- rewrite <- rt_set_cur. apply IH; [|reflexivity].
           apply src_set_cur; [exact Hok|lia].
    + change (negb ((ch "," >=? 32) && (ch "," <=? 127))) with false.
      change (negb ((ch " " >=? 32) && (ch " " <=? 127))) with false.
      change (ch "," =? ch "\") with false.
      change (ch " " =? ch "\") with false.
      change (ch "," =? QUOTE) with false.
      change (ch " " =? QUOTE) with false. cbv iota.
      rewrite <- rt_set_cur. apply IH; [|reflexivity].
      apply src_set_cur; [exact Hok|lia].
Qed.

Lemma ok_test_and_skip' f x :
  x <> END_OF_STRING -> ok f -> ok (snd (test_and_skip f x)).
Proof.
  intros Hx Hok. destruct (test_and_skip f x) as [n g] eqn:E. simpl.
  pose proof (test_and_skip_bounds _ _ _ _ Hx E (src_in_bounds _ _ _ Hok)).
  pose proof (test_and_skip_evolves f x) as V. rewrite E in V.
  eapply src_evolves; eauto.
Qed.

Lemma ok_capture_ptr' f p ty : ok f -> ok (snd (capture_ptr f p ty)).
Proof.
  intros Hok. destruct (capture_ptr f p ty) as [n g] eqn:E. simpl.
  pose proof (capture_ptr_bounds _ _ _ _ _ E (src_in_bounds _ _ _ Hok)).
  eapply src_evolves; eauto using capture_ptr_evolves.
Qed.

Lemma parse_string_om f :
  ok f -> clear_from (fcur f) -> parse_string (tw f) = other (parse_string f).
Proof.
  intros Hok Hcl. unfold parse_string.
  rewrite (test_and_skip_beside f (tw f)) by auto using beside_refl.
  pose proof (ok_test_and_skip' f QUOTE quote_ne_eos Hok) as Ok1.
  destruct (test_and_skip f QUOTE) as [n1 f1]. unfold other at 1.
  cbn [fst snd] in *.
  destruct (n1 <? 0); [reflexivity|].
  cbn [fcur rt]. rewrite capture_ptr_rt.
  pose proof (ok_capture_ptr' f1 (fcur f1) JSON_TYPE_STRING Ok1) as Ok2.
  destruct (capture_ptr f1 (fcur f1) JSON_TYPE_STRING) as [n2 f2].
  cbn [fst snd] in *.
  destruct (n2 <? 0); [reflexivity|].
  cbn [fend fcur rt]. rewrite (proj1 Ok2).
  apply parse_string_loop_om; [exact Ok2|reflexivity].
Qed.

Lemma parse_number_om f :
  ok f -> clear_from (fcur f) -> parse_number (tw f) = other (parse_number f).
Proof.
  intros Hok Hcl. unfold parse_number.
  rewrite (cur_beside f (tw f)) by auto using beside_refl.
  pose proof (ok_cur' f Hok) as Ok0.
  destruct (cur f) as [c h]. unfold other at 1. cbn [fst snd] in *.
  cbn [fcur rt]. rewrite capture_ptr_rt.
  pose proof (ok_capture_ptr' h (fcur h) JSON_TYPE_NUMBER Ok0) as Ok1.
  destruct (capture_ptr h (fcur h) JSON_TYPE_NUMBER) as [n1 f1].
  cbn [fst snd] in *.
  destruct (n1 <? 0); [reflexivity|]. cbn [fcur rt].
  assert (Hscan : scan is_digit
            (if c =? ch "-" then set_cur (tw f1) (fcur f1 + 1) else tw f1)
          = tw (scan is_digit
                  (if c =? ch "-" then set_cur f1 (fcur f1 + 1) else f1))).
  { destruct (c =? ch "-");
      [|apply scan_om; [exact is_digit_comma_blind|exact Ok1]].
    rewrite <- rt_set_cur.
    destruct (Z.le_gt_cases (fcur f1 + 1) e) as [Hle|Hgt].
    - apply scan_om; [exact is_digit_comma_blind|].
      apply src_set_cur; [exact Ok1|].
      destruct Ok1 as (_ & _ & Hb). unfold in_bounds in Hb. lia.
    - unfold scan. cbn [fend fcur mem rt set_cur].
      destruct Ok1 as (Hend & _). rewrite Hend.
      replace (Z.to_nat (e - (fcur f1 + 1))) with O by lia.
      reflexivity. }
  rewrite Hscan. cbn [fcur num_tokens rt]. rewrite capture_len_rt.
  destruct (capture_len _ _ _) as [n2 f2]. reflexivity.
Qed.

Lemma parse_identifier_om f :
  ok f -> clear_from (fcur f) ->
  parse_identifier (tw f) = other (parse_identifier f).
Proof.
  intros Hok Hcl. unfold parse_identifier.
  rewrite (cur_beside f (tw f)) by auto using beside_refl.
  pose proof (ok_cur' f Hok) as Ok0.
  destruct (cur f) as [c h]. unfold other at 1. cbn [fst snd] in *.
  destruct (negb _); [reflexivity|].
  cbn [fcur rt]. rewrite capture_ptr_rt.
  pose proof (ok_capture_ptr' h (fcur h) JSON_TYPE_STRING Ok0) as Ok1.
  destruct (capture_ptr h (fcur h) JSON_TYPE_STRING) as [n1 f1].
  cbn [fst snd] in *.
  destruct (n1 <? 0); [reflexivity|].
  rewrite scan_om by (auto; exact ident_comma_blind).
  cbn [fcur num_tokens rt]. rewrite capture_len_rt.
  destruct (capture_len _ _ _) as [n2 f2]. reflexivity.
Qed.

Lemma parse_key_om f1 f2 :
  ok f1 -> beside f1 f2 -> clear_from (fcur f1) ->
  parse_key f2 = other (parse_key f1).
Proof.
  intros Hok Hbe Hcl. unfold parse_key.
  rewrite (cur_beside f1 f2) by assumption.
  pose proof (ok_cur' f1 Hok) as Ok0.
  pose proof (clear_cur f1 Hok Hcl) as Cl0.
  destruct (cur f1) as [c h]. unfold other at 1. cbn [fst snd] in *.
  destruct (is_alpha c).
  { rewrite parse_identifier_om by assumption.
    destruct (parse_identifier h) as [n g]. unfold other. cbn [fst snd].
    destruct (n <? 0); reflexivity. }
  destruct (c =? QUOTE); [|reflexivity].
  rewrite parse_string_om by assumption.
  destruct (parse_string h) as [n g]. unfold other. cbn [fst snd].
  destruct (n <? 0); reflexivity.
Qed.

(** A rule in the two runs, entered where no omitted comma comes first. *)
Definition rule_om (rule : frozen -> option result) : Prop :=
  forall f1 f2, ok f1 -> beside f1 f2 -> clear_from (fcur f1) ->
                agrees (rule f1) (rule f2).

Lemma agrees_map (o : option result) : agrees o (other <$> o).
Proof.
  destruct o as [r|]; [apply agrees_other|intros r E; discriminate E].
Qed.

Lemma loop_body_om rule loop close :
  (forall f n g, rule f = Some (n, g) -> rule_post f n g) ->
  rule_om rule -> rule_om loop -> rule_om (loop_body rule loop close).
Proof.
  intros Prule Trule Tloop f1 f2 Hok Hbe Hcl. unfold loop_body.
  rewrite (cur_beside f1 f2) by assumption.
  pose proof (ok_cur' f1 Hok) as Ok0.
  pose proof (clear_cur f1 Hok Hcl) as Cl0.
  destruct (cur f1) as [c h]. unfold other. cbn [fst snd] in *.
  destruct (negb _); [|apply agrees_other].
  apply agrees_try.
  - apply Trule; auto using beside_refl.
  - intros n g E Hn. destruct (Prule _ _ _ E) as (V & B & _).
    assert (Okg : ok g).
    { eapply src_evolves; eauto. apply B. eapply src_in_bounds, Ok0. }
    destruct (skip_comma_beside g (tw g) Okg (beside_refl g Okg))
      as [Hbe' Hcl'].
    apply Tloop; auto using ok_skip_comma.
Qed.

Lemma container_om loop open close ty :
  open <> END_OF_STRING -> is_space open = false ->
  ends_element open = false ->
  close <> END_OF_STRING -> starts_element close = false ->
  close <> ch "," ->
  (forall f n g, loop f = Some (n, g) -> loop_post f n g) ->
  rule_om loop -> rule_om (container loop open close ty).
Proof.
  intros Ho Ho1 Ho2 Hc Hc1 Hc2 Ploop Tloop f1 f2 Hok Hbe Hcl.
  unfold container. cbv zeta.
  rewrite (test_and_skip_beside f1 f2) by assumption.
  pose proof (ok_test_and_skip' f1 open Ho Hok) as Ok1.
  pose proof (clear_test_and_skip f1 open Hok Ho Ho1 Ho2) as Cl1.
  apply agrees_try; [apply agrees_other|]. intros n1 g1 E1 Hn1.
  injection E1 as E1. rewrite E1 in Ok1, Cl1. cbn [fst snd] in *.
  specialize (Cl1 Hn1).
  cbn [fcur rt]. rewrite capture_ptr_rt.
  pose proof (ok_capture_ptr' g1 (fcur g1 - 1) ty Ok1) as Ok2.
  apply agrees_try; [apply agrees_other|]. intros n2 g2 E2 Hn2.
  injection E2 as E2. rewrite E2 in Ok2. cbn [snd] in Ok2.
  rewrite <- (capture_ptr_cur _ _ _ _ _ E2) in Cl1.
  cbn [num_tokens rt].
  apply agrees_try; [apply Tloop; auto using beside_refl|].
  intros n3 g3 E3 Hn3.
  destruct (Ploop _ _ _ E3) as (V3 & B3 & _).
  assert (Ok3 : ok g3).
  { eapply src_evolves; eauto. apply B3. eapply src_in_bounds, Ok2. }
  apply agrees_try.
  - apply agrees_leaf, test_and_skip_agree; auto using beside_refl.
  - intros n4 g4 E4 Hn4. cbn [fcur rt]. rewrite capture_len_rt.
    destruct (capture_len g4 _ _) as [n5 g5]. apply agrees_other.
Qed.

Lemma parse_pair_om fuel :
  rule_om (parse_value fuel) -> rule_om (parse_pair (S fuel)).
Proof.
  intros Tv f1 f2 Hok Hbe Hcl. rewrite !parse_pair_S.
  rewrite (parse_key_om f1 f2) by assumption.
  apply agrees_try; [apply agrees_other|]. intros n1 g1 E1 Hn1.
  injection E1 as E1.
  assert (Ok1 : ok g1).
  { destruct (parse_key_post _ _ _ E1) as (V1 & B1 & _).
    eapply src_evolves; eauto. apply B1. eapply src_in_bounds, Hok. }
  pose proof (ok_test_and_skip' g1 (ch ":") (ch_ne_eos _) Ok1) as Ok2.
  pose proof (clear_test_and_skip g1 (ch ":") Ok1 (ch_ne_eos _)
                eq_refl eq_refl) as Cl2.
  apply agrees_try.
  - apply agrees_leaf, test_and_skip_agree; auto using beside_refl.
  - intros n2 g2 E2 Hn2. injection E2 as E2.
    rewrite E2 in Ok2, Cl2. cbn [fst snd] in *.
    apply agrees_try; [apply Tv; auto using beside_refl|].
    intros n3 g3 _ _. apply agrees_other.
Qed.

Lemma parse_value_om fuel :
  rule_om (parse_object fuel) -> rule_om (parse_array fuel) ->
  rule_om (parse_value (S fuel)).
Proof.
  intros To Ta f1 f2 Hok Hbe Hcl. rewrite !parse_value_S.
  rewrite (cur_beside f1 f2) by assumption.
  pose proof (ok_cur' f1 Hok) as Ok0.
  pose proof (clear_cur f1 Hok Hcl) as Cl0.
  destruct (cur f1) as [c h]. unfold other at 1. cbn [fst snd] in *.
  rewrite !compare_om
    by (try exact Ok0; repeat constructor; discriminate).
  cbn [fend fcur mem rt].
  rewrite (proj1 Ok0), (proj1 (proj2 Ok0)).
  assert (Hnum : (fcur h + 1 <? e) && is_digit (byte_at m2 (fcur h + 1))
                 = (fcur h + 1 <? e) && is_digit (byte_at m1 (fcur h + 1))).
  { destruct (Z.ltb_spec (fcur h + 1) e); [|reflexivity].
    destruct Ok0 as (_ & _ & Hb). unfold in_bounds in Hb. cbn [andb].
    apply om_blind; [exact is_digit_comma_blind|lia]. }
  rewrite <- !andb_assoc, Hnum.
  destruct (c =? QUOTE).
  { rewrite parse_string_om by assumption.
    apply agrees_try; [apply agrees_other|]. intros; apply agrees_other. }
  destruct (c =? ch "{").
  { apply agrees_try; [apply To; auto using beside_refl|].
    intros; apply agrees_other. }
  destruct (c =? ch "[").
  { apply agrees_try; [apply Ta; auto using beside_refl|].
    intros; apply agrees_other. }
  destruct ((c =? ch "n") && compare h "null" 4).
  { rewrite parse_literal_rt.
    apply (agrees_try (Some (parse_literal h JSON_TYPE_NULL 4)));
      [apply agrees_other|]. intros; apply agrees_other. }
  destruct ((c =? ch "t") && compare h "true" 4).
  { rewrite parse_literal_rt.
    apply (agrees_try (Some (parse_literal h JSON_TYPE_TRUE 4)));
      [apply agrees_other|]. intros; apply agrees_other. }
  destruct ((c =? ch "f") && compare h "false" 5).
  { rewrite parse_literal_rt.
    apply (agrees_try (Some (parse_literal h JSON_TYPE_FALSE 5)));
      [apply agrees_other|]. intros; apply agrees_other. }
  destruct (is_digit c || _); [|apply agrees_other].
  rewrite parse_number_om by assumption.
  apply agrees_try; [apply agrees_other|]. intros; apply agrees_other.
Qed.

Lemma rules_om fuel :
  rule_om (parse_value fuel) /\ rule_om (parse_array_loop fuel)
  /\ rule_om (parse_array fuel) /\ rule_om (parse_pair fuel)
  /\ rule_om (parse_object_loop fuel) /\ rule_om (parse_object fuel).
Proof.
  induction fuel as [|fuel (IHv & IHal & IHa & IHp & IHol & IHo)].
  { repeat apply conj; intros f1 f2 _ _ _ r E; discriminate E. }
  destruct (rules_post_all fuel) as (Pv & Pal & Pa & Pp & Pol & Po).
  repeat apply conj.
  - apply parse_value_om; assumption.
  - rewrite parse_array_loop_body. apply loop_body_om; assumption.
  - rewrite parse_array_container.
    apply container_om; auto using ch_ne_eos; discriminate.
  - apply parse_pair_om; assumption.
  - rewrite parse_object_loop_body. apply loop_body_om; assumption.
  - rewrite parse_object_container.
    apply container_om; auto using ch_ne_eos; discriminate.
Qed.

Lemma parse_json_frozen_om arr arr_len :
  agrees (parse_json_frozen (Some m1) e arr arr_len)
         (parse_json_frozen (Some m2) e arr arr_len).
Proof.
  unfold parse_json_frozen.
  assert (Hd1 : bool_decide (Some m1 = @None (list ascii)) = false)
    by (apply bool_decide_eq_false; discriminate).
  assert (Hd2 : bool_decide (Some m2 = @None (list ascii)) = false)
    by (apply bool_decide_eq_false; discriminate).
  rewrite Hd1, Hd2. cbn [orb].
  rewrite (init_frozen_rt m1 m2 e e).
  destruct (Z.ltb_spec e 0); [apply agrees_other|].
  destruct (e =? 0); [apply agrees_other|].
  destruct (rules_om (fuel_of e)) as (_ & _ & _ & _ & _ & To).
  assert (Ok0 : ok (init_frozen (Some m1) e arr arr_len)).
  { split; [reflexivity|]. split; [reflexivity|].
    apply init_in_bounds. lia. }
  apply agrees_try.
  - apply To; [exact Ok0|apply beside_refl, Ok0|exact clear_start].
  - intros n1 g1 E1 Hn1. cbn [fcur rt]. rewrite capture_ptr_rt.
    apply (agrees_try (Some (capture_ptr g1 (fcur g1) JSON_TYPE_EOF)));
      [apply agrees_other|].
    intros n2 g2 E2 Hn2. cbn [fcur num_tokens rt]. rewrite capture_len_rt.
    destruct (capture_len g2 _ _) as [n3 g3]. apply agrees_other.
Qed.

End separators.

(** [parse_json] on two inputs of which the second omits commas of the
    first that lie between two elements. *)
Lemma parse_json_omitted m1 m2 s_len arr arr_len :
  (forall i, 0 <= i <= s_len ->
     byte_at m2 i = byte_at m1 i
     \/ (byte_at m1 i = ch "," /\ byte_at m2 i = ch " "
         /\ between_elements m1 s_len i)) ->
  parse_json (Some m2) s_len arr arr_len
  = parse_json (Some m1) s_len arr arr_len.
Proof.
  intros H. unfold parse_json.
  pose proof (parse_json_frozen_om m1 m2 s_len H arr arr_len) as Ha.
  destruct (fuel_enough (Some m1) s_len arr arr_len) as [r1 Hr1].
  unfold parse_json in Hr1.
  destruct (parse_json_frozen (Some m1) s_len arr arr_len) as [[n g]|];
    [|discriminate Hr1].
  destruct (Ha (n, g) eq_refl) as ([n2 g2] & -> & En & Et & _).
  simpl in En, Et. rewrite En, Et. reflexivity.
Qed.

(** ** The values that the rules return *)

(** What a rule returns: 0, Invalid, Incomplete, or TooManyTokens from a
    recorder that is on and whose array is used up. *)
Definition outcome (r : result) : Prop :=
  fst r = 0 \/ fst r = JSON_STRING_INVALID \/ fst r = JSON_STRING_INCOMPLETE
  \/ (fst r = JSON_TOKEN_ARRAY_TOO_SMALL
      /\ is_Some (tokens (snd r)) /\ max_tokens (snd r) <> 0
      /\ max_tokens (snd r) <= num_tokens (snd r)).

Definition outcome_rule (e : option result) : Prop :=
  forall r, e = Some r -> outcome r.

Lemma outcome_zero f : outcome (0, f).
Proof. left. reflexivity. Qed.

Lemma outcome_invalid f : outcome (JSON_STRING_INVALID, f).
Proof. right. left. reflexivity. Qed.

Lemma outcome_incomplete f : outcome (JSON_STRING_INCOMPLETE, f).
Proof. right. right. left. reflexivity. Qed.

Lemma outcome_eos c f :
  outcome (if c =? END_OF_STRING then JSON_STRING_INCOMPLETE
           else JSON_STRING_INVALID, f).
Proof.
  destruct (c =? END_OF_STRING);
    [apply outcome_incomplete|apply outcome_invalid].
Qed.

Lemma outcome_capture_ptr f p ty : outcome (capture_ptr f p ty).
Proof.
  unfold capture_ptr. destruct (tokens f) as [a|] eqn:Et;
    [|apply outcome_zero].
  destruct (Z.eqb_spec (max_tokens f) 0); [apply outcome_zero|].
  destruct (Z.geb_spec (num_tokens f) (max_tokens f)); [|apply outcome_zero].
  right. right. right. simpl. rewrite Et. repeat apply conj; eauto; lia.
Qed.

Lemma outcome_open f p ty (k : frozen -> result) :
  (forall f1, outcome (k f1)) ->
  outcome (let (r, f1) := capture_ptr f p ty in
           if r <? 0 then (r, f1) else k f1).
Proof.
  intros Hk. pose proof (outcome_capture_ptr f p ty) as H.
  destruct (capture_ptr f p ty) as [r f1].
  destruct (r <? 0); [exact H|apply Hk].
Qed.

Lemma outcome_test_and_skip f x : outcome (test_and_skip f x).
Proof.
  unfold test_and_skip. destruct (cur f) as [c h].
  destruct (c =? x); [apply outcome_zero|apply outcome_eos].
Qed.

Lemma outcome_parse_string_loop k c f : outcome (parse_string_loop k c f).
Proof.
  assert (Hfin : forall c f, outcome
            (if c =? QUOTE then 0 else JSON_STRING_INCOMPLETE, f)).
  { intros c0 f0. destruct (c0 =? QUOTE);
      [apply outcome_zero|apply outcome_incomplete]. }
  revert c f. induction k as [|k IH]; intros c f; simpl.
  - destruct (fcur f <? fend f); apply Hfin.
  - destruct (fcur f <? fend f); [|apply Hfin].
    destruct (negb _); [apply outcome_invalid|].
    destruct (_ =? ch "\").
    + destruct (get_escape_len_cases (mem f) (fcur f + 1) (left f))
        as [E|[E|(E & _)]]; rewrite E; simpl;
        [apply outcome_invalid|apply outcome_incomplete|apply IH].
    + destruct (_ =? QUOTE); [|apply IH].
      destruct (capture_len f _ _). simpl. apply outcome_zero.
Qed.

Lemma outcome_parse_string f : outcome (parse_string f).
Proof.
  unfold parse_string. pose proof (outcome_test_and_skip f QUOTE) as H.
  destruct (test_and_skip f QUOTE) as [n h]. destruct (n <? 0); [exact H|].
  apply outcome_open. intros f1. apply outcome_parse_string_loop.
Qed.

Lemma outcome_parse_literal f ty k : outcome (parse_literal f ty k).
Proof.
  unfold parse_literal. apply outcome_open. intros f1.
  destruct (capture_len _ _ _). apply outcome_zero.
Qed.

Lemma outcome_parse_number f : outcome (parse_number f).
Proof.
  unfold parse_number. destruct (cur f) as [c h]. apply outcome_open.
  intros f1. destruct (capture_len _ _ _). apply outcome_zero.
Qed.

Lemma outcome_parse_identifier f : outcome (parse_identifier f).
Proof.
  unfold parse_identifier. destruct (cur f) as [c h].
  destruct (negb _); [apply outcome_invalid|].
  apply outcome_open.
  intros f1. destruct (capture_len _ _ _). apply outcome_zero.
Qed.

Lemma outcome_ok (r : result) :
  outcome r -> outcome (let (n, f) := r in if n <? 0 then (n, f) else (0, f)).
Proof.
  destruct r as [n f]. intros H. destruct (n <? 0); [exact H|].
  apply outcome_zero.
Qed.

Lemma outcome_parse_key f : outcome (parse_key f).
Proof.
  unfold parse_key. destruct (cur f) as [c h].
  destruct (is_alpha c); [apply outcome_ok, outcome_parse_identifier|].
  destruct (c =? QUOTE); [apply outcome_ok, outcome_parse_string|].
  apply outcome_eos.
Qed.

Lemma outcome_try e k :
  outcome_rule e -> (forall f, outcome_rule (k f)) ->
  outcome_rule (try_then e k).
Proof.
  intros He Hk [n g] H.
  apply try_then_inv in H as (n1 & g1 & E & [(_ & H)|(_ & H)]).
  - rewrite H. apply He, E.
  - eapply Hk, H.
Qed.

Lemma outcome_leaf (r : result) : outcome r -> outcome_rule (Some r).
Proof. intros H r' E. injection E as <-. exact H. Qed.

Lemma outcome_close_opt f i :
  outcome_rule (let (_, f') := capture_len f i (fcur f) in Some (0, f')).
Proof.
  destruct (capture_len f i (fcur f)). apply outcome_leaf, outcome_zero.
Qed.

Ltac outcome_tac :=
  cbv zeta;
  repeat first
    [ apply outcome_close_opt
    | apply outcome_try; [|intros ?]
    | apply outcome_leaf
    | apply outcome_zero | apply outcome_eos
    | apply outcome_test_and_skip | apply outcome_capture_ptr
    | apply outcome_parse_string | apply outcome_parse_literal
    | apply outcome_parse_number | apply outcome_parse_key
    | match goal with
      | IH : forall f, outcome_rule (?rule f) |- outcome_rule (?rule _) =>
          apply IH
      end ].

Lemma outcome_rules fuel :
  (forall f, outcome_rule (parse_value fuel f))
  /\ (forall f, outcome_rule (parse_array_loop fuel f))
  /\ (forall f, outcome_rule (parse_array fuel f))
  /\ (forall f, outcome_rule (parse_pair fuel f))
  /\ (forall f, outcome_rule (parse_object_loop fuel f))
  /\ (forall f, outcome_rule (parse_object fuel f)).
Proof.
  induction fuel as [|fuel (IHv & IHal & IHa & IHp & IHol & IHo)];
    [repeat apply conj; intros f r H; discriminate H|].
  repeat apply conj; intros f; unfold_rules.
  - destruct (cur f) as [c h].
    repeat match goal with
           | |- outcome_rule (if ?b then _ else _) => destruct b
           end; outcome_tac.
  - destruct (cur f) as [c h]. destruct (negb _); outcome_tac.
  - outcome_tac.
  - outcome_tac.
  - destruct (cur f) as [c h]. destruct (negb _); outcome_tac.
  - outcome_tac.
Qed.

(** An object is at least its two braces. *)
Lemma parse_object_two fuel f n g :
  parse_object fuel f = Some (n, g) -> 0 <= n -> fcur f + 2 <= fcur g.
Proof.
  destruct fuel as [|fuel]; [discriminate|]. rewrite parse_object_S.
  intros H Hn.
  destruct (rules_post_all fuel) as (_ & _ & _ & _ & Pol & _).
  try_step H n1 f1 E1 Hn1; [lia|].
  try_step H n2 f2 E2 Hn2; [lia|].
  try_step H n3 f3 E3 Hn3; [lia|].
  try_step H n4 f4 E4 Hn4; [lia|].
  destruct (capture_len f4 (num_tokens f2 - 1) (fcur f4)) as [n5 f5] eqn:E5.
  injection H as <- <-.
  destruct (test_and_skip_spec _ _ _ _ (ch_ne_eos _) E1) as (_ & Hs1).
  destruct (Hs1 Hn1) as (_ & Hlt1 & _).
  pose proof (capture_ptr_cur _ _ _ _ _ E2) as C2.
  destruct (Pol _ _ _ E3) as ([_ _ _ V3 _ _ _] & _).
  destruct (test_and_skip_spec _ _ _ _ (ch_ne_eos _) E4) as (_ & Hs4).
  destruct (Hs4 Hn4) as (_ & Hlt4 & _).
  rewrite (capture_len_cur _ _ _ _ _ E5). lia.
Qed.
(** [cur] on white space up to the end. *)
Lemma cur_end f :
  in_bounds f ->
  (forall i, fcur f <= i < fend f -> is_space (byte_at (mem f) i) = true) ->
  cur f = (END_OF_STRING, set_cur f (fend f)).
Proof.
  intros Hb Hws. unfold in_bounds in Hb. unfold cur, skip_whitespaces, scan.
  rewrite (scan_while_unique is_space (mem f) _ (fcur f) (fend f));
    [|lia|exact Hws|lia].
  simpl. destruct (Z.geb_spec (fend f) (fend f)); [reflexivity|lia].
Qed.

(** ** Tokens and bytes

    Whatever a rule returns, it has moved the cursor by at least one byte
    for each token that it has recorded. *)

Definition paced (f g : frozen) : Prop :=
  num_tokens g - num_tokens f <= fcur g - fcur f.

Definition paces (rule : frozen -> option result) : Prop :=
  forall f n g, rule f = Some (n, g) -> paced f g.

Lemma paced_trans f g h : paced f g -> paced g h -> paced f h.
Proof. unfold paced. lia. Qed.

Lemma paced_move f g :
  num_tokens g = num_tokens f -> fcur f <= fcur g -> paced f g.
Proof. unfold paced. lia. Qed.

Lemma capture_ptr_count f p ty n g :
  capture_ptr f p ty = (n, g) ->
  fcur g = fcur f /\ num_tokens g <= num_tokens f + 1
  /\ (n < 0 -> num_tokens g = num_tokens f).
Proof.
  unfold capture_ptr. intros E.
  destruct (tokens f); repeat break_if; inj_pair; simpl; lia.
Qed.

Lemma capture_len_count f i p n g :
  capture_len f i p = (n, g) ->
  fcur g = fcur f /\ num_tokens g = num_tokens f.
Proof.
  unfold capture_len. intros E.
  destruct (tokens f); repeat break_if; inj_pair; simpl; lia.
Qed.

Lemma cur_count f c g :
  cur f = (c, g) -> num_tokens g = num_tokens f /\ fcur f <= fcur g.
Proof.
  intros E. pose proof (same_rec_cur _ _ _ E) as (_ & Hn & _).
  destruct (cur_spec _ _ _ E) as (_ & [] & _). auto.
Qed.

Lemma scan_count p f :
  num_tokens (scan p f) = num_tokens f /\ fcur f <= fcur (scan p f).
Proof.
  pose proof (same_rec_scan p f) as (_ & Hn & _).
  destruct (scan_evolves p f). auto.
Qed.

Lemma test_and_skip_count f x n g :
  x <> END_OF_STRING -> test_and_skip f x = (n, g) ->
  num_tokens g = num_tokens f /\ fcur f <= fcur g
  /\ (0 <= n -> fcur f < fcur g).
Proof.
  intros Hx E. pose proof (same_rec_test_and_skip _ _ _ _ E) as (_ & Hn & _).
  destruct (test_and_skip_spec _ _ _ _ Hx E) as ([] & Hs).
  repeat apply conj; auto. intros H0. apply Hs, H0.
Qed.

Lemma skip_comma_paced f : paced f (skip_comma f).
Proof.
  pose proof (same_rec_skip_comma f) as (_ & Hn & _).
  destruct (skip_comma_post f) as ([] & _). apply paced_move; auto.
Qed.

Lemma parse_string_loop_count k c f n g :
  parse_string_loop k c f = (n, g) -> num_tokens g = num_tokens f.
Proof.
  revert c f. induction k as [|k IH]; intros c f; simpl.
  - destruct (fcur f <? fend f); intros E; injection E as _ <-; reflexivity.
  - destruct (fcur f <? fend f); [|intros E; injection E as _ <-; reflexivity].
    destruct (negb _); [intros E; injection E as _ <-; reflexivity|].
    destruct (_ =? ch "\").
    + destruct (negb _); [intros E; injection E as _ <-; reflexivity|].
      intros E. apply IH in E. exact E.
    + destruct (_ =? QUOTE).
      * destruct (capture_len f _ _) as [r f'] eqn:El.
        intros E. injection E as _ <-.
        apply capture_len_count in El. simpl. lia.
      * intros E. apply IH in E. exact E.
Qed.

(** A leaf that records at most one token, and none when it fails. *)
Lemma paced_leaf f n g :
  rule_post f n g -> num_tokens g <= num_tokens f + 1 ->
  (n < 0 -> num_tokens g = num_tokens f) -> paced f g.
Proof.
  intros ([] & _ & Hs) H1 H2. unfold paced.
  destruct (Z.lt_ge_cases n 0) as [Hn|Hn]; [rewrite H2 by exact Hn; lia|].
  destruct (Hs Hn). lia.
Qed.

Lemma parse_string_paced f n g : parse_string f = (n, g) -> paced f g.
Proof.
  unfold parse_string. intros E.
  destruct (test_and_skip f QUOTE) as [n1 f1] eqn:E1.
  destruct (test_and_skip_count _ _ _ _ quote_ne_eos E1) as (N1 & C1 & P1).
  destruct (Z.ltb_spec n1 0);
    [injection E as _ <-; apply paced_move; assumption|].
  destruct (capture_ptr f1 (fcur f1) JSON_TYPE_STRING) as [n2 f2] eqn:E2.
  destruct (capture_ptr_count _ _ _ _ _ E2) as (C2 & N2 & _).
  specialize (P1 ltac:(lia)).
  destruct (Z.ltb_spec n2 0); [injection E as _ <-; unfold paced; lia|].
  pose proof (parse_string_loop_count _ _ _ _ _ E) as N3.
  destruct (parse_string_loop_evolves _ _ _ _ _ E). unfold paced. lia.
Qed.

Lemma parse_number_paced f c n g :
  cur f = (c, f) ->
  is_digit c
  || ((c =? ch "-") && (fcur f + 1 <? fend f)
      && is_digit (byte_at (mem f) (fcur f + 1))) = true ->
  parse_number f = (n, g) -> paced f g.
Proof.
  intros Ec Hd E. pose proof (parse_number_post _ _ _ _ Ec Hd E) as P.
  unfold parse_number in E. rewrite Ec in E.
  destruct (capture_ptr f (fcur f) JSON_TYPE_NUMBER) as [n1 f1] eqn:E1.
  destruct (capture_ptr_count _ _ _ _ _ E1) as (_ & N1 & F1).
  destruct (Z.ltb_spec n1 0).
  { injection E as <- <-. apply (paced_leaf _ _ _ P); auto. }
  destruct (capture_len _ _ _) as [n2 f2] eqn:E2.
  injection E as <- <-.
  destruct (capture_len_count _ _ _ _ _ E2) as (_ & N2).
  pose proof (proj1 (scan_count is_digit
    (if c =? ch "-" then set_cur f1 (fcur f1 + 1) else f1))) as N3.
  apply (paced_leaf _ _ _ P); [|lia].
  rewrite N2, N3. destruct (c =? ch "-"); simpl; lia.
Qed.

Lemma parse_identifier_paced f n g : parse_identifier f = (n, g) -> paced f g.
Proof.
  intros E. pose proof (parse_identifier_post _ _ _ E) as P.
  unfold parse_identifier in E.
  destruct (cur f) as [c h] eqn:Ec.
  destruct (cur_count _ _ _ Ec) as (N0 & _).
  destruct (negb (is_alpha c)).
  { injection E as <- <-. apply (paced_leaf _ _ _ P); lia. }
  destruct (capture_ptr h (fcur h) JSON_TYPE_STRING) as [n1 f1] eqn:E1.
  destruct (capture_ptr_count _ _ _ _ _ E1) as (_ & N1 & F1).
  destruct (Z.ltb_spec n1 0).
  { injection E as <- <-. apply (paced_leaf _ _ _ P); [lia|].
    intros Hn. rewrite F1 by exact Hn. exact N0. }
  destruct (capture_len _ _ _) as [n2 f2] eqn:E2.
  injection E as <- <-.
  destruct (capture_len_count _ _ _ _ _ E2) as (_ & N2).
  apply (paced_leaf _ _ _ P); [|lia].
  rewrite N2, (proj1 (scan_count _ f1)). lia.
Qed.

Lemma parse_literal_paced f ty k n g :
  0 < k -> parse_literal f ty k = (n, g) -> paced f g.
Proof.
  intros Hk E. unfold parse_literal in E.
  destruct (capture_ptr f (fcur f) ty) as [n1 f1] eqn:E1.
  destruct (capture_ptr_count _ _ _ _ _ E1) as (C1 & N1 & F1).
  destruct (Z.ltb_spec n1 0).
  { injection E as <- <-. apply paced_move; [auto|lia]. }
  destruct (capture_len _ _ _) as [n2 f2] eqn:E2.
  injection E as <- <-.
  destruct (capture_len_count _ _ _ _ _ E2) as (C2 & N2).
  simpl in C2, N2. unfold paced. lia.
Qed.

Lemma parse_key_paced f n g : parse_key f = (n, g) -> paced f g.
Proof.
  unfold parse_key. intros E.
  destruct (cur f) as [c h] eqn:Ec.
  destruct (cur_count _ _ _ Ec) as (N0 & C0).
  assert (P0 : paced f h) by (apply paced_move; assumption).
  destruct (is_alpha c).
  { destruct (parse_identifier h) as [n1 f1] eqn:E1.
    apply parse_identifier_paced in E1.
    destruct (n1 <? 0); injection E as _ <-; eapply paced_trans; eauto. }
  destruct (c =? QUOTE).
  { destruct (parse_string h) as [n1 f1] eqn:E1.
    apply parse_string_paced in E1.
    destruct (n1 <? 0); injection E as _ <-; eapply paced_trans; eauto. }
  injection E as _ <-. exact P0.
Qed.

Lemma loop_body_paces rule loop close :
  paces rule -> paces loop -> paces (loop_body rule loop close).
Proof.
  intros Pr Pl f n g H. unfold loop_body in H.
  destruct (cur f) as [c h] eqn:Ec.
  destruct (cur_count _ _ _ Ec) as (N0 & C0).
  assert (P0 : paced f h) by (apply paced_move; assumption).
  destruct (negb (c =? close)); [|injection H as _ <-; exact P0].
  try_step H n1 f1 E1 Hn1.
  - eapply paced_trans; [exact P0|eapply Pr, E1].
  - eapply paced_trans; [exact P0|].
    eapply paced_trans; [eapply Pr, E1|].
    eapply paced_trans; [apply skip_comma_paced|eapply Pl, H].
Qed.

Lemma container_paces loop open close ty :
  open <> END_OF_STRING -> close <> END_OF_STRING ->
  paces loop -> paces (container loop open close ty).
Proof.
  intros Ho Hc Pl f n g H. unfold container in H. cbv zeta in H.
  try_step H n1 f1 E1 Hn1.
  { destruct (test_and_skip_count _ _ _ _ Ho E1) as (N1 & C1 & _).
    apply paced_move; assumption. }
  destruct (test_and_skip_count _ _ _ _ Ho E1) as (N1 & _ & C1).
  specialize (C1 Hn1).
  try_step H n2 f2 E2 Hn2.
  { destruct (capture_ptr_count _ _ _ _ _ E2) as (C2 & N2 & _).
    unfold paced. lia. }
  destruct (capture_ptr_count _ _ _ _ _ E2) as (C2 & N2 & _).
  assert (P2 : paced f f2) by (unfold paced; lia).
  try_step H n3 f3 E3 Hn3.
  { eapply paced_trans; [exact P2|eapply Pl, E3]. }
  assert (P3 : paced f f3)
    by (eapply paced_trans; [exact P2|eapply Pl, E3]).
  try_step H n4 f4 E4 Hn4.
  { destruct (test_and_skip_count _ _ _ _ Hc E4) as (N4 & C4 & _).
    eapply paced_trans; [exact P3|apply paced_move; assumption]. }
  destruct (test_and_skip_count _ _ _ _ Hc E4) as (N4 & C4 & _).
  destruct (capture_len f4 _ _) as [n5 f5] eqn:E5.
  injection H as _ <-.
  destruct (capture_len_count _ _ _ _ _ E5) as (C5 & N5).
  unfold paced in *. lia.
Qed.

Lemma parse_pair_paces fuel :
  paces (parse_value fuel) -> paces (parse_pair (S fuel)).
Proof.
  intros Pv f n g H. rewrite parse_pair_S in H.
  try_step H n1 f1 E1 Hn1; [eapply parse_key_paced, E1|].
  apply parse_key_paced in E1.
  assert (Hcolon : ch ":" <> END_OF_STRING) by discriminate.
  try_step H n2 f2 E2 Hn2.
  { destruct (test_and_skip_count _ _ _ _ Hcolon E2) as (N2 & C2 & _).
    eapply paced_trans; [exact E1|apply paced_move; assumption]. }
  destruct (test_and_skip_count _ _ _ _ Hcolon E2) as (N2 & C2 & _).
  assert (P2 : paced f f2)
    by (eapply paced_trans; [exact E1|apply paced_move; assumption]).
  try_step H n3 f3 E3 Hn3.
  - eapply paced_trans; [exact P2|eapply Pv, E3].
  - injection H as _ <-. eapply paced_trans; [exact P2|eapply Pv, E3].
Qed.

Lemma parse_value_paces fuel :
  paces (parse_object fuel) -> paces (parse_array fuel) ->
  paces (parse_value (S fuel)).
Proof.
  intros Po Pa f n g H. rewrite parse_value_S in H.
  destruct (cur f) as [c h] eqn:Ec.
  destruct (cur_count _ _ _ Ec) as (N0 & C0).
  assert (P0 : paced f h) by (apply paced_move; assumption).
  pose proof (cur_idem _ _ _ Ec) as Eh.
  destruct (c =? QUOTE).
  { try_step H n1 f1 E1 Hn1; [|injection H as _ <-];
      (eapply paced_trans; [exact P0|]); eapply parse_string_paced, E1. }
  destruct (c =? ch "{").
  { try_step H n1 f1 E1 Hn1; [|injection H as _ <-];
      (eapply paced_trans; [exact P0|]); eapply Po, E1. }
  destruct (c =? ch "[").
  { try_step H n1 f1 E1 Hn1; [|injection H as _ <-];
      (eapply paced_trans; [exact P0|]); eapply Pa, E1. }
  destruct (_ && compare h "null" 4).
  { try_step H n1 f1 E1 Hn1; [|injection H as _ <-];
      (eapply paced_trans; [exact P0|]);
      eapply parse_literal_paced; [|exact E1| |exact E1]; lia. }
  destruct (_ && compare h "true" 4).
  { try_step H n1 f1 E1 Hn1; [|injection H as _ <-];
      (eapply paced_trans; [exact P0|]);
      eapply parse_literal_paced; [|exact E1| |exact E1]; lia. }
  destruct (_ && compare h "false" 5).
  { try_step H n1 f1 E1 Hn1; [|injection H as _ <-];
      (eapply paced_trans; [exact P0|]);
      eapply parse_literal_paced; [|exact E1| |exact E1]; lia. }
  destruct (is_digit c || _) eqn:Hd.
  { try_step H n1 f1 E1 Hn1; [|injection H as _ <-];
      (eapply paced_trans; [exact P0|]);
      eapply parse_number_paced; eauto. }
  injection H as _ <-. exact P0.
Qed.

Lemma rules_pace fuel :
  paces (parse_value fuel) /\ paces (parse_array_loop fuel)
  /\ paces (parse_array fuel) /\ paces (parse_pair fuel)
  /\ paces (parse_object_loop fuel) /\ paces (parse_object fuel).
Proof.
  induction fuel as [|fuel (IHv & IHal & IHa & IHp & IHol & IHo)].
  { repeat apply conj; intros f n g H; discriminate H. }
  repeat apply conj.
  - apply parse_value_paces; assumption.
  - rewrite parse_array_loop_body. apply loop_body_paces; assumption.
  - rewrite parse_array_container.
    apply container_paces; auto using ch_ne_eos.
  - apply parse_pair_paces; assumption.
  - rewrite parse_object_loop_body. apply loop_body_paces; assumption.
  - rewrite parse_object_container.
    apply container_paces; auto using ch_ne_eos.
Qed.

(** With more slots than the input has bytes the token array is never
    used up. *)
Lemma roomy_run s s_len a K n g :
  parse_json_frozen s s_len (Some a) K = Some (n, g) ->
  s_len <= INT_MAX -> s_len < K -> n <> JSON_TOKEN_ARRAY_TOO_SMALL.
Proof.
  intros H Hmax HK Hn. unfold parse_json_frozen in H.
  destruct (bool_decide (s = None)); cbn [orb] in H;
    [injection H as <- _; discriminate Hn|].
  destruct (Z.ltb_spec s_len 0); [injection H as <- _; discriminate Hn|].
  destruct (s_len =? 0); [injection H as <- _; discriminate Hn|].
  pose proof (init_in_bounds s s_len (Some a) K ltac:(lia)) as B0.
  destruct (rules_post_all (fuel_of s_len)) as (_ & _ & _ & _ & _ & Po).
  destruct (rules_pace (fuel_of s_len)) as (_ & _ & _ & _ & _ & Pc).
  destruct (outcome_rules (fuel_of s_len)) as (_ & _ & _ & _ & _ & Oo).
  assert (Hroom : forall n1 f1,
            parse_object (fuel_of s_len) (init_frozen s s_len (Some a) K)
            = Some (n1, f1) ->
            num_tokens f1 < max_tokens f1 /\ 0 <= fcur f1 <= s_len).
  { intros n1 f1 E1. destruct (Po _ _ _ E1) as ([Ee _ Em _ _ _ _] & B1 & _).
    specialize (B1 B0). specialize (Pc _ _ _ E1).
    unfold paced, in_bounds in *. simpl in *. lia. }
  try_step H n1 f1 E1 Hn1.
  { destruct (Hroom _ _ E1) as (Hlt & _).
    destruct (Oo _ _ E1) as [Ho|[Ho|[Ho|(_ & _ & _ & Ho)]]]; simpl in Ho;
      [rewrite Hn in Ho; discriminate Ho..|lia]. }
  destruct (Hroom _ _ E1) as (Hlt & Hb1).
  try_step H n2 f2 E2 Hn2.
  { destruct (capture_ptr_count _ _ _ _ _ E2) as (_ & _ & N2).
    pose proof (capture_ptr_evolves _ _ _ _ _ E2) as [_ _ Em _ _ _ _].
    destruct (outcome_capture_ptr f1 (fcur f1) JSON_TYPE_EOF)
      as [Ho|[Ho|[Ho|(_ & _ & _ & Ho)]]]; rewrite E2 in Ho; simpl in Ho;
      [rewrite Hn in Ho; discriminate Ho..|].
    specialize (N2 Hn2). lia. }
  destruct (capture_len f2 (num_tokens f2) (fcur f2)) as [n3 f3] eqn:E3.
  injection H as H _.
  rewrite (capture_len_cur _ _ _ _ _ E3), (capture_ptr_cur _ _ _ _ _ E2) in H.
  rewrite to_int_small in H by (unfold INT_MAX in *; lia).
  unfold JSON_TOKEN_ARRAY_TOO_SMALL in Hn. lia.
Qed.

(** * The claims *)

(** ** C10: the tests on the arguments *)

(** C10, as stated, fails: with a null pointer and a zero length
    [parse_json] returns Invalid, not Incomplete, since the test for the
    null pointer comes first. *)
Lemma null_input_zero_length_is_invalid :
  parse_json None 0 (Some (blank 1)) 1
    = Some (JSON_STRING_INVALID, Some (blank 1))
  /\ JSON_STRING_INVALID <> JSON_STRING_INCOMPLETE.
Proof. split; [reflexivity|discriminate]. Qed.

(** C10, amended: [parse_json] returns Invalid for a null input pointer
    (whatever the length, zero included) and for a negative length, and
    Incomplete for a zero length with an input pointer that is not null.
    In each case the result does not depend on the memory and the token
    array is returned as it was passed. *)
Theorem argument_checks (s : option (list ascii)) (s_len : Z)
    (arr : option (list json_token)) (arr_len : Z) :
  (s = None \/ s_len < 0 ->
   parse_json s s_len arr arr_len = Some (JSON_STRING_INVALID, arr))
  /\ (s <> None -> s_len = 0 ->
      parse_json s s_len arr arr_len = Some (JSON_STRING_INCOMPLETE, arr)).
Proof.
  unfold parse_json, parse_json_frozen. split.
  - intros [-> | H]; [reflexivity|].
    destruct (Z.ltb_spec s_len 0); [|lia]. rewrite orb_true_r. reflexivity.
  - intros Hs ->. destruct s; [reflexivity|contradiction].
Qed.

Lemma argument_checks_witness :
  parse_json None 0 (Some (blank 1)) 1
    = Some (JSON_STRING_INVALID, Some (blank 1))
  /\ parse_json (Some (bytes "{}")) (-1) (Some (blank 1)) 1
       = Some (JSON_STRING_INVALID, Some (blank 1))
  /\ parse_json (Some (bytes "{}")) 0 (Some (blank 1)) 1
       = Some (JSON_STRING_INCOMPLETE, Some (blank 1)).
Proof.
  split; [|split].
  - apply (argument_checks None 0). left. reflexivity.
  - apply (argument_checks (Some (bytes "{}")) (-1)). right. lia.
  - apply (argument_checks (Some (bytes "{}")) 0); [discriminate|reflexivity].
Defined.

(** ** C1: escapes in strings *)

(** [get_escape_len] tests [s[0]], the [u] itself, for a hex digit: a
    backslash followed by [u] is never accepted. *)
Lemma unicode_escape_never_accepted m s l :
  byte_at m s = ch "u" ->
  get_escape_len m s l = JSON_STRING_INCOMPLETE
  \/ get_escape_len m s l = JSON_STRING_INVALID.
Proof.
  intros E. unfold get_escape_len. rewrite E. simpl.
  destruct (l <? 4); auto.
Qed.

(** The object whose member [a] is the string [body]. *)
Definition member_a (body : string) : list ascii :=
  bytes ("{'a':'" ++ body ++ "'}").

(** C1: the code rejects a backslash followed by [u] and 4 hex digits.
    The one-letter escapes are accepted, another character after the
    backslash is Invalid, and an escape cut short by the end of the input is
    Incomplete when the letter after the backslash is missing from the
    input, and Invalid when hex digits are. *)
Theorem unicode_escape_is_invalid :
  parse_bytes (member_a ("\u" ++ "1234")) None 0
    = Some (JSON_STRING_INVALID, None)
  /\ parse_bytes (member_a "\n") None 0 = Some (10, None)
  /\ parse_bytes (member_a "\x") None 0 = Some (JSON_STRING_INVALID, None)
  /\ parse_bytes (bytes "{'a':'\n") None 0
     = Some (JSON_STRING_INCOMPLETE, None)
  /\ parse_bytes (bytes "{'a':'\u12") None 0
     = Some (JSON_STRING_INVALID, None).
Proof. vm_compute. repeat split. Qed.

(** ** C2: the end-of-input marker *)

(** A token as an array that was not cleared may hold it. *)
Definition stale : json_token := Token 5 7 9 JSON_TYPE_STRING.

(** C2: [parse_json] closes the token after the marker, not the marker:
    the length and the subtree size of the marker are left as the array
    held them. *)
Theorem eof_marker_not_closed :
  parse_bytes (bytes "{}") (Some [stale; stale]) 2
    = Some (2, Some [Token 0 2 0 JSON_TYPE_OBJECT;
                     Token 2 7 9 JSON_TYPE_EOF])
  /\ parse_bytes (bytes "{}") (Some [stale; stale; stale]) 3
     = Some (2, Some [Token 0 2 0 JSON_TYPE_OBJECT;
                      Token 2 7 9 JSON_TYPE_EOF;
                      Token 5 (-3) (-1) JSON_TYPE_STRING]).
Proof. vm_compute. split; reflexivity. Qed.

(** ** C4: the root must be an object *)

Lemma byte_at_app_r (m t : list ascii) (p : Z) :
  Z.of_nat (length m) <= p ->
  byte_at (m ++ t) p = byte_at t (p - Z.of_nat (length m)).
Proof.
  intros H. unfold byte_at. rewrite lookup_app_r by lia.
  replace (Z.to_nat p - length m)%nat
    with (Z.to_nat (p - Z.of_nat (length m))) by lia.
  reflexivity.
Qed.

Lemma byte_at_spaces (ws t : list ascii) (i : Z) :
  Forall (fun a => is_space (ch a) = true) ws ->
  0 <= i < Z.of_nat (length ws) ->
  is_space (byte_at (ws ++ t) i) = true.
Proof.
  intros Hws Hi. rewrite byte_at_app_l by lia. unfold byte_at.
  destruct (ws !! Z.to_nat i) as [a|] eqn:E.
  - rewrite Forall_forall in Hws. apply Hws.
    apply list_elem_of_lookup. eauto.
  - apply lookup_ge_None in E. lia.
Qed.

(** C4: when the first byte of the input that is not white space is not
    an opening brace, [parse_json] returns Invalid and leaves the token
    array as it was; so it does on the input [[1,2,3]]. *)
Theorem root_must_be_object (ws rest : list ascii) (c : ascii) (s_len : Z)
    (arr : option (list json_token)) (arr_len : Z) :
  Forall (fun a => is_space (ch a) = true) ws ->
  is_space (ch c) = false ->
  c <> "{"%char ->
  Z.of_nat (length ws) < s_len ->
  parse_json (Some (ws ++ c :: rest)) s_len arr arr_len
    = Some (JSON_STRING_INVALID, arr)
  /\ parse_bytes (bytes "[1,2,3]") arr arr_len
     = Some (JSON_STRING_INVALID, arr).
Proof.
  intros Hws Hc Hne Hlen.
  assert (G : forall ws c rest s_len,
             Forall (fun a => is_space (ch a) = true) ws ->
             is_space (ch c) = false -> c <> "{"%char ->
             Z.of_nat (length ws) < s_len ->
             parse_json (Some (ws ++ c :: rest)) s_len arr arr_len
               = Some (JSON_STRING_INVALID, arr)).
  { clear. intros ws c rest s_len Hws Hc Hne Hlen.
    unfold parse_json, parse_json_frozen. simpl.
    destruct (Z.ltb_spec s_len 0); [lia|].
    destruct (Z.eqb_spec s_len 0); [lia|].
    unfold fuel_of. rewrite Nat.add_comm. simpl Nat.add.
    rewrite parse_object_S.
    set (f := init_frozen _ _ _ _).
    assert (Ec : cur f = (ch c, set_cur f (Z.of_nat (length ws)))).
    { replace (ch c) with (byte_at (mem f) (Z.of_nat (length ws))).
      - apply cur_at; simpl.
        + lia.
        + intros i Hi. apply byte_at_spaces; [exact Hws|lia].
        + rewrite byte_at_app_r by lia. rewrite Z.sub_diag. exact Hc.
      - simpl. rewrite byte_at_app_r by lia. rewrite Z.sub_diag.
        reflexivity. }
    unfold test_and_skip. rewrite Ec.
    destruct (Z.eqb_spec (ch c) (ch "{")) as [E|_];
      [apply ch_inj in E; contradiction|].
    destruct (Z.eqb_spec (ch c) END_OF_STRING) as [E|_];
      [apply ch_ne_eos in E; contradiction|].
    reflexivity. }
  split; [apply G; assumption|].
  apply (G [] "["%char (bytes "1,2,3]")); [constructor|reflexivity| |simpl; lia].
  discriminate.
Qed.

Lemma root_must_be_object_witness :
  parse_bytes (bytes "  7") (Some (blank 2)) 2
    = Some (JSON_STRING_INVALID, Some (blank 2))
  /\ parse_bytes (bytes "[1,2,3]") (Some (blank 2)) 2
     = Some (JSON_STRING_INVALID, Some (blank 2)).
Proof.
  apply (root_must_be_object (bytes "  ") [] "7"%char 3).
  - repeat constructor.
  - reflexivity.
  - discriminate.
  - simpl. lia.
Defined.

(** ** C5: validation only *)

Definition off_with (arr : option (list json_token)) (f _ : frozen) : Prop :=
  recorder_off f /\ tokens f = arr.

Lemma off_with_set_cur arr f g p q :
  off_with arr f g -> off_with arr (set_cur f p) (set_cur g q).
Proof. intros [H1 H2]. split; [exact H1|exact H2]. Qed.

Lemma off_with_ptr arr f g p ty :
  off_with arr f g -> fst (capture_ptr g p ty) = 0 ->
  (fst (capture_ptr f p ty) = 0
   /\ off_with arr (snd (capture_ptr f p ty)) (snd (capture_ptr g p ty)))
  \/ (fst (capture_ptr f p ty) = JSON_TOKEN_ARRAY_TOO_SMALL /\ False).
Proof.
  intros [H1 H2] _. left. rewrite (capture_ptr_off _ _ _ H1).
  split; [reflexivity|split; assumption].
Qed.

Lemma off_with_len arr f g i j p :
  off_with arr f g ->
  off_with arr (snd (capture_len f i p)) (snd (capture_len g j p)).
Proof.
  intros [H1 H2]. rewrite (capture_len_off _ _ _ H1). split; assumption.
Qed.

(** C5: with no token array, or with an array of capacity zero,
    [parse_json] returns what it returns with any token array that does
    not overflow; it never returns TooManyTokens, and it returns the token
    array as it was passed. *)
Theorem validation_only (s : option (list ascii)) (s_len : Z)
    (arr : option (list json_token)) (arr_len : Z) :
  arr = None \/ arr_len = 0 ->
  s_len <= INT_MAX ->
  exists n,
    parse_json s s_len arr arr_len = Some (n, arr)
    /\ n <> JSON_TOKEN_ARRAY_TOO_SMALL
    /\ forall arrK K nK toksK,
         parse_json s s_len arrK K = Some (nK, toksK) ->
         nK <> JSON_TOKEN_ARRAY_TOO_SMALL -> nK = n.
Proof.
  intros Hoff Hmax.
  assert (Hinit : forall ag kg,
             off_with arr (init_frozen s s_len arr arr_len)
                      (init_frozen s s_len ag kg)).
  { intros ag kg. split; [|reflexivity].
    destruct Hoff as [->| ->]; [left|right]; reflexivity. }
  assert (Hfol := fun ag kg =>
    parse_json_follows (off_with arr) (fun _ => False)
      (off_with_set_cur arr) (off_with_ptr arr) (off_with_len arr)
      (fun g g' (F : False) _ => F) s s_len arr arr_len ag kg).
  destruct (fuel_enough s s_len arr arr_len) as [[n toks] E].
  unfold parse_json in E.
  destruct (parse_json_frozen s s_len arr arr_len) as [[n' f']|] eqn:Ef;
    [|discriminate]. injection E as -> <-.
  assert (Hn : n <> JSON_TOKEN_ARRAY_TOO_SMALL).
  { destruct (parse_json_frozen_cases _ _ _ _ _ _ Ef Hmax)
      as [[-> Hb]|[_ Hq]]; [unfold JSON_TOKEN_ARRAY_TOO_SMALL; lia|].
    intros ->. apply (Hq eq_refl). simpl.
    eapply evolves_off; [eapply parse_json_frozen_evolves, Ef|].
    apply (Hinit None 0). }
  exists n. split; [|split; [exact Hn|]].
  - unfold parse_json. rewrite Ef. f_equal. f_equal.
    destruct (Hfol arr arr_len n f' (Hinit _ _) Ef Hn)
      as (rf & Erf & [[_ [_ [_ Ht]]]|[_ []]]).
    injection Erf as <-. exact Ht.
  - intros arrK K nK toksK EK HK. unfold parse_json in EK.
    destruct (parse_json_frozen s s_len arrK K) as [[nK' fK]|] eqn:EfK;
      [|discriminate]. injection EK as -> <-.
    destruct (Hfol arrK K nK fK (Hinit _ _) EfK HK)
      as (rf & Erf & [[En _]|[_ []]]).
    injection Erf as <-. simpl in En. congruence.
Qed.

Lemma validation_only_witness :
  exists n,
    parse_bytes (bytes "{'a':[1,true]}") (Some (blank 2)) 0
      = Some (n, Some (blank 2))
    /\ n <> JSON_TOKEN_ARRAY_TOO_SMALL
    /\ forall arrK K nK toksK,
         parse_bytes (bytes "{'a':[1,true]}") arrK K = Some (nK, toksK) ->
         nK <> JSON_TOKEN_ARRAY_TOO_SMALL -> nK = n.
Proof.
  apply (validation_only (Some (bytes "{'a':[1,true]}")) 14 (Some (blank 2)) 0).
  - right. reflexivity.
  - unfold INT_MAX. lia.
Defined.

(** ** C3: the capacity of the token array *)










(** ** C8: parsing the consumed bytes again *)

(** C8: let [parse_json] succeed on an input and return [r], the
    number of bytes consumed.  Parsing the first [r] bytes of that input
    again, as a copy of just these bytes or as the same input with the
    length [r], succeeds, returns [r] and leaves the same token array. *)
Theorem reparse_consumed (m : list ascii) (s_len : Z)
    (arr : option (list json_token)) (arr_len r : Z)
    (toks : option (list json_token)) :
  parse_json (Some m) s_len arr arr_len = Some (r, toks) ->
  0 <= r -> s_len <= INT_MAX ->
  parse_json (Some (take (Z.to_nat r) m)) r arr arr_len = Some (r, toks)
  /\ parse_json (Some m) r arr arr_len = Some (r, toks).
Proof.
  intros H Hr Hmax.
  assert (Hle : r <= s_len).
  { unfold parse_json in H.
    destruct (parse_json_frozen (Some m) s_len arr arr_len) as [[n g]|] eqn:E;
      [|discriminate].
    injection H as -> _.
    destruct (parse_json_frozen_cases _ _ _ _ _ _ E Hmax) as [[-> Hb]|[Hn _]];
      lia. }
  split.
  - apply (parse_json_respell m _ s_len); auto; try lia.
    intros i Hi. left. apply byte_at_take. lia.
  - apply (parse_json_respell m _ s_len); auto; lia.
Qed.

Lemma reparse_consumed_witness :
  parse_json (Some (take (Z.to_nat 9) (bytes "{'a':[1]} x"))) 9
             (Some (blank 5)) 5
  = parse_json (Some (bytes "{'a':[1]} x")) 11 (Some (blank 5)) 5
  /\ parse_json (Some (bytes "{'a':[1]} x")) 9 (Some (blank 5)) 5
     = parse_json (Some (bytes "{'a':[1]} x")) 11 (Some (blank 5)) 5.
Proof.
  assert (E : parse_json (Some (bytes "{'a':[1]} x")) 11 (Some (blank 5)) 5
              = Some (9, snd (default (0, None)
                    (parse_json (Some (bytes "{'a':[1]} x")) 11
                       (Some (blank 5)) 5))))
    by (vm_compute; reflexivity).
  assert (Hmax : 11 <= INT_MAX) by (vm_compute; discriminate).
  assert (Hr : 0 <= 9) by lia.
  rewrite E.
  exact (reparse_consumed (bytes "{'a':[1]} x") 11 (Some (blank 5)) 5 9 _
           E Hr Hmax).
Defined.

(** ** C9: bytes after the root object *)

(** C9: let [obj] be a complete root object: [parse_json] on
    [obj] consumes all of it.  On [obj] followed by any bytes [t],
    [parse_json] returns the length of [obj], the offset after the closing
    brace of the root object, with the same token array as on [obj] alone;
    and where tokens are recorded, the last token recorded is the
    end-of-input marker, that starts at this offset. *)
Theorem trailing_bytes_ignored (obj t : list ascii)
    (arr : option (list json_token)) (arr_len : Z) (g : frozen) :
  parse_json_frozen (Some obj) (Z.of_nat (length obj)) arr arr_len
    = Some (Z.of_nat (length obj), g) ->
  Z.of_nat (length (obj ++ t)) <= INT_MAX ->
  exists g',
    parse_json_frozen (Some (obj ++ t)) (Z.of_nat (length (obj ++ t)))
                      arr arr_len
      = Some (Z.of_nat (length obj), g')
    /\ tokens g' = tokens g /\ num_tokens g' = num_tokens g
    /\ byte_at (obj ++ t) (Z.of_nat (length obj) - 1) = ch "}"
    /\ forall a, arr = Some a -> arr_len <> 0 ->
         arr_len <= Z.of_nat (length a) ->
         exists toks tok,
           tokens g' = Some toks
           /\ toks !! Z.to_nat (num_tokens g' - 1) = Some tok
           /\ ptr tok = Z.of_nat (length obj)
           /\ type tok = JSON_TYPE_EOF.
Proof.
  intros H Hmax. rewrite length_app in Hmax.
  assert (Hr : 0 <= Z.of_nat (length obj)) by lia.
  assert (Hmax1 : Z.of_nat (length obj) <= INT_MAX) by lia.
  destruct (parse_json_frozen_respell obj (obj ++ t) _
              (Z.of_nat (length (obj ++ t))) _ _ _ _ H Hr Hmax1)
    as (Hpos & Hcur & H2).
  { rewrite length_app. lia. }
  { rewrite length_app. lia. }
  { intros i Hi. left. apply byte_at_app_l. lia. }
  eexists. split; [exact H2|]. split; [reflexivity|].
  split; [reflexivity|]. split.
  - rewrite byte_at_app_l by lia. rewrite Hcur.
    unfold parse_json_frozen in H.
    destruct (bool_decide (Some obj = None) || (Z.of_nat (length obj) <? 0));
      [injection H as H _; unfold JSON_STRING_INVALID in H; lia|].
    destruct (Z.of_nat (length obj) =? 0);
      [injection H as H _; unfold JSON_STRING_INCOMPLETE in H; lia|].
    try_step H n1 f1 E1 Hn1; [lia|].
    try_step H n2 f2 E2 Hn2; [lia|].
    destruct (capture_len f2 (num_tokens f2) (fcur f2)) as [n3 f3] eqn:E3.
    injection H as _ <-.
    rewrite (capture_len_cur _ _ _ _ _ E3), (capture_ptr_cur _ _ _ _ _ E2).
    apply (parse_object_close _ _ _ _ E1 Hn1).
  - intros a -> Hlen Hcap.
    apply (eof_marker_recorded _ _ _ _ _ _ H2); auto; try lia.
    rewrite length_app. lia.
Qed.

Lemma trailing_bytes_ignored_witness :
  exists g',
    parse_json_frozen (Some (bytes "{'a':1}" ++ bytes "]]'"))
                      (Z.of_nat (length (bytes "{'a':1}" ++ bytes "]]'")))
                      (Some (blank 4)) 4
      = Some (7, g')
    /\ byte_at (bytes "{'a':1}" ++ bytes "]]'") 6 = ch "}"
    /\ exists toks tok,
         tokens g' = Some toks
         /\ toks !! Z.to_nat (num_tokens g' - 1) = Some tok
         /\ ptr tok = 7 /\ type tok = JSON_TYPE_EOF.
Proof.
  assert (E : parse_json_frozen (Some (bytes "{'a':1}")) 7 (Some (blank 4)) 4
              = Some (7, snd (default (0, init_frozen None 0 None 0)
                    (parse_json_frozen (Some (bytes "{'a':1}")) 7
                       (Some (blank 4)) 4))))
    by (vm_compute; reflexivity).
  destruct (trailing_bytes_ignored (bytes "{'a':1}") (bytes "]]'")
              (Some (blank 4)) 4 _ E) as (g' & H & _ & _ & Hb & Hm).
  { vm_compute. discriminate. }
  exists g'. split; [exact H|]. split; [exact Hb|].
  apply (Hm (blank 4)); [reflexivity|lia|]. vm_compute. discriminate.
Defined.

(** ** C6: the comma between elements *)

(** [commas_omitted m1 m2]: [m2] is [m1] with a space in the place of
    some of its commas, each of them between two elements. *)
Definition commas_omitted (m1 m2 : list ascii) : Prop :=
  length m2 = length m1
  /\ forall (i : nat) (a b : ascii),
       m1 !! i = Some a -> m2 !! i = Some b ->
       a = b
       \/ (a = ","%char /\ b = " "%char
           /\ between_elements m1 (Z.of_nat (length m1)) (Z.of_nat i)).

(** C6: let [m2] be [m1] with some of the commas between two elements
    omitted, a space in the place of each.  [parse_json] returns the same
    value on the two inputs and leaves the same token array, whether it
    accepts them or not: the comma between two elements of an array or of
    an object is optional. *)
Theorem comma_is_optional (m1 m2 : list ascii)
    (arr : option (list json_token)) (arr_len : Z) :
  commas_omitted m1 m2 ->
  parse_bytes m2 arr arr_len = parse_bytes m1 arr arr_len.
Proof.
  intros [Hlen Hm]. unfold parse_bytes. rewrite Hlen.
  apply parse_json_omitted. intros i Hi. unfold byte_at.
  destruct (m1 !! Z.to_nat i) as [a|] eqn:E1.
  - assert (Hlt : (Z.to_nat i < length m2)%nat)
      by (rewrite Hlen; eapply lookup_lt_Some, E1).
    destruct (lookup_lt_is_Some_2 m2 _ Hlt) as [b E2]. rewrite E2.
    destruct (Hm _ a b E1 E2) as [->|(-> & -> & Hbe)]; [left; reflexivity|].
    right. split; [reflexivity|]. split; [reflexivity|].
    rewrite Z2Nat.id in Hbe by lia. exact Hbe.
  - apply lookup_ge_None in E1. rewrite <- Hlen in E1.
    apply lookup_ge_None in E1. rewrite E1. left. reflexivity.
Qed.

Ltac next_to_elements :=
  match goal with
  | |- between_elements _ _ ?i =>
    let v := eval vm_compute in i in
    change i with v;
    split;
    [ exists (v - 1); split; [lia|]; split;
      [vm_compute; reflexivity|intros k Hk; lia]
    | exists (v + 1); split; [vm_compute; split; reflexivity|]; split;
      [vm_compute; reflexivity|intros k Hk; lia] ]
  end.

Ltac same_or_comma :=
  first [ left; reflexivity
        | right; split; [reflexivity|]; split; [reflexivity|];
          next_to_elements ].

Lemma comma_is_optional_witness :
  commas_omitted (bytes "{'a':[1,2],b:3}") (bytes "{'a':[1 2] b:3}")
  /\ parse_bytes (bytes "{'a':[1 2] b:3}") (Some (blank 8)) 8
     = parse_bytes (bytes "{'a':[1,2],b:3}") (Some (blank 8)) 8
  /\ fst <$> parse_bytes (bytes "{'a':[1,2],b:3}") (Some (blank 8)) 8
     = Some 15
  /\ parse_bytes (bytes "{'a':[1 2] b:3}") (Some (blank 5)) 5
     = parse_bytes (bytes "{'a':[1,2],b:3}") (Some (blank 5)) 5
  /\ fst <$> parse_bytes (bytes "{'a':[1,2],b:3}") (Some (blank 5)) 5
     = Some JSON_TOKEN_ARRAY_TOO_SMALL
  /\ commas_omitted (bytes "{'a':[1,2") (bytes "{'a':[1 2")
  /\ parse_bytes (bytes "{'a':[1 2") (Some (blank 8)) 8
     = parse_bytes (bytes "{'a':[1,2") (Some (blank 8)) 8
  /\ fst <$> parse_bytes (bytes "{'a':[1,2") (Some (blank 8)) 8
     = Some JSON_STRING_INCOMPLETE.
Proof.
  assert (H : commas_omitted (bytes "{'a':[1,2],b:3}")
                             (bytes "{'a':[1 2] b:3}")).
  { split; [reflexivity|]. intros i a b Ha Hb.
    do 15 (destruct i as [|i];
           [vm_compute in Ha, Hb; injection Ha as <-; injection Hb as <-;
            same_or_comma|]).
    discriminate Ha. }
  assert (H' : commas_omitted (bytes "{'a':[1,2") (bytes "{'a':[1 2")).
  { split; [reflexivity|]. intros i a b Ha Hb.
    do 9 (destruct i as [|i];
          [vm_compute in Ha, Hb; injection Ha as <-; injection Hb as <-;
           same_or_comma|]).
    discriminate Ha. }
  split; [exact H|].
  split; [exact (comma_is_optional _ _ (Some (blank 8)) 8 H)|].
  split; [vm_compute; reflexivity|].
  split; [exact (comma_is_optional _ _ (Some (blank 5)) 5 H)|].
  split; [vm_compute; reflexivity|].
  split; [exact H'|].
  split; [exact (comma_is_optional _ _ (Some (blank 8)) 8 H')|].
  vm_compute. reflexivity.
Defined.

(** ** C7: the subtree size of a token *)

(** C7: the end-of-input marker is a leaf, and [parse_json] leaves its
    subtree size as the caller's array had it: on the 11 bytes
    [{"a":[1,2]}] with six slots whose [len] and [num_children] hold 7
    and 9, the object and the array get the subtree sizes 4 and 2 and the
    string and the numbers 0, and the marker keeps 9. *)
Theorem marker_subtree_size_stale :
  parse_bytes (bytes "{'a':[1,2]}")
    (Some (replicate 6 (Token 0 7 9 JSON_TYPE_EOF))) 6
  = Some (11, Some [ Token 0 11 4 JSON_TYPE_OBJECT;
                     Token 2 1 0 JSON_TYPE_STRING;
                     Token 5 5 2 JSON_TYPE_ARRAY;
                     Token 6 1 0 JSON_TYPE_NUMBER;
                     Token 8 1 0 JSON_TYPE_NUMBER;
                     Token 11 7 9 JSON_TYPE_EOF ]).
Proof. vm_compute. reflexivity. Qed.

(** * Further properties of the code *)

(** ** The values returned *)

(** X2: the value of [parse_json] is the number of bytes consumed, at
    least 2 and at most [s_len], or one of the three error values; and
    TooManyTokens is returned only with a token array whose capacity is not
    zero and is used up. *)
Theorem parse_json_result (s : option (list ascii)) (s_len : Z)
    (arr : option (list json_token)) (arr_len r : Z) (g : frozen) :
  parse_json_frozen s s_len arr arr_len = Some (r, g) ->
  s_len <= INT_MAX ->
  (2 <= r <= s_len /\ r = fcur g)
  \/ r = JSON_STRING_INVALID \/ r = JSON_STRING_INCOMPLETE
  \/ (r = JSON_TOKEN_ARRAY_TOO_SMALL /\ is_Some arr /\ arr_len <> 0
      /\ arr_len <= num_tokens g
      /\ (0 <= arr_len -> num_tokens g = arr_len)).
Proof.
  intros H Hmax.
  pose proof (parse_json_frozen_evolves _ _ _ _ _ _ H)
    as [_ _ Vmax _ _ Vcap Vlen].
  destruct (parse_json_frozen_cases _ _ _ _ _ _ H Hmax) as [[Hr Hb]|[Hneg _]].
  - left. split; [|exact Hr].
    unfold parse_json_frozen in H.
    destruct (bool_decide (s = None) || (s_len <? 0));
      [injection H as <- _; unfold JSON_STRING_INVALID in *; lia|].
    destruct (s_len =? 0);
      [injection H as <- _; unfold JSON_STRING_INCOMPLETE in *; lia|].
    try_step H n1 f1 E1 Hn1; [lia|].
    try_step H n2 f2 E2 Hn2; [lia|].
    destruct (capture_len f2 (num_tokens f2) (fcur f2)) as [n3 f3] eqn:E3.
    injection H as _ <-.
    apply parse_object_two in E1; [|exact Hn1]. simpl in E1.
    rewrite (capture_len_cur _ _ _ _ _ E3), (capture_ptr_cur _ _ _ _ _ E2)
      in *. lia.
  - right.
    assert (Ho : outcome (r, g)).
    { unfold parse_json_frozen in H.
      destruct (bool_decide (s = None) || (s_len <? 0)) eqn:Hguard;
        [injection H as <- <-; apply outcome_invalid|].
      destruct (s_len =? 0);
        [injection H as <- <-; apply outcome_incomplete|].
      destruct (outcome_rules (fuel_of s_len)) as (_ & _ & _ & _ & _ & Oo).
      destruct (rules_post_all (fuel_of s_len)) as (_ & _ & _ & _ & _ & Po).
      try_step H n1 f1 E1 Hn1; [eapply Oo, E1|].
      try_step H n2 f2 E2 Hn2;
        [rewrite <- E2; apply outcome_capture_ptr|].
      destruct (capture_len f2 (num_tokens f2) (fcur f2)) as [n3 f3] eqn:E3.
      injection H as <- _. exfalso.
      destruct (Po _ _ _ E1) as ([Ee _ _ _ _ _ _] & B1 & _).
      assert (B0 : in_bounds (init_frozen s s_len arr arr_len)).
      { apply init_in_bounds.
        destruct (Z.ltb_spec s_len 0); [|lia].
        rewrite orb_true_r in Hguard. discriminate Hguard. }
      specialize (B1 B0). unfold in_bounds in B1. simpl in Ee.
      rewrite (capture_len_cur _ _ _ _ _ E3), (capture_ptr_cur _ _ _ _ _ E2)
        in Hneg.
      rewrite to_int_small in Hneg by (unfold INT_MAX in *; lia). lia. }
    destruct Ho as [Ho|[Ho|[Ho|(Ho & Ht & Hm & Hn)]]]; simpl in *;
      [lia|auto|auto|].
    right. right. split; [exact Ho|]. simpl in *. rewrite Vmax in *.
    split.
    { destruct Ht as [b Hb]. rewrite Hb in Vlen.
      destruct arr; [eauto|discriminate]. }
    split; [exact Hm|]. split; [exact Hn|]. intros Hge. lia.
Qed.

Lemma parse_json_result_witness :
  exists g, parse_json_frozen (Some (bytes "{'a':[1,2]}")) 11
              (Some (blank 3)) 3
            = Some (JSON_TOKEN_ARRAY_TOO_SMALL, g)
            /\ num_tokens g = 3.
Proof.
  assert (E : parse_json_frozen (Some (bytes "{'a':[1,2]}")) 11
                (Some (blank 3)) 3
              = Some (JSON_TOKEN_ARRAY_TOO_SMALL,
                      snd (default (0, init_frozen None 0 None 0)
                             (parse_json_frozen (Some (bytes "{'a':[1,2]}"))
                                11 (Some (blank 3)) 3))))
    by (vm_compute; reflexivity).
  assert (Hmax : 11 <= INT_MAX) by (vm_compute; discriminate).
  eexists. split; [exact E|].
  destruct (parse_json_result _ _ _ _ _ _ E Hmax)
    as [[H _]|[H|[H|(_ & _ & _ & _ & H)]]];
    [unfold JSON_TOKEN_ARRAY_TOO_SMALL in H; lia|discriminate H
    |discriminate H|].
  apply H. lia.
Defined.

(** ** Inputs that hold no object *)

(** X3: on an input of white space only, [parse_json] returns
    Incomplete and leaves the token array as it was. *)
Theorem blank_input_is_incomplete (m : list ascii) (s_len : Z)
    (arr : option (list json_token)) (arr_len : Z) :
  0 < s_len ->
  (forall i, 0 <= i < s_len -> is_space (byte_at m i) = true) ->
  parse_json (Some m) s_len arr arr_len
    = Some (JSON_STRING_INCOMPLETE, arr).
Proof.
  intros Hlen Hws. unfold parse_json, parse_json_frozen.
  assert (Hd : bool_decide (Some m = @None (list ascii)) = false)
    by (apply bool_decide_eq_false; discriminate).
  rewrite Hd. cbn [orb].
  destruct (Z.ltb_spec s_len 0); [lia|].
  destruct (Z.eqb_spec s_len 0); [lia|].
  unfold fuel_of. replace (4 * Z.to_nat s_len + 4)%nat
    with (S (4 * Z.to_nat s_len + 3)) by lia.
  rewrite parse_object_S. unfold test_and_skip.
  rewrite cur_end; [|apply init_in_bounds; lia|exact Hws].
  reflexivity.
Qed.

Lemma blank_input_is_incomplete_witness :
  parse_json (Some (bytes "   ")) 3 (Some (blank 2)) 2
    = Some (JSON_STRING_INCOMPLETE, Some (blank 2)).
Proof.
  apply (blank_input_is_incomplete (bytes "   ") 3 (Some (blank 2)) 2).
  - lia.
  - intros i Hi.
    assert (i = 0 \/ i = 1 \/ i = 2) as [-> | [-> | ->]] by lia; reflexivity.
Defined.

(** ** Shorter lengths *)

(** X4: when [parse_json] succeeds and returns [r], it fails on the same
    input with every length below [r]: the bytes consumed are the only
    length at which the root object ends. *)
Theorem no_shorter_length_is_accepted (m : list ascii) (s_len : Z)
    (arr : option (list json_token)) (arr_len r : Z)
    (toks : option (list json_token)) (k : Z) :
  parse_json (Some m) s_len arr arr_len = Some (r, toks) -> 0 <= r ->
  s_len <= INT_MAX -> k < r ->
  exists n toks', parse_json (Some m) k arr arr_len = Some (n, toks')
                  /\ n < 0.
Proof.
  intros H Hr Hmax Hk.
  assert (Hle : r <= s_len).
  { unfold parse_json in H.
    destruct (parse_json_frozen (Some m) s_len arr arr_len) as [[n g]|] eqn:E;
      [|discriminate].
    injection H as -> _.
    destruct (parse_json_frozen_cases _ _ _ _ _ _ E Hmax) as [[-> Hb]|[Hn _]];
      lia. }
  destruct (fuel_enough (Some m) k arr arr_len) as [[n toks'] Hn].
  exists n, toks'. split; [exact Hn|].
  destruct (Z.lt_ge_cases n 0) as [Hneg|Hge]; [exact Hneg|]. exfalso.
  assert (Hnk : n <= k).
  { unfold parse_json in Hn.
    destruct (parse_json_frozen (Some m) k arr arr_len) as [[n' g]|] eqn:E;
      [|discriminate].
    injection Hn as -> _.
    destruct (parse_json_frozen_cases _ _ _ _ _ _ E ltac:(lia))
      as [[-> Hb]|[Hn' _]]; lia. }
  assert (H2 : parse_json (Some m) s_len arr arr_len = Some (n, toks')).
  { apply (parse_json_respell m m k); auto; lia. }
  rewrite H in H2. injection H2 as -> _. lia.
Qed.

Lemma no_shorter_length_is_accepted_witness :
  exists n toks', parse_json (Some (bytes "{'a':1} x")) 6 None 0
                    = Some (n, toks') /\ n < 0.
Proof.
  assert (E : parse_json (Some (bytes "{'a':1} x")) 9 None 0
              = Some (7, None)) by (vm_compute; reflexivity).
  assert (Hmax : 9 <= INT_MAX) by (vm_compute; discriminate).
  assert (Hr : 0 <= 7) by lia.
  assert (Hk : 6 < 7) by lia.
  exact (no_shorter_length_is_accepted _ _ _ _ _ _ 6 E Hr Hmax Hk).
Defined.
(** ** What every run keeps

    A relation between states that the moves of the cursor and the two
    stores of the recorder keep is kept by every rule, whatever the rule
    returns. *)
(** The state of [E : e = (n, g)] is [snd e]. *)
Ltac as_snd E :=
  match type of E with
  | ?e = (_, ?g) => replace g with (snd e) by (rewrite E; reflexivity)
  end.

Section kept.

Variable R : frozen -> frozen -> Prop.

Hypothesis R_refl : forall f, R f f.
Hypothesis R_trans : forall f g h, R f g -> R g h -> R f h.
Hypothesis R_set_cur : forall f p, R f (set_cur f p).
Hypothesis R_ptr : forall f p ty, R f (snd (capture_ptr f p ty)).
Hypothesis R_len : forall f i p, R f (snd (capture_len f i p)).

Definition keeps (e : frozen -> option result) : Prop :=
  forall f n g, e f = Some (n, g) -> R f g.

Definition keeps_leaf (e : frozen -> result) : Prop :=
  forall f, R f (snd (e f)).

Lemma R_cur f : R f (snd (cur f)).
Proof. apply R_set_cur. Qed.

Lemma R_test_and_skip x : keeps_leaf (fun f => test_and_skip f x).
Proof.
  intros f. unfold test_and_skip. pose proof (R_cur f) as H.
  destruct (cur f) as [c h]. simpl in H.
  destruct (c =? x); simpl; [|exact H].
  eapply R_trans; [exact H|apply R_set_cur].
Qed.

Lemma R_skip_comma f : R f (skip_comma f).
Proof.
  unfold skip_comma. pose proof (R_cur f) as H.
  destruct (cur f) as [c h]. simpl in H.
  destruct (c =? ch ","); [|exact H].
  eapply R_trans; [exact H|apply R_set_cur].
Qed.

(** [capture_ptr], and on its success a leaf [k]. *)
Lemma R_open f p ty (k : frozen -> result) :
  keeps_leaf k ->
  R f (snd (let (r, f1) := capture_ptr f p ty in
            if r <? 0 then (r, f1) else k f1)).
Proof.
  intros Hk. pose proof (R_ptr f p ty) as H.
  destruct (capture_ptr f p ty) as [r f1]. simpl in H.
  destruct (r <? 0); [exact H|].
  eapply R_trans; [exact H|apply Hk].
Qed.

Lemma R_close (pre : frozen -> frozen) (ind : frozen -> Z) :
  (forall f, R f (pre f)) ->
  keeps_leaf (fun f => let (_, f') := capture_len (pre f) (ind (pre f))
                                        (fcur (pre f)) in (0, f')).
Proof.
  intros Hpre f. pose proof (R_len (pre f) (ind (pre f)) (fcur (pre f))) as H.
  destruct (capture_len _ _ _) as [r f']. simpl in *.
  eapply R_trans; [apply Hpre|exact H].
Qed.

Lemma R_parse_string_loop k c : keeps_leaf (parse_string_loop k c).
Proof.
  revert c. induction k as [|k IH]; intros c f; simpl.
  - destruct (fcur f <? fend f); apply R_refl.
  - destruct (fcur f <? fend f); [|apply R_refl].
    destruct (negb _); [apply R_refl|].
    destruct (_ =? ch "\").
    + destruct (negb _); [apply R_refl|].
      eapply R_trans; [apply R_set_cur|apply IH].
    + destruct (_ =? QUOTE).
      * pose proof (R_len f (num_tokens f - 1) (fcur f)) as H.
        destruct (capture_len f _ _) as [r f']. simpl in *.
        eapply R_trans; [exact H|apply R_set_cur].
      * eapply R_trans; [apply R_set_cur|apply IH].
Qed.

Lemma R_parse_string : keeps_leaf parse_string.
Proof.
  intros f. unfold parse_string. pose proof (R_test_and_skip QUOTE f) as H.
  destruct (test_and_skip f QUOTE) as [n h]. simpl in H.
  destruct (n <? 0); [exact H|].
  eapply R_trans; [exact H|]. apply R_open.
  intros f1. apply R_parse_string_loop.
Qed.

Lemma R_parse_literal ty k : keeps_leaf (fun f => parse_literal f ty k).
Proof.
  intros f. unfold parse_literal. apply R_open.
  apply (R_close (fun f => set_cur f (fcur f + k))
                 (fun f => num_tokens f - 1)).
  intros f1. apply R_set_cur.
Qed.

Lemma R_parse_number : keeps_leaf parse_number.
Proof.
  intros f. unfold parse_number. pose proof (R_cur f) as H.
  destruct (cur f) as [c h]. simpl in H.
  eapply R_trans; [exact H|]. apply R_open.
  apply (R_close (fun f => scan is_digit
                    (if c =? ch "-" then set_cur f (fcur f + 1) else f))
                 (fun f => num_tokens f - 1)).
  intros f1. destruct (c =? ch "-"); [|apply R_set_cur].
  eapply R_trans; apply R_set_cur.
Qed.

Lemma R_parse_identifier : keeps_leaf parse_identifier.
Proof.
  intros f. unfold parse_identifier. pose proof (R_cur f) as H.
  destruct (cur f) as [c h]. simpl in H.
  destruct (negb _); [exact H|].
  eapply R_trans; [exact H|]. apply R_open.
  apply (R_close (scan (fun c => (c =? ch "_") || is_alpha c || is_digit c))
                 (fun f => num_tokens f - 1)).
  intros f1. apply R_set_cur.
Qed.

Lemma R_parse_key : keeps_leaf parse_key.
Proof.
  intros f. unfold parse_key. pose proof (R_cur f) as H.
  destruct (cur f) as [c h]. simpl in H.
  destruct (is_alpha c).
  { pose proof (R_parse_identifier h) as H1.
    destruct (parse_identifier h) as [n g]. simpl in H1.
    destruct (n <? 0); eapply R_trans; eauto. }
  destruct (c =? QUOTE); [|exact H].
  pose proof (R_parse_string h) as H1.
  destruct (parse_string h) as [n g]. simpl in H1.
  destruct (n <? 0); eapply R_trans; eauto.
Qed.

Lemma keeps_try (e : frozen -> option result)
    (k : frozen -> frozen -> option result) :
  keeps e -> (forall f, keeps (k f)) ->
  keeps (fun f => try_then (e f) (k f)).
Proof.
  intros He Hk f n g H.
  apply try_then_inv in H as (n1 & g1 & E & [(_ & H)|(_ & H)]).
  - injection H as <- <-. eapply He, E.
  - eapply R_trans; [eapply He, E|eapply Hk, H].
Qed.

Lemma keeps_some (e : frozen -> result) : keeps_leaf e -> keeps (fun f => Some (e f)).
Proof.
  intros He f n g H. injection H as H. specialize (He f).
  rewrite H in He. exact He.
Qed.

Lemma keeps_before (pre : frozen -> frozen) k :
  (forall f, R f (pre f)) -> keeps k -> keeps (fun f => k (pre f)).
Proof.
  intros Hp Hk f n g H. eapply R_trans; [apply Hp|eapply Hk, H].
Qed.

Lemma keeps_loop_body rule loop close :
  keeps rule -> keeps loop -> keeps (loop_body rule loop close).
Proof.
  intros Hr Hl f n g H. unfold loop_body in H.
  pose proof (R_cur f) as H0. destruct (cur f) as [c h]. simpl in H0.
  eapply R_trans; [exact H0|].
  destruct (negb _); [|injection H as _ <-; apply R_refl].
  revert H. apply (keeps_try rule (fun _ f1 => loop (skip_comma f1))
                     Hr).
  intros _. apply keeps_before; [apply R_skip_comma|exact Hl].
Qed.

Lemma keeps_container loop open close ty :
  keeps loop -> keeps (container loop open close ty).
Proof.
  intros Hl f n g H. unfold container in H. cbv zeta in H.
  try_step H n1 f1 E1 Hn1;
    [as_snd E1; apply R_test_and_skip|].
  assert (R1 : R f f1) by (as_snd E1; apply R_test_and_skip).
  eapply R_trans; [exact R1|].
  try_step H n2 f2 E2 Hn2; [as_snd E2; apply R_ptr|].
  assert (R2 : R f1 f2) by (as_snd E2; apply R_ptr).
  eapply R_trans; [exact R2|].
  try_step H n3 f3 E3 Hn3; [eapply Hl, E3|].
  eapply R_trans; [eapply Hl, E3|].
  try_step H n4 f4 E4 Hn4; [as_snd E4; apply R_test_and_skip|].
  assert (R4 : R f3 f4) by (as_snd E4; apply R_test_and_skip).
  eapply R_trans; [exact R4|].
  pose proof (R_len f4 (num_tokens f2 - 1) (fcur f4)) as H5.
  destruct (capture_len f4 _ _) as [n5 f5]. injection H as _ <-. exact H5.
Qed.

Lemma keeps_rules fuel :
  keeps (parse_value fuel) /\ keeps (parse_array_loop fuel)
  /\ keeps (parse_array fuel) /\ keeps (parse_pair fuel)
  /\ keeps (parse_object_loop fuel) /\ keeps (parse_object fuel).
Proof.
  induction fuel as [|fuel (IHv & IHal & IHa & IHp & IHol & IHo)];
    [repeat apply conj; intros f n g H; discriminate H|].
  repeat apply conj.
  - intros f n g H. rewrite parse_value_S in H.
    pose proof (R_cur f) as H0. destruct (cur f) as [c h]. simpl in H0.
    eapply R_trans; [exact H0|]. clear H0.
    repeat head_if;
      try (try_step H n1 f1 E1 Hn1; [|injection H as _ <-]);
      try (as_snd E1);
      first [ apply R_parse_string | apply (R_parse_literal _ _ h)
            | apply R_parse_number | eapply IHo; eassumption
            | eapply IHa; eassumption | idtac ].
    injection H as _ <-. apply R_refl.
  - rewrite parse_array_loop_body. apply keeps_loop_body; assumption.
  - rewrite parse_array_container. apply keeps_container; assumption.
  - intros f n g H. rewrite parse_pair_S in H.
    try_step H n1 f1 E1 Hn1; [as_snd E1; apply R_parse_key|].
    assert (R1 : R f f1) by (as_snd E1; apply R_parse_key).
    eapply R_trans; [exact R1|].
    try_step H n2 f2 E2 Hn2; [as_snd E2; apply R_test_and_skip|].
    assert (R2 : R f1 f2) by (as_snd E2; apply R_test_and_skip).
    eapply R_trans; [exact R2|].
    try_step H n3 f3 E3 Hn3; [|injection H as _ <-]; eapply IHv, E3.
  - rewrite parse_object_loop_body. apply keeps_loop_body; assumption.
  - rewrite parse_object_container. apply keeps_container; assumption.
Qed.

Lemma keeps_parse_json s s_len arr arr_len r g :
  parse_json_frozen s s_len arr arr_len = Some (r, g) ->
  R (init_frozen s s_len arr arr_len) g.
Proof.
  intros H. unfold parse_json_frozen in H.
  destruct (bool_decide (s = None) || (s_len <? 0));
    [injection H as _ <-; apply R_refl|].
  destruct (s_len =? 0); [injection H as _ <-; apply R_refl|].
  destruct (keeps_rules (fuel_of s_len)) as (_ & _ & _ & _ & _ & Ko).
  try_step H n1 f1 E1 Hn1; [eapply Ko, E1|].
  eapply R_trans; [eapply Ko, E1|].
  try_step H n2 f2 E2 Hn2; [as_snd E2; apply R_ptr|].
  assert (R2 : R f1 f2) by (as_snd E2; apply R_ptr).
  eapply R_trans; [exact R2|].
  pose proof (R_len f2 (num_tokens f2) (fcur f2)) as H3.
  destruct (capture_len f2 _ _) as [n3 f3]. injection H as _ <-. exact H3.
Qed.

End kept.
(** The slots of the token array from the capacity on stay as they are. *)
Definition beyond_kept (f g : frozen) : Prop :=
  0 <= num_tokens f ->
  0 <= num_tokens g /\ max_tokens g = max_tokens f
  /\ forall i, 0 <= i -> max_tokens f <= i -> tok_at g i = tok_at f i.

Lemma beyond_kept_refl f : beyond_kept f f.
Proof. intros H. auto. Qed.

Lemma beyond_kept_trans f g h :
  beyond_kept f g -> beyond_kept g h -> beyond_kept f h.
Proof.
  intros H1 H2 Hf. destruct (H1 Hf) as (Hg & Em & K1).
  destruct (H2 Hg) as (Hh & Em' & K2).
  split; [exact Hh|]. split; [congruence|].
  intros i Hi Hle. rewrite K2 by (auto; lia). apply K1; auto.
Qed.

Lemma beyond_kept_set_cur f p : beyond_kept f (set_cur f p).
Proof. intros H. auto. Qed.

Lemma beyond_kept_ptr f p ty : beyond_kept f (snd (capture_ptr f p ty)).
Proof.
  intros Hf. unfold capture_ptr. destruct (tokens f) as [a|] eqn:Ea;
    [|apply beyond_kept_refl, Hf].
  destruct (max_tokens f =? 0); [apply beyond_kept_refl, Hf|].
  destruct (Z.geb_spec (num_tokens f) (max_tokens f));
    [apply beyond_kept_refl, Hf|].
  simpl. split; [lia|]. split; [reflexivity|].
  intros i Hi Hle. unfold tok_at. simpl. rewrite Ea. simpl.
  apply list_lookup_alter_ne. lia.
Qed.

Lemma beyond_kept_len f k p : beyond_kept f (snd (capture_len f k p)).
Proof.
  intros Hf. unfold capture_len. destruct (tokens f) as [a|] eqn:Ea;
    [|apply beyond_kept_refl, Hf].
  destruct (max_tokens f =? 0); [apply beyond_kept_refl, Hf|].
  destruct (Z.geb_spec k 0); cbn [andb]; [|apply beyond_kept_refl, Hf].
  destruct (Z.ltb_spec k (max_tokens f)); [|apply beyond_kept_refl, Hf].
  simpl. split; [lia|]. split; [reflexivity|].
  intros i Hi Hle. unfold tok_at. simpl. rewrite Ea. simpl.
  apply list_lookup_alter_ne. lia.
Qed.

(** ** The bounds of the token array *)

(** X5: whatever [parse_json] returns, it stores to the first
    [arr_len] slots of the token array only: the array keeps its length
    and every slot from index [arr_len] on is as it was; and at most
    [arr_len] tokens are counted. *)
Theorem token_array_is_not_overrun (s : option (list ascii)) (s_len : Z)
    (a : list json_token) (arr_len : Z) :
  exists r g b,
    parse_json_frozen s s_len (Some a) arr_len = Some (r, g)
    /\ tokens g = Some b /\ length b = length a
    /\ (forall i : nat, arr_len <= Z.of_nat i -> b !! i = a !! i)
    /\ (0 <= arr_len -> 0 <= num_tokens g <= arr_len).
Proof.
  destruct (fuel_enough s s_len (Some a) arr_len) as [[r toks] H].
  unfold parse_json in H.
  destruct (parse_json_frozen s s_len (Some a) arr_len) as [[r' g]|] eqn:E;
    [|discriminate].
  pose proof (parse_json_frozen_evolves _ _ _ _ _ _ E)
    as [_ _ Vmax _ Vnum Vcap Vlen].
  simpl in *.
  destruct (tokens g) as [b|] eqn:Hb; [|discriminate Vlen].
  injection Vlen as Vlen.
  exists r', g, b. split; [reflexivity|]. split; [exact Hb|].
  split; [exact Vlen|].
  destruct (keeps_parse_json beyond_kept beyond_kept_refl beyond_kept_trans
              beyond_kept_set_cur beyond_kept_ptr beyond_kept_len
              _ _ _ _ _ _ E) as (_ & _ & K); [simpl; lia|].
  split.
  - intros i Hi. specialize (K (Z.of_nat i) ltac:(lia) Hi).
    unfold tok_at in K. simpl in K. rewrite Hb, Nat2Z.id in K. exact K.
  - intros Hge. split; [lia|apply Vcap; exact Hge].
Qed.
(** ** Where the tokens lie *)

(** After a successful [parse_json] the tokens before the end-of-input
    marker lie in the bytes consumed. *)
Lemma parse_json_spans s s_len a arr_len r g :
  parse_json_frozen s s_len (Some a) arr_len = Some (r, g) -> 0 <= r ->
  s_len <= INT_MAX -> 0 < arr_len <= Z.of_nat (length a) ->
  forall i, 0 <= i < num_tokens g - 1 ->
    exists t, tok_at g i = Some t /\ 0 <= ptr t /\ ptr t + len t <= r.
Proof.
  intros H Hr Hmax Hcap.
  destruct (parse_json_frozen_cases _ _ _ _ _ _ H Hmax) as [[Hrg Hb]|[Hneg _]];
    [|lia].
  unfold parse_json_frozen in H.
  destruct (bool_decide (s = None)); cbn [orb] in H;
    [injection H as <- _; unfold JSON_STRING_INVALID in Hr; lia|].
  destruct (Z.ltb_spec s_len 0);
    [injection H as <- _; unfold JSON_STRING_INVALID in Hr; lia|].
  destruct (s_len =? 0);
    [injection H as <- _; unfold JSON_STRING_INCOMPLETE in Hr; lia|].
  try_step H n1 f1 E1 Hn1; [lia|].
  try_step H n2 f2 E2 Hn2; [lia|].
  destruct (capture_len f2 (num_tokens f2) (fcur f2)) as [n3 f3] eqn:E3.
  injection H as _ <-.
  assert (G0 : good (init_frozen s s_len (Some a) arr_len)).
  { split; [|split; [apply init_in_bounds; lia|exact Hmax]].
    exists a. simpl. split; [reflexivity|]. lia. }
  destruct (rules_post_all (fuel_of s_len)) as (_ & _ & _ & _ & _ & Po).
  destruct (Po _ _ _ E1) as (V1 & B1 & _).
  pose proof (good_evolves _ _ G0 V1 (B1 (proj1 (proj2 G0)))) as G1.
  destruct (rules_record (fuel_of s_len)) as (_ & _ & _ & _ & _ & Ro).
  destruct (Ro _ _ _ G0 E1 Hn1) as (N1 & _ & New1). simpl in N1, New1.
  destruct (capture_ptr_records _ _ _ _ _ (proj1 G1) E2 Hn2)
    as (N2 & F2 & _).
  assert (Hk : 0 <= num_tokens f2) by lia.
  destruct (capture_len_frame _ _ _ _ _ Hk E3) as (N3 & F3).
  rewrite (capture_len_cur _ _ _ _ _ E3), (capture_ptr_cur _ _ _ _ _ E2)
    in Hrg.
  intros i Hi. rewrite N3, N2 in Hi.
  destruct (New1 i ltac:(lia)) as (t & Ht & Hlo & Hhi & _).
  exists t. rewrite F3, F2 by lia. split; [exact Ht|]. lia.
Qed.

(** X6: after a successful [parse_json] every token before the
    end-of-input marker lies in the bytes consumed, with a length that is
    not negative, and the tokens are recorded in the order of their start
    offsets. *)
Theorem tokens_lie_in_the_input (s : option (list ascii)) (s_len : Z)
    (a : list json_token) (arr_len r : Z) (g : frozen)
    (toks : list json_token) (i : nat) (t : json_token) :
  parse_json_frozen s s_len (Some a) arr_len = Some (r, g) -> 0 <= r ->
  s_len <= INT_MAX -> 0 < arr_len <= Z.of_nat (length a) ->
  tokens g = Some toks -> (S i < Z.to_nat (num_tokens g))%nat ->
  toks !! i = Some t ->
  0 <= ptr t /\ 0 <= len t /\ ptr t + len t <= r
  /\ forall (j : nat) (tj : json_token),
       (i < j < Z.to_nat (num_tokens g))%nat -> toks !! j = Some tj ->
       ptr t <= ptr tj.
Proof.
  intros H Hr Hmax Hcap Htoks Hi Ht.
  destruct (parse_json_records _ _ _ _ _ _ H Hr Hmax Hcap) as (HN & Hall).
  destruct (Hall (Z.of_nat i) ltac:(lia)) as (t1 & Ht1 & Hok & _).
  destruct (parse_json_spans _ _ _ _ _ _ H Hr Hmax Hcap (Z.of_nat i)
              ltac:(lia)) as (t2 & Ht2 & Hlo & Hhi).
  unfold tok_at in Ht1, Ht2. rewrite Htoks, Nat2Z.id in Ht1, Ht2.
  simpl in Ht1, Ht2. rewrite Ht in Ht1, Ht2.
  injection Ht1 as <-. injection Ht2 as <-.
  destruct Hok as (Hl & Hc & _ & _ & Hj).
  split; [exact Hlo|]. split; [exact Hl|]. split; [exact Hhi|].
  intros j tj Hjr Htj.
  specialize (Hj (Z.of_nat j) tj ltac:(lia)).
  unfold tok_at in Hj. rewrite Htoks, Nat2Z.id in Hj. specialize (Hj Htj).
  destruct (Z.of_nat j <=? Z.of_nat i + num_children t); lia.
Qed.

Lemma tokens_lie_in_the_input_witness :
  exists g toks t,
    parse_json_frozen (Some (bytes "{'a':[1,[2]],'b':3}")) 19
                      (Some (blank 9)) 9 = Some (19, g)
    /\ tokens g = Some toks /\ toks !! 2%nat = Some t
    /\ 0 <= ptr t /\ 0 <= len t /\ ptr t + len t <= 19.
Proof.
  assert (E : parse_json_frozen (Some (bytes "{'a':[1,[2]],'b':3}")) 19
                (Some (blank 9)) 9
              = Some (19, snd (default (0, init_frozen None 0 None 0)
                    (parse_json_frozen (Some (bytes "{'a':[1,[2]],'b':3}"))
                       19 (Some (blank 9)) 9))))
    by (vm_compute; reflexivity).
  set (g := snd (default (0, init_frozen None 0 None 0)
                 (parse_json_frozen (Some (bytes "{'a':[1,[2]],'b':3}"))
                    19 (Some (blank 9)) 9))) in *.
  exists g, (default [] (tokens g)),
    (default (Token 0 0 0 JSON_TYPE_EOF) (default [] (tokens g) !! 2%nat)).
  split; [exact E|].
  split; [vm_compute; reflexivity|].
  split; [vm_compute; reflexivity|].
  assert (Hcap : 0 < 9 <= Z.of_nat (length (blank 9)))
    by (vm_compute; split; [reflexivity|discriminate]).
  assert (Hmax : 19 <= INT_MAX) by (vm_compute; discriminate).
  assert (Hr : 0 <= 19) by lia.
  assert (Htoks : tokens g = Some (default [] (tokens g)))
    by (vm_compute; reflexivity).
  assert (Hi : (3 < Z.to_nat (num_tokens g))%nat) by (vm_compute; lia).
  assert (Ht : default [] (tokens g) !! 2%nat
               = Some (default (Token 0 0 0 JSON_TYPE_EOF)
                         (default [] (tokens g) !! 2%nat)))
    by (vm_compute; reflexivity).
  pose proof (tokens_lie_in_the_input _ _ _ _ _ _ _ 2%nat _ E
                Hr Hmax Hcap Htoks Hi Ht) as (H1 & H2 & H3 & _).
  split; [exact H1|]. split; [exact H2|exact H3].
Defined.
(** ** The bytes that [compare] tests *)

(** The bytes of the input from offset [p] on are those of [str]. *)
Definition bytes_are (m : list ascii) (p : Z) (str : string) : Prop :=
  forall (d : nat) (x : ascii),
    list_ascii_of_string str !! d = Some x ->
    byte_at m (p + Z.of_nat d) = ch x.

Lemma compare_loop_full m c str i :
  compare_loop m c str i = i + Z.of_nat (length str)
  <-> forall (d : nat) (x : ascii),
        str !! d = Some x -> byte_at m (c + i + Z.of_nat d) = ch x.
Proof.
  revert i. induction str as [|y str IH]; intros i.
  { simpl. split; [intros _ d x Hd; discriminate Hd|intros _; lia]. }
  cbn [compare_loop length]. rewrite Nat2Z.inj_succ.
  destruct (Z.eqb_spec (byte_at m (c + i)) (ch y)) as [Eb|Eb].
  - replace (i + Z.succ (Z.of_nat (length str)))
      with (i + 1 + Z.of_nat (length str)) by lia.
    rewrite IH. split.
    + intros H [|d] x Hd.
      * injection Hd as <-. rewrite Z.add_0_r. exact Eb.
      * replace (c + i + Z.of_nat (S d)) with (c + (i + 1) + Z.of_nat d)
          by lia.
        apply H. exact Hd.
    + intros H d x Hd.
      replace (c + (i + 1) + Z.of_nat d) with (c + i + Z.of_nat (S d))
        by lia.
      apply H. exact Hd.
  - split; [lia|]. intros H. exfalso. apply Eb.
    rewrite <- (Z.add_0_r (c + i)). apply (H O). reflexivity.
Qed.

Lemma length_list_ascii_of_string str :
  length (list_ascii_of_string str) = String.length str.
Proof. induction str; simpl; auto. Qed.

(** X7: [compare f str len], for a literal [str] of [len] characters,
    is 1 exactly when at least [len] bytes are left and the bytes at the
    cursor are those of [str]. *)
Theorem compare_spec (f : frozen) (str : string) (k : Z) :
  Z.of_nat (String.length str) = k ->
  (compare f str k = true
   <-> k <= left f /\ bytes_are (mem f) (fcur f) str).
Proof.
  intros Hk. unfold compare, bytes_are.
  assert (Hlen : length (list_ascii_of_string str) = Z.to_nat k)
    by (rewrite length_list_ascii_of_string; lia).
  rewrite take_ge by lia.
  destruct (Z.ltb_spec (left f) k) as [Hlt|Hge].
  - split; [discriminate|lia].
  - rewrite Z.eqb_eq.
    replace k with (0 + Z.of_nat (length (list_ascii_of_string str)))
      at 1 by lia.
    rewrite compare_loop_full.
    split.
    + intros H. split; [exact Hge|]. intros d x Hd.
      rewrite <- (H d x Hd). f_equal. lia.
    + intros [_ H] d x Hd. rewrite <- (H d x Hd). f_equal. lia.
Qed.

Lemma compare_spec_witness :
  compare (init_frozen (Some (bytes "null}")) 5 None 0) "null" 4 = true
  /\ compare (init_frozen (Some (bytes "nul")) 3 None 0) "null" 4 = false.
Proof.
  split.
  - apply (compare_spec (init_frozen (Some (bytes "null}")) 5 None 0)
             "null" 4 eq_refl).
    split; [vm_compute; discriminate|].
    intros [|[|[|[|d]]]] x Hd; try (injection Hd as <-; reflexivity).
    destruct d; discriminate Hd.
  - destruct (compare (init_frozen (Some (bytes "nul")) 3 None 0) "null" 4)
      eqn:E; [|reflexivity].
    apply (compare_spec (init_frozen (Some (bytes "nul")) 3 None 0)
             "null" 4 eq_refl) in E as [E _].
    vm_compute in E. exfalso. apply E. reflexivity.
Defined.
(** ** The bytes of a token *)

Definition plain_byte (c : Z) : Prop := 32 <= c <= 127.

(** The bytes of an identifier after its first letter. *)
Definition ident_byte (c : Z) : bool :=
  (c =? ch "_") || is_alpha c || is_digit c.

(** [spelt m e t]: the bytes of the token [t] in the input [m] of length
    [e] are those of a token of its type. *)
Definition spelt (m : list ascii) (e : Z) (t : json_token) : Prop :=
  let p := ptr t in
  let q := ptr t + len t in
  match type t with
  | JSON_TYPE_EOF => True
  | JSON_TYPE_NULL => len t = 4 /\ bytes_are m p "null"
  | JSON_TYPE_TRUE => len t = 4 /\ bytes_are m p "true"
  | JSON_TYPE_FALSE => len t = 5 /\ bytes_are m p "false"
  | JSON_TYPE_NUMBER =>
      ((is_digit (byte_at m p) = true /\ 0 < len t)
       \/ (byte_at m p = ch "-" /\ 1 < len t))
      /\ (forall i, p < i < q -> is_digit (byte_at m i) = true)
      /\ (q < e -> is_digit (byte_at m q) = false)
  | JSON_TYPE_STRING =>
      (forall i, p <= i < q -> plain_byte (byte_at m i))
      /\ ((byte_at m (p - 1) = QUOTE /\ byte_at m q = QUOTE)
          \/ (is_alpha (byte_at m p) = true /\ 0 < len t
              /\ (forall i, p <= i < q -> ident_byte (byte_at m i) = true)
              /\ (q < e -> ident_byte (byte_at m q) = false)))
  | JSON_TYPE_OBJECT =>
      2 <= len t /\ byte_at m p = ch "{" /\ byte_at m (q - 1) = ch "}"
  | JSON_TYPE_ARRAY =>
      2 <= len t /\ byte_at m p = ch "[" /\ byte_at m (q - 1) = ch "]"
  end.

(** The tokens recorded from [f] to [g] are spelt as their types say. *)
Definition spells (f g : frozen) : Prop :=
  forall i, num_tokens f <= i < num_tokens g ->
    exists t, tok_at g i = Some t /\ spelt (mem f) (fend f) t.

Lemma spells_same f g : same_rec f g -> spells f g.
Proof. intros (_ & En & _) i Hi. lia. Qed.

Lemma spells_pre f f' g :
  same_rec f f' -> evolves f f' -> spells f' g -> spells f g.
Proof.
  intros (_ & En & _) [Ee Em _ _ _ _ _] H i Hi.
  rewrite <- Ee, <- Em. apply H. lia.
Qed.

Lemma spells_post f g g' : spells f g -> same_rec g g' -> spells f g'.
Proof.
  intros H Hs i Hi. pose proof Hs as (_ & En & _).
  rewrite (same_rec_tok_at g g' _ Hs). apply H. lia.
Qed.

Lemma spells_trans f g h lo hi :
  spells f g -> spells g h -> records g h lo hi -> evolves f g ->
  0 <= num_tokens f -> spells f h.
Proof.
  intros H1 H2 (Hn & Hframe & _) [Ee Em _ _ Enum _ _] Hf i Hi.
  destruct (Z.lt_ge_cases i (num_tokens g)) as [Hlt|Hge].
  - rewrite Hframe by lia. apply H1. lia.
  - rewrite <- Ee, <- Em. apply H2. lia.
Qed.

Lemma leaf_spells f g t :
  num_tokens g = num_tokens f + 1 -> tok_at g (num_tokens f) = Some t ->
  spelt (mem f) (fend f) t -> spells f g.
Proof.
  intros N Ht Hs i Hi. assert (i = num_tokens f) as -> by lia. eauto.
Qed.

Lemma ident_byte_plain c : ident_byte c = true -> plain_byte c.
Proof.
  unfold ident_byte, is_alpha, is_digit, plain_byte. eval_ch. intros H.
  repeat (apply orb_prop in H as [H|H]);
    repeat (apply andb_prop in H as [? H]); lia.
Qed.

Lemma is_alpha_ident c : is_alpha c = true -> ident_byte c = true.
Proof. unfold ident_byte. intros ->. rewrite orb_true_r. reflexivity. Qed.
Lemma parse_number_spells f c n g :
  good f -> cur f = (c, f) ->
  is_digit c
  || ((c =? ch "-") && (fcur f + 1 <? fend f)
      && is_digit (byte_at (mem f) (fcur f + 1))) = true ->
  parse_number f = (n, g) -> 0 <= n -> spells f g.
Proof.
  intros Hg Ec Hd H Hn.
  destruct (parse_number_post _ _ _ _ Ec Hd H) as (V & B & _).
  pose proof (good_span _ _ Hg V (B (proj1 (proj2 Hg)))) as Hspan.
  pose proof Ec as Ec0. apply cur_spec in Ec0 as (_ & _ & _ & Hc).
  assert (Hcb : c = byte_at (mem f) (fcur f) /\ fcur f < fend f).
  { destruct Hc as [(-> & _)|(? & ? & _)]; [discriminate Hd|auto]. }
  destruct Hcb as [Hcb Hlt]. clear Hc.
  unfold parse_number in H. rewrite Ec in H.
  destruct (capture_ptr f (fcur f) JSON_TYPE_NUMBER) as [n1 f1] eqn:E1.
  destruct (Z.ltb_spec n1 0) as [|Hn1]; [injection H as <- <-; lia|].
  pose proof (capture_ptr_cur _ _ _ _ _ E1) as C1.
  pose proof (capture_ptr_evolves _ _ _ _ _ E1) as [Ee1 Em1 _ _ _ _ _].
  destruct (Z.eqb_spec c (ch "-")) as [Ec'|Ec'].
  - rewrite Ec' in Hd. change (is_digit (ch "-")) with false in Hd.
    cbn [orb andb] in Hd. apply andb_prop in Hd as [Hd1 Hd2].
    apply Z.ltb_lt in Hd1.
    destruct (capture_len _ _ _) as [n2 f2] eqn:E2. injection H as _ <-.
    rewrite (capture_len_cur _ _ _ _ _ E2) in Hspan.
    destruct (leaf_token _ _ _ _ _ _ _ _ _ (proj1 Hg) E1 Hn1
                (same_rec_trans _ _ _ (same_rec_set_cur f1 (fcur f1 + 1))
                   (same_rec_scan is_digit _)) E2 Hspan) as (N & T).
    apply (leaf_spells f f2 _ N T). unfold spelt. cbn [type ptr len].
    rewrite Zplus_minus. unfold scan. cbn [fcur fend mem set_cur].
    rewrite Em1, Ee1, C1.
    destruct (scan_while_spec is_digit (mem f)
                (Z.to_nat (fend f - (fcur f + 1))) (fcur f + 1))
      as (S1 & S2 & S3).
    split; [right; split; [congruence|]|split].
    + assert (fcur f + 1 <> scan_while is_digit (mem f)
                (Z.to_nat (fend f - (fcur f + 1))) (fcur f + 1)); [|lia].
      intros Heq. rewrite <- Heq in S3. rewrite S3 in Hd2 by lia.
      discriminate Hd2.
    + intros i Hi. apply S2. lia.
    + intros Hq. apply S3. lia.
  - assert (Hdig : is_digit c = true).
    { destruct (is_digit c); [reflexivity|].
      destruct (Z.eqb_spec c (ch "-")); [contradiction|discriminate Hd]. }
    destruct (capture_len _ _ _) as [n2 f2] eqn:E2. injection H as _ <-.
    rewrite (capture_len_cur _ _ _ _ _ E2) in Hspan.
    destruct (leaf_token _ _ _ _ _ _ _ _ _ (proj1 Hg) E1 Hn1
                (same_rec_scan is_digit _) E2 Hspan) as (N & T).
    apply (leaf_spells f f2 _ N T). unfold spelt. cbn [type ptr len].
    rewrite Zplus_minus. unfold scan. cbn [fcur fend mem set_cur].
    rewrite Em1, Ee1, C1.
    destruct (scan_while_spec is_digit (mem f)
                (Z.to_nat (fend f - fcur f)) (fcur f)) as (S1 & S2 & S3).
    split; [left; split; [congruence|]|split].
    + assert (fcur f <> scan_while is_digit (mem f)
                (Z.to_nat (fend f - fcur f)) (fcur f)); [|lia].
      intros Heq. rewrite <- Heq in S3. rewrite <- Hcb, Hdig in S3.
      discriminate S3. lia.
    + intros i Hi. apply S2. lia.
    + intros Hq. apply S3. lia.
Qed.

Lemma parse_literal_spells f ty str k n g :
  good f -> 0 < k -> Z.of_nat (String.length str) = k ->
  compare f str k = true ->
  (bytes_are (mem f) (fcur f) str ->
   spelt (mem f) (fend f)
     {| ptr := fcur f; len := k; num_children := 0; type := ty |}) ->
  parse_literal f ty k = (n, g) -> 0 <= n -> spells f g.
Proof.
  intros Hg Hk Hlen Hcmp Hsp H Hn.
  apply (compare_spec f str k Hlen) in Hcmp as [Hleft Hbytes].
  pose proof (left_le _ (proj1 (proj2 Hg))) as Hl.
  destruct (parse_literal_post f ty k n g Hk ltac:(intros _; lia) H)
    as (V & B & _).
  pose proof (good_span _ _ Hg V (B (proj1 (proj2 Hg)))) as Hspan.
  unfold parse_literal in H.
  destruct (capture_ptr f (fcur f) ty) as [n1 f1] eqn:E1.
  destruct (Z.ltb_spec n1 0) as [|Hn1]; [injection H as <- <-; lia|].
  pose proof (capture_ptr_cur _ _ _ _ _ E1) as C1.
  destruct (capture_len _ _ _) as [n2 f2] eqn:E2. injection H as _ <-.
  rewrite (capture_len_cur _ _ _ _ _ E2) in Hspan.
  destruct (leaf_token _ _ _ _ _ _ _ _ _ (proj1 Hg) E1 Hn1
              (same_rec_set_cur f1 (fcur f1 + k)) E2 Hspan) as (N & T).
  apply (leaf_spells f f2 _ N T). cbn [fcur set_cur]. rewrite C1.
  replace (fcur f + k - fcur f) with k by lia. apply Hsp, Hbytes.
Qed.

Lemma parse_identifier_spells f n g :
  good f -> parse_identifier f = (n, g) -> 0 <= n -> spells f g.
Proof.
  intros Hg H Hn.
  destruct (parse_identifier_post _ _ _ H) as (V & B & _).
  pose proof (B (proj1 (proj2 Hg))) as Bg.
  unfold parse_identifier in H. destruct (cur f) as [c h] eqn:Ec.
  pose proof (same_rec_cur _ _ _ Ec) as S0.
  destruct (good_cur _ _ _ Hg Ec) as [Gh V0'].
  pose proof Ec as Ec0. apply cur_spec in Ec0 as (_ & V0 & _ & Hc).
  destruct (is_alpha c) eqn:Ea; cbn [negb] in H;
    [|injection H as <- <-; unfold JSON_STRING_INVALID in Hn; lia].
  assert (Hcb : c = byte_at (mem f) (fcur h) /\ fcur h < fend f).
  { destruct Hc as [(-> & _)|(? & ? & _)]; [discriminate Ea|auto]. }
  destruct Hcb as [Hcb Hlt]. clear Hc.
  apply (spells_pre f h); [exact S0|exact V0|].
  destruct V0 as [Ee0 Em0 _ _ _ _ _].
  destruct (capture_ptr h (fcur h) JSON_TYPE_STRING) as [n1 f1] eqn:E1.
  destruct (Z.ltb_spec n1 0) as [|Hn1]; [injection H as <- <-; lia|].
  pose proof (capture_ptr_cur _ _ _ _ _ E1) as C1.
  pose proof (capture_ptr_evolves _ _ _ _ _ E1) as [Ee1 Em1 _ _ _ _ _].
  destruct (capture_len _ _ _) as [n2 f2] eqn:E2. injection H as _ <-.
  assert (Hspan : 0 <= fcur (scan ident_byte f1) - fcur h <= INT_MAX).
  { pose proof (scan_evolves ident_byte f1) as [_ _ _ Vs _ _ _].
    destruct V as [Ee _ _ _ _ _ _]. destruct Hg as (_ & Hb & He).
    destruct Gh as (_ & Hbh & _). unfold in_bounds in *.
    rewrite (capture_len_cur _ _ _ _ _ E2) in Bg.
    change (fun c0 : Z => (c0 =? ch "_") || is_alpha c0 || is_digit c0)
      with ident_byte in Bg. lia. }
  destruct (leaf_token _ _ _ _ _ _ _ _ _ (proj1 Gh) E1 Hn1
              (same_rec_scan _ _) E2 Hspan) as (N & T).
  apply (leaf_spells h f2 _ N T). unfold spelt. cbn [type ptr len].
  rewrite Zplus_minus. unfold scan. cbn [fcur fend mem set_cur].
  rewrite Em1, Ee1, C1.
  destruct (scan_while_spec ident_byte (mem h)
              (Z.to_nat (fend h - fcur h)) (fcur h)) as (S1 & S2 & S3).
  change (fun c0 : Z => (c0 =? ch "_") || is_alpha c0 || is_digit c0)
    with ident_byte.
  split.
  - intros i Hi. apply ident_byte_plain, S2, Hi.
  - right. split; [rewrite Em0, <- Hcb; exact Ea|].
    split.
    { assert (fcur h <> scan_while ident_byte (mem h)
                (Z.to_nat (fend h - fcur h)) (fcur h)); [|lia].
      intros Heq. rewrite <- Heq in S3.
      rewrite Em0, <- Hcb, (is_alpha_ident _ Ea) in S3.
      discriminate S3. lia. }
    split; [exact S2|]. intros Hq. apply S3. lia.
Qed.

(** A backslash is followed by one of the eight letters, or the string is
    not accepted. *)
Lemma get_escape_len_one m s l :
  0 < get_escape_len m s l ->
  get_escape_len m s l = 1 /\ plain_byte (byte_at m s).
Proof.
  unfold get_escape_len, plain_byte.
  destruct (Z.eqb_spec (byte_at m s) (ch "u")) as [->|Hu].
  - change (is_hex_digit (ch "u")) with false. cbn [andb].
    unfold JSON_STRING_INCOMPLETE, JSON_STRING_INVALID.
    destruct (l <? 4); lia.
  - destruct (_ || _) eqn:E8;
      [|unfold JSON_STRING_INVALID; lia].
    unfold JSON_STRING_INCOMPLETE. destruct (l <? 2); [lia|].
    intros _. split; [reflexivity|]. unfold QUOTE in E8. eval_ch.
    repeat (apply orb_prop in E8 as [E8|E8]); apply Z.eqb_eq in E8; lia.
Qed.

Lemma parse_string_loop_bytes k c f n g :
  c <> QUOTE -> parse_string_loop k c f = (n, g) -> 0 <= n ->
  forall i, fcur f <= i < fcur g - 1 -> plain_byte (byte_at (mem f) i).
Proof.
  revert c f. induction k as [|k IH]; intros c f Hc; simpl.
  - destruct (Z.eqb_spec c QUOTE); [congruence|].
    unfold JSON_STRING_INCOMPLETE. break_if; intros; inj_pair; lia.
  - destruct (Z.ltb_spec (fcur f) (fend f)) as [Hlt|Hge].
    2:{ destruct (Z.eqb_spec c QUOTE); [congruence|].
        unfold JSON_STRING_INCOMPLETE. intros; inj_pair. lia. }
    destruct (negb _) eqn:Hrange.
    { unfold JSON_STRING_INVALID. intros; inj_pair. lia. }
    assert (Hp : plain_byte (byte_at (mem f) (fcur f))).
    { apply negb_false_iff, andb_prop in Hrange as [H1 H2].
      unfold plain_byte. lia. }
    destruct (Z.eqb_spec (byte_at (mem f) (fcur f)) (ch "\")) as [Eb|Eb].
    + destruct (get_escape_len_cases (mem f) (fcur f + 1) (left f))
        as [E|[E|(E & _)]];
        try (rewrite E; simpl;
             unfold JSON_STRING_INVALID, JSON_STRING_INCOMPLETE;
             intros; inj_pair; lia).
      assert (Hpos : 0 < get_escape_len (mem f) (fcur f + 1) (left f))
        by lia.
      destruct (get_escape_len_one _ _ _ Hpos) as [_ Hp1].
      rewrite E. simpl. intros Hr Hn i Hi.
      destruct (Z.eq_dec i (fcur f)) as [->|]; [exact Hp|].
      destruct (Z.eq_dec i (fcur f + 1)) as [->|]; [exact Hp1|].
      assert (Hbq : byte_at (mem f) (fcur f) <> QUOTE)
        by (rewrite Eb; discriminate).
      apply (IH _ _ Hbq Hr Hn). simpl. lia.
    + destruct (Z.eqb_spec (byte_at (mem f) (fcur f)) QUOTE) as [Eq|Eq].
      * destruct (capture_len f (num_tokens f - 1) (fcur f)) as [r h'] eqn:El.
        simpl. intros H _. injection H as _ <-. simpl.
        rewrite (capture_len_cur _ _ _ _ _ El). intros i Hi. lia.
      * intros Hr Hn i Hi.
        destruct (Z.eq_dec i (fcur f)) as [->|]; [exact Hp|].
        apply (IH _ _ Eq Hr Hn). simpl. lia.
Qed.
Lemma parse_string_spells f n g :
  good f -> parse_string f = (n, g) -> 0 <= n -> spells f g.
Proof.
  intros Hg H Hn.
  destruct (parse_string_post _ _ _ H) as (V & B & _).
  pose proof (B (proj1 (proj2 Hg))) as Bg.
  unfold parse_string in H.
  destruct (test_and_skip f QUOTE) as [n1 f1] eqn:E1.
  destruct (Z.ltb_spec n1 0) as [|Hn1]; [injection H as <- <-; lia|].
  pose proof (same_rec_test_and_skip _ _ _ _ E1) as S1.
  assert (Hq : QUOTE <> END_OF_STRING) by discriminate.
  pose proof (test_and_skip_bounds _ _ _ _ Hq E1 (proj1 (proj2 Hg))) as B1.
  destruct (test_and_skip_spec _ _ _ _ Hq E1) as (V1 & Hs1).
  destruct (Hs1 Hn1) as (_ & _ & _ & Hopen & _).
  pose proof (good_evolves _ _ Hg V1 B1) as G1.
  destruct (capture_ptr f1 (fcur f1) JSON_TYPE_STRING) as [n2 f2] eqn:E2.
  destruct (Z.ltb_spec n2 0) as [|Hn2]; [injection H as <- <-; lia|].
  pose proof (capture_ptr_cur _ _ _ _ _ E2) as C2.
  pose proof (capture_ptr_evolves _ _ _ _ _ E2) as [Ee2 Em2 _ _ _ _ _].
  assert (Hz : (0:Z) <> QUOTE) by discriminate.
  pose proof (parse_string_loop_bytes _ _ _ _ _ Hz H Hn) as Hbytes.
  destruct (parse_string_loop_spec _ _ _ _ _ Hz H) as (_ & Hs3).
  destruct (Hs3 Hn) as (_ & _ & _ & Hclose).
  destruct (parse_string_loop_close _ _ _ _ _ Hz H Hn)
    as (h & r & h' & Sh & Hcur & E3 & ->).
  cbn [fcur set_cur] in *.
  replace (fcur h + 1 - 1) with (fcur h) in * by lia.
  apply (spells_pre f f1); [exact S1|exact V1|].
  apply (spells_post f1 h'); [|apply same_rec_set_cur].
  assert (Hspan : 0 <= fcur h - fcur f1 <= INT_MAX).
  { destruct V as [Ee _ _ _ _ _ _]. destruct Hg as (_ & Hb & He).
    destruct V1 as [_ _ _ V1 _ _ _].
    unfold in_bounds in *. simpl in *. lia. }
  destruct (leaf_token _ _ _ _ _ _ _ _ _ (proj1 G1) E2 Hn2 Sh E3 Hspan)
    as (N & T).
  apply (leaf_spells f1 h' _ N T). unfold spelt. cbn [type ptr len].
  rewrite Zplus_minus. destruct V1 as [_ Em1 _ _ _ _ _].
  rewrite Em2 in Hbytes, Hclose. split.
  - intros i Hi. apply Hbytes. lia.
  - left. split; [rewrite Em1; exact Hopen|exact Hclose].
Qed.

Lemma parse_key_spells f n g :
  good f -> parse_key f = (n, g) -> 0 <= n -> spells f g.
Proof.
  intros Hg H Hn. unfold parse_key in H.
  destruct (cur f) as [c h] eqn:Ec.
  pose proof (same_rec_cur _ _ _ Ec) as S0.
  destruct (good_cur _ _ _ Hg Ec) as [Gh _].
  apply cur_spec in Ec as (_ & V0 & _ & _).
  apply (spells_pre f h); [exact S0|exact V0|].
  destruct (is_alpha c).
  - destruct (parse_identifier h) as [n1 f1] eqn:E1.
    destruct (Z.ltb_spec n1 0); injection H as <- <-; [lia|].
    eapply parse_identifier_spells; eauto.
  - destruct (c =? QUOTE).
    + destruct (parse_string h) as [n1 f1] eqn:E1.
      destruct (Z.ltb_spec n1 0); injection H as <- <-; [lia|].
      eapply parse_string_spells; eauto.
    + injection H as <- <-. exfalso.
      unfold JSON_STRING_INCOMPLETE, JSON_STRING_INVALID in Hn.
      destruct (c =? END_OF_STRING); lia.
Qed.

(** What a rule that succeeds spells. *)
Definition rule_spells (rule : frozen -> option result) : Prop :=
  forall f n g, good f -> rule f = Some (n, g) -> 0 <= n -> spells f g.

Lemma good_num f : good f -> 0 <= num_tokens f.
Proof. intros ((a & _ & _ & H) & _). lia. Qed.

Lemma loop_body_spells rule loop close :
  (forall f n g, rule f = Some (n, g) -> rule_post f n g) ->
  rule_records loop -> rule_spells rule -> rule_spells loop ->
  rule_spells (loop_body rule loop close).
Proof.
  intros Prule Rloop Srule Sloop f n g Hg H Hn. unfold loop_body in H.
  destruct (cur f) as [c h] eqn:Ec.
  pose proof (same_rec_cur _ _ _ Ec) as S0.
  destruct (good_cur _ _ _ Hg Ec) as [Gh _].
  apply cur_spec in Ec as (_ & V0 & _ & _).
  apply (spells_pre f h); [exact S0|exact V0|].
  destruct (c =? close); cbn [negb] in H.
  { injection H as <- <-. apply spells_same, same_rec_refl. }
  try_step H n1 g1 E1 Hn1; [lia|].
  destruct (Prule _ _ _ E1) as (V1 & B1 & _).
  pose proof (good_evolves _ _ Gh V1 (B1 (proj1 (proj2 Gh)))) as G1.
  destruct (skip_comma_post g1) as [V3 B3].
  pose proof (good_evolves _ _ G1 V3 (B3 (proj1 (proj2 G1)))) as G3.
  eapply (spells_trans h g1 g);
    [eapply Srule; eauto| | |exact V1|apply good_num, Gh].
  - apply (spells_pre g1 (skip_comma g1));
      [apply same_rec_skip_comma|exact V3|].
    eapply Sloop; eauto.
  - apply (records_pre g1 (skip_comma g1)); [apply same_rec_skip_comma|].
    eapply Rloop; eauto.
Qed.

Lemma container_spells loop open close ty :
  open <> END_OF_STRING -> close <> END_OF_STRING ->
  (forall m e t, type t = ty -> 2 <= len t -> byte_at m (ptr t) = open ->
                 byte_at m (ptr t + len t - 1) = close -> spelt m e t) ->
  (forall f n g, loop f = Some (n, g) -> loop_post f n g) ->
  rule_records loop -> rule_spells loop ->
  rule_spells (container loop open close ty).
Proof.
  intros Ho Hc Hsp Ploop Rloop Sloop f n g Hg H Hn.
  destruct (container_token _ _ _ _ _ _ _ Ho Hc Ploop Rloop Hg H Hn)
    as (t & Ht & Hty & _ & _ & Hopen & Hlen & Hend & Hclose & _ & _).
  unfold container in H. cbv zeta in H.
  try_step H n1 f1 E1 Hn1; [lia|].
  try_step H n2 f2 E2 Hn2; [lia|].
  try_step H n3 f3 E3 Hn3; [lia|].
  try_step H n4 f4 E4 Hn4; [lia|].
  destruct (capture_len f4 (num_tokens f2 - 1) (fcur f4)) as [n5 f5] eqn:E5.
  injection H as _ <-.
  pose proof (same_rec_test_and_skip _ _ _ _ E1) as S1.
  pose proof (test_and_skip_bounds _ _ _ _ Ho E1 (proj1 (proj2 Hg))) as B1.
  pose proof (test_and_skip_evolves f open) as V1. rewrite E1 in V1.
  simpl in V1.
  pose proof (good_evolves _ _ Hg V1 B1) as G1.
  pose proof (capture_ptr_bounds _ _ _ _ _ E2 B1) as B2.
  pose proof (capture_ptr_evolves _ _ _ _ _ E2) as V2.
  pose proof (good_evolves _ _ G1 V2 B2) as G2.
  destruct (capture_ptr_records _ _ _ _ _ (proj1 G1) E2 Hn2)
    as (N2 & _ & _).
  destruct (Ploop _ _ _ E3) as (V3 & B3 & _).
  pose proof (good_evolves _ _ G2 V3 (B3 B2)) as G3.
  destruct (Rloop _ _ _ G2 E3 Hn3) as (N3 & _ & _).
  pose proof (same_rec_test_and_skip _ _ _ _ E4) as S4.
  pose proof (test_and_skip_bounds _ _ _ _ Hc E4 (proj1 (proj2 G3))) as B4.
  pose proof (test_and_skip_evolves f3 close) as V4. rewrite E4 in V4.
  simpl in V4.
  pose proof (good_evolves _ _ G3 V4 B4) as G4.
  pose proof S1 as (_ & N1 & _). pose proof S4 as (_ & N4 & _).
  pose proof (good_num _ Hg) as Hnum.
  assert (Hk : 0 <= num_tokens f2 - 1 < num_tokens f4) by lia.
  destruct (capture_len_records _ _ _ _ _ (proj1 G4) Hk E5) as (N5 & F5 & _).
  pose proof (Sloop _ _ _ G2 E3 Hn3) as Sp.
  destruct V1 as [Ee1 Em1 _ _ _ _ _]. destruct V2 as [Ee2 Em2 _ _ _ _ _].
  intros i Hi. destruct (Z.eq_dec i (num_tokens f)) as [->|Hne].
  - exists t. split; [exact Ht|]. apply Hsp; auto.
    rewrite Hend. exact Hclose.
  - destruct (Sp i ltac:(lia)) as (t3 & Ht3 & Hs3).
    exists t3. rewrite F5, (same_rec_tok_at f3 f4 _ S4) by lia.
    split; [exact Ht3|]. rewrite Ee2, Ee1, Em2, Em1 in Hs3. exact Hs3.
Qed.
Lemma parse_pair_spells fuel :
  rule_records (parse_value fuel) -> rule_spells (parse_value fuel) ->
  rule_spells (parse_pair (S fuel)).
Proof.
  intros Rv Sv f n g Hg H Hn. rewrite parse_pair_S in H.
  try_step H n1 f1 E1 Hn1; [lia|].
  try_step H n2 f2 E2 Hn2; [lia|].
  try_step H n3 f3 E3 Hn3; [lia|].
  injection H as <- <-.
  destruct (parse_key_post _ _ _ E1) as (V1 & B1 & _).
  pose proof (good_evolves _ _ Hg V1 (B1 (proj1 (proj2 Hg)))) as G1.
  pose proof (same_rec_test_and_skip _ _ _ _ E2) as S2.
  pose proof (test_and_skip_bounds _ _ _ _ (ch_ne_eos _) E2
                (proj1 (proj2 G1))) as B2.
  pose proof (test_and_skip_evolves f1 (ch ":")) as V2. rewrite E2 in V2.
  simpl in V2.
  pose proof (good_evolves _ _ G1 V2 B2) as G2.
  eapply (spells_trans f f1 f3);
    [eapply parse_key_spells; eauto| | |exact V1|apply good_num, Hg].
  - apply (spells_pre f1 f2); [exact S2|exact V2|]. eapply Sv; eauto.
  - apply (records_pre f1 f2); [exact S2|]. eapply Rv; eauto.
Qed.

Lemma parse_value_spells fuel :
  rule_spells (parse_object fuel) -> rule_spells (parse_array fuel) ->
  rule_spells (parse_value (S fuel)).
Proof.
  intros So Sa f n g Hg H Hn. rewrite parse_value_S in H.
  destruct (cur f) as [c h] eqn:Ec.
  pose proof (same_rec_cur _ _ _ Ec) as S0.
  pose proof (cur_idem _ _ _ Ec) as Ei.
  destruct (good_cur _ _ _ Hg Ec) as [Gh _].
  apply cur_spec in Ec as (_ & V0 & _ & _).
  apply (spells_pre f h); [exact S0|exact V0|]. clear S0 V0 Hg f.
  destruct (c =? QUOTE).
  { try_step H n1 f1 E1 Hn1; [lia|]. injection H as <- <-.
    eapply parse_string_spells; eauto. }
  destruct (c =? ch "{").
  { try_step H n1 f1 E1 Hn1; [lia|]. injection H as <- <-.
    eapply So; eauto. }
  destruct (c =? ch "[").
  { try_step H n1 f1 E1 Hn1; [lia|]. injection H as <- <-.
    eapply Sa; eauto. }
  destruct ((c =? ch "n") && compare h "null" 4) eqn:En.
  { apply andb_prop in En as [_ Hcmp].
    try_step H n1 f1 E1 Hn1; [lia|]. injection H as <- <-.
    eapply (parse_literal_spells h _ "null" 4); eauto; [lia|].
    intros Hb. split; [reflexivity|exact Hb]. }
  destruct ((c =? ch "t") && compare h "true" 4) eqn:Et.
  { apply andb_prop in Et as [_ Hcmp].
    try_step H n1 f1 E1 Hn1; [lia|]. injection H as <- <-.
    eapply (parse_literal_spells h _ "true" 4); eauto; [lia|].
    intros Hb. split; [reflexivity|exact Hb]. }
  destruct ((c =? ch "f") && compare h "false" 5) eqn:Ef.
  { apply andb_prop in Ef as [_ Hcmp].
    try_step H n1 f1 E1 Hn1; [lia|]. injection H as <- <-.
    eapply (parse_literal_spells h _ "false" 5); eauto; [lia|].
    intros Hb. split; [reflexivity|exact Hb]. }
  destruct (is_digit c
            || ((c =? ch "-") && (fcur h + 1 <? fend h)
                && is_digit (byte_at (mem h) (fcur h + 1)))) eqn:Enum.
  { try_step H n1 f1 E1 Hn1; [lia|]. injection H as <- <-.
    eapply parse_number_spells; eauto. }
  injection H as <- <-. exfalso.
  unfold JSON_STRING_INCOMPLETE, JSON_STRING_INVALID in Hn.
  destruct (c =? END_OF_STRING); lia.
Qed.

Lemma rules_spell fuel :
  rule_spells (parse_value fuel) /\ rule_spells (parse_array_loop fuel)
  /\ rule_spells (parse_array fuel) /\ rule_spells (parse_pair fuel)
  /\ rule_spells (parse_object_loop fuel)
  /\ rule_spells (parse_object fuel).
Proof.
  induction fuel as [|fuel (IHv & IHal & IHa & IHp & IHol & IHo)].
  { unfold rule_spells. repeat apply conj; intros; discriminate. }
  destruct (rules_post_all fuel) as (Pv & Pal & Pa & Pp & Pol & Po).
  destruct (rules_record fuel) as (Rv & Ral & Ra & Rp & Rol & Ro).
  repeat apply conj.
  - apply parse_value_spells; assumption.
  - rewrite parse_array_loop_body. apply loop_body_spells; auto.
  - rewrite parse_array_container.
    apply container_spells; auto using ch_ne_eos.
    intros m e t Hty Hl Ho Hc. unfold spelt. rewrite Hty. auto.
  - apply parse_pair_spells; assumption.
  - rewrite parse_object_loop_body. apply loop_body_spells; auto.
  - rewrite parse_object_container.
    apply container_spells; auto using ch_ne_eos.
    intros m e t Hty Hl Ho Hc. unfold spelt. rewrite Hty. auto.
Qed.

(** After a successful [parse_json] every token before the end-of-input
    marker is spelt as its type says, and the first token is that of the
    root object. *)
Lemma parse_json_spells m s_len a arr_len r g :
  parse_json_frozen (Some m) s_len (Some a) arr_len = Some (r, g) ->
  0 <= r -> s_len <= INT_MAX -> 0 < arr_len <= Z.of_nat (length a) ->
  (forall i, 0 <= i < num_tokens g - 1 ->
     exists t, tok_at g i = Some t /\ spelt m s_len t)
  /\ exists t, tok_at g 0 = Some t /\ type t = JSON_TYPE_OBJECT
       /\ (forall i, 0 <= i < ptr t -> is_space (byte_at m i) = true)
       /\ ptr t + len t = r
       /\ num_children t = num_tokens g - 2.
Proof.
  intros H Hr Hmax Hcap.
  destruct (parse_json_frozen_cases _ _ _ _ _ _ H Hmax) as [[Hrg Hb]|[Hneg _]];
    [|lia].
  unfold parse_json_frozen in H.
  assert (Hd : bool_decide (Some m = @None (list ascii)) = false)
    by (apply bool_decide_eq_false; discriminate).
  rewrite Hd in H. cbn [orb] in H.
  destruct (Z.ltb_spec s_len 0);
    [injection H as <- _; unfold JSON_STRING_INVALID in Hr; lia|].
  destruct (s_len =? 0);
    [injection H as <- _; unfold JSON_STRING_INCOMPLETE in Hr; lia|].
  try_step H n1 f1 E1 Hn1; [lia|].
  try_step H n2 f2 E2 Hn2; [lia|].
  destruct (capture_len f2 (num_tokens f2) (fcur f2)) as [n3 f3] eqn:E3.
  injection H as _ <-.
  assert (G0 : good (init_frozen (Some m) s_len (Some a) arr_len)).
  { split; [|split; [apply init_in_bounds; lia|exact Hmax]].
    exists a. simpl. split; [reflexivity|]. lia. }
  destruct (rules_post_all (fuel_of s_len)) as (_ & _ & _ & _ & _ & Po).
  destruct (Po _ _ _ E1) as (V1 & B1 & _).
  pose proof (good_evolves _ _ G0 V1 (B1 (proj1 (proj2 G0)))) as G1.
  destruct (rules_record (fuel_of s_len)) as (_ & _ & _ & _ & _ & Ro).
  destruct (Ro _ _ _ G0 E1 Hn1) as (N1 & _ & _). simpl in N1.
  destruct (rules_spell (fuel_of s_len)) as (_ & _ & _ & _ & _ & So).
  pose proof (So _ _ _ G0 E1 Hn1) as Sp.
  destruct (capture_ptr_records _ _ _ _ _ (proj1 G1) E2 Hn2)
    as (N2 & F2 & _).
  assert (Hk : 0 <= num_tokens f2) by lia.
  destruct (capture_len_frame _ _ _ _ _ Hk E3) as (N3 & F3).
  rewrite (capture_len_cur _ _ _ _ _ E3), (capture_ptr_cur _ _ _ _ _ E2)
    in Hrg.
  split.
  - intros i Hi. rewrite N3, N2 in Hi.
    destruct (Sp i ltac:(simpl; lia)) as (t & Ht & Hs).
    exists t. rewrite F3, F2 by lia. split; [exact Ht|exact Hs].
  - unfold fuel_of in E1.
    replace (4 * Z.to_nat s_len + 4)%nat
      with (S (4 * Z.to_nat s_len + 3)) in E1 by lia.
    destruct (rules_post_all (4 * Z.to_nat s_len + 3))
      as (_ & _ & _ & _ & Pol & _).
    destruct (rules_record (4 * Z.to_nat s_len + 3))
      as (_ & _ & _ & _ & Rol & _).
    rewrite parse_object_container in E1.
    destruct (container_token _ _ _ _ _ _ _ (ch_ne_eos _) (ch_ne_eos _)
                Pol Rol G0 E1 Hn1)
      as (t & Ht & Hty & _ & Hws & _ & _ & Hend & _ & Hc & Hpos).
    simpl in Ht, Hws, Hc, Hpos.
    exists t. rewrite F3, F2 by lia. split; [exact Ht|].
    split; [exact Hty|]. split; [exact Hws|]. split; [lia|]. lia.
Qed.
(** A token before the end-of-input marker: its spelling, and the closing
    brace of the root object after it. *)
Lemma token_of_run m s_len a arr_len r g toks (i : nat) t :
  parse_json_frozen (Some m) s_len (Some a) arr_len = Some (r, g) ->
  0 <= r -> s_len <= INT_MAX -> 0 < arr_len <= Z.of_nat (length a) ->
  tokens g = Some toks -> (S i < Z.to_nat (num_tokens g))%nat ->
  toks !! i = Some t ->
  spelt m s_len t /\ ptr t + len t <= r /\ r <= s_len
  /\ byte_at m (r - 1) = ch "}".
Proof.
  intros H Hr Hmax Hcap Htoks Hi Ht.
  destruct (parse_json_spells _ _ _ _ _ _ H Hr Hmax Hcap)
    as (Hall & t0 & Ht0 & Hty0 & _ & Hend0 & _).
  destruct (Hall (Z.of_nat i) ltac:(lia)) as (t1 & Ht1 & Hs1).
  destruct (Hall 0 ltac:(lia)) as (t0' & Ht0' & Hs0).
  rewrite Ht0 in Ht0'. injection Ht0' as <-.
  destruct (parse_json_spans _ _ _ _ _ _ H Hr Hmax Hcap (Z.of_nat i)
              ltac:(lia)) as (t2 & Ht2 & _ & Hhi).
  unfold tok_at in Ht1, Ht2. rewrite Htoks, Nat2Z.id in Ht1, Ht2.
  simpl in Ht1, Ht2. rewrite Ht in Ht1, Ht2.
  injection Ht1 as <-. injection Ht2 as <-.
  split; [exact Hs1|]. split; [exact Hhi|].
  destruct (parse_json_frozen_cases _ _ _ _ _ _ H Hmax) as [[-> Hb]|[Hn _]];
    [|lia].
  split; [lia|].
  unfold spelt in Hs0. rewrite Hty0 in Hs0.
  destruct Hs0 as (_ & _ & Hclose). rewrite Hend0 in Hclose. exact Hclose.
Qed.

(** ** The bytes of the tokens, by type *)

(** X8: after a successful [parse_json] a NUMBER token is a run of
    digits, after a minus sign or not, and the byte after it is not a
    digit: no other byte, such as a decimal point or an exponent, is part
    of a number. *)
Theorem number_tokens_are_digit_runs (m : list ascii) (s_len : Z)
    (a : list json_token) (arr_len r : Z) (g : frozen)
    (toks : list json_token) (i : nat) (t : json_token) :
  parse_json_frozen (Some m) s_len (Some a) arr_len = Some (r, g) ->
  0 <= r -> s_len <= INT_MAX -> 0 < arr_len <= Z.of_nat (length a) ->
  tokens g = Some toks -> (S i < Z.to_nat (num_tokens g))%nat ->
  toks !! i = Some t -> type t = JSON_TYPE_NUMBER ->
  ((is_digit (byte_at m (ptr t)) = true /\ 0 < len t)
   \/ (byte_at m (ptr t) = ch "-" /\ 1 < len t))
  /\ (forall j, ptr t < j < ptr t + len t ->
        is_digit (byte_at m j) = true)
  /\ is_digit (byte_at m (ptr t + len t)) = false.
Proof.
  intros H Hr Hmax Hcap Htoks Hi Ht Hty.
  destruct (token_of_run _ _ _ _ _ _ _ _ _ H Hr Hmax Hcap Htoks Hi Ht)
    as (Hs & Hhi & Hle & Hclose).
  unfold spelt in Hs. rewrite Hty in Hs. destruct Hs as (Hfirst & Hrest & Hnext).
  split; [exact Hfirst|]. split; [exact Hrest|].
  apply Hnext.
  destruct (Z.eq_dec (ptr t + len t) r) as [Heq|]; [exfalso|lia].
  destruct (Z.eq_dec (len t) 1) as [Hone|Hmore].
  - destruct Hfirst as [[Hd _]|[_ Hl]]; [|lia].
    replace (ptr t) with (r - 1) in Hd by lia.
    rewrite Hclose in Hd. discriminate Hd.
  - assert (Hl : 1 < len t) by (destruct Hfirst as [[_ ?]|[_ ?]]; lia).
    specialize (Hrest (r - 1) ltac:(lia)).
    rewrite Hclose in Hrest. discriminate Hrest.
Qed.

(** X9: after a successful [parse_json] every byte of a STRING token
    is in the range 32..127.  The token is the text between two double
    quotes, or it is an identifier, a key written without quotes: a
    letter and then letters, digits and underscores, as many as there
    are. *)
Theorem string_tokens_are_plain (m : list ascii) (s_len : Z)
    (a : list json_token) (arr_len r : Z) (g : frozen)
    (toks : list json_token) (i : nat) (t : json_token) :
  parse_json_frozen (Some m) s_len (Some a) arr_len = Some (r, g) ->
  0 <= r -> s_len <= INT_MAX -> 0 < arr_len <= Z.of_nat (length a) ->
  tokens g = Some toks -> (S i < Z.to_nat (num_tokens g))%nat ->
  toks !! i = Some t -> type t = JSON_TYPE_STRING ->
  (forall j, ptr t <= j < ptr t + len t -> 32 <= byte_at m j <= 127)
  /\ ((byte_at m (ptr t - 1) = QUOTE /\ byte_at m (ptr t + len t) = QUOTE)
      \/ (is_alpha (byte_at m (ptr t)) = true /\ 0 < len t
          /\ (forall j, ptr t <= j < ptr t + len t ->
                ident_byte (byte_at m j) = true)
          /\ ident_byte (byte_at m (ptr t + len t)) = false)).
Proof.
  intros H Hr Hmax Hcap Htoks Hi Ht Hty.
  destruct (token_of_run _ _ _ _ _ _ _ _ _ H Hr Hmax Hcap Htoks Hi Ht)
    as (Hs & Hhi & Hle & Hclose).
  unfold spelt in Hs. rewrite Hty in Hs. destruct Hs as (Hplain & Hkind).
  split; [exact Hplain|].
  destruct Hkind as [Hq|(Ha & Hl & Hid & Hnext)]; [left; exact Hq|right].
  split; [exact Ha|]. split; [exact Hl|]. split; [exact Hid|].
  apply Hnext.
  destruct (Z.eq_dec (ptr t + len t) r) as [Heq|]; [exfalso|lia].
  specialize (Hid (r - 1) ltac:(lia)).
  rewrite Hclose in Hid. discriminate Hid.
Qed.

(** X10: after a successful [parse_json] a TRUE, FALSE or NULL token
    is the word [true], [false] or [null] in the input. *)
Theorem literal_tokens_are_words (m : list ascii) (s_len : Z)
    (a : list json_token) (arr_len r : Z) (g : frozen)
    (toks : list json_token) (i : nat) (t : json_token) :
  parse_json_frozen (Some m) s_len (Some a) arr_len = Some (r, g) ->
  0 <= r -> s_len <= INT_MAX -> 0 < arr_len <= Z.of_nat (length a) ->
  tokens g = Some toks -> (S i < Z.to_nat (num_tokens g))%nat ->
  toks !! i = Some t ->
  (type t = JSON_TYPE_TRUE ->
   len t = 4 /\ bytes_are m (ptr t) "true")
  /\ (type t = JSON_TYPE_FALSE ->
      len t = 5 /\ bytes_are m (ptr t) "false")
  /\ (type t = JSON_TYPE_NULL ->
      len t = 4 /\ bytes_are m (ptr t) "null").
Proof.
  intros H Hr Hmax Hcap Htoks Hi Ht.
  destruct (token_of_run _ _ _ _ _ _ _ _ _ H Hr Hmax Hcap Htoks Hi Ht)
    as (Hs & _).
  unfold spelt in Hs.
  split; [|split]; intros Hty; rewrite Hty in Hs; exact Hs.
Qed.

(** X11: after a successful [parse_json] an OBJECT token starts at
    an opening brace and ends after the closing brace, and an ARRAY token
    starts at an opening bracket and ends after the closing bracket. *)
Theorem container_tokens_are_bracketed (m : list ascii) (s_len : Z)
    (a : list json_token) (arr_len r : Z) (g : frozen)
    (toks : list json_token) (i : nat) (t : json_token) :
  parse_json_frozen (Some m) s_len (Some a) arr_len = Some (r, g) ->
  0 <= r -> s_len <= INT_MAX -> 0 < arr_len <= Z.of_nat (length a) ->
  tokens g = Some toks -> (S i < Z.to_nat (num_tokens g))%nat ->
  toks !! i = Some t ->
  (type t = JSON_TYPE_OBJECT ->
   2 <= len t /\ byte_at m (ptr t) = ch "{"
   /\ byte_at m (ptr t + len t - 1) = ch "}")
  /\ (type t = JSON_TYPE_ARRAY ->
      2 <= len t /\ byte_at m (ptr t) = ch "["
      /\ byte_at m (ptr t + len t - 1) = ch "]").
Proof.
  intros H Hr Hmax Hcap Htoks Hi Ht.
  destruct (token_of_run _ _ _ _ _ _ _ _ _ H Hr Hmax Hcap Htoks Hi Ht)
    as (Hs & _).
  unfold spelt in Hs.
  split; intros Hty; rewrite Hty in Hs; exact Hs.
Qed.

(** X12: after a successful [parse_json] the first token is that of
    the root object: only white space comes before it, it ends at the
    offset returned, and its subtree is every token before the
    end-of-input marker. *)
Theorem first_token_is_the_root (m : list ascii) (s_len : Z)
    (a : list json_token) (arr_len r : Z) (g : frozen)
    (toks : list json_token) :
  parse_json_frozen (Some m) s_len (Some a) arr_len = Some (r, g) ->
  0 <= r -> s_len <= INT_MAX -> 0 < arr_len <= Z.of_nat (length a) ->
  tokens g = Some toks ->
  exists t, toks !! 0%nat = Some t /\ type t = JSON_TYPE_OBJECT
    /\ (forall j, 0 <= j < ptr t -> is_space (byte_at m j) = true)
    /\ ptr t + len t = r
    /\ num_children t = num_tokens g - 2.
Proof.
  intros H Hr Hmax Hcap Htoks.
  destruct (parse_json_spells _ _ _ _ _ _ H Hr Hmax Hcap)
    as (_ & t & Ht & Hrest).
  unfold tok_at in Ht. rewrite Htoks in Ht. simpl in Ht.
  exists t. split; [exact Ht|exact Hrest].
Qed.
(** A sample input and its run, for the witnesses below. *)
Definition sample : list ascii := bytes "{'a':[-12,true],b:'x'}".

Definition sample_run : frozen :=
  snd (default (0, init_frozen None 0 None 0)
         (parse_json_frozen (Some sample) 22 (Some (blank 9)) 9)).

Definition sample_tokens : list json_token :=
  default [] (tokens sample_run).

Definition sample_token (i : nat) : json_token :=
  default (Token 0 0 0 JSON_TYPE_EOF) (sample_tokens !! i).

Lemma sample_parse :
  parse_json_frozen (Some sample) 22 (Some (blank 9)) 9
  = Some (22, sample_run).
Proof. vm_compute. reflexivity. Qed.

Lemma sample_tokens_eq : tokens sample_run = Some sample_tokens.
Proof. vm_compute. reflexivity. Qed.

Lemma sample_int : 22 <= INT_MAX.
Proof. vm_compute. discriminate. Qed.

Lemma sample_capacity : 0 < 9 <= Z.of_nat (length (blank 9)).
Proof. vm_compute. split; [reflexivity|discriminate]. Qed.

Lemma sample_index (i : nat) :
  (i < 7)%nat ->
  (S i < Z.to_nat (num_tokens sample_run))%nat
  /\ sample_tokens !! i = Some (sample_token i).
Proof.
  intros Hi. split; [vm_compute; lia|].
  do 7 (destruct i as [|i]; [vm_compute; reflexivity|]). lia.
Qed.

Lemma number_tokens_are_digit_runs_witness :
  ((is_digit (byte_at sample (ptr (sample_token 3))) = true
    /\ 0 < len (sample_token 3))
   \/ (byte_at sample (ptr (sample_token 3)) = ch "-"
       /\ 1 < len (sample_token 3)))
  /\ (forall j, ptr (sample_token 3) < j
                < ptr (sample_token 3) + len (sample_token 3) ->
        is_digit (byte_at sample j) = true)
  /\ is_digit (byte_at sample (ptr (sample_token 3) + len (sample_token 3)))
     = false.
Proof.
  assert (Hi : (3 < 7)%nat) by lia.
  assert (Hr : 0 <= 22) by lia.
  assert (Hty : type (sample_token 3) = JSON_TYPE_NUMBER)
    by (vm_compute; reflexivity).
  exact (number_tokens_are_digit_runs sample 22 (blank 9) 9 22
           sample_run sample_tokens 3 (sample_token 3) sample_parse Hr
           sample_int sample_capacity sample_tokens_eq
           (proj1 (sample_index 3 Hi)) (proj2 (sample_index 3 Hi)) Hty).
Defined.

Lemma string_tokens_are_plain_witness :
  (forall j, ptr (sample_token 5) <= j
             < ptr (sample_token 5) + len (sample_token 5) ->
     32 <= byte_at sample j <= 127)
  /\ ((byte_at sample (ptr (sample_token 5) - 1) = QUOTE
       /\ byte_at sample (ptr (sample_token 5) + len (sample_token 5))
          = QUOTE)
      \/ (is_alpha (byte_at sample (ptr (sample_token 5))) = true
          /\ 0 < len (sample_token 5)
          /\ (forall j, ptr (sample_token 5) <= j
                         < ptr (sample_token 5) + len (sample_token 5) ->
                ident_byte (byte_at sample j) = true)
          /\ ident_byte
               (byte_at sample (ptr (sample_token 5) + len (sample_token 5)))
             = false)).
Proof.
  assert (Hi : (5 < 7)%nat) by lia.
  assert (Hr : 0 <= 22) by lia.
  assert (Hty : type (sample_token 5) = JSON_TYPE_STRING)
    by (vm_compute; reflexivity).
  exact (string_tokens_are_plain sample 22 (blank 9) 9 22
           sample_run sample_tokens 5 (sample_token 5) sample_parse Hr
           sample_int sample_capacity sample_tokens_eq
           (proj1 (sample_index 5 Hi)) (proj2 (sample_index 5 Hi)) Hty).
Defined.

Lemma literal_tokens_are_words_witness :
  len (sample_token 4) = 4
  /\ bytes_are sample (ptr (sample_token 4)) "true".
Proof.
  assert (Hi : (4 < 7)%nat) by lia.
  assert (Hr : 0 <= 22) by lia.
  assert (Hty : type (sample_token 4) = JSON_TYPE_TRUE)
    by (vm_compute; reflexivity).
  exact (proj1 (literal_tokens_are_words sample 22 (blank 9) 9 22
                  sample_run sample_tokens 4 (sample_token 4) sample_parse
                  Hr sample_int sample_capacity sample_tokens_eq
                  (proj1 (sample_index 4 Hi)) (proj2 (sample_index 4 Hi)))
           Hty).
Defined.

Lemma container_tokens_are_bracketed_witness :
  2 <= len (sample_token 2)
  /\ byte_at sample (ptr (sample_token 2)) = ch "["
  /\ byte_at sample (ptr (sample_token 2) + len (sample_token 2) - 1)
     = ch "]".
Proof.
  assert (Hi : (2 < 7)%nat) by lia.
  assert (Hr : 0 <= 22) by lia.
  assert (Hty : type (sample_token 2) = JSON_TYPE_ARRAY)
    by (vm_compute; reflexivity).
  exact (proj2 (container_tokens_are_bracketed sample 22 (blank 9) 9 22
                  sample_run sample_tokens 2 (sample_token 2) sample_parse
                  Hr sample_int sample_capacity sample_tokens_eq
                  (proj1 (sample_index 2 Hi)) (proj2 (sample_index 2 Hi)))
           Hty).
Defined.

Lemma first_token_is_the_root_witness :
  exists t, sample_tokens !! 0%nat = Some t /\ type t = JSON_TYPE_OBJECT
    /\ (forall j, 0 <= j < ptr t -> is_space (byte_at sample j) = true)
    /\ ptr t + len t = 22
    /\ num_children t = num_tokens sample_run - 2.
Proof.
  assert (Hr : 0 <= 22) by lia.
  exact (first_token_is_the_root sample 22 (blank 9) 9 22 sample_run
           sample_tokens sample_parse Hr sample_int sample_capacity
           sample_tokens_eq).
Defined.
(** ** The bytes that a run reads

    A run over an input of [e] bytes, and the run over another memory
    that holds the same bytes at the offsets from 0 to [e], the byte after
    the input included: the two runs return the same. *)
Lemma scan_while_ext (p : Z -> bool) (m1 m2 : list ascii) (n : nat) (c : Z) :
  (forall i, c <= i < c + Z.of_nat n -> byte_at m2 i = byte_at m1 i) ->
  scan_while p m2 n c = scan_while p m1 n c.
Proof.
  revert c. induction n as [|n IH]; intros c H; simpl; [reflexivity|].
  rewrite H by lia. destruct (p (byte_at m1 c)); [|reflexivity].
  apply IH. intros i Hi. apply H. lia.
Qed.

Lemma compare_loop_ext (m1 m2 : list ascii) (c : Z) (str : list ascii)
    (i : Z) :
  (forall j, i <= j < i + Z.of_nat (length str) ->
             byte_at m2 (c + j) = byte_at m1 (c + j)) ->
  compare_loop m2 c str i = compare_loop m1 c str i.
Proof.
  revert i. induction str as [|x str IH]; intros i H; [reflexivity|].
  cbn [compare_loop length] in *. rewrite Nat2Z.inj_succ in H.
  rewrite H by lia. destruct (_ =? _); [|reflexivity].
  apply IH. intros j Hj. apply H. lia.
Qed.

Section reread.

Variables m1 m2 : list ascii.
Variable e : Z.

Hypothesis same_bytes :
  forall i, 0 <= i <= e -> byte_at m2 i = byte_at m1 i.

Local Abbreviation ok := (src m1 e).
Local Abbreviation tw := (rt m2 e).

(** The result of the other run. *)
Definition twr (r : result) : result := (fst r, tw (snd r)).

Lemma scan_tw p f : ok f -> scan p (tw f) = tw (scan p f).
Proof.
  intros (Hend & Hmem & Hb). unfold in_bounds in Hb. unfold scan.
  cbn [fend fcur mem rt]. rewrite Hend, Hmem.
  rewrite (scan_while_ext p m1 m2); [reflexivity|].
  intros i Hi. apply same_bytes. lia.
Qed.

Lemma cur_tw f : ok f -> cur (tw f) = twr (cur f).
Proof.
  intros Hok. unfold cur, skip_whitespaces, twr. rewrite scan_tw by exact Hok.
  cbn [fst snd fend fcur mem rt].
  destruct Hok as (Hend & Hmem & Hb). unfold in_bounds in Hb.
  pose proof (scan_bounds is_space f Hb) as Hs. unfold in_bounds in Hs.
  pose proof (scan_evolves is_space f) as [Ee Em _ _ _ _ _].
  rewrite Ee, Em, Hend, Hmem in *.
  destruct (Z.geb_spec (fcur (scan is_space f)) e); [reflexivity|].
  rewrite same_bytes by lia. reflexivity.
Qed.

Lemma ok_cur f : ok f -> ok (snd (cur f)).
Proof.
  intros Hok. destruct (cur f) as [c h] eqn:Ec. simpl.
  pose proof (cur_bounds _ _ _ Ec (src_in_bounds _ _ _ Hok)) as B0.
  apply cur_spec in Ec as (_ & V0 & _ & _).
  eapply src_evolves; eauto.
Qed.

Lemma test_and_skip_tw f x :
  ok f -> test_and_skip (tw f) x = twr (test_and_skip f x).
Proof.
  intros Hok. unfold test_and_skip. rewrite cur_tw by exact Hok.
  destruct (cur f) as [c h]. unfold twr. cbn [fst snd].
  destruct (c =? x); reflexivity.
Qed.

Lemma skip_comma_tw f : ok f -> skip_comma (tw f) = tw (skip_comma f).
Proof.
  intros Hok. unfold skip_comma. rewrite cur_tw by exact Hok.
  destruct (cur f) as [c h]. unfold twr. cbn [fst snd].
  destruct (c =? ch ","); reflexivity.
Qed.

Lemma compare_tw f str k : ok f -> compare (tw f) str k = compare f str k.
Proof.
  intros Hok. pose proof (left_le f (src_in_bounds _ _ _ Hok)) as Hl.
  destruct Hok as (Hend & Hmem & Hb). unfold in_bounds in Hb.
  unfold compare, left in *. cbn [fend fcur mem rt]. rewrite Hend, Hmem in *.
  destruct (Z.ltb_spec (to_int (e - fcur f)) k); [reflexivity|].
  rewrite (compare_loop_ext m1 m2); [reflexivity|].
  intros j Hj. apply same_bytes. rewrite length_take in Hj. lia.
Qed.

Lemma get_escape_len_tw s l :
  0 <= s <= e -> (4 <= l -> s + 3 <= e) ->
  get_escape_len m2 s l = get_escape_len m1 s l.
Proof.
  intros Hs Hl. unfold get_escape_len. rewrite same_bytes by lia.
  destruct (_ =? ch "u"); [|reflexivity].
  destruct (Z.ltb_spec l 4); [reflexivity|].
  rewrite !same_bytes by lia. reflexivity.
Qed.

Lemma parse_string_loop_tw k c f :
  ok f -> parse_string_loop k c (tw f) = twr (parse_string_loop k c f).
Proof.
  revert c f. induction k as [|k IH]; intros c f Hok;
    pose proof (left_le f (src_in_bounds _ _ _ Hok)) as Hl;
    pose proof Hok as (Hend & Hmem & Hb); unfold in_bounds in Hb;
    cbn [parse_string_loop]; unfold left in *;
    cbn [fend fcur mem rt]; rewrite ?Hend, ?Hmem in *.
  - destruct (fcur f <? e); reflexivity.
  - destruct (Z.ltb_spec (fcur f) e); [|reflexivity].
    rewrite same_bytes by lia.
    destruct (negb _); [reflexivity|].
    rewrite get_escape_len_tw by lia.
    destruct (_ =? ch "\").
    + destruct (get_escape_len_cases m1 (fcur f + 1) (to_int (e - fcur f)))
        as [E|[E|(E & Hl2 & _)]]; rewrite E; [reflexivity..|].
      cbn [negb Z.gtb Z.compare]. rewrite <- rt_set_cur. apply IH.
      apply src_set_cur; [exact Hok|lia].
    + destruct (_ =? QUOTE).
      * cbn [num_tokens rt]. rewrite capture_len_rt.
        destruct (capture_len f _ _) as [r h]. reflexivity.
      * rewrite <- rt_set_cur. apply IH.
        apply src_set_cur; [exact Hok|lia].
Qed.

Lemma ok_test_and_skip f x :
  x <> END_OF_STRING -> ok f -> ok (snd (test_and_skip f x)).
Proof.
  intros Hx Hok. destruct (test_and_skip f x) as [n g] eqn:E. simpl.
  pose proof (test_and_skip_bounds _ _ _ _ Hx E (src_in_bounds _ _ _ Hok)).
  pose proof (test_and_skip_evolves f x) as V. rewrite E in V.
  eapply src_evolves; eauto.
Qed.

Lemma ok_capture_ptr f p ty : ok f -> ok (snd (capture_ptr f p ty)).
Proof.
  intros Hok. destruct (capture_ptr f p ty) as [n g] eqn:E. simpl.
  pose proof (capture_ptr_bounds _ _ _ _ _ E (src_in_bounds _ _ _ Hok)).
  eapply src_evolves; eauto using capture_ptr_evolves.
Qed.

Lemma parse_string_tw f : ok f -> parse_string (tw f) = twr (parse_string f).
Proof.
  intros Hok. unfold parse_string.
  rewrite test_and_skip_tw by exact Hok.
  pose proof (ok_test_and_skip f QUOTE quote_ne_eos Hok) as Ok1.
  destruct (test_and_skip f QUOTE) as [n1 f1]. unfold twr at 1.
  cbn [fst snd] in *.
  destruct (n1 <? 0); [reflexivity|].
  cbn [fcur rt]. rewrite capture_ptr_rt.
  pose proof (ok_capture_ptr f1 (fcur f1) JSON_TYPE_STRING Ok1) as Ok2.
  destruct (capture_ptr f1 (fcur f1) JSON_TYPE_STRING) as [n2 f2].
  cbn [fst snd] in *.
  destruct (n2 <? 0); [reflexivity|].
  cbn [fend fcur rt]. rewrite (proj1 Ok2).
  apply parse_string_loop_tw, Ok2.
Qed.

Lemma parse_number_tw f : ok f -> parse_number (tw f) = twr (parse_number f).
Proof.
  intros Hok. unfold parse_number. rewrite cur_tw by exact Hok.
  pose proof (ok_cur f Hok) as Ok0.
  destruct (cur f) as [c h]. unfold twr at 1. cbn [fst snd] in *.
  cbn [fcur rt]. rewrite capture_ptr_rt.
  pose proof (ok_capture_ptr h (fcur h) JSON_TYPE_NUMBER Ok0) as Ok1.
  destruct (capture_ptr h (fcur h) JSON_TYPE_NUMBER) as [n1 f1].
  cbn [fst snd] in *.
  destruct (n1 <? 0); [reflexivity|]. cbn [fcur rt].
  assert (Hscan : scan is_digit
            (if c =? ch "-" then set_cur (tw f1) (fcur f1 + 1) else tw f1)
          = tw (scan is_digit
                  (if c =? ch "-" then set_cur f1 (fcur f1 + 1) else f1))).
  { destruct (c =? ch "-"); [|apply scan_tw, Ok1].
    rewrite <- rt_set_cur.
    destruct (Z.le_gt_cases (fcur f1 + 1) e) as [Hle|Hgt].
    - apply scan_tw. apply src_set_cur; [exact Ok1|lia].
    - unfold scan. cbn [fend fcur mem rt set_cur].
      destruct Ok1 as (Hend & _). rewrite Hend.
      replace (Z.to_nat (e - (fcur f1 + 1))) with O by lia.
      reflexivity. }
  rewrite Hscan. cbn [fcur num_tokens rt]. rewrite capture_len_rt.
  destruct (capture_len _ _ _) as [n2 f2]. reflexivity.
Qed.

Lemma parse_identifier_tw f :
  ok f -> parse_identifier (tw f) = twr (parse_identifier f).
Proof.
  intros Hok. unfold parse_identifier. rewrite cur_tw by exact Hok.
  pose proof (ok_cur f Hok) as Ok0.
  destruct (cur f) as [c h]. unfold twr at 1. cbn [fst snd] in *.
  destruct (negb _); [reflexivity|].
  cbn [fcur rt]. rewrite capture_ptr_rt.
  pose proof (ok_capture_ptr h (fcur h) JSON_TYPE_STRING Ok0) as Ok1.
  destruct (capture_ptr h (fcur h) JSON_TYPE_STRING) as [n1 f1].
  cbn [fst snd] in *.
  destruct (n1 <? 0); [reflexivity|].
  rewrite scan_tw by exact Ok1.
  cbn [fcur num_tokens rt]. rewrite capture_len_rt.
  destruct (capture_len _ _ _) as [n2 f2]. reflexivity.
Qed.

Lemma parse_key_tw f : ok f -> parse_key (tw f) = twr (parse_key f).
Proof.
  intros Hok. unfold parse_key. rewrite cur_tw by exact Hok.
  pose proof (ok_cur f Hok) as Ok0.
  destruct (cur f) as [c h]. unfold twr at 1. cbn [fst snd] in *.
  destruct (is_alpha c).
  { rewrite parse_identifier_tw by exact Ok0.
    destruct (parse_identifier h) as [n g]. unfold twr. cbn [fst snd].
    destruct (n <? 0); reflexivity. }
  destruct (c =? QUOTE); [|reflexivity].
  rewrite parse_string_tw by exact Ok0.
  destruct (parse_string h) as [n g]. unfold twr. cbn [fst snd].
  destruct (n <? 0); reflexivity.
Qed.

(** A rule in the two runs. *)
Definition rule_tw (rule : frozen -> option result) : Prop :=
  forall f, ok f -> rule (tw f) = twr <$> rule f.

Lemma try_then_tw (r : option result) (k : frozen -> option result) :
  (forall n g, r = Some (n, g) -> 0 <= n -> k (tw g) = twr <$> k g) ->
  try_then (twr <$> r) k = twr <$> try_then r k.
Proof.
  intros Hk. destruct r as [[n g]|]; [|reflexivity]. simpl.
  destruct (Z.ltb_spec n 0); [reflexivity|]. apply (Hk n g); auto.
Qed.

Lemma try_leaf_tw (r : result) (k : frozen -> option result) :
  (0 <= fst r -> k (tw (snd r)) = twr <$> k (snd r)) ->
  try_then (Some (twr r)) k = twr <$> try_then (Some r) k.
Proof.
  intros Hk. apply (try_then_tw (Some r)).
  intros n g E Hn. injection E as ->. apply Hk. exact Hn.
Qed.

Lemma loop_body_tw rule loop close :
  (forall f n g, rule f = Some (n, g) -> rule_post f n g) ->
  rule_tw rule -> rule_tw loop -> rule_tw (loop_body rule loop close).
Proof.
  intros Prule Trule Tloop f Hok. unfold loop_body.
  rewrite cur_tw by exact Hok. pose proof (ok_cur f Hok) as Ok0.
  destruct (cur f) as [c h]. unfold twr at 1. cbn [fst snd] in *.
  destruct (negb _); [|reflexivity].
  rewrite Trule by exact Ok0. apply try_then_tw.
  intros n g E Hn. destruct (Prule _ _ _ E) as (V & B & _).
  assert (Okg : ok g).
  { eapply src_evolves; eauto. apply B. eapply src_in_bounds, Ok0. }
  rewrite skip_comma_tw by exact Okg. apply Tloop.
  destruct (skip_comma_post g) as [V3 B3].
  eapply src_evolves; eauto. apply B3. eapply src_in_bounds, Okg.
Qed.

Lemma container_tw loop open close ty :
  open <> END_OF_STRING -> close <> END_OF_STRING ->
  (forall f n g, loop f = Some (n, g) -> loop_post f n g) ->
  rule_tw loop -> rule_tw (container loop open close ty).
Proof.
  intros Ho Hc Ploop Tloop f Hok. unfold container. cbv zeta.
  rewrite test_and_skip_tw by exact Hok.
  pose proof (ok_test_and_skip f open Ho Hok) as Ok1.
  apply try_leaf_tw. intros _.
  destruct (test_and_skip f open) as [n1 f1]. cbn [fst snd] in *.
  cbn [fcur rt]. rewrite capture_ptr_rt.
  pose proof (ok_capture_ptr f1 (fcur f1 - 1) ty Ok1) as Ok2.
  apply (try_leaf_tw (capture_ptr f1 (fcur f1 - 1) ty)). intros _.
  destruct (capture_ptr f1 (fcur f1 - 1) ty) as [n2 f2]. cbn [fst snd] in *.
  cbn [num_tokens rt]. rewrite Tloop by exact Ok2.
  apply try_then_tw. intros n3 f3 E3 Hn3.
  destruct (Ploop _ _ _ E3) as (V3 & B3 & _).
  assert (Ok3 : ok f3).
  { eapply src_evolves; eauto. apply B3. eapply src_in_bounds, Ok2. }
  rewrite test_and_skip_tw by exact Ok3.
  apply try_leaf_tw. intros _.
  destruct (test_and_skip f3 close) as [n4 f4]. cbn [fst snd].
  cbn [fcur rt]. rewrite capture_len_rt.
  destruct (capture_len f4 _ _) as [n5 f5]. reflexivity.
Qed.

Lemma parse_pair_tw fuel :
  rule_tw (parse_value fuel) -> rule_tw (parse_pair (S fuel)).
Proof.
  intros Tv f Hok. rewrite !parse_pair_S.
  rewrite parse_key_tw by exact Hok.
  apply try_leaf_tw. intros _.
  assert (Ok1 : ok (snd (parse_key f))).
  { destruct (parse_key f) as [n1 f1] eqn:E1. simpl.
    destruct (parse_key_post _ _ _ E1) as (V1 & B1 & _).
    eapply src_evolves; eauto. apply B1. eapply src_in_bounds, Hok. }
  destruct (parse_key f) as [n1 f1]. cbn [fst snd] in *.
  rewrite test_and_skip_tw by exact Ok1.
  pose proof (ok_test_and_skip f1 (ch ":") (ch_ne_eos _) Ok1) as Ok2.
  apply try_leaf_tw. intros _.
  destruct (test_and_skip f1 (ch ":")) as [n2 f2]. cbn [fst snd] in *.
  rewrite Tv by exact Ok2. apply try_then_tw. reflexivity.
Qed.

Lemma parse_value_tw fuel :
  rule_tw (parse_object fuel) -> rule_tw (parse_array fuel) ->
  rule_tw (parse_value (S fuel)).
Proof.
  intros To Ta f Hok. rewrite !parse_value_S.
  rewrite cur_tw by exact Hok. pose proof (ok_cur f Hok) as Ok0.
  destruct (cur f) as [c h]. unfold twr at 1. cbn [fst snd] in *.
  rewrite !compare_tw by exact Ok0.
  cbn [fend fcur mem rt].
  rewrite (proj1 Ok0), (proj1 (proj2 Ok0)).
  assert (Hnum : (fcur h + 1 <? e) && is_digit (byte_at m2 (fcur h + 1))
                 = (fcur h + 1 <? e) && is_digit (byte_at m1 (fcur h + 1))).
  { destruct (Z.ltb_spec (fcur h + 1) e); [|reflexivity].
    destruct Ok0 as (_ & _ & Hb). unfold in_bounds in Hb.
    rewrite same_bytes by lia. reflexivity. }
  rewrite <- !andb_assoc, Hnum.
  destruct (c =? QUOTE).
  { rewrite parse_string_tw by exact Ok0. apply try_leaf_tw. reflexivity. }
  destruct (c =? ch "{").
  { rewrite To by exact Ok0. apply try_then_tw. reflexivity. }
  destruct (c =? ch "[").
  { rewrite Ta by exact Ok0. apply try_then_tw. reflexivity. }
  destruct ((c =? ch "n") && compare h "null" 4).
  { rewrite parse_literal_rt. apply try_leaf_tw. reflexivity. }
  destruct ((c =? ch "t") && compare h "true" 4).
  { rewrite parse_literal_rt. apply try_leaf_tw. reflexivity. }
  destruct ((c =? ch "f") && compare h "false" 5).
  { rewrite parse_literal_rt. apply try_leaf_tw. reflexivity. }
  destruct (is_digit c || _); [|reflexivity].
  rewrite parse_number_tw by exact Ok0. apply try_leaf_tw. reflexivity.
Qed.

Lemma rules_tw fuel :
  rule_tw (parse_value fuel) /\ rule_tw (parse_array_loop fuel)
  /\ rule_tw (parse_array fuel) /\ rule_tw (parse_pair fuel)
  /\ rule_tw (parse_object_loop fuel) /\ rule_tw (parse_object fuel).
Proof.
  induction fuel as [|fuel (IHv & IHal & IHa & IHp & IHol & IHo)].
  { repeat apply conj; intros f Hok; reflexivity. }
  destruct (rules_post_all fuel) as (Pv & Pal & Pa & Pp & Pol & Po).
  repeat apply conj.
  - apply parse_value_tw; assumption.
  - rewrite parse_array_loop_body. apply loop_body_tw; assumption.
  - rewrite parse_array_container.
    apply container_tw; auto using ch_ne_eos.
  - apply parse_pair_tw; assumption.
  - rewrite parse_object_loop_body. apply loop_body_tw; assumption.
  - rewrite parse_object_container.
    apply container_tw; auto using ch_ne_eos.
Qed.

Lemma parse_json_frozen_tw arr arr_len :
  parse_json_frozen (Some m2) e arr arr_len
  = twr <$> parse_json_frozen (Some m1) e arr arr_len.
Proof.
  unfold parse_json_frozen.
  assert (Hd1 : bool_decide (Some m1 = @None (list ascii)) = false)
    by (apply bool_decide_eq_false; discriminate).
  assert (Hd2 : bool_decide (Some m2 = @None (list ascii)) = false)
    by (apply bool_decide_eq_false; discriminate).
  rewrite Hd1, Hd2. cbn [orb].
  rewrite (init_frozen_rt m1 m2 e e).
  destruct (Z.ltb_spec e 0); [reflexivity|].
  destruct (e =? 0); [reflexivity|].
  destruct (rules_tw (fuel_of e)) as (_ & _ & _ & _ & _ & To).
  destruct (rules_post_all (fuel_of e)) as (_ & _ & _ & _ & _ & Po).
  assert (Ok0 : ok (init_frozen (Some m1) e arr arr_len)).
  { split; [reflexivity|]. split; [reflexivity|].
    apply init_in_bounds. lia. }
  rewrite To by exact Ok0. apply try_then_tw. intros n1 f1 E1 Hn1.
  cbn [fcur rt]. rewrite capture_ptr_rt.
  apply (try_leaf_tw (capture_ptr f1 (fcur f1) JSON_TYPE_EOF)). intros _.
  destruct (capture_ptr f1 (fcur f1) JSON_TYPE_EOF) as [n2 f2].
  cbn [fst snd fcur num_tokens rt]. rewrite capture_len_rt.
  destruct (capture_len f2 _ _) as [n3 f3]. reflexivity.
Qed.

End reread.

(** ** The bytes that [parse_json] reads *)

(** X13: the result of [parse_json] is determined by the bytes of the
    input at the offsets from 0 to [s_len], the byte after the input
    included: on two memories that hold the same bytes there, the value
    returned and the token array are the same.  No byte beyond offset
    [s_len] is read. *)
Theorem reads_stop_after_the_input (m1 m2 : list ascii) (s_len : Z)
    (arr : option (list json_token)) (arr_len : Z) :
  (forall i, 0 <= i <= s_len -> byte_at m2 i = byte_at m1 i) ->
  parse_json (Some m2) s_len arr arr_len
  = parse_json (Some m1) s_len arr arr_len.
Proof.
  intros H. unfold parse_json.
  rewrite (parse_json_frozen_tw m1 m2 s_len H).
  destruct (parse_json_frozen (Some m1) s_len arr arr_len) as [[n g]|];
    reflexivity.
Qed.

Lemma reads_stop_after_the_input_witness :
  parse_json (Some (bytes "{'a':1} tail")) 7 None 0
  = parse_json (Some (bytes "{'a':1} more")) 7 None 0.
Proof.
  apply (reads_stop_after_the_input (bytes "{'a':1} more")
           (bytes "{'a':1} tail") 7 None 0).
  intros i Hi.
  assert (i = 0 \/ i = 1 \/ i = 2 \/ i = 3 \/ i = 4 \/ i = 5 \/ i = 6
          \/ i = 7) as Hc by lia.
  repeat (destruct Hc as [-> | Hc]; [reflexivity|]). subst i. reflexivity.
Defined.
(** ** A backslash as the last byte of the input *)

(** The letters that [get_escape_len] knows after a backslash. *)
Definition escape_letter (c : Z) : bool :=
  (c =? ch "u") || (c =? QUOTE) || (c =? ch "\") || (c =? ch "/")
  || (c =? ch "b") || (c =? ch "f") || (c =? ch "n") || (c =? ch "r")
  || (c =? ch "t").

(** With one byte left, the backslash itself, no escape is complete. *)
Lemma get_escape_len_short m s :
  get_escape_len m s 1
  = if escape_letter (byte_at m s) then JSON_STRING_INCOMPLETE
    else JSON_STRING_INVALID.
Proof.
  unfold get_escape_len, escape_letter.
  destruct (byte_at m s =? ch "u"); [reflexivity|]. cbn [orb Z.ltb Z.compare].
  destruct (_ || _); reflexivity.
Qed.

(** A byte of a string that is neither its end nor an escape. *)
Definition ordinary (a : ascii) : Prop :=
  32 <= ch a <= 127 /\ ch a <> QUOTE /\ ch a <> ch "\".

Lemma byte_at_middle (pre : list ascii) (a : ascii) (post : list ascii) :
  byte_at (pre ++ a :: post) (Z.of_nat (length pre)) = ch a.
Proof.
  unfold byte_at. rewrite Nat2Z.id, list_lookup_middle by reflexivity.
  reflexivity.
Qed.

Lemma parse_string_loop_to_backslash (body : list ascii) :
  forall (k : nat) (c : Z) (f : frozen) (pre : list ascii) (x : ascii)
         (rest : list ascii),
    mem f = pre ++ body ++ "\"%char :: x :: rest ->
    fcur f = Z.of_nat (length pre) ->
    fend f = Z.of_nat (length pre) + Z.of_nat (length body) + 1 ->
    (length body < k)%nat -> Forall ordinary body ->
    parse_string_loop k c f
    = (if escape_letter (ch x) then JSON_STRING_INCOMPLETE
       else JSON_STRING_INVALID, set_cur f (fend f - 1)).
Proof.
  induction body as [|a body IH]; intros k c f pre x rest Hm Hc He Hk Hb;
    (destruct k as [|k]; [simpl in Hk; lia|]);
    cbn [parse_string_loop]; simpl length in *.
  - destruct (Z.ltb_spec (fcur f) (fend f)); [|lia].
    simpl app in Hm. rewrite Hm, Hc, byte_at_middle.
    change (negb ((ch "\" >=? 32) && (ch "\" <=? 127))) with false.
    cbv iota. rewrite Z.eqb_refl.
    assert (Hleft : left f = 1).
    { unfold left. replace (fend f - fcur f) with 1 by lia. reflexivity. }
    rewrite Hleft, <- Hm, get_escape_len_short.
    assert (Hx : byte_at (mem f) (Z.of_nat (length pre) + 1) = ch x).
    { rewrite Hm.
      replace (pre ++ "\"%char :: x :: rest)
        with ((pre ++ ["\"%char]) ++ x :: rest)
        by (rewrite <- app_assoc; reflexivity).
      replace (Z.of_nat (length pre) + 1)
        with (Z.of_nat (length (pre ++ ["\"%char])))
        by (rewrite length_app; simpl; lia).
      apply byte_at_middle. }
    rewrite Hx. replace (fend f - 1) with (fcur f) by lia.
    rewrite set_cur_id. destruct (escape_letter (ch x)); reflexivity.
  - destruct (Z.ltb_spec (fcur f) (fend f)); [|lia].
    inversion Hb as [|? ? (Hr & Hq & Hbs) Hb']; subst.
    assert (Hbyte : byte_at (mem f) (fcur f) = ch a).
    { rewrite Hm, Hc. apply (byte_at_middle pre a). }
    cbv zeta. rewrite !Hbyte.
    destruct (Z.geb_spec (ch a) 32); [|lia].
    destruct (Z.leb_spec (ch a) 127); [|lia]. cbn [andb negb].
    destruct (Z.eqb_spec (ch a) (ch "\")); [contradiction|].
    destruct (Z.eqb_spec (ch a) QUOTE); [contradiction|].
    rewrite (IH k (ch a) _ (pre ++ [a]) x rest); auto.
    + cbn [mem set_cur]. rewrite Hm, <- app_assoc. reflexivity.
    + cbn [fcur set_cur]. rewrite length_app. simpl. lia.
    + cbn [fend set_cur]. rewrite length_app. simpl. lia.
    + lia.
Qed.

Lemma cur_here f :
  fcur f < fend f -> is_space (byte_at (mem f) (fcur f)) = false ->
  cur f = (byte_at (mem f) (fcur f), f).
Proof.
  intros H Hs. rewrite (cur_at f (fcur f)); [|lia|intros; lia|exact Hs].
  rewrite set_cur_id. reflexivity.
Qed.

Lemma test_and_skip_here f x :
  fcur f < fend f -> byte_at (mem f) (fcur f) = x -> is_space x = false ->
  test_and_skip f x = (0, set_cur f (fcur f + 1)).
Proof.
  intros H Hx Hs. unfold test_and_skip.
  rewrite cur_here by (rewrite ?Hx; assumption).
  rewrite Hx, Z.eqb_refl. reflexivity.
Qed.

(** X14: an object whose first key is a string that ends, at the last byte
    of the input, in a backslash.  The value returned then depends on the
    byte that follows the input: [get_escape_len] reads it before it looks
    at the length, so that the input is incomplete when that byte is one of
    the escape letters and invalid otherwise. *)
Theorem backslash_at_the_end_reads_on (body : list ascii) (x : ascii)
    (rest : list ascii) :
  Forall ordinary body ->
  parse_json (Some ("{"%char :: ascii_of_nat 34 :: body
                    ++ "\"%char :: x :: rest))
             (Z.of_nat (length body) + 3) None 0
  = Some (if escape_letter (ch x) then JSON_STRING_INCOMPLETE
          else JSON_STRING_INVALID, None).
Proof.
  intros Hb.
  set (m := "{"%char :: ascii_of_nat 34 :: body ++ "\"%char :: x :: rest).
  set (s_len := Z.of_nat (length body) + 3).
  assert (Hfuel : fuel_of s_len
                  = S (S (S (4 * Z.to_nat s_len + 1)%nat)))
    by (unfold fuel_of; lia).
  unfold parse_json, parse_json_frozen. rewrite Hfuel.
  destruct (Z.ltb_spec s_len 0); [lia|].
  destruct (Z.eqb_spec s_len 0); [lia|].
  cbn [bool_decide decide_rel orb].
  set (f0 := init_frozen (Some m) s_len None 0).
  assert (Hoff : forall p, recorder_off (set_cur f0 p))
    by (intros p; right; reflexivity).
  cbn [parse_object].
  rewrite (test_and_skip_here f0 (ch "{"));
    [|cbn; lia|reflexivity|reflexivity].
  cbn [try_then Z.ltb Z.compare].
  rewrite capture_ptr_off by apply Hoff.
  cbn [try_then Z.ltb Z.compare parse_object_loop].
  set (f1 := set_cur f0 (fcur f0 + 1)).
  rewrite (cur_here f1); [|cbn; lia|reflexivity].
  change (byte_at (mem f1) (fcur f1)) with QUOTE.
  cbn [negb Z.eqb QUOTE ch Pos.eqb parse_pair].
  unfold parse_key. rewrite (cur_here f1); [|cbn; lia|reflexivity].
  change (byte_at (mem f1) (fcur f1)) with QUOTE.
  change (is_alpha QUOTE) with false. cbv iota. rewrite Z.eqb_refl.
  unfold parse_string.
  rewrite (test_and_skip_here f1 QUOTE);
    [|cbn; lia|reflexivity|reflexivity].
  cbn [Z.ltb Z.compare].
  rewrite capture_ptr_off by apply Hoff.
  cbn [Z.ltb Z.compare].
  set (f2 := set_cur f1 (fcur f1 + 1)).
  rewrite (parse_string_loop_to_backslash body _ 0 f2
             ["{"%char; ascii_of_nat 34] x rest);
    [|reflexivity|reflexivity|cbn; lia|cbn; lia|exact Hb].
  destruct (escape_letter (ch x)); reflexivity.
Qed.

Lemma backslash_at_the_end_reads_on_witness :
  Forall ordinary ["a"%char; "b"%char]
  /\ parse_json (Some (bytes "{'ab\n")) 5 None 0
     = Some (JSON_STRING_INCOMPLETE, None)
  /\ parse_json (Some (bytes "{'ab\x")) 5 None 0
     = Some (JSON_STRING_INVALID, None).
Proof.
  assert (H : Forall ordinary ["a"%char; "b"%char]).
  { repeat apply List.Forall_cons; try apply List.Forall_nil;
      unfold ordinary; vm_compute; repeat split; discriminate. }
  split; [exact H|]. split.
  - exact (backslash_at_the_end_reads_on ["a"%char; "b"%char] "n"%char [] H).
  - exact (backslash_at_the_end_reads_on ["a"%char; "b"%char] "x"%char [] H).
Defined.

(** ** The tokens recorded are those of the grammar *)

(** X15: when [parse_json] succeeds with a token array, the grammar
    accepts the input up to the offset returned, the number of tokens
    recorded is the number that the grammar gives, marker included, every
    token before the marker is recorded as the grammar gives it, with its
    type, start, length and subtree size, and the last token is the
    marker, of type EOF at the offset returned. *)
Theorem tokens_follow_grammar (m : list ascii) (s_len : Z)
    (a : list json_token) (K r : Z) (g : frozen) :
  parse_json_frozen (Some m) s_len (Some a) K = Some (r, g) ->
  0 <= r -> s_len <= INT_MAX -> 0 < K <= Z.of_nat (length a) ->
  exists l,
    tokens_of_input m s_len = Some (l, r)
    /\ num_tokens g = Z.of_nat (length l)
    /\ (forall (i : nat) t, (S i < length l)%nat ->
          map snd l !! i = Some t -> tok_at g (Z.of_nat i) = Some t)
    /\ exists t, tok_at g (Z.of_nat (length l) - 1) = Some t
                 /\ ptr t = r /\ type t = JSON_TYPE_EOF.
Proof.
  intros H Hr Hmax Hcap.
  destruct (parse_json_follows_grammar _ _ _ _ _ _ H Hr Hmax Hcap)
    as (l & El & Hn & Hl & t & Ht & Hp & Hty).
  exists (l ++ leaf 0 JSON_TYPE_EOF r r).
  unfold tokens_of_input. rewrite El.
  split; [reflexivity|]. rewrite length_app. simpl.
  split; [lia|]. split.
  - intros i t' Hi Hi'. apply Hl. rewrite map_app in Hi'.
    rewrite lookup_app_l in Hi' by (rewrite length_map; lia). exact Hi'.
  - exists t. replace (Z.of_nat (length l + 1) - 1) with (Z.of_nat (length l))
      by lia. auto.
Qed.

Lemma tokens_follow_grammar_witness :
  exists l,
    tokens_of_input (bytes "{'a':[1,{b:null}],c:true}") 25 = Some (l, 25)
    /\ num_tokens
         (snd (default (0, init_frozen None 0 None 0)
                 (parse_json_frozen (Some (bytes "{'a':[1,{b:null}],c:true}"))
                    25 (Some (blank 12)) 12)))
       = Z.of_nat (length l)
    /\ (forall (i : nat) t, (S i < length l)%nat ->
          map snd l !! i = Some t ->
          tok_at
            (snd (default (0, init_frozen None 0 None 0)
                    (parse_json_frozen
                       (Some (bytes "{'a':[1,{b:null}],c:true}"))
                       25 (Some (blank 12)) 12)))
            (Z.of_nat i) = Some t)
    /\ exists t,
         tok_at
           (snd (default (0, init_frozen None 0 None 0)
                   (parse_json_frozen
                      (Some (bytes "{'a':[1,{b:null}],c:true}"))
                      25 (Some (blank 12)) 12)))
           (Z.of_nat (length l) - 1) = Some t
         /\ ptr t = 25 /\ type t = JSON_TYPE_EOF.
Proof.
  assert (E : parse_json_frozen (Some (bytes "{'a':[1,{b:null}],c:true}")) 25
                (Some (blank 12)) 12
              = Some (25, snd (default (0, init_frozen None 0 None 0)
                    (parse_json_frozen
                       (Some (bytes "{'a':[1,{b:null}],c:true}")) 25
                       (Some (blank 12)) 12))))
    by (vm_compute; reflexivity).
  assert (H0 : 0 <= 25) by lia.
  assert (Hm : 25 <= INT_MAX) by (vm_compute; discriminate).
  assert (HK : 0 < 12 <= Z.of_nat (length (blank 12)))
    by (vm_compute; split; [reflexivity|discriminate]).
  exact (tokens_follow_grammar _ _ _ _ _ _ E H0 Hm HK).
Defined.

(** ** Subtree sizes and nesting levels *)

(** X16: when [parse_json] succeeds with a token array, take the tokens
    of the grammar with their nesting levels.  Every token before the
    marker is recorded with a subtree size that is the number of the
    tokens after it and before the next token at its own level or at a
    shallower one, and that is zero when it is not an object or an
    array. *)
Theorem subtree_size_by_level (m : list ascii) (s_len : Z)
    (a : list json_token) (K r : Z) (g : frozen) :
  parse_json_frozen (Some m) s_len (Some a) K = Some (r, g) ->
  0 <= r -> s_len <= INT_MAX -> 0 < K <= Z.of_nat (length a) ->
  exists l,
    tokens_of_input m s_len = Some (l, r)
    /\ forall (i : nat) x, (S i < length l)%nat -> l !! i = Some x ->
         tok_at g (Z.of_nat i) = Some (snd x)
         /\ num_children (snd x)
            = Z.of_nat (run_length (deeper x) (drop (S i) l))
         /\ (composite (type (snd x)) = false -> num_children (snd x) = 0).
Proof.
  intros H Hr Hmax Hcap.
  destruct (parse_json_follows_grammar _ _ _ _ _ _ H Hr Hmax Hcap)
    as (l & El & Hn & Hl & _).
  assert (Ei : tokens_of_input m s_len
               = Some (l ++ leaf 0 JSON_TYPE_EOF r r, r))
    by (unfold tokens_of_input; rewrite El; reflexivity).
  exists (l ++ leaf 0 JSON_TYPE_EOF r r). split; [exact Ei|].
  destruct (tokens_of_input_nested _ _ _ _ Ei) as (_ & _ & Hc & Hz).
  intros i x Hi Hx. split; [|split].
  - apply Hl. rewrite length_app in Hi. simpl in Hi. unfold levelled in *.
    rewrite lookup_app_l in Hx by lia.
    rewrite list_lookup_fmap, Hx. reflexivity.
  - apply Hc, Hx.
  - apply (Forall_lookup_1 _ _ _ _ Hz Hx).
Qed.

Lemma subtree_size_by_level_witness :
  exists l,
    tokens_of_input (bytes "{'a':[1,{b:null}],c:true}") 25 = Some (l, 25)
    /\ forall (i : nat) x, (S i < length l)%nat -> l !! i = Some x ->
         tok_at
           (snd (default (0, init_frozen None 0 None 0)
                   (parse_json_frozen
                      (Some (bytes "{'a':[1,{b:null}],c:true}"))
                      25 (Some (blank 12)) 12)))
           (Z.of_nat i) = Some (snd x)
         /\ num_children (snd x)
            = Z.of_nat (run_length (deeper x) (drop (S i) l))
         /\ (composite (type (snd x)) = false -> num_children (snd x) = 0).
Proof.
  assert (E : parse_json_frozen (Some (bytes "{'a':[1,{b:null}],c:true}")) 25
                (Some (blank 12)) 12
              = Some (25, snd (default (0, init_frozen None 0 None 0)
                    (parse_json_frozen
                       (Some (bytes "{'a':[1,{b:null}],c:true}")) 25
                       (Some (blank 12)) 12))))
    by (vm_compute; reflexivity).
  assert (H0 : 0 <= 25) by lia.
  assert (Hm : 25 <= INT_MAX) by (vm_compute; discriminate).
  assert (HK : 0 < 12 <= Z.of_nat (length (blank 12)))
    by (vm_compute; split; [reflexivity|discriminate]).
  exact (subtree_size_by_level _ _ _ _ _ _ E H0 Hm HK).
Defined.

Example grammar_sample :
  tokens_of_input (bytes "{'a':[1,{b:null}],c:true}") 25
  = Some ([ (0%nat, Token 0 25 8 JSON_TYPE_OBJECT);
            (1%nat, Token 2 1 0 JSON_TYPE_STRING);
            (1%nat, Token 5 12 4 JSON_TYPE_ARRAY);
            (2%nat, Token 6 1 0 JSON_TYPE_NUMBER);
            (2%nat, Token 8 8 2 JSON_TYPE_OBJECT);
            (3%nat, Token 9 1 0 JSON_TYPE_STRING);
            (3%nat, Token 11 4 0 JSON_TYPE_NULL);
            (1%nat, Token 18 1 0 JSON_TYPE_STRING);
            (1%nat, Token 20 4 0 JSON_TYPE_TRUE);
            (0%nat, Token 25 0 0 JSON_TYPE_EOF) ], 25).
Proof. vm_compute. reflexivity. Qed.

(** ** Tokens and bytes consumed *)

(** X17: every token takes at least one byte of the input.  When
    [parse_json] succeeds it has recorded at most one token for each byte
    consumed, and the marker; and with a token array of more slots than
    the input has bytes it never returns TooManyTokens. *)
Theorem tokens_take_bytes (s : option (list ascii)) (s_len : Z)
    (a : list json_token) (K n : Z) (g : frozen) :
  parse_json_frozen s s_len (Some a) K = Some (n, g) ->
  s_len <= INT_MAX ->
  (0 <= n -> num_tokens g <= n + 1)
  /\ (s_len < K -> n <> JSON_TOKEN_ARRAY_TOO_SMALL).
Proof.
  intros H Hmax. split; [|intros HK; eapply roomy_run; eassumption].
  intros Hn. unfold parse_json_frozen in H.
  destruct (bool_decide (s = None)); cbn [orb] in H;
    [injection H as <- _; unfold JSON_STRING_INVALID in Hn; lia|].
  destruct (Z.ltb_spec s_len 0);
    [injection H as <- _; unfold JSON_STRING_INVALID in Hn; lia|].
  destruct (s_len =? 0);
    [injection H as <- _; unfold JSON_STRING_INCOMPLETE in Hn; lia|].
  pose proof (init_in_bounds s s_len (Some a) K ltac:(lia)) as B0.
  destruct (rules_post_all (fuel_of s_len)) as (_ & _ & _ & _ & _ & Po).
  destruct (rules_pace (fuel_of s_len)) as (_ & _ & _ & _ & _ & Pc).
  try_step H n1 f1 E1 Hn1; [lia|].
  try_step H n2 f2 E2 Hn2; [lia|].
  destruct (capture_len f2 (num_tokens f2) (fcur f2)) as [n3 f3] eqn:E3.
  injection H as H <-.
  destruct (Po _ _ _ E1) as ([Ee _ _ _ _ _ _] & B1 & _).
  specialize (B1 B0). specialize (Pc _ _ _ E1).
  destruct (capture_ptr_count _ _ _ _ _ E2) as (C2 & N2 & _).
  destruct (capture_len_count _ _ _ _ _ E3) as (C3 & N3).
  rewrite C3, C2 in H.
  rewrite to_int_small in H
    by (unfold INT_MAX, in_bounds in *; simpl in *; lia).
  unfold paced in Pc. simpl in Pc. lia.
Qed.

Lemma tokens_take_bytes_witness :
  num_tokens
    (snd (default (0, init_frozen None 0 None 0)
            (parse_json_frozen (Some (bytes "{a:[1,{}]}")) 10
               (Some (blank 11)) 11)))
  <= 10 + 1
  /\ 10 <> JSON_TOKEN_ARRAY_TOO_SMALL.
Proof.
  assert (E : parse_json_frozen (Some (bytes "{a:[1,{}]}")) 10
                (Some (blank 11)) 11
              = Some (10, snd (default (0, init_frozen None 0 None 0)
                    (parse_json_frozen (Some (bytes "{a:[1,{}]}")) 10
                       (Some (blank 11)) 11))))
    by (vm_compute; reflexivity).
  assert (Hm : 10 <= INT_MAX) by (vm_compute; discriminate).
  destruct (tokens_take_bytes _ _ _ _ _ _ E Hm) as (H1 & H2).
  split; [apply H1; lia|apply H2; lia].
Defined.
